(** * Resumable chunked upload engine: shallow embedding and verification

    The development embeds the two upload hooks of the repository:

    - [Local]: [src/components/local-file-upload/use-file-upload.ts]
      ([useUpload], the local-storage hook);
    - [S3]: the [useS3Upload] hook with abort controllers and the
      [executingChunks] registry.

    JavaScript numbers that hold byte offsets, sizes, counters and
    millisecond time stamps are integers below 2^53 and are modelled as [Z]
    (or [nat] for array indices).  Speeds are quotients and are modelled as
    exact rationals [Q].  Asynchronous code is modelled as explicit state
    machines: every activation of an [async] function carries a program
    counter naming the [await] it is suspended at, and a step of the machine
    runs one synchronous segment.  Where an awaited function of the hook
    ends, its last segment and the continuation of the function awaiting
    it, which runs one microtask later, are taken together as one step; for
    [checkUploadStatus] and [initializeUpload], whose last segment writes
    flags of the hook, the state in between is given apart ([check_settled]
    and [initialize_settled] for the S3 hook, the program counter
    [CheckReturned] for the local one). *)

From Stdlib Require Import ZArith QArith List Lia DecimalString.
From Stdlib Require DecimalNat.
From stdpp Require Import gmap list strings.

#[local] Open Scope Z_scope.

(** ** JavaScript helpers *)

(** [Math.ceil(a / b)] on integers.  For 0 <= a < 2^53 and 0 < b < 2^53 the
    double quotient of a non-multiple is never rounded down to an integer,
    so the floating point result is the exact ceiling.  For [b = 0] the
    JavaScript quotient is [Infinity] (or [NaN]) and a loop bounded by it
    does not end; the definition gives 0 there, so that the runs of the
    model with a chunk size of 0 have no counterpart in the code. *)
Definition Math_ceil_div (a b : Z) : Z := - ((- a) / b).

(** [Math.round((a / b) * 100)]: round half up of the percentage, computed
    exactly.  The code computes the quotient and the product in doubles,
    which can fall just below a half where the exact percentage is a half
    (for 29 of 200 it gives 14, the definition 15); the two agree on the
    range, 0 to 100 for [0 <= a <= b], on [a = 0] and [a = b], and wherever
    the exact percentage is not within a rounding error of a half, which is
    all the statements below read. *)
Definition Math_round_percent (a b : Z) : Z := (200 * a + b) / (2 * b).

(** [i.toString()] and [`${i}`] for a non-negative integer. *)
Definition toString (i : nat) : string := NilZero.string_of_uint (Nat.to_uint i).

(** [`${z}`] for an integer. *)
Definition Z_toString (z : Z) : string := NilZero.string_of_int (Z.to_int z).

(** [haystack.includes(needle)] on strings. *)
Definition String_includes (needle haystack : string) : bool :=
  match String.index 0 needle haystack with Some _ => true | None => false end.

(** [array.includes(x)] on an array of strings. *)
Definition Array_includes (xs : list string) (x : string) : bool :=
  existsb (String.eqb x) xs.

(** [x || null] for an optional string: [undefined] and the empty string are
    falsy. *)
Definition or_null (x : option string) : option string :=
  match x with
  | Some s => if String.eqb s "" then None else Some s
  | None => None
  end.

Definition Zsum (l : list Z) : Z := fold_right Z.add 0 l.

(** A [File]: the engine reads its name and size; its content is only ever
    passed to SparkMD5, so it is represented by [md5_of from to], the digest
    of the bytes in the half-open range from [from] to [to]. *)
Record File := { name : string; size : Z; md5_of : Z -> Z -> string }.

(** A [Blob] obtained by [file.slice(from, to)] is identified by the byte
    range it denotes; [slice] clamps both ends to the file. *)
Record Blob := { blob_from : Z; blob_to : Z }.

Definition slice (f : File) (from to : Z) : Blob :=
  let clamp x := Z.max 0 (Z.min x (size f)) in
  {| blob_from := clamp from; blob_to := Z.max (clamp from) (clamp to) |}.

(** ** The local hook: use-file-upload.ts *)

Module Local.

Record ChunkInfo := {
  index : nat;
  start : Z;
  end_ : Z;
  blob : Blob;
  hash : string;
  uploaded : bool;
  progress : Z;
  retryCount : nat;
  uploadStartTime : option Z;
  uploadEndTime : option Z
}.

(** [`${fileHashValue}_chunk_${i}`] *)
Definition chunkHashOf (fileHashValue : string) (i : nat) : string :=
  (fileHashValue ++ "_chunk_" ++ toString i)%string.

(** [createChunks(file, fileHashValue)] with the hook option [chunkSize]. *)
Definition createChunks (chunkSize : Z) (file : File) (fileHashValue : string)
  : list ChunkInfo :=
  let totalChunks := Math_ceil_div (size file) chunkSize in
  map (fun i : nat =>
         let start := Z.of_nat i * chunkSize in
         let end_ := Z.min (start + chunkSize) (size file) in
         {| index := i; start := start; end_ := end_;
            blob := slice file start end_;
            hash := chunkHashOf fileHashValue i;
            uploaded := false; progress := 0; retryCount := 0;
            uploadStartTime := None; uploadEndTime := None |})
      (seq 0 (Z.to_nat totalChunks)).

(** [createChunksAndMarkUploaded(file, fileHashValue, uploadedChunkHashes)]:
    the list that is stored into [chunks.value]. *)
Definition createChunksAndMarkUploaded (chunkSize : Z) (file : File)
    (fileHashValue : string) (uploadedChunkHashes : list string)
  : list ChunkInfo :=
  let totalChunks := Math_ceil_div (size file) chunkSize in
  map (fun i : nat =>
         let start := Z.of_nat i * chunkSize in
         let end_ := Z.min (start + chunkSize) (size file) in
         let chunkHash := chunkHashOf fileHashValue i in
         let isUploaded := Array_includes uploadedChunkHashes chunkHash in
         {| index := i; start := start; end_ := end_;
            blob := slice file start end_;
            hash := chunkHash;
            uploaded := isUploaded;
            progress := if isUploaded then 100 else 0;
            retryCount := 0;
            uploadStartTime := None; uploadEndTime := None |})
      (seq 0 (Z.to_nat totalChunks)).

(** *** uploadChunk

    One activation of [uploadChunk(chunk)]: the chunk object, the
    [AbortController] the function creates, the timer armed with
    [setTimeout(() => controller.abort(), 30_000)], the [timeout] property
    of the request (never assigned, so 0: no request timeout), and the
    promise the function returns.  The controller's signal is passed to
    nothing. *)

Inductive PromiseSt :=
| Pending
| Resolved (v : bool)
| Rejected (message : string).

Record Transporter := {
  t_chunk : ChunkInfo;
  controller_aborted : bool;
  timer : option Z;
  xhr_timeout : Z;
  promise : PromiseSt
}.

Definition timerDelayMs : Z := 30000.

Definition set_progress (v : Z) (c : ChunkInfo) : ChunkInfo :=
  {| index := index c; start := start c; end_ := end_ c; blob := blob c;
     hash := hash c; uploaded := uploaded c; progress := v;
     retryCount := retryCount c; uploadStartTime := uploadStartTime c;
     uploadEndTime := uploadEndTime c |}.

(** The synchronous part of [uploadChunk(chunk)] at time [now]. *)
Definition uploadChunk (now : Z) (c : ChunkInfo) : Transporter :=
  {| t_chunk := {| index := index c; start := start c; end_ := end_ c;
                   blob := blob c; hash := hash c; uploaded := uploaded c;
                   progress := 1; retryCount := retryCount c;
                   uploadStartTime := Some now;
                   uploadEndTime := uploadEndTime c |};
     controller_aborted := false;
     timer := Some (now + timerDelayMs);
     xhr_timeout := 0;
     promise := Pending |}.

(** What can happen to a request: the timer callback, and the events the
    function listens to. *)
Inductive XhrEvent :=
| TimerFired
| Progress (ev_loaded ev_total : Z)
| Load (status : Z) (statusText : string) (ok : option (bool * option string))
| NetworkError
| RequestTimeout.

Definition settle (p : PromiseSt) (t : Transporter) : Transporter :=
  {| t_chunk := t_chunk t; controller_aborted := controller_aborted t;
     timer := None; xhr_timeout := xhr_timeout t;
     promise := match promise t with Pending => p | q => q end |}.

(** The reaction to an event at time [now]; [None] when the event cannot
    happen.  The request raises [timeout] only after a positive
    [xhr.timeout] has elapsed. *)
Definition on_event (now : Z) (ev : XhrEvent) (t : Transporter)
  : option Transporter :=
  match ev, promise t with
  | TimerFired, _ =>
      match timer t with
      | Some deadline =>
          if deadline <=? now
          then Some {| t_chunk := t_chunk t; controller_aborted := true;
                       timer := None; xhr_timeout := xhr_timeout t;
                       promise := promise t |}
          else None
      | None => None
      end
  | Progress l tot, Pending =>
      if (0 <=? l) && (l <=? tot) && (0 <? tot)
      then Some {| t_chunk := set_progress (Math_round_percent l tot) (t_chunk t);
                   controller_aborted := controller_aborted t;
                   timer := timer t; xhr_timeout := xhr_timeout t;
                   promise := promise t |}
      else None
  | Load status statusText body, Pending =>
      if (200 <=? status) && (status <? 300)
      then match body with
           | Some (true, _) =>
               Some (settle (Resolved true)
                       {| t_chunk :=
                            {| index := index (t_chunk t);
                               start := start (t_chunk t);
                               end_ := end_ (t_chunk t);
                               blob := blob (t_chunk t);
                               hash := hash (t_chunk t);
                               uploaded := true; progress := 100;
                               retryCount := retryCount (t_chunk t);
                               uploadStartTime := uploadStartTime (t_chunk t);
                               uploadEndTime := Some now |};
                          controller_aborted := controller_aborted t;
                          timer := timer t; xhr_timeout := xhr_timeout t;
                          promise := promise t |})
           | Some (false, m) =>
               Some (settle (Rejected (match or_null m with
                                       | Some s => s
                                       | None => "分片上传失败"
                                       end)) t)
           | None => Some (settle (Rejected "响应解析失败") t)
           end
      else Some (settle (Rejected ("HTTP " ++ Z_toString status ++ ": "
                                     ++ statusText)) t)
  | NetworkError, Pending => Some (settle (Rejected "网络错误") t)
  | RequestTimeout, Pending =>
      match uploadStartTime (t_chunk t) with
      | Some t0 =>
          if (0 <? xhr_timeout t) && (t0 + xhr_timeout t <=? now)
          then Some {| t_chunk := t_chunk t;
                       controller_aborted := controller_aborted t;
                       timer := timer t; xhr_timeout := xhr_timeout t;
                       promise := Rejected "上传超时" |}
          else None
      | None => None
      end
  | _, _ => None
  end.

(** The request is still on the wire. *)
Definition in_flight (t : Transporter) : bool :=
  match promise t with Pending => true | _ => false end.

End Local.

(** ** The S3 hook: useS3Upload *)

Module S3.

Record S3ChunkInfo := {
  index : nat;
  partNumber : nat;
  start : Z;
  end_ : Z;
  blob : Blob;
  uploaded : bool;
  progress : Z;
  retryCount : nat;
  etag : option string;
  uploadStartTime : option Z;
  uploadEndTime : option Z;
  chunkHash : option string;
  (** the [AbortController] object stored in the chunk, by identity *)
  abortController : option nat
}.

Record S3UploadOptions := {
  chunkSize : Z;
  concurrent : Z;
  retryTimes : Z
}.

Definition defaultOptions : S3UploadOptions :=
  {| chunkSize := 5 * 1024 * 1024; concurrent := 3; retryTimes := 3 |}.

(** [S3UploadSession]; the optional [parts] array is never read. *)
Record S3UploadSession := {
  sessionId : string;
  uploadId : string;
  objectName : string;
  fileName : string;
  fileSize : Z;
  totalChunks : Z;
  uploadedParts : option Z;
  session_progress : option Z
}.

Record S3UploadProgress := { loaded : Z; total : Z; percentage : Z }.

Record S3SpeedInfo := { current : Q; average : Q; peak : Q; lastUpdate : Z }.

Record S3NetworkStats := {
  uploadedBytes : Z;
  totalBytes : Z;
  startTime : Z;
  lastMeasureTime : Z;
  lastMeasureBytes : Z;
  speedHistory : list Q
}.

Record S3CheckUploadResponse := {
  success : bool;
  fileExists : bool;
  isComplete : bool;
  message : string;
  url : option string;
  session : option S3UploadSession
}.

Record ResumeInfo := {
  ri_progress : Z;
  ri_totalChunks : Z;
  ri_uploadedCount : Z
}.

(** [x || 0] for an optional number. *)
Definition or_zero (x : option Z) : Z :=
  match x with Some v => v | None => 0 end.

(** [calculateChunkHash(blob)]: the SparkMD5 digest of the blob. *)
Definition calculateChunkHash (f : File) (b : Blob) : string :=
  md5_of f (blob_from b) (blob_to b).

(** *** Speed tracker *)

Definition resetSpeedInfo : S3SpeedInfo :=
  {| current := 0; average := 0; peak := 0; lastUpdate := 0 |}.

Definition resetStats : S3NetworkStats :=
  {| uploadedBytes := 0; totalBytes := 0; startTime := 0;
     lastMeasureTime := 0; lastMeasureBytes := 0; speedHistory := [] |}.

(** [speedHistory.push(v); if (speedHistory.length > 10) speedHistory.shift()] *)
Definition push_history (h : list Q) (v : Q) : list Q :=
  let h' := h ++ [v] in
  if (10 <? length h')%nat then tl h' else h'.

(** The instantaneous sample computed by [updateNetworkStats] when it takes
    one: [bytesDiff / (timeDiff / 1000)]. *)
Definition currentSpeedOf (ns : S3NetworkStats) (now bytes : Z) : Q :=
  (inject_Z (bytes - lastMeasureBytes ns)
     / (inject_Z (now - lastMeasureTime ns) / 1000))%Q.

(** [updateNetworkStats(uploadedBytes)] with [now = Date.now()]. *)
Definition updateNetworkStats (now bytes : Z)
    (st : S3SpeedInfo * S3NetworkStats) : S3SpeedInfo * S3NetworkStats :=
  let '(si, ns) := st in
  if startTime ns =? 0 then
    (si, {| uploadedBytes := uploadedBytes ns; totalBytes := totalBytes ns;
            startTime := now; lastMeasureTime := now;
            lastMeasureBytes := bytes; speedHistory := speedHistory ns |})
  else
    let timeDiff := now - lastMeasureTime ns in
    if 1000 <=? timeDiff then
      let currentSpeed := currentSpeedOf ns now bytes in
      let totalTime := (inject_Z (now - startTime ns) / 1000)%Q in
      ({| current := currentSpeed;
          average := if negb (Qle_bool totalTime 0)
                     then (inject_Z bytes / totalTime)%Q else 0%Q;
          peak := if negb (Qle_bool currentSpeed (peak si))
                  then currentSpeed else peak si;
          lastUpdate := now |},
       {| uploadedBytes := uploadedBytes ns; totalBytes := totalBytes ns;
          startTime := startTime ns; lastMeasureTime := now;
          lastMeasureBytes := bytes;
          speedHistory := push_history (speedHistory ns) currentSpeed |})
    else st.

(** Whether a call takes a sample, and which one. *)
Definition sampleOf (ns : S3NetworkStats) (now bytes : Z) : option Q :=
  if startTime ns =? 0 then None
  else if 1000 <=? now - lastMeasureTime ns
       then Some (currentSpeedOf ns now bytes) else None.

(** Feeding a sequence of calls [(now, uploadedBytes)]; the second component
    lists, oldest first, the samples that were taken. *)
Fixpoint feed (calls : list (Z * Z)) (st : S3SpeedInfo * S3NetworkStats)
  : (S3SpeedInfo * S3NetworkStats) * list Q :=
  match calls with
  | [] => (st, [])
  | (now, bytes) :: rest =>
      let '(st', samples) := feed rest (updateNetworkStats now bytes st) in
      (st', match sampleOf (snd st) now bytes with
            | Some v => v :: samples
            | None => samples
            end)
  end.

(** *** Chunk planning *)

Definition planChunk (opts : S3UploadOptions) (file : File) (isUploaded : bool)
    (i : nat) : S3ChunkInfo :=
  let start := Z.of_nat i * chunkSize opts in
  let end_ := Z.min (start + chunkSize opts) (size file) in
  let blob := slice file start end_ in
  {| index := i; partNumber := i + 1; start := start; end_ := end_;
     blob := blob; uploaded := isUploaded;
     progress := if isUploaded then 100 else 0; retryCount := 0;
     etag := None; uploadStartTime := None; uploadEndTime := None;
     chunkHash := Some (calculateChunkHash file blob);
     abortController := None |}.

(** [createChunks(file)]: the array the promise resolves with. *)
Definition createChunks (opts : S3UploadOptions) (file : File)
  : list S3ChunkInfo :=
  let totalChunks := Math_ceil_div (size file) (chunkSize opts) in
  map (planChunk opts file false) (seq 0 (Z.to_nat totalChunks)).

(** [createChunksAndMarkUploaded(file, session)]: the array stored into
    [chunks.value]; chunk [i] is marked when [uploadedPartsCount > i]. *)
Definition createChunksAndMarkUploaded (opts : S3UploadOptions) (file : File)
    (session : S3UploadSession) : list S3ChunkInfo :=
  let totalChunks := Math_ceil_div (size file) (chunkSize opts) in
  map (fun i : nat =>
         let uploadedPartsCount := or_zero (uploadedParts session) in
         let isUploaded := Z.of_nat i <? uploadedPartsCount in
         planChunk opts file isUploaded i)
      (seq 0 (Z.to_nat totalChunks)).

(** *** Errors

    Every [Error] the hook creates, with its message.  [uploadSingleChunk]
    inspects the message of the error it catches. *)

Inductive UploadError :=
| ErrNoFile
| ErrNoHash
| ErrFetch (status : Z) (statusText : string)
| ErrServer (msg : string)
| ErrNoSessionOrHash
| ErrTimeout
| ErrCancelled
| ErrAborted
| ErrNetwork
| ErrParse
| ErrRetry (partNumber : nat) (retryTimes : Z)
| ErrNoSession
| ErrPaused
| ErrNothingToResume
| ErrRead.

Definition error_message (e : UploadError) : string :=
  match e with
  | ErrNoFile => "请先选择文件"
  | ErrNoHash => "请先计算文件哈希值"
  | ErrFetch status statusText =>
      "HTTP " ++ Z_toString status ++ ": " ++ statusText
  | ErrServer msg => msg
  | ErrNoSessionOrHash => "上传会话或分片哈希不存在"
  | ErrTimeout => "上传超时"
  | ErrCancelled => "上传已取消"
  | ErrAborted => "请求已中止"
  | ErrNetwork => "网络错误"
  | ErrParse => "响应解析失败"
  | ErrRetry pn rt =>
      "S3分片 " ++ toString pn ++ " 上传失败，已重试 " ++ Z_toString rt ++ " 次"
  | ErrNoSession => "上传会话不存在"
  | ErrPaused => "上传已暂停，无法完成"
  | ErrNothingToResume => "没有可恢复的S3上传任务"
  | ErrRead => "分片读取失败"
  end%string.

(** [error.message.includes('已取消')] *)
Definition mentions_cancel (e : UploadError) : bool :=
  String_includes "已取消" (error_message e).

(** [result.message || fallback] *)
Definition message_or (m : option string) (fallback : string) : string :=
  match or_null m with Some s => s | None => fallback end.

(** *** Reactive state of the hook

    [chunks.value] is an array of chunk objects.  The objects live in the
    engine's [heap] and the array holds their addresses, because closures of
    running uploads keep a reference to the object they were started with
    even after [chunks.value] is replaced.  The hashing state
    ([isCalculatingHash], [hashProgress]) is left out: the file fingerprint
    is taken as computed. *)

Record Hook := {
  isUploading : bool;
  isPaused : bool;
  isCompleted : bool;
  isCheckingUpload : bool;
  isInitializing : bool;
  isSecondTransfer : bool;
  currentFile : option File;
  fileHash : string;
  chunks : list nat;
  uploadSession : option S3UploadSession;
  uploadProgress : S3UploadProgress;
  speedInfo : S3SpeedInfo;
  networkStats : S3NetworkStats;
  resumeInfo : option ResumeInfo;
  executingChunks : gset nat
}.

(** *** Activations of the asynchronous functions *)

(** The promise built by [uploadChunk]: the request is outstanding (with the
    deadline of its pending timeout, if the timer is still armed), or the
    promise is settled and its reaction has not run yet. *)
Inductive XhrSt :=
| XInFlight (timer : option Z)
| XResolved (v : bool)
| XRejected (e : UploadError).

(** Where an activation of [uploadSingleChunk] is suspended.  [WUpload] is
    [success = await uploadChunk(chunk)], with the controller that call
    created; [WDelay] is the retry delay, with the time it elapses at. *)
Inductive WorkerPc :=
| WUpload (ctrl : option nat) (x : XhrSt)
| WDelay (until : Z)
| WReturned
| WThrown (e : UploadError).

Inductive Settled :=
| Pending
| Fulfilled
| Rejected (e : UploadError).

(** One iteration of the scheduling loop: [w_promise] is the state of
    [promise], that is [uploadSingleChunk(chunk).then(..).catch(..)]. *)
Record Worker := {
  w_chunk : nat;
  w_attempts : Z;
  w_pc : WorkerPc;
  w_promise : Settled
}.

(** Where an activation of [uploadChunksConcurrently] is suspended;
    [Promise.race] and [Promise.allSettled] read the array when called. *)
Inductive PassPc :=
| AwaitRace (snapshot : list nat)
| AwaitAllSettled (snapshot : list nat)
| PassReturned
| PassThrown (e : UploadError).

(** An activation of [uploadChunksConcurrently]: the chunks the [for] loop
    has not reached yet, the [executing] array (promises are named by the
    position of their worker in [p_workers]), and the workers it started. *)
Record Pass := {
  p_todo : list nat;
  p_executing : list nat;
  p_workers : list Worker;
  p_pc : PassPc
}.

Inductive CallerKind := FromStart | FromResume.

Inductive CallerPc :=
| AwaitCheck
| AwaitInitialize
| AwaitCreateChunks
| AwaitPass (p : nat)
| AwaitComplete
| Returned (r : option string)
| Thrown (e : UploadError).

(** An activation of [startUpload] or of [resumeUpload]. *)
Record Caller := { c_kind : CallerKind; c_pc : CallerPc }.

(** An activation of [createChunksAndMarkUploaded], which
    [checkUploadStatus] starts and does not await. *)
Record Job := { j_file : File; j_session : S3UploadSession; j_done : bool }.

Inductive BackendCall :=
| CallCheck
| CallInitialize
| CallChunk (chunkIndex : nat)
| CallComplete.

Record Engine := {
  hook : Hook;
  heap : list S3ChunkInfo;
  passes : list Pass;
  callers : list Caller;
  jobs : list Job;
  (** the controllers whose signal is aborted *)
  aborted : gset nat;
  nextController : nat;
  (** [Date.now()] *)
  clock : Z;
  (** the requests sent to the backend, oldest first *)
  calls : list BackendCall
}.

(** Field updates. *)

Definition set_uploaded (v : bool) (c : S3ChunkInfo) : S3ChunkInfo :=
  {| index := index c; partNumber := partNumber c; start := start c;
     end_ := end_ c; blob := blob c; uploaded := v; progress := progress c;
     retryCount := retryCount c; etag := etag c;
     uploadStartTime := uploadStartTime c; uploadEndTime := uploadEndTime c;
     chunkHash := chunkHash c; abortController := abortController c |}.

Definition set_progress (v : Z) (c : S3ChunkInfo) : S3ChunkInfo :=
  {| index := index c; partNumber := partNumber c; start := start c;
     end_ := end_ c; blob := blob c; uploaded := uploaded c; progress := v;
     retryCount := retryCount c; etag := etag c;
     uploadStartTime := uploadStartTime c; uploadEndTime := uploadEndTime c;
     chunkHash := chunkHash c; abortController := abortController c |}.

Definition set_etag (v : option string) (c : S3ChunkInfo) : S3ChunkInfo :=
  {| index := index c; partNumber := partNumber c; start := start c;
     end_ := end_ c; blob := blob c; uploaded := uploaded c;
     progress := progress c; retryCount := retryCount c; etag := v;
     uploadStartTime := uploadStartTime c; uploadEndTime := uploadEndTime c;
     chunkHash := chunkHash c; abortController := abortController c |}.

Definition set_uploadStartTime (v : option Z) (c : S3ChunkInfo) : S3ChunkInfo :=
  {| index := index c; partNumber := partNumber c; start := start c;
     end_ := end_ c; blob := blob c; uploaded := uploaded c;
     progress := progress c; retryCount := retryCount c; etag := etag c;
     uploadStartTime := v; uploadEndTime := uploadEndTime c;
     chunkHash := chunkHash c; abortController := abortController c |}.

Definition set_uploadEndTime (v : option Z) (c : S3ChunkInfo) : S3ChunkInfo :=
  {| index := index c; partNumber := partNumber c; start := start c;
     end_ := end_ c; blob := blob c; uploaded := uploaded c;
     progress := progress c; retryCount := retryCount c; etag := etag c;
     uploadStartTime := uploadStartTime c; uploadEndTime := v;
     chunkHash := chunkHash c; abortController := abortController c |}.

Definition set_abortController (v : option nat) (c : S3ChunkInfo) : S3ChunkInfo :=
  {| index := index c; partNumber := partNumber c; start := start c;
     end_ := end_ c; blob := blob c; uploaded := uploaded c;
     progress := progress c; retryCount := retryCount c; etag := etag c;
     uploadStartTime := uploadStartTime c; uploadEndTime := uploadEndTime c;
     chunkHash := chunkHash c; abortController := v |}.

Definition set_isUploading (v : bool) (h : Hook) : Hook :=
  {| isUploading := v; isPaused := isPaused h; isCompleted := isCompleted h;
     isCheckingUpload := isCheckingUpload h;
     isInitializing := isInitializing h;
     isSecondTransfer := isSecondTransfer h; currentFile := currentFile h;
     fileHash := fileHash h; chunks := chunks h;
     uploadSession := uploadSession h; uploadProgress := uploadProgress h;
     speedInfo := speedInfo h; networkStats := networkStats h;
     resumeInfo := resumeInfo h; executingChunks := executingChunks h |}.

Definition set_isPaused (v : bool) (h : Hook) : Hook :=
  {| isUploading := isUploading h; isPaused := v;
     isCompleted := isCompleted h; isCheckingUpload := isCheckingUpload h;
     isInitializing := isInitializing h;
     isSecondTransfer := isSecondTransfer h; currentFile := currentFile h;
     fileHash := fileHash h; chunks := chunks h;
     uploadSession := uploadSession h; uploadProgress := uploadProgress h;
     speedInfo := speedInfo h; networkStats := networkStats h;
     resumeInfo := resumeInfo h; executingChunks := executingChunks h |}.

Definition set_isCompleted (v : bool) (h : Hook) : Hook :=
  {| isUploading := isUploading h; isPaused := isPaused h; isCompleted := v;
     isCheckingUpload := isCheckingUpload h;
     isInitializing := isInitializing h;
     isSecondTransfer := isSecondTransfer h; currentFile := currentFile h;
     fileHash := fileHash h; chunks := chunks h;
     uploadSession := uploadSession h; uploadProgress := uploadProgress h;
     speedInfo := speedInfo h; networkStats := networkStats h;
     resumeInfo := resumeInfo h; executingChunks := executingChunks h |}.

Definition set_isCheckingUpload (v : bool) (h : Hook) : Hook :=
  {| isUploading := isUploading h; isPaused := isPaused h;
     isCompleted := isCompleted h; isCheckingUpload := v;
     isInitializing := isInitializing h;
     isSecondTransfer := isSecondTransfer h; currentFile := currentFile h;
     fileHash := fileHash h; chunks := chunks h;
     uploadSession := uploadSession h; uploadProgress := uploadProgress h;
     speedInfo := speedInfo h; networkStats := networkStats h;
     resumeInfo := resumeInfo h; executingChunks := executingChunks h |}.

Definition set_isInitializing (v : bool) (h : Hook) : Hook :=
  {| isUploading := isUploading h; isPaused := isPaused h;
     isCompleted := isCompleted h; isCheckingUpload := isCheckingUpload h;
     isInitializing := v; isSecondTransfer := isSecondTransfer h;
     currentFile := currentFile h; fileHash := fileHash h;
     chunks := chunks h; uploadSession := uploadSession h;
     uploadProgress := uploadProgress h; speedInfo := speedInfo h;
     networkStats := networkStats h; resumeInfo := resumeInfo h;
     executingChunks := executingChunks h |}.

Definition set_isSecondTransfer (v : bool) (h : Hook) : Hook :=
  {| isUploading := isUploading h; isPaused := isPaused h;
     isCompleted := isCompleted h; isCheckingUpload := isCheckingUpload h;
     isInitializing := isInitializing h; isSecondTransfer := v;
     currentFile := currentFile h; fileHash := fileHash h;
     chunks := chunks h; uploadSession := uploadSession h;
     uploadProgress := uploadProgress h; speedInfo := speedInfo h;
     networkStats := networkStats h; resumeInfo := resumeInfo h;
     executingChunks := executingChunks h |}.

Definition set_chunks (v : list nat) (h : Hook) : Hook :=
  {| isUploading := isUploading h; isPaused := isPaused h;
     isCompleted := isCompleted h; isCheckingUpload := isCheckingUpload h;
     isInitializing := isInitializing h;
     isSecondTransfer := isSecondTransfer h; currentFile := currentFile h;
     fileHash := fileHash h; chunks := v; uploadSession := uploadSession h;
     uploadProgress := uploadProgress h; speedInfo := speedInfo h;
     networkStats := networkStats h; resumeInfo := resumeInfo h;
     executingChunks := executingChunks h |}.

Definition set_uploadSession (v : option S3UploadSession) (h : Hook) : Hook :=
  {| isUploading := isUploading h; isPaused := isPaused h;
     isCompleted := isCompleted h; isCheckingUpload := isCheckingUpload h;
     isInitializing := isInitializing h;
     isSecondTransfer := isSecondTransfer h; currentFile := currentFile h;
     fileHash := fileHash h; chunks := chunks h; uploadSession := v;
     uploadProgress := uploadProgress h; speedInfo := speedInfo h;
     networkStats := networkStats h; resumeInfo := resumeInfo h;
     executingChunks := executingChunks h |}.

Definition set_uploadProgress (v : S3UploadProgress) (h : Hook) : Hook :=
  {| isUploading := isUploading h; isPaused := isPaused h;
     isCompleted := isCompleted h; isCheckingUpload := isCheckingUpload h;
     isInitializing := isInitializing h;
     isSecondTransfer := isSecondTransfer h; currentFile := currentFile h;
     fileHash := fileHash h; chunks := chunks h;
     uploadSession := uploadSession h; uploadProgress := v;
     speedInfo := speedInfo h; networkStats := networkStats h;
     resumeInfo := resumeInfo h; executingChunks := executingChunks h |}.

Definition set_speedInfo (v : S3SpeedInfo) (h : Hook) : Hook :=
  {| isUploading := isUploading h; isPaused := isPaused h;
     isCompleted := isCompleted h; isCheckingUpload := isCheckingUpload h;
     isInitializing := isInitializing h;
     isSecondTransfer := isSecondTransfer h; currentFile := currentFile h;
     fileHash := fileHash h; chunks := chunks h;
     uploadSession := uploadSession h; uploadProgress := uploadProgress h;
     speedInfo := v; networkStats := networkStats h;
     resumeInfo := resumeInfo h; executingChunks := executingChunks h |}.

Definition set_networkStats (v : S3NetworkStats) (h : Hook) : Hook :=
  {| isUploading := isUploading h; isPaused := isPaused h;
     isCompleted := isCompleted h; isCheckingUpload := isCheckingUpload h;
     isInitializing := isInitializing h;
     isSecondTransfer := isSecondTransfer h; currentFile := currentFile h;
     fileHash := fileHash h; chunks := chunks h;
     uploadSession := uploadSession h; uploadProgress := uploadProgress h;
     speedInfo := speedInfo h; networkStats := v; resumeInfo := resumeInfo h;
     executingChunks := executingChunks h |}.

Definition set_resumeInfo (v : option ResumeInfo) (h : Hook) : Hook :=
  {| isUploading := isUploading h; isPaused := isPaused h;
     isCompleted := isCompleted h; isCheckingUpload := isCheckingUpload h;
     isInitializing := isInitializing h;
     isSecondTransfer := isSecondTransfer h; currentFile := currentFile h;
     fileHash := fileHash h; chunks := chunks h;
     uploadSession := uploadSession h; uploadProgress := uploadProgress h;
     speedInfo := speedInfo h; networkStats := networkStats h;
     resumeInfo := v; executingChunks := executingChunks h |}.

Definition set_executingChunks (v : gset nat) (h : Hook) : Hook :=
  {| isUploading := isUploading h; isPaused := isPaused h;
     isCompleted := isCompleted h; isCheckingUpload := isCheckingUpload h;
     isInitializing := isInitializing h;
     isSecondTransfer := isSecondTransfer h; currentFile := currentFile h;
     fileHash := fileHash h; chunks := chunks h;
     uploadSession := uploadSession h; uploadProgress := uploadProgress h;
     speedInfo := speedInfo h; networkStats := networkStats h;
     resumeInfo := resumeInfo h; executingChunks := v |}.

Definition set_w_attempts (v : Z) (w : Worker) : Worker :=
  {| w_chunk := w_chunk w; w_attempts := v; w_pc := w_pc w;
     w_promise := w_promise w |}.

Definition set_w_pc (v : WorkerPc) (w : Worker) : Worker :=
  {| w_chunk := w_chunk w; w_attempts := w_attempts w; w_pc := v;
     w_promise := w_promise w |}.

Definition set_w_promise (v : Settled) (w : Worker) : Worker :=
  {| w_chunk := w_chunk w; w_attempts := w_attempts w; w_pc := w_pc w;
     w_promise := v |}.

Definition set_p_todo (v : list nat) (ps : Pass) : Pass :=
  {| p_todo := v; p_executing := p_executing ps; p_workers := p_workers ps;
     p_pc := p_pc ps |}.

Definition set_p_executing (v : list nat) (ps : Pass) : Pass :=
  {| p_todo := p_todo ps; p_executing := v; p_workers := p_workers ps;
     p_pc := p_pc ps |}.

Definition set_p_workers (v : list Worker) (ps : Pass) : Pass :=
  {| p_todo := p_todo ps; p_executing := p_executing ps; p_workers := v;
     p_pc := p_pc ps |}.

Definition set_p_pc (v : PassPc) (ps : Pass) : Pass :=
  {| p_todo := p_todo ps; p_executing := p_executing ps;
     p_workers := p_workers ps; p_pc := v |}.

Definition set_hook (v : Hook) (e : Engine) : Engine :=
  {| hook := v; heap := heap e; passes := passes e; callers := callers e;
     jobs := jobs e; aborted := aborted e;
     nextController := nextController e; clock := clock e;
     calls := calls e |}.

Definition set_heap (v : list S3ChunkInfo) (e : Engine) : Engine :=
  {| hook := hook e; heap := v; passes := passes e; callers := callers e;
     jobs := jobs e; aborted := aborted e;
     nextController := nextController e; clock := clock e;
     calls := calls e |}.

Definition set_passes (v : list Pass) (e : Engine) : Engine :=
  {| hook := hook e; heap := heap e; passes := v; callers := callers e;
     jobs := jobs e; aborted := aborted e;
     nextController := nextController e; clock := clock e;
     calls := calls e |}.

Definition set_callers (v : list Caller) (e : Engine) : Engine :=
  {| hook := hook e; heap := heap e; passes := passes e; callers := v;
     jobs := jobs e; aborted := aborted e;
     nextController := nextController e; clock := clock e;
     calls := calls e |}.

Definition set_jobs (v : list Job) (e : Engine) : Engine :=
  {| hook := hook e; heap := heap e; passes := passes e;
     callers := callers e; jobs := v; aborted := aborted e;
     nextController := nextController e; clock := clock e;
     calls := calls e |}.

Definition set_aborted (v : gset nat) (e : Engine) : Engine :=
  {| hook := hook e; heap := heap e; passes := passes e;
     callers := callers e; jobs := jobs e; aborted := v;
     nextController := nextController e; clock := clock e;
     calls := calls e |}.

Definition set_nextController (v : nat) (e : Engine) : Engine :=
  {| hook := hook e; heap := heap e; passes := passes e;
     callers := callers e; jobs := jobs e; aborted := aborted e;
     nextController := v; clock := clock e; calls := calls e |}.

Definition set_clock (v : Z) (e : Engine) : Engine :=
  {| hook := hook e; heap := heap e; passes := passes e;
     callers := callers e; jobs := jobs e; aborted := aborted e;
     nextController := nextController e; clock := v; calls := calls e |}.

Definition set_calls (v : list BackendCall) (e : Engine) : Engine :=
  {| hook := hook e; heap := heap e; passes := passes e;
     callers := callers e; jobs := jobs e; aborted := aborted e;
     nextController := nextController e; clock := clock e; calls := v |}.

Definition upd_hook (f : Hook -> Hook) (e : Engine) : Engine :=
  set_hook (f (hook e)) e.

Definition upd_chunk (a : nat) (f : S3ChunkInfo -> S3ChunkInfo) (e : Engine)
  : Engine :=
  match heap e !! a with
  | Some c => set_heap (<[a := f c]> (heap e)) e
  | None => e
  end.

(** *** Computed properties *)

Definition chunkObjects (e : Engine) : list S3ChunkInfo :=
  omap (fun a => heap e !! a) (chunks (hook e)).

Definition uploadedChunks (e : Engine) : list S3ChunkInfo :=
  List.filter uploaded (chunkObjects e).

(** [remainingChunks], as addresses. *)
Definition remainingChunks (e : Engine) : list nat :=
  List.filter (fun a => match heap e !! a with
                        | Some c => negb (uploaded c)
                        | None => false
                        end) (chunks (hook e)).

Definition totalChunksOf (e : Engine) : nat := length (chunks (hook e)).

Definition uploadedSize (e : Engine) : Z :=
  Zsum (map (fun c => end_ c - start c) (uploadedChunks e)).

(** *** Synchronous helpers *)

Definition resetNetworkStats (h : Hook) : Hook :=
  set_networkStats resetStats (set_speedInfo resetSpeedInfo h).

Definition updateTotalProgress (e : Engine) : Engine :=
  match currentFile (hook e) with
  | None => e
  | Some f =>
      let uploaded := uploadedSize e in
      let total := size f in
      upd_hook (set_uploadProgress
                  {| loaded := uploaded; total := total;
                     percentage := if 0 <? total
                                   then Math_round_percent uploaded total
                                   else 0 |}) e
  end.

(** [controller.abort()]: the signal becomes aborted and its listener runs
    in the upload that created the controller.  The listener calls
    [xhr.abort()], which dispatches the request's [abort] event at once, so
    the promise is rejected by that event's listener; the listener's own
    [reject] afterwards finds the promise settled. *)
Definition abort_worker (ctrl : nat) (w : Worker) : Worker :=
  match w_pc w with
  | WUpload (Some c') (XInFlight _) =>
      if Nat.eqb c' ctrl
      then set_w_pc (WUpload (Some c') (XRejected ErrAborted)) w
      else w
  | _ => w
  end.

Definition abort (ctrl : nat) (e : Engine) : Engine :=
  if bool_decide (ctrl ∈ aborted e) then e
  else
    set_passes
      (map (fun ps => set_p_workers (map (abort_worker ctrl) (p_workers ps)) ps)
           (passes e))
      (set_aborted ({[ctrl]} ∪ aborted e) e).

(** [chunk.abortController?.signal.aborted] *)
Definition signal_aborted (e : Engine) (c : S3ChunkInfo) : bool :=
  match abortController c with
  | Some ctrl => bool_decide (ctrl ∈ aborted e)
  | None => false
  end.

(** *** uploadChunk

    The timeout armed by every upload, in milliseconds: [60_000 * 60]. *)
Definition chunkTimeoutMs : Z := 60000 * 60.

(** The synchronous part of [uploadChunk(chunk)] for the chunk object at
    address [a]: the outcome is the controller it created and the state of
    the promise it returns.  No statement of the [try] block throws, and the
    promise is returned without being awaited, so the [catch] arm (which
    would count a retry and resolve with [false]) is never entered. *)
Definition uploadChunk (a : nat) (e : Engine)
  : option (Engine * (option nat * XhrSt)) :=
  c ← heap e !! a;
  match uploadSession (hook e), or_null (chunkHash c) with
  | Some _, Some _ =>
      let ctrl := nextController e in
      let e1 := set_nextController (S ctrl) e in
      let e2 := upd_chunk a (fun c => set_uploadStartTime (Some (clock e))
                               (set_progress 1
                                  (set_abortController (Some ctrl) c))) e1 in
      let e3 := set_calls (calls e2 ++ [CallChunk (index c)]) e2 in
      Some (e3, (Some ctrl, XInFlight (Some (clock e + chunkTimeoutMs))))
  | _, _ => Some (e, (None, XRejected ErrNoSessionOrHash))
  end.

(** *** uploadSingleChunk *)

(** The [finally] block. *)
Definition worker_finally (a : nat) (e : Engine) : Engine :=
  match heap e !! a with
  | Some c => upd_hook (fun h => set_executingChunks
                                   (executingChunks h ∖ {[index c]}) h) e
  | None => e
  end.

(** Leaving the [while] loop with the given [success]. *)
Definition worker_exit (opts : S3UploadOptions) (a : nat) (success : bool)
    (e : Engine) : Engine * WorkerPc :=
  let pn := match heap e !! a with Some c => partNumber c | None => 0%nat end in
  if negb success && negb (isPaused (hook e))
  then (worker_finally a e, WThrown (ErrRetry pn (retryTimes opts)))
  else (worker_finally a e, WReturned).

(** The head of the [while] loop, reached with [success = false]. *)
Definition worker_loop (opts : S3UploadOptions) (a : nat) (attempts : Z)
    (e : Engine) : option (Engine * (Z * WorkerPc)) :=
  if (attempts <? retryTimes opts) && negb (isPaused (hook e))
  then '(e1, (ctrl, x)) ← uploadChunk a e;
       Some (e1, (attempts + 1, WUpload ctrl x))
  else let '(e1, pc) := worker_exit opts a false e in
       Some (e1, (attempts, pc)).

(** The call [uploadSingleChunk(chunk)], up to its first [await]. *)
Definition uploadSingleChunk (opts : S3UploadOptions) (a : nat) (e : Engine)
  : option (Engine * Worker) :=
  c ← heap e !! a;
  if isPaused (hook e)
  then Some (e, {| w_chunk := a; w_attempts := 0; w_pc := WReturned;
                   w_promise := Pending |})
  else
    let e1 := upd_hook (fun h => set_executingChunks
                                   ({[index c]} ∪ executingChunks h) h) e in
    '(e2, (attempts, pc)) ← worker_loop opts a 0 e1;
    Some (e2, {| w_chunk := a; w_attempts := attempts; w_pc := pc;
                 w_promise := Pending |}).

(** Resuming after [await uploadChunk(chunk)] once its promise settled. *)
Definition worker_resume (opts : S3UploadOptions) (w : Worker) (e : Engine)
  : option (Engine * Worker) :=
  match w_pc w with
  | WUpload _ (XResolved success) =>
      if negb success && (w_attempts w <? retryTimes opts)
         && negb (isPaused (hook e))
      then Some (e, set_w_pc (WDelay (clock e + 1000 * w_attempts w)) w)
      else let '(e1, pc) := worker_exit opts (w_chunk w) success e in
           Some (e1, set_w_pc pc w)
  | WUpload _ (XRejected err) =>
      if isPaused (hook e) && mentions_cancel err
      then Some (worker_finally (w_chunk w) e, set_w_pc WReturned w)
      else Some (worker_finally (w_chunk w) e, set_w_pc (WThrown err) w)
  | _ => None
  end.

(** Resuming after the retry delay: back to the head of the loop. *)
Definition worker_after_delay (opts : S3UploadOptions) (w : Worker)
    (e : Engine) : option (Engine * Worker) :=
  match w_pc w with
  | WDelay until =>
      if until <=? clock e
      then '(e1, (attempts, pc)) ← worker_loop opts (w_chunk w) (w_attempts w) e;
           Some (e1, set_w_pc pc (set_w_attempts attempts w))
      else None
  | _ => None
  end.

(** *** uploadChunksConcurrently *)

(** [const index = executing.indexOf(promise);
     if (index > -1) executing.splice(index, 1)] *)
Fixpoint splice_out (k : nat) (l : list nat) : list nat :=
  match l with
  | [] => []
  | x :: r => if Nat.eqb x k then r else x :: splice_out k r
  end.

(** The [.then] and [.catch] reactions on the promise of worker [k]. *)
Definition promise_reaction (k : nat) (e : Engine) (ps : Pass) : option Pass :=
  w ← p_workers ps !! k;
  match w_promise w, w_pc w with
  | Pending, WReturned =>
      Some (set_p_executing (splice_out k (p_executing ps))
              (set_p_workers (<[k := set_w_promise Fulfilled w]> (p_workers ps)) ps))
  | Pending, WThrown err =>
      let st := if negb (isPaused (hook e)) then Rejected err else Fulfilled in
      Some (set_p_executing (splice_out k (p_executing ps))
              (set_p_workers (<[k := set_w_promise st w]> (p_workers ps)) ps))
  | _, _ => None
  end.

(** The [for] loop over the chunks still to be visited. *)
Fixpoint pass_loop (opts : S3UploadOptions) (todo : list nat) (e : Engine)
    (ps : Pass) : option (Engine * Pass) :=
  match todo with
  | [] => Some (e, set_p_pc (AwaitAllSettled (p_executing ps)) (set_p_todo [] ps))
  | a :: rest =>
      if isPaused (hook e)
      then Some (e, set_p_pc (AwaitAllSettled (p_executing ps))
                       (set_p_todo todo ps))
      else
        '(e1, w) ← uploadSingleChunk opts a e;
        let k := length (p_workers ps) in
        let ps1 := set_p_executing (p_executing ps ++ [k])
                     (set_p_workers (p_workers ps ++ [w]) ps) in
        if concurrent opts <=? Z.of_nat (length (p_executing ps1))
        then Some (e1, set_p_pc (AwaitRace (p_executing ps1))
                          (set_p_todo rest ps1))
        else pass_loop opts rest e1 ps1
  end.

(** [remainingChunks.value.filter(chunk =>
      !executingChunks.value.has(chunk.index))] *)
Definition pendingChunks (e : Engine) : list nat :=
  List.filter (fun a => match heap e !! a with
                        | Some c => negb (bool_decide
                                            (index c ∈ executingChunks (hook e)))
                        | None => false
                        end) (remainingChunks e).

(** The call [uploadChunksConcurrently()], up to its first [await]. *)
Definition uploadChunksConcurrently (opts : S3UploadOptions) (e : Engine)
  : option (Engine * Pass) :=
  pass_loop opts (pendingChunks e) e
    {| p_todo := []; p_executing := []; p_workers := [];
       p_pc := AwaitAllSettled [] |}.

(** Resuming after [await Promise.race(executing)], settled by worker [k]. *)
Definition race_settled (opts : S3UploadOptions) (k : nat) (e : Engine)
    (ps : Pass) : option (Engine * Pass) :=
  match p_pc ps with
  | AwaitRace snapshot =>
      if bool_decide (k ∈ snapshot) then
        w ← p_workers ps !! k;
        match w_promise w with
        | Pending => None
        | Fulfilled => pass_loop opts (p_todo ps) e ps
        | Rejected err =>
            if isPaused (hook e)
            then Some (e, set_p_pc (AwaitAllSettled (p_executing ps)) ps)
            else Some (e, set_p_pc (PassThrown err) ps)
        end
      else None
  | _ => None
  end.

Definition is_settled (ps : Pass) (k : nat) : bool :=
  match p_workers ps !! k with
  | Some w => match w_promise w with Pending => false | _ => true end
  | None => false
  end.

(** Resuming after [await Promise.allSettled(executing)]. *)
Definition all_settled (ps : Pass) : option Pass :=
  match p_pc ps with
  | AwaitAllSettled snapshot =>
      if forallb (is_settled ps) snapshot
      then Some (set_p_pc PassReturned ps) else None
  | _ => None
  end.

(** *** startUpload, resumeUpload and the functions they call *)

Record InitializeResult := {
  init_success : bool;
  init_message : option string;
  init_session : option S3UploadSession
}.

Record CompleteResult := {
  complete_success : bool;
  complete_url : option string;
  complete_message : option string
}.

Record ChunkResult := {
  chunk_success : bool;
  chunk_etag : option string;
  chunk_message : option string
}.

Definition set_caller_pc (c : nat) (pc : CallerPc) (e : Engine) : Engine :=
  match callers e !! c with
  | Some cl => set_callers (<[c := {| c_kind := c_kind cl; c_pc := pc |}]>
                              (callers e)) e
  | None => e
  end.

(** The [catch] block of [startUpload] and of [resumeUpload]. *)
Definition caller_throw (c : nat) (err : UploadError) (e : Engine) : Engine :=
  set_caller_pc c (Thrown err) (upd_hook (set_isUploading false) e).

(** The call [completeUpload()] made by caller [c], up to its [fetch]. *)
Definition completeUpload (c : nat) (e : Engine) : Engine :=
  match uploadSession (hook e) with
  | None => caller_throw c ErrNoSession e
  | Some _ =>
      if isPaused (hook e) then caller_throw c ErrPaused e
      else set_caller_pc c AwaitComplete
             (set_calls (calls e ++ [CallComplete]) e)
  end.

(** [await uploadChunksConcurrently()] in caller [c]. *)
Definition start_pass (opts : S3UploadOptions) (c : nat) (e : Engine)
  : option Engine :=
  '(e1, ps) ← uploadChunksConcurrently opts e;
  Some (set_caller_pc c (AwaitPass (length (passes e1)))
          (set_passes (passes e1 ++ [ps]) e1)).

(** [startUpload] from [updateTotalProgress()] on, once the session and the
    chunk list are in place. *)
Definition start_transfer (opts : S3UploadOptions) (c : nat) (e : Engine)
  : option Engine :=
  let e1 := updateTotalProgress e in
  if Nat.eqb (length (uploadedChunks e1)) (totalChunksOf e1)
  then Some (completeUpload c e1)
  else start_pass opts c e1.

Definition push_caller (cl : Caller) (e : Engine) : Engine :=
  set_callers (callers e ++ [cl]) e.

(** The call [startUpload()], up to the [fetch] of [checkUploadStatus]. *)
Definition startUpload (e : Engine) : Engine :=
  match currentFile (hook e) with
  | None => push_caller {| c_kind := FromStart; c_pc := Thrown ErrNoFile |} e
  | Some f =>
      if String.eqb (fileHash (hook e)) ""
      then push_caller {| c_kind := FromStart; c_pc := Thrown ErrNoHash |} e
      else
        let e1 := upd_hook (fun h =>
          set_isCheckingUpload true
            (set_isSecondTransfer false
               (set_isPaused false
                  (set_isCompleted false
                     (set_isUploading true
                        (set_networkStats
                           {| uploadedBytes := 0; totalBytes := size f;
                              startTime := 0; lastMeasureTime := 0;
                              lastMeasureBytes := 0; speedHistory := [] |}
                           (resetNetworkStats h))))))) e in
        push_caller {| c_kind := FromStart; c_pc := AwaitCheck |}
          (set_calls (calls e1 ++ [CallCheck]) e1)
  end.

(** Allocating fresh chunk objects and storing the array in [chunks.value]. *)
Definition store_chunks (cs : list S3ChunkInfo) (e : Engine) : Engine :=
  upd_hook (set_chunks (seq (length (heap e)) (length cs)))
    (set_heap (heap e ++ cs) e).

(** The call [createChunksAndMarkUploaded(file, session)], which is not
    awaited: with no chunk to hash it runs to its end at once, otherwise it
    stays suspended at [await calculateChunkHash(blob)]. *)
Definition start_reconcile (opts : S3UploadOptions) (f : File)
    (s : S3UploadSession) (e : Engine) : Engine :=
  if Math_ceil_div (size f) (chunkSize opts) <=? 0
  then updateTotalProgress (store_chunks [] e)
  else set_jobs (jobs e ++ [{| j_file := f; j_session := s; j_done := false |}]) e.

(** The end of [createChunksAndMarkUploaded], once every chunk is hashed
    ([ok]) or a read failed. *)
Definition reconciled (opts : S3UploadOptions) (j : nat) (ok : bool)
    (e : Engine) : option Engine :=
  jb ← jobs e !! j;
  if j_done jb then None
  else
    let e1 := set_jobs (<[j := {| j_file := j_file jb;
                                  j_session := j_session jb;
                                  j_done := true |}]> (jobs e)) e in
    if ok
    then Some (updateTotalProgress
                 (store_chunks
                    (createChunksAndMarkUploaded opts (j_file jb) (j_session jb))
                    e1))
    else Some e1.

(** The answer to the [fetch] of [checkUploadStatus] in [startUpload], and
    [startUpload] up to its next [await]: the last segment of
    [checkUploadStatus] and, one microtask later, the continuation of
    [startUpload].  The state in between, which is rendered, is
    [check_settled] below. *)
Definition check_response (opts : S3UploadOptions) (c : nat)
    (r : UploadError + S3CheckUploadResponse) (e : Engine) : option Engine :=
  cl ← callers e !! c;
  f ← currentFile (hook e);
  match c_pc cl with
  | AwaitCheck =>
      match r with
      | inl err =>
          Some (caller_throw c err (upd_hook (set_isCheckingUpload false) e))
      | inr result =>
          if fileExists result && isComplete result
          then
            Some (set_caller_pc c (Returned (or_null (url result)))
                    (upd_hook (fun h =>
                       set_isSecondTransfer true
                         (set_isUploading false
                            (set_isCompleted true
                               (set_isCheckingUpload false
                                  (set_isCompleted true
                                     (set_isSecondTransfer true h)))))) e))
          else
            let e1 :=
              match session result with
              | Some s =>
                  start_reconcile opts f s
                    (upd_hook (fun h =>
                       set_resumeInfo
                         (Some {| ri_progress := or_zero (session_progress s);
                                  ri_totalChunks := totalChunks s;
                                  ri_uploadedCount := or_zero (uploadedParts s) |})
                         (set_uploadSession (Some s) h)) e)
              | None => e
              end in
            let e2 := upd_hook (set_isCheckingUpload false) e1 in
            match uploadSession (hook e2) with
            | None =>
                Some (set_caller_pc c AwaitInitialize
                        (set_calls (calls e2 ++ [CallInitialize])
                           (upd_hook (set_isInitializing true) e2)))
            | Some _ => start_transfer opts c e2
            end
      end
  | _ => None
  end.

(** The answer to the [fetch] of [initializeUpload]: its last segment (the
    [finally] block) and, one microtask later, the continuation of
    [startUpload].  The state in between is [initialize_settled] below. *)
Definition initialize_response (c : nat) (r : UploadError + InitializeResult)
    (e : Engine) : option Engine :=
  cl ← callers e !! c;
  match c_pc cl with
  | AwaitInitialize =>
      let e1 := upd_hook (set_isInitializing false) e in
      match r with
      | inl err => Some (caller_throw c err e1)
      | inr res =>
          if init_success res
          then Some (set_caller_pc c AwaitCreateChunks
                       (upd_hook (set_uploadSession (init_session res)) e1))
          else Some (caller_throw c
                       (ErrServer (message_or (init_message res) "S3初始化失败"))
                       e1)
      end
  | _ => None
  end.

(** The end of [await createChunks(file)] in [startUpload]. *)
Definition chunks_hashed (opts : S3UploadOptions) (c : nat) (ok : bool)
    (e : Engine) : option Engine :=
  cl ← callers e !! c;
  f ← currentFile (hook e);
  match c_pc cl with
  | AwaitCreateChunks =>
      if ok
      then start_transfer opts c (store_chunks (createChunks opts f) e)
      else Some (caller_throw c ErrRead e)
  | _ => None
  end.

(** The answer to the [fetch] of [completeUpload]. *)
Definition complete_response (c : nat) (r : UploadError + CompleteResult)
    (e : Engine) : option Engine :=
  cl ← callers e !! c;
  match c_pc cl with
  | AwaitComplete =>
      match r with
      | inl err => Some (caller_throw c err e)
      | inr res =>
          if complete_success res
          then Some (set_caller_pc c (Returned (or_null (complete_url res)))
                       (upd_hook (fun h => set_isUploading false
                                             (set_isCompleted true h)) e))
          else Some (caller_throw c
                       (ErrServer (message_or (complete_message res)
                                     "S3完成上传失败")) e)
      end
  | _ => None
  end.

(** Resuming caller [c] after [await uploadChunksConcurrently()]. *)
Definition pass_settled (c : nat) (e : Engine) : option Engine :=
  cl ← callers e !! c;
  match c_pc cl with
  | AwaitPass p =>
      ps ← passes e !! p;
      match p_pc ps, c_kind cl with
      | PassReturned, FromStart => Some (completeUpload c e)
      | PassReturned, FromResume =>
          if Nat.eqb (length (uploadedChunks e)) (totalChunksOf e)
          then Some (completeUpload c e)
          else Some (set_caller_pc c (Returned None)
                       (upd_hook (set_isUploading false) e))
      | PassThrown err, _ => Some (caller_throw c err e)
      | _, _ => None
      end
  | _ => None
  end.

(** *** pauseUpload and resumeUpload *)

Definition pause_chunk (e : Engine) (a : nat) : Engine :=
  match heap e !! a with
  | Some c =>
      match abortController c with
      | Some ctrl =>
          if negb (uploaded c) && (0 <? progress c)
          then upd_chunk a (set_progress 0) (abort ctrl e)
          else e
      | None => e
      end
  | None => e
  end.

Definition pauseUpload (e : Engine) : Engine :=
  fold_left pause_chunk (chunks (hook e)) (upd_hook (set_isPaused true) e).

Definition resume_chunk (e : Engine) (a : nat) : Engine :=
  match heap e !! a with
  | Some c =>
      if negb (uploaded c) && (0 <? progress c) && (progress c <? 100)
      then upd_chunk a (fun c => set_abortController None (set_progress 0 c)) e
      else e
  | None => e
  end.

(** The call [resumeUpload()], up to [await uploadChunksConcurrently()]. *)
Definition resumeUpload (opts : S3UploadOptions) (e : Engine) : option Engine :=
  let c := length (callers e) in
  match currentFile (hook e) with
  | None =>
      Some (push_caller {| c_kind := FromResume;
                           c_pc := Thrown ErrNothingToResume |} e)
  | Some _ =>
      if isCompleted (hook e)
      then Some (push_caller {| c_kind := FromResume;
                                c_pc := Thrown ErrNothingToResume |} e)
      else
        let e1 := upd_hook (fun h =>
                    set_executingChunks ∅
                      (set_isUploading true (set_isPaused false h))) e in
        let e2 := fold_left resume_chunk (chunks (hook e1)) e1 in
        start_pass opts c
          (push_caller {| c_kind := FromResume;
                          c_pc := AwaitPass (length (passes e2)) |} e2)
  end.

(** *** Events of one upload request *)

Definition set_worker (p k : nat) (w : Worker) (e : Engine) : Engine :=
  match passes e !! p with
  | Some ps =>
      set_passes (<[p := set_p_workers (<[k := w]> (p_workers ps)) ps]>
                    (passes e)) e
  | None => e
  end.

Definition get_worker (p k : nat) (e : Engine) : option Worker :=
  ps ← passes e !! p; p_workers ps !! k.

(** The [progress] listener of the upload.  The event is length-computable:
    it carries [0 <= loaded <= total] and a positive [total]. *)
Definition xhr_progress (p k : nat) (ev_loaded ev_total : Z) (e : Engine)
  : option Engine :=
  w ← get_worker p k e;
  c ← heap e !! w_chunk w;
  match w_pc w with
  | WUpload _ (XInFlight _) =>
      if (0 <=? ev_loaded) && (ev_loaded <=? ev_total) && (0 <? ev_total)
      then
        if negb (signal_aborted e c)
        then
          let e1 := upd_chunk (w_chunk w)
                      (set_progress (Math_round_percent ev_loaded ev_total)) e in
          let currentUploaded := uploadedSize e1 + ev_loaded in
          let '(si, ns) := updateNetworkStats (clock e1) currentUploaded
                             (speedInfo (hook e1), networkStats (hook e1)) in
          Some (updateTotalProgress
                  (upd_hook (fun h => set_networkStats ns (set_speedInfo si h))
                     e1))
        else Some e
      else None
  | _ => None
  end.

(** The [load] listener. *)
Definition xhr_load (p k : nat) (status : Z) (statusText : string)
    (body : option ChunkResult) (e : Engine) : option Engine :=
  w ← get_worker p k e;
  match w_pc w with
  | WUpload ctrl (XInFlight _) =>
      if (200 <=? status) && (status <? 300)
      then
        match body with
        | Some result =>
            if chunk_success result
            then
              let e1 := upd_chunk (w_chunk w)
                          (fun c => set_uploadEndTime (Some (clock e))
                                      (set_etag (chunk_etag result)
                                         (set_progress 100
                                            (set_uploaded true c)))) e in
              Some (set_worker p k (set_w_pc (WUpload ctrl (XResolved true)) w)
                      (updateTotalProgress e1))
            else
              Some (set_worker p k
                      (set_w_pc (WUpload ctrl
                                   (XRejected
                                      (ErrServer
                                         (message_or (chunk_message result)
                                            "S3分片上传失败")))) w) e)
        | None =>
            Some (set_worker p k
                    (set_w_pc (WUpload ctrl (XRejected ErrParse)) w) e)
        end
      else
        Some (set_worker p k
                (set_w_pc (WUpload ctrl (XRejected (ErrFetch status statusText)))
                   w) e)
  | _ => None
  end.

(** The [error] listener. *)
Definition xhr_error (p k : nat) (e : Engine) : option Engine :=
  w ← get_worker p k e;
  match w_pc w with
  | WUpload ctrl (XInFlight _) =>
      Some (set_worker p k (set_w_pc (WUpload ctrl (XRejected ErrNetwork)) w) e)
  | _ => None
  end.

(** The timeout callback, which can run once the deadline has passed.  When
    the chunk's current controller is not aborted it calls [xhr.abort()],
    whose [abort] event rejects the promise before the callback's own
    [reject] is reached. *)
Definition chunk_timeout (p k : nat) (e : Engine) : option Engine :=
  w ← get_worker p k e;
  c ← heap e !! w_chunk w;
  match w_pc w with
  | WUpload ctrl (XInFlight (Some deadline)) =>
      if deadline <=? clock e
      then
        if negb (signal_aborted e c)
        then Some (set_worker p k
                     (set_w_pc (WUpload ctrl (XRejected ErrAborted)) w) e)
        else Some (set_worker p k
                     (set_w_pc (WUpload ctrl (XInFlight None)) w) e)
      else None
  | _ => None
  end.

Definition with_worker (p k : nat)
    (f : Worker -> Engine -> option (Engine * Worker)) (e : Engine)
  : option Engine :=
  w ← get_worker p k e;
  '(e1, w1) ← f w e;
  Some (set_worker p k w1 e1).

Definition with_pass (p : nat) (f : Engine -> Pass -> option (Engine * Pass))
    (e : Engine) : option Engine :=
  ps ← passes e !! p;
  '(e1, ps1) ← f e ps;
  Some (set_passes (<[p := ps1]> (passes e1)) e1).

(** *** The event loop *)

Inductive Event :=
| Tick (dt : Z)
| StartUpload
| PauseUpload
| ResumeUpload
| CheckResponse (c : nat) (r : UploadError + S3CheckUploadResponse)
| InitializeResponse (c : nat) (r : UploadError + InitializeResult)
| ChunksHashed (c : nat) (ok : bool)
| Reconciled (j : nat) (ok : bool)
| CompleteResponse (c : nat) (r : UploadError + CompleteResult)
| PassSettled (c : nat)
| XhrProgress (p k : nat) (ev_loaded ev_total : Z)
| XhrLoad (p k : nat) (status : Z) (statusText : string)
    (body : option ChunkResult)
| XhrError (p k : nat)
| ChunkTimeout (p k : nat)
| UploadSettled (p k : nat)
| DelayElapsed (p k : nat)
| PromiseReaction (p k : nat)
| RaceSettled (p k : nat)
| AllSettled (p : nat).

(** One step: an external event (a user action, a response, a timer) with
    the listener it triggers, or the resumption of one suspended activation.
    [CheckResponse] and [InitializeResponse] resume two activations in a
    row, the function that awaited the answer and then [startUpload].
    [None] means the event cannot happen in that state. *)
Definition step (opts : S3UploadOptions) (e : Engine) (ev : Event)
  : option Engine :=
  match ev with
  | Tick dt => if 0 <=? dt then Some (set_clock (clock e + dt) e) else None
  | StartUpload => Some (startUpload e)
  | PauseUpload => Some (pauseUpload e)
  | ResumeUpload => resumeUpload opts e
  | CheckResponse c r => check_response opts c r e
  | InitializeResponse c r => initialize_response c r e
  | ChunksHashed c ok => chunks_hashed opts c ok e
  | Reconciled j ok => reconciled opts j ok e
  | CompleteResponse c r => complete_response c r e
  | PassSettled c => pass_settled c e
  | XhrProgress p k l t => xhr_progress p k l t e
  | XhrLoad p k status statusText body => xhr_load p k status statusText body e
  | XhrError p k => xhr_error p k e
  | ChunkTimeout p k => chunk_timeout p k e
  | UploadSettled p k => with_worker p k (worker_resume opts) e
  | DelayElapsed p k => with_worker p k (worker_after_delay opts) e
  | PromiseReaction p k =>
      with_pass p (fun e ps => ps1 ← promise_reaction k e ps; Some (e, ps1)) e
  | RaceSettled p k => with_pass p (race_settled opts k) e
  | AllSettled p =>
      with_pass p (fun e ps => ps1 ← all_settled ps; Some (e, ps1)) e
  end.

Fixpoint run (opts : S3UploadOptions) (e : Engine) (evs : list Event)
  : option Engine :=
  match evs with
  | [] => Some e
  | ev :: rest => e1 ← step opts e ev; run opts e1 rest
  end.

(** The hook right after a file was selected and fingerprinted. *)
Definition boot (f : File) (hash : string) : Engine :=
  {| hook := {| isUploading := false; isPaused := false; isCompleted := false;
                isCheckingUpload := false; isInitializing := false;
                isSecondTransfer := false; currentFile := Some f;
                fileHash := hash; chunks := []; uploadSession := None;
                uploadProgress := {| loaded := 0; total := 0; percentage := 0 |};
                speedInfo := resetSpeedInfo; networkStats := resetStats;
                resumeInfo := None; executingChunks := ∅ |};
     heap := []; passes := []; callers := []; jobs := []; aborted := ∅;
     nextController := 0; clock := 1; calls := [] |}.

(** *** Observations *)

(** The worker has a request on the wire. *)
Definition transporting (w : Worker) : bool :=
  match w_pc w with WUpload _ (XInFlight _) => true | _ => false end.

(** The activation of [uploadSingleChunk] has not settled. *)
Definition running (w : Worker) : bool :=
  match w_pc w with WUpload _ _ | WDelay _ => true | _ => false end.

(** Chunk uploads a pass has in flight. *)
Definition inFlight (ps : Pass) : nat :=
  length (List.filter running (p_workers ps)).

(** Requests on the wire for the chunk object at address [a], over all the
    passes. *)
Definition transporters (e : Engine) (a : nat) : nat :=
  length (List.filter (fun w => transporting w && Nat.eqb (w_chunk w) a)
            (concat (map p_workers (passes e)))).

(** How many [chunk] requests were sent for chunk index [i]. *)
Definition chunkCalls (e : Engine) (i : nat) : nat :=
  length (List.filter (fun c => match c with
                                | CallChunk j => Nat.eqb i j
                                | _ => false
                                end) (calls e)).

End S3.

(** * Specification vocabulary and sample inputs *)

Import S3.

(** ** Chunk plans *)

(** The plan of a chunk: its index and byte range. *)
Definition local_plan (c : Local.ChunkInfo) : nat * Z * Z :=
  (Local.index c, Local.start c, Local.end_ c).

Definition s3_plan (c : S3ChunkInfo) : nat * Z * Z :=
  (index c, start c, end_ c).

(** The byte span of chunk [i] of a file of [F] bytes cut every [c] bytes. *)
Definition span (c F : Z) (i : nat) : Z :=
  Z.min (Z.of_nat i * c + c) F - Z.of_nat i * c.

(** ** Speed tracker *)

(** The last ten elements of a list. *)
Definition last10 (l : list Q) : list Q := skipn (length l - 10) l.


(** The average recorded in the state is the byte count of the last
    measurement over the seconds elapsed since the start. *)
Definition average_ok (st : S3SpeedInfo * S3NetworkStats) : Prop :=
  average (fst st)
  = (inject_Z (lastMeasureBytes (snd st))
     / (inject_Z (lastMeasureTime (snd st) - startTime (snd st)) / 1000))%Q.

(** ** Scheduler *)

(** The positions, counted from [i], of the promises that are pending. *)
Fixpoint pending_from (i : nat) (l : list Settled) : list nat :=
  match l with
  | [] => []
  | Pending :: r => i :: pending_from (S i) r
  | _ :: r => pending_from (S i) r
  end.

Definition worker_ok (w : Worker) : Prop :=
  running w = true -> w_promise w = Pending.

(** What every activation of [uploadChunksConcurrently] satisfies: the
    [executing] array lists the workers whose promise is pending, in the
    order they were started; it never holds more than [max 1 concurrent]
    promises; and a worker that has not settled has a pending promise. *)
Record PassInv (c : Z) (ps : Pass) : Prop := {
  inv_executing : p_executing ps = pending_from 0 (map w_promise (p_workers ps));
  inv_bound : Z.of_nat (length (p_executing ps)) <= Z.max 1 c;
  inv_race : match p_pc ps with
             | AwaitRace snapshot =>
                 sublist (p_executing ps) snapshot
                 /\ Z.of_nat (length snapshot) <= Z.max 1 c
             | _ => True
             end;
  inv_workers : Forall worker_ok (p_workers ps)
}.

Definition EngineInv (c : Z) (e : Engine) : Prop :=
  Forall (PassInv c) (passes e).

(** Uploads of the chunk object at address [a] whose request has completed
    with success and whose worker has not resumed yet. *)
Definition completedUploads (e : Engine) (a : nat) : nat :=
  length (List.filter
            (fun w => match w_pc w with
                      | WUpload _ (XResolved true) => Nat.eqb (w_chunk w) a
                      | _ => false
                      end)
            (concat (map p_workers (passes e)))).

(** ** Sample inputs *)

Definition MiB : Z := 1024 * 1024.

Definition sample_md5 (from to : Z) : string :=
  "0f343b0931126a20f133d67c2b018a3b".

(** A 23 MiB file: four chunks of 5 MiB and one of 3 MiB. *)
Definition file23 : File :=
  {| name := "video.mp4"; size := 23 * MiB; md5_of := sample_md5 |}.

(** A 25 MiB file: five chunks of 5 MiB. *)
Definition file25 : File :=
  {| name := "video.mp4"; size := 25 * MiB; md5_of := sample_md5 |}.

(** A 1 MiB file: a single chunk. *)
Definition file1 : File :=
  {| name := "note.txt"; size := 1 * MiB; md5_of := sample_md5 |}.

(** A session reporting three uploaded parts. *)
Definition session3 : S3UploadSession :=
  {| sessionId := "s1"; uploadId := "u1"; objectName := "o1";
     fileName := "video.mp4"; fileSize := 25 * MiB; totalChunks := 5;
     uploadedParts := Some 3; session_progress := Some 60 |}.

Definition freshSession : S3UploadSession :=
  {| sessionId := "s1"; uploadId := "u1"; objectName := "o1";
     fileName := "video.mp4"; fileSize := 23 * MiB; totalChunks := 5;
     uploadedParts := None; session_progress := None |}.

(** The check answers: nothing known, and the object complete. *)
Definition checkNothing : S3CheckUploadResponse :=
  {| success := true; fileExists := false; isComplete := false;
     message := "ok"; url := None; session := None |}.

Definition checkComplete : S3CheckUploadResponse :=
  {| success := true; fileExists := true; isComplete := true;
     message := "ok"; url := Some "https://cdn.example/video.mp4";
     session := None |}.

Definition initOk : InitializeResult :=
  {| init_success := true; init_message := None;
     init_session := Some freshSession |}.

Definition chunkOk : option ChunkResult :=
  Some {| chunk_success := true; chunk_etag := Some "etag";
          chunk_message := None |}.

Definition oneAtATime : S3UploadOptions :=
  {| chunkSize := 5 * MiB; concurrent := 1; retryTimes := 3 |}.

Definition noneAtATime : S3UploadOptions :=
  {| chunkSize := 5 * MiB; concurrent := 0; retryTimes := 3 |}.

(** [startUpload] on a fresh file up to the first scheduling pass. *)
Definition fresh_start : list Event :=
  [StartUpload; CheckResponse 0 (inr checkNothing);
   InitializeResponse 0 (inr initOk); ChunksHashed 0 true].

(** The first chunk's request fails with a network error. *)
Definition first_chunk_fails : list Event :=
  fresh_start ++ [XhrError 0 0; UploadSettled 0 0; PromiseReaction 0 0].

(** No network event for an hour: the timeout of the first chunk's upload
    fires, and the rejection travels up to [startUpload]. *)
Definition first_chunk_times_out : list Event :=
  fresh_start
  ++ [Tick 3600000; ChunkTimeout 0 0; UploadSettled 0 0; PromiseReaction 0 0;
      RaceSettled 0 0; PassSettled 0].

(** With three uploads in flight, the second reports half its bytes and the
    user pauses: its request is cancelled. *)
Definition pause_cancels_second : list Event :=
  fresh_start
  ++ [Tick 40; XhrProgress 0 1 (5 * MiB / 2) (5 * MiB + 400); PauseUpload].

(** With three uploads in flight, the first reports a few bytes (0 percent
    once rounded) and the second half its bytes; the user pauses; the
    uploads that were aborted unwind. *)
Definition pause_at_partial_progress : list Event :=
  fresh_start
  ++ [Tick 40; XhrProgress 0 0 1000 (5 * MiB + 400);
      XhrProgress 0 1 (5 * MiB / 2) (5 * MiB + 400);
      PauseUpload;
      UploadSettled 0 1; UploadSettled 0 2;
      PromiseReaction 0 1; PromiseReaction 0 2;
      RaceSettled 0 1].

(** ... then the user resumes, and both requests for the first chunk
    complete. *)
Definition resume_after_pause : list Event :=
  pause_at_partial_progress ++ [Tick 2000; ResumeUpload].

Definition both_requests_complete : list Event :=
  resume_after_pause
  ++ [XhrLoad 0 0 200 "OK" chunkOk; XhrLoad 1 0 200 "OK" chunkOk].

(** One upload at a time: the only request in flight shows 0 percent when
    the user pauses and resumes; the first pass goes on, and so does the
    second. *)
Definition overlapping_passes : list Event :=
  fresh_start
  ++ [Tick 40; XhrProgress 0 0 1000 (5 * MiB + 400);
      PauseUpload; Tick 2000; ResumeUpload].

Definition first_pass_goes_on : list Event :=
  overlapping_passes
  ++ [XhrLoad 0 0 200 "OK" chunkOk; UploadSettled 0 0; PromiseReaction 0 0;
      RaceSettled 0 0;
      XhrLoad 1 0 200 "OK" chunkOk; UploadSettled 1 0; PromiseReaction 1 0].

Definition second_pass_goes_on : list Event :=
  first_pass_goes_on ++ [RaceSettled 1 0].

(** The state a trace leads to from the fresh hook. *)
Definition after (opts : S3UploadOptions) (f : File) (evs : list Event)
  : Engine :=
  default (boot f "abc") (run opts (boot f "abc") evs).

(** [startUpload] is called at time 1.  A second later one request reports
    0 bytes, and 500 bytes a second after that ... *)
Definition progress_sampled : list Event :=
  fresh_start
  ++ [Tick 1000; XhrProgress 0 0 0 (5 * MiB + 400);
      Tick 1000; XhrProgress 0 0 500 (5 * MiB + 400)].



(** Samples of the speed tracker: (time in ms, cumulative bytes). *)
Definition sample_calls : list (Z * Z) :=
  [(1000, 0); (2000, 500); (2500, 700); (3500, 1500)].

(** ** Observations used in the statements *)

Definition chunkState (e : Engine) (a : nat) : option (bool * Z * nat) :=
  option_map (fun c => (uploaded c, progress c, retryCount c)) (heap e !! a).

Definition workerState (e : Engine) (p k : nat)
  : option (Z * WorkerPc * Settled) :=
  option_map (fun w => (w_attempts w, w_pc w, w_promise w)) (get_worker p k e).

Definition callerState (e : Engine) (c : nat) : option CallerPc :=
  option_map c_pc (callers e !! c).

Definition registry (e : Engine) : list nat :=
  elements (executingChunks (hook e)).

(** Chunk requests on the wire, over all the passes and all the chunks. *)
Definition onTheWire (e : Engine) : nat :=
  length (List.filter transporting (concat (map p_workers (passes e)))).

(** * Vocabulary of the invariants *)

(** A later state of a chunk object: the plan, the blob, the hash and the
    retry counter are the same, and [uploaded] has not gone back to false. *)
Definition chunk_evolves (c c' : S3ChunkInfo) : Prop :=
  index c' = index c /\ partNumber c' = partNumber c
  /\ start c' = start c /\ end_ c' = end_ c /\ blob c' = blob c
  /\ chunkHash c' = chunkHash c /\ retryCount c' = retryCount c
  /\ (uploaded c = true -> uploaded c' = true).

(** Object by object. *)
Definition heap_evolves (h h' : list S3ChunkInfo) : Prop :=
  Forall2 chunk_evolves h h'.

(** What the functions that do not replace the chunk list keep: the chunk
    objects (up to [chunk_evolves]), [chunks.value], [currentFile] and the
    reconciliation jobs. *)
Record Core (e e' : Engine) : Prop := {
  k_heap : heap_evolves (heap e) (heap e');
  k_chunks : chunks (hook e') = chunks (hook e);
  k_file : currentFile (hook e') = currentFile (hook e);
  k_jobs : jobs e' = jobs e
}.

(** ... and [uploadProgress] is as it was, or was written by
    [updateTotalProgress]. *)
Record Keeps (e e' : Engine) : Prop := {
  k_core : Core e e';
  k_progress :
    uploadProgress (hook e') = uploadProgress (hook e)
    \/ exists e'', Core e e''
         /\ uploadProgress (hook e')
            = uploadProgress (hook (updateTotalProgress e''))
}.

(** [Math.ceil(file.size / chunkSize)] as a count. *)
Definition chunkCount (opts : S3UploadOptions) (f : File) : nat :=
  Z.to_nat (Math_ceil_div (size f) (chunkSize opts)).

(** A chunk object planned for the file. *)
Definition planned (opts : S3UploadOptions) (f : File) (c : S3ChunkInfo) : Prop :=
  (index c < chunkCount opts f)%nat
  /\ start c = Z.of_nat (index c) * chunkSize opts
  /\ end_ c = Z.min (start c + chunkSize opts) (size f).

(** The shape of the state while one file is selected: the jobs and the
    chunk objects belong to the file, and [chunks.value] is empty or holds
    the objects of one plan, in index order. *)
Record Shape (opts : S3UploadOptions) (f : File) (e : Engine) : Prop := {
  sh_file : currentFile (hook e) = Some f;
  sh_jobs : Forall (fun j => j_file j = f) (jobs e);
  sh_heap : Forall (planned opts f) (heap e);
  sh_chunks : exists base m,
      chunks (hook e) = seq base m
      /\ (m = 0%nat \/ m = chunkCount opts f)
      /\ (base + m <= length (heap e))%nat
      /\ forall i, (i < m)%nat -> index <$> (heap e !! (base + i)%nat) = Some i
}.

(** Lists of chunk objects that [createChunks] and
    [createChunksAndMarkUploaded] build. *)
Definition planned_list (opts : S3UploadOptions) (f : File)
    (cs : list S3ChunkInfo) : Prop :=
  exists b : nat -> bool,
    cs = map (fun i => planChunk opts f (b i) i) (seq 0 (chunkCount opts f)).

(** The values [uploadProgress] may hold. *)
Definition progress_ok (f : File) (p : S3UploadProgress) : Prop :=
  0 <= loaded p <= total p /\ total p <= size f /\ 0 <= percentage p <= 100.

Definition Tidy (opts : S3UploadOptions) (f : File) (e : Engine) : Prop :=
  Shape opts f e /\ progress_ok f (uploadProgress (hook e)).

(** New chunk objects start with no retry counted. *)
Definition fresh (c : S3ChunkInfo) : Prop := retryCount c = 0%nat.

(** The chunk objects of a later state: the old ones, evolved, and new ones. *)
Definition Grows (e e' : Engine) : Prop :=
  exists new, Forall fresh new /\ heap_evolves (heap e ++ new) (heap e').



(** An activation of [uploadSingleChunk] that has called [uploadChunk] at
    most once and is not in a retry delay. *)
Definition once (w : Worker) : Prop :=
  0 <= w_attempts w <= 1
  /\ match w_pc w with
     | WDelay _ | WUpload _ (XResolved false) => False
     | _ => True
     end.

Definition Once (e : Engine) : Prop :=
  Forall (fun ps => Forall once (p_workers ps)) (passes e).

(** The pause flag and the request log are as they were. *)
Definition Still (e e' : Engine) : Prop :=
  isPaused (hook e') = isPaused (hook e) /\ calls e' = calls e.

(** The index of the chunk object at address [a]. *)
Definition indexAt (e : Engine) (a : nat) : nat :=
  match heap e !! a with Some c => index c | None => 0%nat end.

(** Every chunk object carries a hash. *)
Definition hashed (e : Engine) : Prop :=
  Forall (fun c => or_null (chunkHash c) <> None) (heap e).

(** ** More sample inputs *)

(** The first request completes; the user pauses and resumes. *)
Definition settle_pause_resume : list Event :=
  [XhrLoad 0 0 200 "OK" chunkOk; UploadSettled 0 0; PromiseReaction 0 0;
   PauseUpload; Tick 2000; ResumeUpload].


(** After a pause, the request that was left in flight completes and the
    pass unwinds. *)
Definition last_request_completes : list Event :=
  [Tick 1000; XhrLoad 0 0 200 "OK" chunkOk; UploadSettled 0 0;
   PromiseReaction 0 0; AllSettled 0; PassSettled 0].

(** A check answer with a session to resume. *)
Definition checkResume : S3CheckUploadResponse :=
  {| success := true; fileExists := false; isComplete := false;
     message := "resume"; url := None; session := Some session3 |}.

(** The hook with a session and a fresh chunk list, about to schedule. *)
Definition ready23 : Engine :=
  store_chunks (createChunks defaultOptions file23)
    (after defaultOptions file23
       [StartUpload; CheckResponse 0 (inr checkNothing);
        InitializeResponse 0 (inr initOk)]).

(** * Vocabulary of an undisturbed upload *)

(** Events of an undisturbed upload: no second [startUpload], no pause, no
    resume, no failing answer or request, no timeout. *)
Definition undisturbed (ev : Event) : bool :=
  match ev with
  | Tick _ | ChunksHashed _ true | XhrProgress _ _ _ _ | UploadSettled _ _
  | DelayElapsed _ _ | PromiseReaction _ _ | RaceSettled _ _ | AllSettled _
  | PassSettled _ | Reconciled _ _ => true
  | CheckResponse _ (inr r) =>
      negb (fileExists r && isComplete r)
      && match session r with None => true | Some _ => false end
  | InitializeResponse _ (inr res) =>
      init_success res
      && match init_session res with Some _ => true | None => false end
  | XhrLoad _ _ status _ (Some result) =>
      (200 <=? status) && (status <? 300) && chunk_success result
  | CompleteResponse _ (inr res) => complete_success res
  | _ => false
  end.

Definition uploadedAt (e : Engine) (a : nat) : Prop :=
  exists c, heap e !! a = Some c /\ uploaded c = true.

(** Worker [k] of the only pass uploads the chunk object at address [k]. *)
Definition worker_fine (e : Engine) (k : nat) (w : Worker) : Prop :=
  w_chunk w = k
  /\ match w_pc w with
     | WUpload _ (XInFlight _) => w_promise w = Pending
     | WUpload _ (XResolved true) => w_promise w = Pending /\ uploadedAt e k
     | WReturned =>
         uploadedAt e k
         /\ match w_promise w with Rejected _ => False | _ => True end
     | _ => False
     end.

Definition pass_stage (n : nat) (done : bool) (ps : Pass) : Prop :=
  (length (p_workers ps) <= n)%nat
  /\ match p_pc ps with
     | AwaitRace snapshot =>
         p_todo ps = seq (length (p_workers ps)) (n - length (p_workers ps))
         /\ snapshot <> []
         /\ Forall (fun k => (k < length (p_workers ps))%nat) snapshot
         /\ done = false
     | AwaitAllSettled snapshot =>
         length (p_workers ps) = n
         /\ (forall k w, p_workers ps !! k = Some w -> w_promise w = Pending ->
               k ∈ snapshot)
         /\ Forall (fun k => (k < length (p_workers ps))%nat) snapshot
         /\ done = false
     | PassReturned =>
         length (p_workers ps) = n
         /\ forall k w, p_workers ps !! k = Some w -> w_promise w = Fulfilled
     | PassThrown _ => False
     end.

Record Uploading (n : nat) (done : bool) (e : Engine) : Prop := {
  up_session : uploadSession (hook e) <> None;
  up_heap_len : length (heap e) = n;
  up_chunks : chunks (hook e) = seq 0 n;
  up_heap : forall i c, heap e !! i = Some c ->
              index c = i /\ or_null (chunkHash c) <> None;
  up_pass : exists ps,
      passes e = [ps]
      /\ (forall k w, p_workers ps !! k = Some w -> worker_fine e k w)
      /\ calls e = [CallCheck; CallInitialize]
                   ++ map CallChunk (seq 0 (length (p_workers ps)))
                   ++ (if done then [CallComplete] else [])
      /\ pass_stage n done ps
}.

(** Events that move the upload on: all but the passing of time and the
    progress reports of a request. *)
Definition advances (ev : Event) : bool :=
  match ev with
  | Tick _ | XhrProgress _ _ _ _ => false
  | _ => true
  end.

(** The requests of a whole upload of [n] chunks, in order. *)
Definition wholeUpload (n : nat) : list BackendCall :=
  [CallCheck; CallInitialize] ++ map CallChunk (seq 0 n) ++ [CallComplete].

Definition Blank (e : Engine) : Prop :=
  heap e = [] /\ passes e = [] /\ chunks (hook e) = []
  /\ executingChunks (hook e) = ∅.

Definition Happy (opts : S3UploadOptions) (f : File) (e : Engine) : Prop :=
  isPaused (hook e) = false /\ currentFile (hook e) = Some f /\ jobs e = []
  /\ match callers e with
     | [cl] =>
         c_kind cl = FromStart
         /\ match c_pc cl with
            | AwaitCheck =>
                Blank e /\ uploadSession (hook e) = None
                /\ calls e = [CallCheck]
            | AwaitInitialize =>
                Blank e /\ calls e = [CallCheck; CallInitialize]
            | AwaitCreateChunks =>
                Blank e /\ uploadSession (hook e) <> None
                /\ calls e = [CallCheck; CallInitialize]
            | AwaitPass p => p = 0%nat /\ Uploading (chunkCount opts f) false e
            | AwaitComplete | Returned _ =>
                Uploading (chunkCount opts f) true e
            | Thrown _ => False
            end
     | _ => False
     end.

Definition completeOk : CompleteResult :=
  {| complete_success := true; complete_message := None;
     complete_url := Some "https://cdn.example/video.mp4" |}.

Definition chunkDone (p k : nat) : list Event :=
  [XhrLoad p k 200 "OK" chunkOk; UploadSettled p k; PromiseReaction p k].

(** A whole upload of the 23 MiB file, three requests at a time. *)
Definition whole_upload : list Event :=
  [CheckResponse 0 (inr checkNothing); InitializeResponse 0 (inr initOk);
   ChunksHashed 0 true; Tick 40]
  ++ chunkDone 0 1 ++ [RaceSettled 0 1]
  ++ chunkDone 0 0 ++ [RaceSettled 0 0]
  ++ [XhrProgress 0 3 1000 (5 * MiB + 400)]
  ++ chunkDone 0 3 ++ [RaceSettled 0 3]
  ++ chunkDone 0 2 ++ chunkDone 0 4
  ++ [AllSettled 0; PassSettled 0; CompleteResponse 0 (inr completeOk)].

(** The callers, the session, the pause flag and the request log are as
    they were. *)
Definition Quiet (e e' : Engine) : Prop :=
  callers e' = callers e /\ uploadSession (hook e') = uploadSession (hook e)
  /\ isPaused (hook e') = isPaused (hook e) /\ calls e' = calls e.

(** * Vocabulary of the progress display *)

(** The fields of a chunk object that [uploadedSize] reads. *)
Definition sized (c c' : S3ChunkInfo) : Prop :=
  uploaded c' = uploaded c /\ start c' = start c /\ end_ c' = end_ c.

(** What is kept by the functions that neither mark a chunk uploaded, nor
    replace the chunk list, nor call [updateTotalProgress]. *)
Record Level (e e' : Engine) : Prop := {
  l_heap : Forall2 sized (heap e) (heap e');
  l_chunks : chunks (hook e') = chunks (hook e);
  l_file : currentFile (hook e') = currentFile (hook e);
  l_progress : uploadProgress (hook e') = uploadProgress (hook e)
}.

(** What [updateTotalProgress] writes for the file [f]. *)
Definition shown (f : File) (e : Engine) : S3UploadProgress :=
  {| loaded := uploadedSize e; total := size f;
     percentage := if 0 <? size f
                   then Math_round_percent (uploadedSize e) (size f) else 0 |}.

(** [uploadProgress] is up to date, or [updateTotalProgress] has not run
    yet and no chunk is uploaded. *)
Definition Synced (f : File) (e : Engine) : Prop :=
  currentFile (hook e) = Some f
  /\ (uploadProgress (hook e) = shown f e
      \/ (uploadProgress (hook e)
          = {| loaded := 0; total := 0; percentage := 0 |}
          /\ uploadedSize e = 0)).

(** * The speed tracker inside the hook *)

(** What is kept by everything but [startUpload] and the [progress]
    listener of a request. *)
Definition Meter (e e' : Engine) : Prop :=
  speedInfo (hook e') = speedInfo (hook e)
  /\ networkStats (hook e') = networkStats (hook e).

(** [networkStats] after [resetNetworkStats()] and the assignment of
    [totalBytes]. *)
Definition statsFor (tb : Z) : S3NetworkStats :=
  {| uploadedBytes := 0; totalBytes := tb; startTime := 0;
     lastMeasureTime := 0; lastMeasureBytes := 0; speedHistory := [] |}.

(** The tracker of the hook is what some calls of [updateNetworkStats] have
    made of its reset state. *)
Definition Fed (e : Engine) : Prop :=
  exists (calls : list (Z * Z)) (tb : Z),
    (speedInfo (hook e), networkStats (hook e))
    = fst (feed calls (resetSpeedInfo, statsFor tb)).

(** * The file fingerprint: calculateFileHash *)

Module Hashing.

(** [blob.size] *)
Definition blob_size (b : Blob) : Z := blob_to b - blob_from b.

Inductive HashPromise :=
| HPending
| HResolved (hash : string)
| HRejected (message : string).

(** What the activation waits for: the [FileReader] reading a blob, the
    timer of [setTimeout(processNextChunk, 0)], or nothing. *)
Inductive Waiting :=
| Reading (chunkBlob : Blob)
| NextTick
| Nothing.

(** The refs [isCalculatingHash] and [hashProgress] of the hook, the
    locals of one activation of [calculateFileHash] ([spark] is the list of
    the buffers appended so far, oldest first), and the promise it
    returned. *)
Record Job := {
  isCalculatingHash : bool;
  hashProgress : S3UploadProgress;
  spark : list Blob;
  currentChunkIndex : Z;
  processedBytes : Z;
  waiting : Waiting;
  promise : HashPromise
}.

(** [resolve] and [reject] leave a settled promise alone. *)
Definition settle (p : HashPromise) (j : Job) : HashPromise :=
  match promise j with HPending => p | q => q end.

Inductive ReaderEvent :=
| Load (hasResult : bool)
| ReadError
| Timer.

Section CalculateFileHash.

(** [spark.end()] as a function of the buffers appended, the option
    [hashChunkSize] and the file. *)
Context (spark_end : list Blob -> string) (hashChunkSize : Z) (file : File).

Definition processNextChunk (j : Job) : Job :=
  let totalChunks := Math_ceil_div (size file) hashChunkSize in
  if totalChunks <=? currentChunkIndex j
  then {| isCalculatingHash := false; hashProgress := hashProgress j;
          spark := spark j; currentChunkIndex := currentChunkIndex j;
          processedBytes := processedBytes j; waiting := Nothing;
          promise := settle (HResolved (spark_end (spark j))) j |}
  else
    let start := currentChunkIndex j * hashChunkSize in
    let end_ := Z.min (start + hashChunkSize) (size file) in
    {| isCalculatingHash := isCalculatingHash j;
       hashProgress := hashProgress j; spark := spark j;
       currentChunkIndex := currentChunkIndex j;
       processedBytes := processedBytes j;
       waiting := Reading (slice file start end_); promise := promise j |}.

(** The call [calculateFileHash(file)], up to its return. *)
Definition calculateFileHash : Job :=
  processNextChunk
    {| isCalculatingHash := true;
       hashProgress := {| loaded := 0; total := size file; percentage := 0 |};
       spark := []; currentChunkIndex := 0; processedBytes := 0;
       waiting := Nothing; promise := HPending |}.

(** The listeners of the reader and the timer callback; [None] when the
    event cannot happen.  [spark.append] does not throw, so the [catch] arm
    of the [load] listener is not entered. *)
Definition on_event (ev : ReaderEvent) (j : Job) : option Job :=
  match ev, waiting j with
  | Load true, Reading chunkBlob =>
      let processed := processedBytes j + blob_size chunkBlob in
      Some {| isCalculatingHash := isCalculatingHash j;
              hashProgress :=
                {| loaded := processed; total := total (hashProgress j);
                   percentage := Math_round_percent processed (size file) |};
              spark := spark j ++ [chunkBlob];
              currentChunkIndex := currentChunkIndex j + 1;
              processedBytes := processed;
              waiting := NextTick; promise := promise j |}
  | Load false, Reading _ =>
      Some {| isCalculatingHash := isCalculatingHash j;
              hashProgress := hashProgress j; spark := spark j;
              currentChunkIndex := currentChunkIndex j;
              processedBytes := processedBytes j;
              waiting := Nothing; promise := promise j |}
  | ReadError, Reading _ =>
      Some {| isCalculatingHash := false;
              hashProgress := hashProgress j; spark := spark j;
              currentChunkIndex := currentChunkIndex j;
              processedBytes := processedBytes j;
              waiting := Nothing;
              promise := settle (HRejected "文件读取失败") j |}
  | Timer, NextTick => Some (processNextChunk j)
  | _, _ => None
  end.

Fixpoint run (evs : list ReaderEvent) (j : Job) : option Job :=
  match evs with
  | [] => Some j
  | ev :: rest => j1 ← on_event ev j; run rest j1
  end.

(** The buffer of chunk [i]. *)
Definition buffer (i : nat) : Blob :=
  slice file (Z.of_nat i * hashChunkSize)
    (Z.min (Z.of_nat i * hashChunkSize + hashChunkSize) (size file)).

(** The number of reads: [Math.ceil(file.size / hashChunkSize)]. *)
Definition reads : nat := Z.to_nat (Math_ceil_div (size file) hashChunkSize).

(** Every read succeeds. *)
Definition all_loaded : list ReaderEvent :=
  concat (repeat [Load true; Timer] reads).

(** The state after [i] successful reads. *)
Definition Tiled (i : nat) (j : Job) : Prop :=
  currentChunkIndex j = Z.of_nat i /\ (i <= reads)%nat
  /\ spark j = map buffer (seq 0 i)
  /\ processedBytes j = Z.min (Z.of_nat i * hashChunkSize) (size file)
  /\ hashProgress j
     = {| loaded := processedBytes j; total := size file;
          percentage := match i with
                        | O => 0
                        | S _ => Math_round_percent (processedBytes j)
                                   (size file)
                        end |}
  /\ match waiting j, promise j with
     | Reading b, HPending =>
         b = buffer i /\ (i < reads)%nat /\ isCalculatingHash j = true
     | NextTick, HPending | Nothing, HPending => isCalculatingHash j = true
     | Nothing, HResolved h =>
         i = reads /\ h = spark_end (map buffer (seq 0 reads))
         /\ isCalculatingHash j = false
     | Nothing, HRejected m =>
         m = "文件读取失败" /\ isCalculatingHash j = false
     | _, _ => False
     end.

End CalculateFileHash.

(** A toy digest for the samples: the number of buffers. *)
Definition count_buffers (bufs : list Blob) : string := toString (length bufs).

End Hashing.

(** * cancelUpload *)

(** One iteration of the loop of [cancelUpload] over [chunks.value]. *)
Definition cancel_chunk (e : Engine) (a : nat) : Engine :=
  match heap e !! a with
  | Some c =>
      match abortController c with
      | Some ctrl => if negb (uploaded c) then abort ctrl e else e
      | None => e
      end
  | None => e
  end.

(** The call [cancelUpload()], up to the [fetch] of the cancel request: the
    flag tells whether there is a session, so that the request is posted
    and the function is suspended at its [await]; with no session the
    function runs to its end.  It also clears [isCalculatingHash], which
    [Hook] does not hold. *)
Definition cancelUpload (e : Engine) : Engine * bool :=
  let e1 := upd_hook (fun h => set_isCheckingUpload false
                                 (set_isUploading false
                                    (set_isPaused true h))) e in
  let e2 := fold_left cancel_chunk (chunks (hook e1)) e1 in
  let e3 := upd_hook (set_executingChunks ∅) e2 in
  match uploadSession (hook e3) with
  | Some _ => (e3, true)
  | None => (upd_hook resetNetworkStats e3, false)
  end.

(** The end of [cancelUpload], once the cancel request has settled; its
    failure is caught and logged. *)
Definition cancel_settled (e : Engine) : Engine :=
  upd_hook resetNetworkStats e.

(** The controllers of the requests on the wire. *)
Definition flying (e : Engine) : list (option nat) :=
  omap (fun w => match w_pc w with
                 | WUpload ctrl (XInFlight _) => Some ctrl
                 | _ => None
                 end)
       (concat (map p_workers (passes e))).

(** The chunk object at address [a] is not uploaded and holds the
    controller [ctrl]. *)
Definition controls (e : Engine) (ctrl : nat) (a : nat) : bool :=
  match heap e !! a with
  | Some c =>
      negb (uploaded c)
      && match abortController c with
         | Some c' => Nat.eqb c' ctrl
         | None => false
         end
  | None => false
  end.

(** Every request on the wire belongs to a chunk of [chunks.value] that is
    not uploaded and holds the controller of the request, which is not
    aborted. *)
Definition covered (e : Engine) : bool :=
  forallb (fun ctrl => match ctrl with
                       | Some c' =>
                           existsb (controls e c') (chunks (hook e))
                           && negb (bool_decide (c' ∈ aborted e))
                       | None => false
                       end)
          (flying e).

(** Three requests on the wire, the first at 0 percent once rounded. *)
Definition three_in_flight : list Event :=
  fresh_start
  ++ [Tick 40; XhrProgress 0 0 1000 (5 * MiB + 400);
      XhrProgress 0 1 (5 * MiB / 2) (5 * MiB + 400)].

(** After a cancellation: the aborted uploads unwind, the pass returns and
    [startUpload] throws. *)
Definition cancelled_unwinds : list Event :=
  [Tick 1000; UploadSettled 0 0; UploadSettled 0 1; UploadSettled 0 2;
   PromiseReaction 0 0; PromiseReaction 0 1; PromiseReaction 0 2;
   RaceSettled 0 0; AllSettled 0; PassSettled 0].

(** * One upload request of the local hook *)

(** The events of one request, each with the time it happens at. *)
Fixpoint local_run (evs : list (Z * Local.XhrEvent)) (t : Local.Transporter)
  : option Local.Transporter :=
  match evs with
  | [] => Some t
  | (now, ev) :: rest => t1 ← Local.on_event now ev t; local_run rest t1
  end.

(** What an activation of the local [uploadChunk] keeps, for the chunk [c]
    it was called with. *)
Definition local_upload_ok (c : Local.ChunkInfo) (t : Local.Transporter)
  : Prop :=
  local_plan (Local.t_chunk t) = local_plan c
  /\ Local.blob (Local.t_chunk t) = Local.blob c
  /\ Local.hash (Local.t_chunk t) = Local.hash c
  /\ Local.retryCount (Local.t_chunk t) = Local.retryCount c
  /\ 0 <= Local.progress (Local.t_chunk t) <= 100
  /\ Local.xhr_timeout t = 0
  /\ match Local.promise t with
     | Local.Pending => Local.uploaded (Local.t_chunk t) = false
     | Local.Resolved v =>
         v = true /\ Local.uploaded (Local.t_chunk t) = true
         /\ Local.progress (Local.t_chunk t) = 100
         /\ Local.timer t = None
     | Local.Rejected _ =>
         Local.uploaded (Local.t_chunk t) = false /\ Local.timer t = None
     end.

(** A request that reports progress, outlives the 30 second timer and then
    completes. *)
Definition slow_upload : list (Z * Local.XhrEvent) :=
  [(2000, Local.Progress 1000 4000); (31000, Local.TimerFired);
   (45000, Local.Progress 4000 4000);
   (45010, Local.Load 200 "OK" (Some (true, None)))].

(** Chunk [i] of the 23 MiB file, as the local hook plans it. *)
Definition planned_chunk (i : nat) : Local.ChunkInfo :=
  {| Local.index := i; Local.start := Z.of_nat i * (5 * MiB);
     Local.end_ := Z.min (Z.of_nat i * (5 * MiB) + 5 * MiB) (23 * MiB);
     Local.blob := slice file23 (Z.of_nat i * (5 * MiB))
                     (Z.min (Z.of_nat i * (5 * MiB) + 5 * MiB) (23 * MiB));
     Local.hash := Local.chunkHashOf "abc" i; Local.uploaded := false;
     Local.progress := 0; Local.retryCount := 0;
     Local.uploadStartTime := None; Local.uploadEndTime := None |}.

(** * One activation of the local hook's uploadChunksConcurrently

    The activation with the chunk objects it took from
    [remainingChunks.value], the flag [isPaused.value], which the user can
    set at any time, and the activations of [uploadSingleChunk] it started.
    Every such activation holds the request of its last call of
    [uploadChunk]; a promise of the [executing] array is named by the
    position of its activation. *)

Module LocalPass.

(** Where an activation of [uploadSingleChunk] is suspended, or how it
    ended. *)
Inductive SinglePc :=
| AwaitUpload
| AwaitDelay (until : Z)
| Returned
| Thrown (message : string).

(** The promise [uploadSingleChunk(chunk).then(...)]. *)
Inductive ThenSt :=
| Waiting
| Fulfilled
| Failed (message : string).

Record Single := {
  s_chunk : Local.ChunkInfo;
  s_attempts : Z;
  s_success : bool;
  s_request : option Local.Transporter;
  s_pc : SinglePc;
  s_then : ThenSt
}.

Definition set_s_pc (pc : SinglePc) (s : Single) : Single :=
  {| s_chunk := s_chunk s; s_attempts := s_attempts s;
     s_success := s_success s; s_request := s_request s; s_pc := pc;
     s_then := s_then s |}.

Definition set_s_success (v : bool) (s : Single) : Single :=
  {| s_chunk := s_chunk s; s_attempts := s_attempts s; s_success := v;
     s_request := s_request s; s_pc := s_pc s; s_then := s_then s |}.

Definition set_s_request (t : Local.Transporter) (s : Single) : Single :=
  {| s_chunk := s_chunk s; s_attempts := s_attempts s;
     s_success := s_success s; s_request := Some t; s_pc := s_pc s;
     s_then := s_then s |}.

Definition set_s_then (st : ThenSt) (s : Single) : Single :=
  {| s_chunk := s_chunk s; s_attempts := s_attempts s;
     s_success := s_success s; s_request := s_request s; s_pc := s_pc s;
     s_then := st |}.

(** The chunk object as the requests of the activation have left it. *)
Definition chunk_now (s : Single) : Local.ChunkInfo :=
  match s_request s with
  | Some t => Local.t_chunk t
  | None => s_chunk s
  end.

Inductive PassPc :=
| AwaitRace (snapshot : list nat)
| AwaitAll (snapshot : list nat)
| PassReturned
| PassThrown (message : string).

Record Pass := {
  isPaused : bool;
  clock : Z;
  todo : list Local.ChunkInfo;
  executing : list nat;
  singles : list Single;
  pc : PassPc
}.

Definition set_pc (p : PassPc) (ps : Pass) : Pass :=
  {| isPaused := isPaused ps; clock := clock ps; todo := todo ps;
     executing := executing ps; singles := singles ps; pc := p |}.

Definition set_todo (l : list Local.ChunkInfo) (ps : Pass) : Pass :=
  {| isPaused := isPaused ps; clock := clock ps; todo := l;
     executing := executing ps; singles := singles ps; pc := pc ps |}.

Definition set_executing (l : list nat) (ps : Pass) : Pass :=
  {| isPaused := isPaused ps; clock := clock ps; todo := todo ps;
     executing := l; singles := singles ps; pc := pc ps |}.

Definition set_singles (l : list Single) (ps : Pass) : Pass :=
  {| isPaused := isPaused ps; clock := clock ps; todo := todo ps;
     executing := executing ps; singles := l; pc := pc ps |}.

(** [array.indexOf(x)], with [None] for -1. *)
Fixpoint indexOf (l : list nat) (k : nat) : option nat :=
  match l with
  | [] => None
  | x :: r => if Nat.eqb x k then Some 0%nat else option_map S (indexOf r k)
  end.

(** [array.splice(i, 1)]: at -1 it removes the last element. *)
Definition splice (l : list nat) (i : option nat) : list nat :=
  match i with
  | Some i => delete i l
  | None => removelast l
  end.

Section Activation.
Context (retryTimes concurrent : Z).

Definition retriedMessage (c : Local.ChunkInfo) : string :=
  ("分片 " ++ toString (Local.index c) ++ " 上传失败，已重试 "
   ++ Z_toString retryTimes ++ " 次")%string.

(** The test of the [while] loop of [uploadSingleChunk], with the call of
    [uploadChunk] when it holds and the end of the function when it does
    not. *)
Definition loop_test (paused : bool) (now : Z) (s : Single) : Single :=
  if negb (s_success s) && (s_attempts s <? retryTimes) && negb paused
  then {| s_chunk := s_chunk s; s_attempts := s_attempts s + 1;
          s_success := s_success s;
          s_request := Some (Local.uploadChunk now (chunk_now s));
          s_pc := AwaitUpload; s_then := s_then s |}
  else if negb (s_success s)
       then set_s_pc (Thrown (retriedMessage (s_chunk s))) s
       else set_s_pc Returned s.

(** The call [uploadSingleChunk(chunk)], up to its first [await]. *)
Definition uploadSingleChunk (paused : bool) (now : Z) (c : Local.ChunkInfo)
  : Single :=
  let s := {| s_chunk := c; s_attempts := 0; s_success := false;
              s_request := None; s_pc := Returned; s_then := Waiting |} in
  if paused then s else loop_test paused now s.

(** Resuming after [await uploadChunk(chunk)]. *)
Definition after_upload (paused : bool) (now : Z) (s : Single)
  : option Single :=
  match s_pc s, s_request s with
  | AwaitUpload, Some t =>
      match Local.promise t with
      | Local.Pending => None
      | Local.Resolved v =>
          let s1 := set_s_success v s in
          if negb v && (s_attempts s <? retryTimes)
          then Some (set_s_pc (AwaitDelay (now + 1000 * s_attempts s)) s1)
          else Some (loop_test paused now s1)
      | Local.Rejected m => Some (set_s_pc (Thrown m) s)
      end
  | _, _ => None
  end.

(** Resuming after the delay before a retry. *)
Definition after_delay (paused : bool) (now : Z) (s : Single)
  : option Single :=
  match s_pc s with
  | AwaitDelay until =>
      if until <=? now then Some (loop_test paused now s) else None
  | _ => None
  end.

(** The [for] loop over the chunks not visited yet, up to the next
    [await]. *)
Fixpoint pass_loop (chunks : list Local.ChunkInfo) (ps : Pass) : Pass :=
  match chunks with
  | [] => set_pc (AwaitAll (executing ps)) (set_todo [] ps)
  | c :: rest =>
      if isPaused ps
      then set_pc (AwaitAll (executing ps)) (set_todo chunks ps)
      else
        let k := length (singles ps) in
        let ps1 :=
          set_executing (executing ps ++ [k])
            (set_singles
               (singles ps ++ [uploadSingleChunk (isPaused ps) (clock ps) c])
               ps) in
        if concurrent <=? Z.of_nat (length (executing ps1))
        then set_pc (AwaitRace (executing ps1)) (set_todo rest ps1)
        else pass_loop rest ps1
  end.

(** The call [uploadChunksConcurrently()], up to its first [await]. *)
Definition uploadChunksConcurrently (paused : bool) (now : Z)
    (pendingChunks : list Local.ChunkInfo) : Pass :=
  pass_loop pendingChunks
    {| isPaused := paused; clock := now; todo := []; executing := [];
       singles := []; pc := AwaitAll [] |}.

Inductive Event :=
| Tick (dt : Z)
| SetPaused (b : bool)
| Xhr (k : nat) (ev : Local.XhrEvent)
| UploadSettled (k : nat)
| DelayElapsed (k : nat)
| Reaction (k : nat)
| RaceSettled (k : nat)
| AllFulfilled
| AllRejected (k : nat).

Definition with_single (k : nat) (g : Single -> option Single) (ps : Pass)
  : option Pass :=
  s ← singles ps !! k;
  s1 ← g s;
  Some (set_singles (<[k := s1]> (singles ps)) ps).

(** The reaction of promise [k] to the end of its [uploadSingleChunk]: the
    [then] callback takes the promise out of [executing]; a rejection is
    passed on. *)
Definition reaction (k : nat) (ps : Pass) : option Pass :=
  s ← singles ps !! k;
  match s_then s, s_pc s with
  | Waiting, Returned =>
      Some (set_executing (splice (executing ps) (indexOf (executing ps) k))
              (set_singles (<[k := set_s_then Fulfilled s]> (singles ps)) ps))
  | Waiting, Thrown m =>
      Some (set_singles (<[k := set_s_then (Failed m) s]> (singles ps)) ps)
  | _, _ => None
  end.

(** Resuming after [await Promise.race(executing)], settled by promise
    [k]. *)
Definition race_settled (k : nat) (ps : Pass) : option Pass :=
  match pc ps with
  | AwaitRace snapshot =>
      if bool_decide (k ∈ snapshot) then
        s ← singles ps !! k;
        match s_then s with
        | Waiting => None
        | Fulfilled => Some (pass_loop (todo ps) ps)
        | Failed m => Some (set_pc (PassThrown m) ps)
        end
      else None
  | _ => None
  end.

Definition is_fulfilled (ps : Pass) (k : nat) : bool :=
  match singles ps !! k with
  | Some s => match s_then s with Fulfilled => true | _ => false end
  | None => false
  end.

(** Resuming after [await Promise.all(executing)]. *)
Definition all_fulfilled (ps : Pass) : option Pass :=
  match pc ps with
  | AwaitAll snapshot =>
      if forallb (is_fulfilled ps) snapshot
      then Some (set_pc PassReturned ps) else None
  | _ => None
  end.

Definition all_rejected (k : nat) (ps : Pass) : option Pass :=
  match pc ps with
  | AwaitAll snapshot =>
      if bool_decide (k ∈ snapshot) then
        s ← singles ps !! k;
        match s_then s with
        | Failed m => Some (set_pc (PassThrown m) ps)
        | _ => None
        end
      else None
  | _ => None
  end.

(** One step: the user sets or clears [isPaused], an event of a request, or
    the resumption of a suspended activation.  [None] means the event
    cannot happen in that state. *)
Definition step (ps : Pass) (ev : Event) : option Pass :=
  match ev with
  | Tick dt =>
      if 0 <=? dt
      then Some {| isPaused := isPaused ps; clock := clock ps + dt;
                   todo := todo ps; executing := executing ps;
                   singles := singles ps; pc := pc ps |}
      else None
  | SetPaused b =>
      Some {| isPaused := b; clock := clock ps; todo := todo ps;
              executing := executing ps; singles := singles ps;
              pc := pc ps |}
  | Xhr k ev =>
      with_single k (fun s => t ← s_request s;
                              t1 ← Local.on_event (clock ps) ev t;
                              Some (set_s_request t1 s)) ps
  | UploadSettled k =>
      with_single k (after_upload (isPaused ps) (clock ps)) ps
  | DelayElapsed k => with_single k (after_delay (isPaused ps) (clock ps)) ps
  | Reaction k => reaction k ps
  | RaceSettled k => race_settled k ps
  | AllFulfilled => all_fulfilled ps
  | AllRejected k => all_rejected k ps
  end.

Fixpoint run (ps : Pass) (evs : list Event) : option Pass :=
  match evs with
  | [] => Some ps
  | ev :: rest => ps1 ← step ps ev; run ps1 rest
  end.

(** Requests on the wire. *)
Definition inFlight (ps : Pass) : nat :=
  length (List.filter
            (fun s => match s_request s with
                      | Some t => Local.in_flight t
                      | None => false
                      end) (singles ps)).

End Activation.

End LocalPass.

(** ** Vocabulary of its invariant *)

(** The promises that are not fulfilled, by position. *)
Fixpoint open_from (i : nat) (l : list LocalPass.ThenSt) : list nat :=
  match l with
  | [] => []
  | LocalPass.Fulfilled :: r => open_from (S i) r
  | _ :: r => i :: open_from (S i) r
  end.

(** What holds of every activation of [uploadSingleChunk]: it made one
    call of [uploadChunk], or none and threw at once because [retryTimes]
    is not positive; it never waits before a retry. *)
Definition single_ok (retryTimes : Z) (s : LocalPass.Single) : Prop :=
  (LocalPass.s_request s <> None -> 0 < retryTimes)
  /\ match LocalPass.s_then s with
     | LocalPass.Waiting => True
     | LocalPass.Fulfilled => LocalPass.s_pc s = LocalPass.Returned
     | LocalPass.Failed m => LocalPass.s_pc s = LocalPass.Thrown m
     end
  /\ match LocalPass.s_pc s with
     | LocalPass.AwaitUpload =>
         LocalPass.s_attempts s = 1 /\ LocalPass.s_success s = false
         /\ exists t, LocalPass.s_request s = Some t
                      /\ local_upload_ok (LocalPass.s_chunk s) t
     | LocalPass.AwaitDelay _ => False
     | LocalPass.Returned =>
         LocalPass.s_attempts s = 1
         /\ exists t, LocalPass.s_request s = Some t
                      /\ local_upload_ok (LocalPass.s_chunk s) t
                      /\ Local.promise t = Local.Resolved true
     | LocalPass.Thrown m =>
         (LocalPass.s_attempts s = 1
          /\ exists t, LocalPass.s_request s = Some t
                       /\ local_upload_ok (LocalPass.s_chunk s) t
                       /\ Local.promise t = Local.Rejected m)
         \/ (retryTimes <= 0 /\ LocalPass.s_attempts s = 0
             /\ LocalPass.s_request s = None
             /\ m = LocalPass.retriedMessage retryTimes (LocalPass.s_chunk s))
     end.

Record LocalPassInv (retryTimes concurrent : Z)
    (pendingChunks : list Local.ChunkInfo) (ps : LocalPass.Pass) : Prop := {
  lp_plan : pendingChunks
            = map LocalPass.s_chunk (LocalPass.singles ps) ++ LocalPass.todo ps;
  lp_fresh : Forall (fun c => Local.uploaded c = false) (LocalPass.todo ps);
  lp_singles : Forall (single_ok retryTimes) (LocalPass.singles ps);
  lp_executing : LocalPass.executing ps
                 = open_from 0 (map LocalPass.s_then (LocalPass.singles ps));
  lp_bound : Z.of_nat (length (LocalPass.executing ps)) <= Z.max 1 concurrent;
  lp_pc : match LocalPass.pc ps with
          | LocalPass.AwaitRace snapshot =>
              sublist (LocalPass.executing ps) snapshot
              /\ Z.of_nat (length snapshot) <= Z.max 1 concurrent
          | LocalPass.AwaitAll snapshot =>
              forall k s, LocalPass.singles ps !! k = Some s ->
                          LocalPass.s_then s <> LocalPass.Fulfilled ->
                          k ∈ snapshot
          | LocalPass.PassReturned =>
              Forall (fun s => LocalPass.s_then s = LocalPass.Fulfilled)
                (LocalPass.singles ps)
          | LocalPass.PassThrown m =>
              exists k s, LocalPass.singles ps !! k = Some s
                          /\ LocalPass.s_then s = LocalPass.Failed m
          end
}.

(** The flag [isPaused] is false and the [for] loop has not been left by
    [break]. *)
Definition unpaused (ps : LocalPass.Pass) : Prop :=
  LocalPass.isPaused ps = false
  /\ match LocalPass.pc ps with
     | LocalPass.AwaitAll _ | LocalPass.PassReturned => LocalPass.todo ps = []
     | _ => True
     end.

Definition pauses (ev : LocalPass.Event) : bool :=
  match ev with LocalPass.SetPaused true => true | _ => false end.

Definition unpauses (ev : LocalPass.Event) : bool :=
  match ev with LocalPass.SetPaused false => true | _ => false end.

(** What a pass leaves alone while it is paused. *)
Definition held (ps ps' : LocalPass.Pass) : Prop :=
  LocalPass.isPaused ps' = true
  /\ map LocalPass.s_attempts (LocalPass.singles ps')
     = map LocalPass.s_attempts (LocalPass.singles ps)
  /\ LocalPass.todo ps' = LocalPass.todo ps.

(** The first five chunks of the 23 MiB file. *)
Definition five_chunks : list Local.ChunkInfo := map planned_chunk (seq 0 5).

Definition localOk : Local.XhrEvent :=
  Local.Load 200 "OK" (Some (true, None)).

(** The request of chunk 1 fails. *)
Definition second_request_fails : list LocalPass.Event :=
  [LocalPass.Xhr 1 Local.NetworkError; LocalPass.UploadSettled 1;
   LocalPass.Reaction 1; LocalPass.RaceSettled 1].

(** The user pauses after the first request; the requests on the wire
    complete. *)
Definition paused_after_first : list LocalPass.Event :=
  [LocalPass.Xhr 0 localOk; LocalPass.UploadSettled 0; LocalPass.Reaction 0;
   LocalPass.SetPaused true; LocalPass.RaceSettled 0;
   LocalPass.Xhr 2 localOk; LocalPass.UploadSettled 2; LocalPass.Reaction 2;
   LocalPass.Xhr 1 localOk; LocalPass.UploadSettled 1; LocalPass.Reaction 1;
   LocalPass.AllFulfilled].

(** * One activation of the local hook's startUpload

    The activation from its call to its end, with the activation of
    [uploadChunksConcurrently] it starts.  Once that one has started, the
    chunk objects that were not uploaded are held by it, in the order of
    [chunks.value]. *)

Module LocalStart.

Record CheckUploadResponse := {
  fileExists : bool;
  isComplete : bool;
  url : option string;
  uploadedChunks : list string
}.

Record MergeResponse := {
  success : bool;
  message : option string;
  merge_url : option string
}.

Inductive Call := CallCheck | CallMerge.

(** Where the activation is: suspended at one of its three [await]s, with
    [CheckReturned r] for the moment when [checkUploadStatus] has run its
    last segment and settled with [r], and the continuation of
    [startUpload], queued behind the render of what that segment wrote, has
    not run yet. *)
Inductive StartPc :=
| AwaitCheck
| CheckReturned (r : string + CheckUploadResponse)
| AwaitPass
| AwaitMerge
| Returned (r : option string)
| Thrown (message : string).

Record Upload := {
  isUploading : bool;
  isCompleted : bool;
  isSecondTransfer : bool;
  isCheckingUpload : bool;
  isPaused : bool;
  chunks : list Local.ChunkInfo;
  pass : option LocalPass.Pass;
  clock : Z;
  calls : list Call;
  pc : StartPc
}.

Definition set_pc (p : StartPc) (u : Upload) : Upload :=
  {| isUploading := isUploading u; isCompleted := isCompleted u;
     isSecondTransfer := isSecondTransfer u;
     isCheckingUpload := isCheckingUpload u; isPaused := isPaused u;
     chunks := chunks u; pass := pass u; clock := clock u; calls := calls u;
     pc := p |}.

Definition set_isUploading (b : bool) (u : Upload) : Upload :=
  {| isUploading := b; isCompleted := isCompleted u;
     isSecondTransfer := isSecondTransfer u;
     isCheckingUpload := isCheckingUpload u; isPaused := isPaused u;
     chunks := chunks u; pass := pass u; clock := clock u; calls := calls u;
     pc := pc u |}.

Definition set_isCompleted (b : bool) (u : Upload) : Upload :=
  {| isUploading := isUploading u; isCompleted := b;
     isSecondTransfer := isSecondTransfer u;
     isCheckingUpload := isCheckingUpload u; isPaused := isPaused u;
     chunks := chunks u; pass := pass u; clock := clock u; calls := calls u;
     pc := pc u |}.

Definition set_isSecondTransfer (b : bool) (u : Upload) : Upload :=
  {| isUploading := isUploading u; isCompleted := isCompleted u;
     isSecondTransfer := b; isCheckingUpload := isCheckingUpload u;
     isPaused := isPaused u; chunks := chunks u; pass := pass u;
     clock := clock u; calls := calls u; pc := pc u |}.

Definition set_isCheckingUpload (b : bool) (u : Upload) : Upload :=
  {| isUploading := isUploading u; isCompleted := isCompleted u;
     isSecondTransfer := isSecondTransfer u; isCheckingUpload := b;
     isPaused := isPaused u; chunks := chunks u; pass := pass u;
     clock := clock u; calls := calls u; pc := pc u |}.

Definition set_chunks (l : list Local.ChunkInfo) (u : Upload) : Upload :=
  {| isUploading := isUploading u; isCompleted := isCompleted u;
     isSecondTransfer := isSecondTransfer u;
     isCheckingUpload := isCheckingUpload u; isPaused := isPaused u;
     chunks := l; pass := pass u; clock := clock u; calls := calls u;
     pc := pc u |}.

Definition set_pass (ps : LocalPass.Pass) (u : Upload) : Upload :=
  {| isUploading := isUploading u; isCompleted := isCompleted u;
     isSecondTransfer := isSecondTransfer u;
     isCheckingUpload := isCheckingUpload u; isPaused := isPaused u;
     chunks := chunks u; pass := Some ps; clock := clock u; calls := calls u;
     pc := pc u |}.

(** [remainingChunks.value] *)
Definition remainingChunks (cs : list Local.ChunkInfo) : list Local.ChunkInfo :=
  List.filter (fun c => negb (Local.uploaded c)) cs.

(** [uploadedChunks.value] *)
Definition uploadedChunksOf (cs : list Local.ChunkInfo) : list Local.ChunkInfo :=
  List.filter Local.uploaded cs.

(** The chunk objects a pass holds, as they are now. *)
Definition pendingNow (ps : LocalPass.Pass) : list Local.ChunkInfo :=
  map LocalPass.chunk_now (LocalPass.singles ps) ++ LocalPass.todo ps.

(** [chunks.value] with the objects a pass holds put back in their
    places. *)
Fixpoint weave (cs held : list Local.ChunkInfo) : list Local.ChunkInfo :=
  match cs with
  | [] => []
  | c :: r =>
      if Local.uploaded c then c :: weave r held
      else match held with
           | h :: held' => h :: weave r held'
           | [] => c :: weave r []
           end
  end.

(** The chunk objects of [chunks.value] as they are now. *)
Definition chunksNow (u : Upload) : list Local.ChunkInfo :=
  match pass u with
  | Some ps => weave (chunks u) (pendingNow ps)
  | None => chunks u
  end.

Section Activation.
Context (chunkSize retryTimes concurrent : Z) (file : File)
  (fileHash : string).

(** The [catch] block of [startUpload]. *)
Definition throw (m : string) (u : Upload) : Upload :=
  set_pc (Thrown m) (set_isUploading false u).

(** The call [mergeChunks()], up to its [fetch]. *)
Definition mergeChunks (u : Upload) : Upload :=
  {| isUploading := isUploading u; isCompleted := isCompleted u;
     isSecondTransfer := isSecondTransfer u;
     isCheckingUpload := isCheckingUpload u; isPaused := isPaused u;
     chunks := chunks u; pass := pass u; clock := clock u;
     calls := calls u ++ [CallMerge]; pc := AwaitMerge |}.

(** The call [startUpload()] with a file and its fingerprint, up to the
    [fetch] of [checkUploadStatus], past the two guards; [cs] is
    [chunks.value], [now] the
    time. *)
Definition startUpload (now : Z) (cs : list Local.ChunkInfo) : Upload :=
  {| isUploading := true; isCompleted := false; isSecondTransfer := false;
     isCheckingUpload := true; isPaused := false; chunks := cs; pass := None;
     clock := now; calls := [CallCheck]; pc := AwaitCheck |}.

(** The last segment of [checkUploadStatus], from the parsed answer (or the
    failure of the request) to the end of its [finally] block. *)
Definition check_settled (r : string + CheckUploadResponse) (u : Upload)
  : option Upload :=
  match pc u with
  | AwaitCheck =>
      match r with
      | inl m => Some (set_pc (CheckReturned r) (set_isCheckingUpload false u))
      | inr result =>
          if fileExists result && isComplete result
          then Some (set_pc (CheckReturned r)
                       (set_isCheckingUpload false
                          (set_isCompleted true
                             (set_isSecondTransfer true u))))
          else
            let u1 :=
              if (0 <? Z.of_nat (length (uploadedChunks result)))
              then set_chunks (Local.createChunksAndMarkUploaded chunkSize file
                                 fileHash (uploadedChunks result)) u
              else u in
            Some (set_pc (CheckReturned r) (set_isCheckingUpload false u1))
      end
  | _ => None
  end.

(** [startUpload] from the end of [await checkUploadStatus()] to its next
    [await], its [return] or its [catch] block. *)
Definition check_resumed (u : Upload) : option Upload :=
  match pc u with
  | CheckReturned (inl m) => Some (throw m u)
  | CheckReturned (inr result) =>
      if fileExists result && isComplete result
      then Some (set_pc (Returned (or_null (url result)))
                   (set_isSecondTransfer true
                      (set_isUploading false (set_isCompleted true u))))
      else
        let u3 :=
          if Nat.eqb (length (chunks u)) 0
          then set_chunks (Local.createChunks chunkSize file fileHash) u
          else u in
        if Nat.eqb (length (uploadedChunksOf (chunks u3)))
             (length (chunks u3))
        then Some (mergeChunks u3)
        else Some (set_pc AwaitPass
                     (set_pass
                        (LocalPass.uploadChunksConcurrently retryTimes
                           concurrent (isPaused u3) (clock u3)
                           (remainingChunks (chunks u3))) u3))
  | _ => None
  end.

(** Resuming after [await uploadChunksConcurrently()]. *)
Definition pass_settled (u : Upload) : option Upload :=
  match pc u, pass u with
  | AwaitPass, Some ps =>
      match LocalPass.pc ps with
      | LocalPass.PassReturned => Some (mergeChunks u)
      | LocalPass.PassThrown m => Some (throw m u)
      | _ => None
      end
  | _, _ => None
  end.

(** The end of [mergeChunks], whose last segment writes nothing of the
    hook, and [startUpload] from there to its end: [inl] carries the text of
    the error the [catch] block of [mergeChunks] received. *)
Definition merge_response (r : string + MergeResponse) (u : Upload)
  : option Upload :=
  match pc u with
  | AwaitMerge =>
      match r with
      | inl e => Some (throw ("合并分片失败: " ++ e) u)
      | inr result =>
          if success result
          then Some (set_pc (Returned (or_null (merge_url result)))
                       (set_isUploading false (set_isCompleted true u)))
          else Some (throw (match or_null (message result) with
                            | Some m => m
                            | None => "合并失败"
                            end) u)
      end
  | _ => None
  end.

Inductive Event :=
| CheckSettled (r : string + CheckUploadResponse)
| CheckResumed
| PassSettled
| MergeSettled (r : string + MergeResponse)
| Inner (ev : LocalPass.Event).

(** An event of the pass, or the clock and [pauseUpload] while there is no
    pass.  None of them can come between the end of [checkUploadStatus] and
    the continuation of [startUpload], which is already queued. *)
Definition inner (ev : LocalPass.Event) (u : Upload) : option Upload :=
  match pc u, pass u with
  | CheckReturned _, _ => None
  | _, Some ps =>
      ps1 ← LocalPass.step retryTimes concurrent ps ev; Some (set_pass ps1 u)
  | _, None =>
      match ev with
      | LocalPass.Tick dt =>
          if 0 <=? dt
          then Some {| isUploading := isUploading u;
                       isCompleted := isCompleted u;
                       isSecondTransfer := isSecondTransfer u;
                       isCheckingUpload := isCheckingUpload u;
                       isPaused := isPaused u; chunks := chunks u;
                       pass := pass u; clock := clock u + dt;
                       calls := calls u; pc := pc u |}
          else None
      | LocalPass.SetPaused b =>
          Some {| isUploading := isUploading u; isCompleted := isCompleted u;
                  isSecondTransfer := isSecondTransfer u;
                  isCheckingUpload := isCheckingUpload u; isPaused := b;
                  chunks := chunks u; pass := pass u; clock := clock u;
                  calls := calls u; pc := pc u |}
      | _ => None
      end
  end.

Definition step (u : Upload) (ev : Event) : option Upload :=
  match ev with
  | CheckSettled r => check_settled r u
  | CheckResumed => check_resumed u
  | PassSettled => pass_settled u
  | MergeSettled r => merge_response r u
  | Inner ev => inner ev u
  end.

Fixpoint run (u : Upload) (evs : list Event) : option Upload :=
  match evs with
  | [] => Some u
  | ev :: rest => u1 ← step u ev; run u1 rest
  end.

End Activation.

End LocalStart.

(** ** Vocabulary of its invariant *)

(** What holds once the merge request is made. *)
Definition merge_ready (retryTimes concurrent : Z) (u : LocalStart.Upload)
  : Prop :=
  match LocalStart.pass u with
  | None => Forall (fun c => Local.uploaded c = true) (LocalStart.chunks u)
  | Some ps =>
      LocalPassInv retryTimes concurrent
        (LocalStart.remainingChunks (LocalStart.chunks u)) ps
      /\ LocalPass.pc ps = LocalPass.PassReturned
  end.

(** The answer of the check request says the file is stored completely. *)
Definition instantly (r : string + LocalStart.CheckUploadResponse) : bool :=
  match r with
  | inr result => LocalStart.fileExists result && LocalStart.isComplete result
  | inl _ => false
  end.

Definition LocalStartInv (retryTimes concurrent : Z) (u : LocalStart.Upload)
  : Prop :=
  match LocalStart.pc u with
  | LocalStart.AwaitCheck =>
      LocalStart.pass u = None
      /\ LocalStart.calls u = [LocalStart.CallCheck]
      /\ LocalStart.isUploading u = true /\ LocalStart.isCompleted u = false
      /\ LocalStart.isCheckingUpload u = true
      /\ LocalStart.isSecondTransfer u = false
  | LocalStart.CheckReturned r =>
      LocalStart.pass u = None
      /\ LocalStart.calls u = [LocalStart.CallCheck]
      /\ LocalStart.isUploading u = true
      /\ LocalStart.isCheckingUpload u = false
      /\ LocalStart.isCompleted u = instantly r
      /\ LocalStart.isSecondTransfer u = instantly r
  | LocalStart.AwaitPass =>
      LocalStart.calls u = [LocalStart.CallCheck]
      /\ LocalStart.isUploading u = true /\ LocalStart.isCompleted u = false
      /\ LocalStart.isCheckingUpload u = false
      /\ LocalStart.isSecondTransfer u = false
      /\ exists ps, LocalStart.pass u = Some ps
           /\ LocalPassInv retryTimes concurrent
                (LocalStart.remainingChunks (LocalStart.chunks u)) ps
  | LocalStart.AwaitMerge =>
      LocalStart.calls u = [LocalStart.CallCheck; LocalStart.CallMerge]
      /\ LocalStart.isUploading u = true /\ LocalStart.isCompleted u = false
      /\ LocalStart.isCheckingUpload u = false
      /\ LocalStart.isSecondTransfer u = false
      /\ merge_ready retryTimes concurrent u
  | LocalStart.Returned _ =>
      LocalStart.isUploading u = false /\ LocalStart.isCompleted u = true
      /\ LocalStart.isCheckingUpload u = false
      /\ ((LocalStart.isSecondTransfer u = true
           /\ LocalStart.calls u = [LocalStart.CallCheck])
          \/ (LocalStart.isSecondTransfer u = false
              /\ LocalStart.calls u
                 = [LocalStart.CallCheck; LocalStart.CallMerge]
              /\ merge_ready retryTimes concurrent u))
  | LocalStart.Thrown _ =>
      LocalStart.isUploading u = false /\ LocalStart.isCompleted u = false
      /\ LocalStart.isCheckingUpload u = false
      /\ LocalStart.isSecondTransfer u = false
      /\ (LocalStart.calls u = [LocalStart.CallCheck]
          \/ (LocalStart.calls u
              = [LocalStart.CallCheck; LocalStart.CallMerge]
              /\ merge_ready retryTimes concurrent u))
  end.

(** [isPaused] is false, before and during the pass. *)
Definition never_paused (u : LocalStart.Upload) : Prop :=
  match LocalStart.pass u with
  | None => LocalStart.isPaused u = false
  | Some ps => unpaused ps
  end.

Definition pausing (ev : LocalStart.Event) : bool :=
  match ev with LocalStart.Inner ev => pauses ev | _ => false end.

(** The user pauses while the first requests are on the wire; they
    complete, and [startUpload] goes on. *)
Definition local_paused_upload : list LocalStart.Event :=
  LocalStart.CheckSettled
    (inr {| LocalStart.fileExists := false; LocalStart.isComplete := false;
            LocalStart.url := None; LocalStart.uploadedChunks := [] |})
  :: LocalStart.CheckResumed
  :: map LocalStart.Inner paused_after_first ++ [LocalStart.PassSettled].

(** A whole upload of the 23 MiB file by the local hook. *)
Definition local_whole_upload : list LocalStart.Event :=
  LocalStart.CheckSettled
    (inr {| LocalStart.fileExists := false; LocalStart.isComplete := false;
            LocalStart.url := None; LocalStart.uploadedChunks := [] |})
  :: LocalStart.CheckResumed
  :: map LocalStart.Inner
       [LocalPass.Xhr 0 localOk; LocalPass.UploadSettled 0;
        LocalPass.Reaction 0; LocalPass.RaceSettled 0;
        LocalPass.Xhr 1 localOk; LocalPass.UploadSettled 1;
        LocalPass.Reaction 1; LocalPass.RaceSettled 1;
        LocalPass.Xhr 2 localOk; LocalPass.UploadSettled 2;
        LocalPass.Reaction 2; LocalPass.RaceSettled 2;
        LocalPass.Xhr 3 localOk; LocalPass.UploadSettled 3;
        LocalPass.Reaction 3;
        LocalPass.Xhr 4 localOk; LocalPass.UploadSettled 4;
        LocalPass.Reaction 4; LocalPass.AllFulfilled]
  ++ [LocalStart.PassSettled;
      LocalStart.MergeSettled
        (inr {| LocalStart.success := true; LocalStart.message := None;
                LocalStart.merge_url := Some "/files/video.mp4" |})].

(** The backend answers that the file is stored completely:
    [checkUploadStatus] has ended, [startUpload] has not resumed yet. *)
Definition local_instant_check : list LocalStart.Event :=
  [LocalStart.CheckSettled
     (inr {| LocalStart.fileExists := true; LocalStart.isComplete := true;
             LocalStart.url := Some "/files/video.mp4";
             LocalStart.uploadedChunks := [] |})].

(** * The flags of the hook and the step indicator *)

(** An activation of [startUpload] or [resumeUpload] that has not ended. *)
Definition active (cl : Caller) : bool :=
  match c_pc cl with Returned _ | Thrown _ => false | _ => true end.

(** The flags, read together with the activations. *)
Record FlagsOk (e : Engine) : Prop := {
  fo_uploading :
    isUploading (hook e) = true ->
    isCompleted (hook e) = false
    /\ exists cl, cl ∈ callers e /\ active cl = true;
  fo_second :
    isSecondTransfer (hook e) = true -> isCompleted (hook e) = true;
  fo_checking :
    isCheckingUpload (hook e) = true ->
    exists cl, cl ∈ callers e /\ c_pc cl = AwaitCheck;
  fo_initializing :
    isInitializing (hook e) = true ->
    exists cl, cl ∈ callers e /\ c_pc cl = AwaitInitialize
}.

(** What the functions below [startUpload] and [resumeUpload] keep. *)
Record Flags (e e' : Engine) : Prop := {
  fl_callers : callers e' = callers e;
  fl_uploading : isUploading (hook e') = isUploading (hook e);
  fl_completed : isCompleted (hook e') = isCompleted (hook e);
  fl_second : isSecondTransfer (hook e') = isSecondTransfer (hook e);
  fl_checking : isCheckingUpload (hook e') = isCheckingUpload (hook e);
  fl_initializing : isInitializing (hook e') = isInitializing (hook e)
}.

(** [getStepClass(stepNumber)] of the component: the object bound to the
    [class] attribute, as its entries; [isCalculatingHash] is passed along
    with the other refs of the hook. *)
Definition getStepClass (stepNumber : Z) (isCalculatingHash : bool) (h : Hook)
  : list (string * bool) :=
  let file := match currentFile h with Some _ => true | None => false end in
  let hash := negb (String.eqb (fileHash h) "") in
  if stepNumber =? 1 then [("active", negb file); ("completed", file)]
  else if stepNumber =? 2 then
    [("active",
      file && negb hash && negb isCalculatingHash
      && negb (isCheckingUpload h));
     ("completed", hash);
     ("processing", isCalculatingHash || isCheckingUpload h)]
  else if stepNumber =? 3 then
    [("active",
      hash && negb (isUploading h) && negb (isCompleted h)
      && negb (isSecondTransfer h));
     ("completed", isCompleted h || isSecondTransfer h);
     ("processing", isUploading h)]
  else [].

(** The classes the binding applies: the keys with a truthy value. *)
Definition classesOf (o : list (string * bool)) : list string :=
  map fst (List.filter snd o).

(** [getStepIcon(stepNumber)] *)
Definition getStepIcon (stepNumber : Z) (isCalculatingHash : bool) (h : Hook)
  : string :=
  let file := match currentFile h with Some _ => true | None => false end in
  let hash := negb (String.eqb (fileHash h) "") in
  if stepNumber =? 1 then (if file then "✅" else "👆")
  else if stepNumber =? 2 then
    (if isCalculatingHash || isCheckingUpload h then "⏳"
     else if hash then "✅" else "🔢")
  else if stepNumber =? 3 then
    (if isCompleted h || isSecondTransfer h then "✅"
     else if isUploading h then "⏳" else "🚀")
  else "○".

(** ** The ends of [checkUploadStatus] and of [initializeUpload]

    The steps [CheckResponse] and [InitializeResponse] run two synchronous
    segments: the last one of the function that was called, which writes
    flags and settles its promise, and the continuation of [startUpload],
    which runs one microtask later.  The render queued by the writes of the
    first segment runs in between, so the state between the two can be
    displayed; the definitions below give it. *)

(** The answer of the check request says the file is stored completely. *)
Definition instant (r : UploadError + S3CheckUploadResponse) : bool :=
  match r with
  | inr result => fileExists result && isComplete result
  | inl _ => false
  end.

(** The last segment of [checkUploadStatus] in activation [c], from the
    parsed answer (or the failure of the request) to the end of its
    [finally] block. *)
Definition check_settled (opts : S3UploadOptions) (c : nat)
    (r : UploadError + S3CheckUploadResponse) (e : Engine) : option Engine :=
  cl ← callers e !! c;
  f ← currentFile (hook e);
  match c_pc cl with
  | AwaitCheck =>
      match r with
      | inl err => Some (upd_hook (set_isCheckingUpload false) e)
      | inr result =>
          if fileExists result && isComplete result
          then Some (upd_hook (fun h =>
                       set_isCheckingUpload false
                         (set_isCompleted true
                            (set_isSecondTransfer true h))) e)
          else
            let e1 :=
              match session result with
              | Some s =>
                  start_reconcile opts f s
                    (upd_hook (fun h =>
                       set_resumeInfo
                         (Some {| ri_progress := or_zero (session_progress s);
                                  ri_totalChunks := totalChunks s;
                                  ri_uploadedCount := or_zero (uploadedParts s) |})
                         (set_uploadSession (Some s) h)) e)
              | None => e
              end in
            Some (upd_hook (set_isCheckingUpload false) e1)
      end
  | _ => None
  end.

(** [startUpload] in activation [c] from the end of
    [await checkUploadStatus()] to its next [await], its [return] or its
    [catch] block. *)
Definition check_resumed (opts : S3UploadOptions) (c : nat)
    (r : UploadError + S3CheckUploadResponse) (e : Engine) : option Engine :=
  match r with
  | inl err => Some (caller_throw c err e)
  | inr result =>
      if fileExists result && isComplete result
      then Some (set_caller_pc c (Returned (or_null (url result)))
                   (upd_hook (fun h =>
                      set_isSecondTransfer true
                        (set_isUploading false (set_isCompleted true h))) e))
      else
        match uploadSession (hook e) with
        | None =>
            Some (set_caller_pc c AwaitInitialize
                    (set_calls (calls e ++ [CallInitialize])
                       (upd_hook (set_isInitializing true) e)))
        | Some _ => start_transfer opts c e
        end
  end.

(** The last segment of [initializeUpload] in activation [c]: its [finally]
    block. *)
Definition initialize_settled (c : nat) (e : Engine) : option Engine :=
  cl ← callers e !! c;
  match c_pc cl with
  | AwaitInitialize => Some (upd_hook (set_isInitializing false) e)
  | _ => None
  end.

(** [startUpload] in activation [c] from the end of
    [await initializeUpload()] to the call of [createChunks], or its [catch]
    block. *)
Definition initialize_resumed (c : nat) (r : UploadError + InitializeResult)
    (e : Engine) : option Engine :=
  match r with
  | inl err => Some (caller_throw c err e)
  | inr res =>
      if init_success res
      then Some (set_caller_pc c AwaitCreateChunks
                   (upd_hook (set_uploadSession (init_session res)) e))
      else Some (caller_throw c
                   (ErrServer (message_or (init_message res) "S3初始化失败")) e)
  end.

(** * The chunk grid of the component *)

(** [getChunkStatusIcon(chunk)] *)
Definition getChunkStatusIcon (resumeInfo : option ResumeInfo)
    (chunk : S3ChunkInfo) : string :=
  let resumed := match resumeInfo with Some _ => true | None => false end in
  if uploaded chunk then (if uploaded chunk && resumed then "🔄" else "✓")
  else if 0 <? progress chunk then "↑"
  else if (0 <? retryCount chunk)%nat then "⚠"
  else "○".

(** [getChunkTooltip(chunk)] *)
Definition getChunkTooltip (resumeInfo : option ResumeInfo)
    (chunk : S3ChunkInfo) : string :=
  let resumed := match resumeInfo with Some _ => true | None => false end in
  let status := if uploaded chunk then "已完成"
                else if 0 <? progress chunk then "上传中" else "等待中" in
  let resumeText := if uploaded chunk && resumed then " (断点续传)" else "" in
  let retryText := if (0 <? retryCount chunk)%nat
                   then (" (重试" ++ toString (retryCount chunk) ++ "次)")%string
                   else "" in
  ("S3分片 " ++ toString (partNumber chunk) ++ ": " ++ status ++ resumeText
   ++ retryText)%string.

(** * Vocabulary of the progress of an undisturbed upload *)

(** What is left to do for one chunk upload, for a pass and for the caller,
    counted in events. *)
Definition worker_rank (w : Worker) : nat :=
  match w_pc w with
  | WUpload _ (XInFlight _) => 3
  | WUpload _ _ => 2
  | WDelay _ => 0
  | WReturned | WThrown _ =>
      match w_promise w with Pending => 1 | _ => 0 end
  end.

Definition pass_rank (ps : Pass) : nat :=
  (5 * length (p_todo ps) + sum_list_with worker_rank (p_workers ps)
   + match p_pc ps with
     | AwaitRace _ => 2
     | AwaitAllSettled _ => 1
     | _ => 0
     end)%nat.

Definition caller_rank (pc : CallerPc) : nat :=
  match pc with
  | AwaitCheck => 5
  | AwaitInitialize => 4
  | AwaitCreateChunks => 3
  | AwaitPass _ => 2
  | AwaitComplete => 1
  | Returned _ | Thrown _ => 0
  end.

Definition stepsLeft (n : nat) (e : Engine) : nat :=
  (match callers e with cl :: _ => caller_rank (c_pc cl) | [] => 0 end
   + match passes e with ps :: _ => pass_rank ps | [] => 5 * n + 2 end)%nat.

Definition CanMove (opts : S3UploadOptions) (e : Engine) : Prop :=
  exists ev e', undisturbed ev = true /\ advances ev = true
                /\ step opts e ev = Some e'.

(** An upload with one request answered and four to go. *)
Definition half_way : list Event :=
  [CheckResponse 0 (inr checkNothing); InitializeResponse 0 (inr initOk);
   ChunksHashed 0 true; XhrLoad 0 1 200 "OK" chunkOk; UploadSettled 0 1].

(** * Chunk planning and reconciliation *)

Lemma Math_ceil_div_bounds (a b : Z) :
  0 < b -> (Math_ceil_div a b - 1) * b < a <= Math_ceil_div a b * b.
Proof.
  intros Hb. unfold Math_ceil_div.
  pose proof (Z.div_mod (- a) b ltac:(lia)) as Hdm.
  pose proof (Z.mod_pos_bound (- a) b Hb) as Hr.
  nia.
Qed.

Lemma Math_ceil_div_pos (a b : Z) : 0 < b -> 0 < a -> 0 < Math_ceil_div a b.
Proof.
  intros Hb Ha. pose proof (Math_ceil_div_bounds a b Hb). nia.
Qed.

Lemma Zsum_app (l1 l2 : list Z) : Zsum (l1 ++ l2) = Zsum l1 + Zsum l2.
Proof.
  unfold Zsum. induction l1 as [|x l1 IH]; simpl; [lia | rewrite IH; lia].
Qed.

Lemma span_sum (c F : Z) (n : nat) :
  0 < c -> 0 <= F -> (Z.of_nat n - 1) * c < F ->
  Zsum (map (span c F) (seq 0 n)) = Z.min (Z.of_nat n * c) F.
Proof.
  intros Hc HF. induction n as [|n IH]; intros Hn.
  - simpl. lia.
  - rewrite seq_S, map_app, Zsum_app, IH by nia.
    simpl. unfold span. nia.
Qed.

Lemma local_createChunks_lookup (chunkSize : Z) (file : File) (h : string)
    (i : nat) (c : Local.ChunkInfo) :
  Local.createChunks chunkSize file h !! i = Some c ->
  Z.of_nat i < Math_ceil_div (size file) chunkSize
  /\ local_plan c = (i, Z.of_nat i * chunkSize,
                     Z.min (Z.of_nat i * chunkSize + chunkSize) (size file))
  /\ Local.hash c = Local.chunkHashOf h i
  /\ Local.uploaded c = false /\ Local.progress c = 0.
Proof.
  unfold Local.createChunks.
  change (map ?f ?l) with (f <$> l).
  rewrite list_lookup_fmap. intros H.
  destruct (seq 0 _ !! i) as [j|] eqn:Hj; [|discriminate].
  apply lookup_seq in Hj as [-> Hlt]. simpl in H. inversion H; subst; clear H.
  unfold local_plan; simpl. repeat split; lia.
Qed.

Lemma local_createChunks_length (chunkSize : Z) (file : File) (h : string) :
  length (Local.createChunks chunkSize file h)
  = Z.to_nat (Math_ceil_div (size file) chunkSize).
Proof. unfold Local.createChunks. by rewrite length_map, length_seq. Qed.

Lemma local_createChunks_spans (chunkSize : Z) (file : File) (h : string) :
  map (fun c => Local.end_ c - Local.start c) (Local.createChunks chunkSize file h)
  = map (span chunkSize (size file))
      (seq 0 (Z.to_nat (Math_ceil_div (size file) chunkSize))).
Proof. unfold Local.createChunks. rewrite map_map. reflexivity. Qed.

(** C4.  For a positive file size and a positive chunk size the planned list
    has exactly [ceil(fileSize / chunkSize)] chunks; chunk [i] spans the
    bytes from [i * chunkSize] to [min(i * chunkSize + chunkSize, fileSize)];
    the chunks are ordered, contiguous and disjoint, start at 0 and end at
    the file size; their spans add up to the file size; no chunk is empty
    and only the last may be shorter than [chunkSize]; the plan depends on
    the file size and the chunk size alone, and both hooks compute it. *)
Theorem createChunks_partition (opts : S3.S3UploadOptions) (file : File)
    (fileHashValue : string) :
  0 < size file -> 0 < S3.chunkSize opts ->
  let chunkSize := S3.chunkSize opts in
  let cs := Local.createChunks chunkSize file fileHashValue in
  let n := Math_ceil_div (size file) chunkSize in
  Z.of_nat (length cs) = n
  /\ (n - 1) * chunkSize < size file <= n * chunkSize
  /\ (forall i c, cs !! i = Some c ->
        Local.index c = i
        /\ Local.start c = Z.of_nat i * chunkSize
        /\ Local.end_ c = Z.min (Local.start c + chunkSize) (size file)
        /\ Local.start c < Local.end_ c
        /\ ((S i < length cs)%nat -> Local.end_ c - Local.start c = chunkSize)
        /\ (S i = length cs -> Local.end_ c = size file)
        /\ (i = 0%nat -> Local.start c = 0)
        /\ (forall c', cs !! S i = Some c' -> Local.start c' = Local.end_ c)
        /\ (forall j c', (i < j)%nat -> cs !! j = Some c' ->
              Local.end_ c <= Local.start c'))
  /\ Zsum (map (fun c => Local.end_ c - Local.start c) cs) = size file
  /\ (forall file' h', size file' = size file ->
        map local_plan (Local.createChunks chunkSize file' h') = map local_plan cs)
  /\ map s3_plan (S3.createChunks opts file) = map local_plan cs.
Proof.
  intros HF Hc chunkSize cs n.
  pose proof (Math_ceil_div_bounds (size file) chunkSize Hc) as Hn.
  pose proof (Math_ceil_div_pos (size file) chunkSize Hc HF) as Hpos.
  fold n in Hn, Hpos.
  assert (Hlen : Z.of_nat (length cs) = n).
  { subst cs. rewrite local_createChunks_length. fold n. lia. }
  split; [exact Hlen|]. split; [exact Hn|]. split; [|split; [|split]].
  - intros i c Hi.
    apply local_createChunks_lookup in Hi as (Hlt & Hplan & _).
    fold n in Hlt. unfold local_plan in Hplan. inversion Hplan as [[H1 H2 H3]].
    rewrite H1, H2, H3.
    assert (Hi1 : Z.of_nat i * chunkSize + chunkSize <= n * chunkSize) by nia.
    assert (Hi2 : Z.of_nat i * chunkSize <= (n - 1) * chunkSize) by nia.
    split; [reflexivity|]. split; [reflexivity|]. split; [reflexivity|].
    split; [lia|]. split; [|split; [|split; [|split]]].
    + intros Hlast.
      assert (Z.of_nat i * chunkSize + chunkSize <= (n - 1) * chunkSize) by nia.
      lia.
    + intros Hlast.
      assert (Z.of_nat i * chunkSize + chunkSize = n * chunkSize) by nia.
      lia.
    + intros ->. lia.
    + intros c' Hc'. apply local_createChunks_lookup in Hc' as (Hlt' & Hp' & _).
      fold n in Hlt'.
      unfold local_plan in Hp'. inversion Hp' as [[G1 G2 G3]]. rewrite G2.
      assert (Z.of_nat (S i) * chunkSize = Z.of_nat i * chunkSize + chunkSize)
        by lia.
      assert (Z.of_nat (S i) * chunkSize <= (n - 1) * chunkSize) by nia.
      lia.
    + intros j c' Hij Hc'.
      apply local_createChunks_lookup in Hc' as (_ & Hp' & _).
      unfold local_plan in Hp'. inversion Hp' as [[G1 G2 G3]]. rewrite G2.
      assert (Z.of_nat i * chunkSize + chunkSize <= Z.of_nat j * chunkSize)
        by nia.
      lia.
  - subst cs. rewrite local_createChunks_spans. fold n.
    rewrite span_sum by lia. lia.
  - intros file' h' Hsz. subst cs. unfold Local.createChunks.
    rewrite !map_map, Hsz. reflexivity.
  - subst cs. unfold S3.createChunks, Local.createChunks.
    rewrite !map_map. reflexivity.
Qed.

Lemma createChunks_partition_witness :
  0 < size file23 /\ 0 < S3.chunkSize S3.defaultOptions
  /\ Z.of_nat (length (Local.createChunks (S3.chunkSize S3.defaultOptions)
                          file23 "abc")) = 5
  /\ Zsum (map (fun c => Local.end_ c - Local.start c)
             (Local.createChunks (S3.chunkSize S3.defaultOptions) file23 "abc"))
     = size file23.
Proof.
  assert (HF : 0 < size file23) by reflexivity.
  assert (Hc : 0 < S3.chunkSize S3.defaultOptions) by reflexivity.
  pose proof (createChunks_partition S3.defaultOptions file23 "abc" HF Hc)
    as (Hlen & _ & _ & Hsum & _).
  split; [exact HF|]. split; [exact Hc|]. split; [exact Hlen | exact Hsum].
Defined.

Lemma Array_includes_In (xs : list string) (x : string) :
  Array_includes xs x = true <-> In x xs.
Proof.
  unfold Array_includes. rewrite existsb_exists. split.
  - intros (y & Hy & Heq). apply String.eqb_eq in Heq. by subst.
  - intros Hx. exists x. split; [done | apply String.eqb_refl].
Qed.

(** The local hook marks by identifier: a planned chunk is marked uploaded,
    with progress 100, exactly when its identifier is in the list of the
    check answer, and is left pending, with progress 0, otherwise. *)
Theorem local_marks_by_identifier (chunkSize : Z) (file : File)
    (fileHashValue : string) (uploadedChunkHashes : list string) :
  let cs := Local.createChunksAndMarkUploaded chunkSize file fileHashValue
              uploadedChunkHashes in
  map local_plan cs
  = map local_plan (Local.createChunks chunkSize file fileHashValue)
  /\ forall i c, cs !! i = Some c ->
       Local.hash c = Local.chunkHashOf fileHashValue i
       /\ (Local.uploaded c = true <-> In (Local.hash c) uploadedChunkHashes)
       /\ (Local.uploaded c = true -> Local.progress c = 100)
       /\ (Local.uploaded c = false -> Local.progress c = 0).
Proof.
  intros cs. split.
  - subst cs. unfold Local.createChunksAndMarkUploaded, Local.createChunks.
    rewrite !map_map. reflexivity.
  - intros i c. subst cs. unfold Local.createChunksAndMarkUploaded.
    change (map ?f ?l) with (f <$> l).
    rewrite list_lookup_fmap. intros H.
    destruct (seq 0 _ !! i) as [j|] eqn:Hj; [|discriminate].
    apply lookup_seq in Hj as [-> _]. simpl in H. inversion H; subst; clear H.
    simpl. split; [reflexivity|]. split; [apply Array_includes_In|].
    split; intros ->; reflexivity.
Qed.

Example local_marks_0_2_4 :
  map (fun c => (Local.uploaded c, Local.progress c))
    (Local.createChunksAndMarkUploaded (5 * MiB) file25 "abc"
       ["abc_chunk_4"; "abc_chunk_0"; "abc_chunk_2"])
  = [(true, 100); (false, 0); (true, 100); (false, 0); (true, 100)].
Proof. vm_compute. reflexivity. Qed.

Lemma s3_marks_lookup (opts : S3.S3UploadOptions) (file : File)
    (s : S3.S3UploadSession) (i : nat) (c : S3.S3ChunkInfo) :
  S3.createChunksAndMarkUploaded opts file s !! i = Some c ->
  S3.uploaded c = (Z.of_nat i <? S3.or_zero (S3.uploadedParts s)).
Proof.
  unfold S3.createChunksAndMarkUploaded.
  change (map ?f ?l) with (f <$> l).
  rewrite list_lookup_fmap. intros H.
  destruct (seq 0 _ !! i) as [j|] eqn:Hj; [|discriminate].
  apply lookup_seq in Hj as [-> _]. simpl in H. inversion H; subst; clear H.
  reflexivity.
Qed.

(** C1 (defect).  The S3 hook marks by count: with three parts reported it
    marks the chunks 0, 1 and 2 of five, and no session it can be given
    makes it mark exactly the chunks 0, 2 and 4. *)
Theorem s3_marks_by_count :
  map S3.uploaded (S3.createChunksAndMarkUploaded S3.defaultOptions file25 session3)
  = [true; true; true; false; false]
  /\ forall s : S3.S3UploadSession,
       map S3.uploaded (S3.createChunksAndMarkUploaded S3.defaultOptions file25 s)
       <> [true; false; true; false; true].
Proof.
  split; [vm_compute; reflexivity|].
  intros s Hs.
  set (cs := S3.createChunksAndMarkUploaded S3.defaultOptions file25 s) in *.
  assert (H1 : cs !! 1%nat
               = Some (S3.planChunk S3.defaultOptions file25
                         (1 <? S3.or_zero (S3.uploadedParts s)) 1))
    by reflexivity.
  assert (H2 : cs !! 2%nat
               = Some (S3.planChunk S3.defaultOptions file25
                         (2 <? S3.or_zero (S3.uploadedParts s)) 2))
    by reflexivity.
  assert (G1 : map S3.uploaded cs !! 1%nat = Some false)
    by (rewrite Hs; reflexivity).
  assert (G2 : map S3.uploaded cs !! 2%nat = Some true)
    by (rewrite Hs; reflexivity).
  revert G1 G2. change (map ?f ?l) with (f <$> l).
  rewrite !list_lookup_fmap, H1, H2. simpl.
  intros [= G1] [= G2].
  apply Z.ltb_ge in G1. apply Z.ltb_lt in G2. lia.
Qed.

(** * Speed tracker *)

Lemma last10_short (l : list Q) : (length l <= 10)%nat -> last10 l = l.
Proof. intros H. unfold last10. replace (length l - 10)%nat with 0%nat by lia. done. Qed.

Lemma last10_length (l : list Q) : (length (last10 l) <= 10)%nat.
Proof. unfold last10. rewrite length_drop. lia. Qed.

Lemma last10_app (a b : list Q) : last10 (last10 a ++ b) = last10 (a ++ b).
Proof.
  unfold last10.
  rewrite length_app, length_drop.
  rewrite <- (drop_app_le a b (length a - 10)) by lia.
  rewrite drop_drop, length_app. f_equal. lia.
Qed.

Lemma push_history_last10 (h : list Q) (v : Q) :
  (length h <= 10)%nat -> push_history h v = last10 (h ++ [v]).
Proof.
  intros Hh. unfold push_history, last10. rewrite length_app. simpl.
  destruct (Nat.ltb_spec 10 (length h + 1)).
  - replace (length h + 1 - 10)%nat with 1%nat by lia.
    destruct h; simpl in *; [lia | reflexivity].
  - replace (length h + 1 - 10)%nat with 0%nat by lia. reflexivity.
Qed.

Lemma Qdiv1000_pos (d : Z) : 0 < d -> (0 < inject_Z d / 1000)%Q.
Proof.
  intros Hd. apply Qlt_shift_div_l; [reflexivity|].
  rewrite Qmult_0_l. unfold Qlt. simpl. lia.
Qed.


Lemma Qle_bool_false_lt (x y : Q) : Qle_bool x y = false <-> (y < x)%Q.
Proof.
  split.
  - intros H. apply Qnot_le_lt. intros Hle. apply Qle_bool_iff in Hle. congruence.
  - intros H. destruct (Qle_bool x y) eqn:E; [|done].
    apply Qle_bool_iff in E. exfalso. eapply Qlt_not_le; eauto.
Qed.

(** One call of [updateNetworkStats] against [sampleOf]. *)
Lemma updateNetworkStats_sample (now bytes : Z) (si : S3SpeedInfo)
    (ns : S3NetworkStats) :
  let '(si', ns') := updateNetworkStats now bytes (si, ns) in
  match sampleOf ns now bytes with
  | Some v =>
      1000 <= now - lastMeasureTime ns
      /\ v = (inject_Z (bytes - lastMeasureBytes ns)
              / (inject_Z (now - lastMeasureTime ns) / 1000))%Q
      /\ current si' = v
      /\ speedHistory ns' = push_history (speedHistory ns) v
      /\ peak si' = (if negb (Qle_bool v (peak si)) then v else peak si)
      /\ lastMeasureTime ns' = now /\ lastMeasureBytes ns' = bytes
      /\ startTime ns' = startTime ns
      /\ average si' = (if negb (Qle_bool (inject_Z (now - startTime ns) / 1000) 0)
                        then inject_Z bytes / (inject_Z (now - startTime ns) / 1000)
                        else 0)%Q
  | None =>
      si' = si /\ speedHistory ns' = speedHistory ns
      /\ (startTime ns = 0 ->
          startTime ns' = now /\ lastMeasureTime ns' = now
          /\ lastMeasureBytes ns' = bytes)
      /\ (startTime ns <> 0 -> ns' = ns)
  end.
Proof.
  unfold updateNetworkStats, sampleOf.
  destruct (Z.eqb_spec (startTime ns) 0) as [E|E].
  - simpl. repeat split; try done.
  - destruct (Z.leb_spec 1000 (now - lastMeasureTime ns)) as [L|L].
    + simpl. repeat split; try done.
    + repeat split; try done.
Qed.

Lemma peak_step (v p : Q) :
  let p' := if negb (Qle_bool v p) then v else p in
  (p <= p')%Q /\ (v <= p')%Q /\ (p' = p \/ p' = v).
Proof.
  simpl. destruct (Qle_bool v p) eqn:E; simpl.
  - apply Qle_bool_iff in E. repeat split; [apply Qle_refl | done | by left].
  - apply Qle_bool_false_lt in E.
    repeat split; [by apply Qlt_le_weak | apply Qle_refl | by right].
Qed.


Lemma feed_any (calls : list (Z * Z)) :
  forall (si : S3SpeedInfo) (ns : S3NetworkStats),
    (startTime ns <> 0 -> startTime ns <= lastMeasureTime ns) ->
    (length (speedHistory ns) <= 10)%nat ->
    let '(st', samples) := feed calls (si, ns) in
    speedHistory (snd st') = last10 (speedHistory ns ++ samples)
    /\ Forall (fun s => (s <= peak (fst st'))%Q) samples
    /\ (peak si <= peak (fst st'))%Q
    /\ (peak (fst st') = peak si \/ In (peak (fst st')) samples)
    /\ (startTime ns <> 0 -> startTime (snd st') = startTime ns)
    /\ (samples = [] ->
        average (fst st') = average si
        /\ (average_ok (si, ns) -> startTime ns <> 0 -> average_ok st')
        /\ (startTime ns <> 0 -> 1000 <= lastMeasureTime ns - startTime ns ->
            1000 <= lastMeasureTime (snd st') - startTime (snd st')))
    /\ (samples <> [] ->
        average_ok st'
        /\ 1000 <= lastMeasureTime (snd st') - startTime (snd st')).
Proof.
  induction calls as [|[now bytes] rest IH]; intros si ns Hst Hlen.
  - simpl. rewrite app_nil_r, last10_short by done.
    repeat split; try done; try apply Qle_refl. by left.
  - cbn [feed snd].
    pose proof (updateNetworkStats_sample now bytes si ns) as Hstep.
    destruct (updateNetworkStats now bytes (si, ns)) as [si1 ns1] eqn:Hupd.
    specialize (IH si1 ns1).
    destruct (feed rest (si1, ns1)) as [st' samples] eqn:Hfeed.
    destruct (sampleOf ns now bytes) as [v|] eqn:Hs.
    + destruct Hstep as (Hdt & Hv & Hcur & Hhist & Hpeak & Hlmt & Hlmb & Hstart & Havg).
      assert (Hne : startTime ns <> 0).
      { unfold sampleOf in Hs. destruct (Z.eqb_spec (startTime ns) 0); [done|done]. }
      specialize (Hst Hne).
      assert (Hlen1 : (length (speedHistory ns1) <= 10)%nat).
      { rewrite Hhist, push_history_last10 by done. apply last10_length. }
      destruct IH as (IH1 & IH3 & IH4 & IH5 & IH8 & IH6 & IH7);
        [rewrite Hstart, Hlmt; lia | done |].
      pose proof (peak_step v (peak si)) as (Hp1 & Hp2 & Hp3).
      rewrite <- Hpeak in Hp1, Hp2, Hp3.
      assert (Havg1 : average_ok (si1, ns1)).
      { unfold average_ok; simpl. rewrite Havg, Hlmt, Hlmb, Hstart.
        assert (Hpos : (0 < inject_Z (now - startTime ns) / 1000)%Q)
          by (apply Qdiv1000_pos; lia).
        apply Qle_bool_false_lt in Hpos. by rewrite Hpos. }
      assert (Hne1 : startTime ns1 <> 0) by (by rewrite Hstart).
      split; [|split; [|split; [|split; [|split; [|split]]]]].
      * rewrite IH1, Hhist, push_history_last10 by done.
        rewrite last10_app, <- app_assoc. reflexivity.
      * constructor; [|done]. eapply Qle_trans; eauto.
      * eapply Qle_trans; eauto.
      * destruct IH5 as [E|E]; [|by right; right].
        rewrite E. destruct Hp3 as [->| ->]; [by left | by right; left].
      * intros _. rewrite IH8 by done. done.
      * done.
      * intros _. destruct samples as [|s samples'].
        -- destruct (IH6 eq_refl) as (_ & Ha & Hb). split; [by apply Ha|].
           apply Hb; [done|]. rewrite Hstart, Hlmt. lia.
        -- by apply IH7.
    + destruct Hstep as (Hsi & Hhist & Hinit & Hsame). subst si1.
      assert (Hlen1 : (length (speedHistory ns1) <= 10)%nat) by (by rewrite Hhist).
      assert (Hst1 : startTime ns1 <> 0 -> startTime ns1 <= lastMeasureTime ns1).
      { destruct (Z.eq_dec (startTime ns) 0) as [E|E].
        - destruct (Hinit E) as (-> & -> & _). lia.
        - rewrite (Hsame E). by apply Hst. }
      destruct IH as (IH1 & IH3 & IH4 & IH5 & IH8 & IH6 & IH7); [done..|].
      rewrite Hhist in IH1.
      split; [done|]. split; [done|]. split; [done|]. split; [done|].
      split; [|split; [|done]].
      * intros Hne. rewrite (Hsame Hne) in IH8. by apply IH8.
      * intros Hnil. destruct (IH6 Hnil) as (Ha & Hb & Hc). split; [done|]. split.
        -- intros Hok Hne. apply Hb; by rewrite (Hsame Hne).
        -- intros Hne Hge. apply Hc; by rewrite (Hsame Hne).
Qed.





Example speed_tracker_samples :
  snd (feed sample_calls (resetSpeedInfo, resetStats))
  = [(500 / (1000 / 1000))%Q; (1000 / (1500 / 1000))%Q].
Proof. reflexivity. Qed.

(** * The scheduler *)

Lemma pending_from_app (l r : list Settled) (i : nat) :
  pending_from i (l ++ r) = pending_from i l ++ pending_from (i + length l) r.
Proof.
  revert i. induction l as [|s l IH]; intros i; simpl.
  - by rewrite Nat.add_0_r.
  - rewrite IH. replace (S i + length l)%nat with (i + S (length l))%nat by lia.
    by destruct s.
Qed.

Lemma pending_from_settle (l : list Settled) (i k : nat) (s : Settled) :
  l !! k = Some Pending -> s <> Pending ->
  pending_from i (<[k := s]> l) = splice_out (i + k) (pending_from i l).
Proof.
  revert i k. induction l as [|s0 l IH]; intros i k Hk Hs; [done|].
  destruct k as [|k].
  - simpl in Hk. inversion Hk; subst. simpl.
    rewrite Nat.add_0_r, Nat.eqb_refl. by destruct s.
  - simpl in Hk. specialize (IH (S i) k Hk Hs).
    replace (S i + k)%nat with (i + S k)%nat in IH by lia.
    destruct s0; simpl; [|done..].
    destruct (Nat.eqb_spec i (i + S k)); [lia|]. by rewrite IH.
Qed.

Lemma splice_out_sublist (k : nat) (l : list nat) : sublist (splice_out k l) l.
Proof.
  induction l as [|x l IH]; simpl; [constructor|].
  destruct (Nat.eqb x k); [by apply sublist_cons | by apply sublist_skip].
Qed.

Lemma splice_out_length (k : nat) (l : list nat) :
  (length (splice_out k l) <= length l)%nat.
Proof. apply sublist_length, splice_out_sublist. Qed.

Lemma sublist_missing_length {A} (l1 l2 : list A) (x : A) :
  sublist l1 l2 -> x ∈ l2 -> x ∉ l1 -> (length l1 < length l2)%nat.
Proof.
  induction 1 as [|y l1 l2 Hs IH|y l1 l2 Hs IH]; intros Hin Hnot.
  - by apply elem_of_nil in Hin.
  - apply not_elem_of_cons in Hnot as [Hne Hnot].
    apply elem_of_cons in Hin as [->|Hin]; [done|]. simpl.
    specialize (IH Hin Hnot). lia.
  - simpl. apply sublist_length in Hs. lia.
Qed.

Lemma running_le_pending (ws : list Worker) (i : nat) :
  Forall worker_ok ws ->
  (length (List.filter running ws)
   <= length (pending_from i (map w_promise ws)))%nat.
Proof.
  revert i. induction ws as [|w ws IH]; intros i Hok; simpl; [done|].
  apply Forall_cons in Hok as [Hw Hok]. specialize (IH (S i) Hok).
  destruct (running w) eqn:Hr.
  - rewrite (Hw Hr). simpl. lia.
  - destruct (w_promise w); simpl; lia.
Qed.

Lemma pass_inv_inFlight (c : Z) (ps : Pass) :
  PassInv c ps -> Z.of_nat (inFlight ps) <= Z.max 1 c.
Proof.
  intros [H1 H2 _ H4]. unfold inFlight.
  pose proof (running_le_pending (p_workers ps) 0 H4) as H.
  rewrite <- H1 in H. lia.
Qed.

Lemma pending_from_lookup (l : list Settled) (i x : nat) :
  x ∈ pending_from i l -> exists j, x = (i + j)%nat /\ l !! j = Some Pending.
Proof.
  revert i. induction l as [|s l IH]; intros i; simpl.
  - by intros ?%elem_of_nil.
  - intros H.
    assert (Hrest : x ∈ pending_from (S i) l ->
                    exists j, x = (i + j)%nat /\ (s :: l) !! j = Some Pending).
    { intros (j & -> & Hj)%IH. exists (S j). split; [lia | done]. }
    destruct s; auto.
    apply elem_of_cons in H as [->|H]; auto.
    exists 0%nat. split; [lia | done].
Qed.

(** *** Functions that leave the passes alone *)

Lemma passes_upd_hook (f : Hook -> Hook) (e : Engine) :
  passes (upd_hook f e) = passes e.
Proof. reflexivity. Qed.

Lemma passes_upd_chunk (a : nat) (f : S3ChunkInfo -> S3ChunkInfo) (e : Engine) :
  passes (upd_chunk a f e) = passes e.
Proof. unfold upd_chunk. by destruct (heap e !! a). Qed.

Lemma passes_updateTotalProgress (e : Engine) :
  passes (updateTotalProgress e) = passes e.
Proof. unfold updateTotalProgress. by destruct (currentFile (hook e)). Qed.

Lemma passes_worker_finally (a : nat) (e : Engine) :
  passes (worker_finally a e) = passes e.
Proof. unfold worker_finally. by destruct (heap e !! a). Qed.

Lemma passes_set_caller_pc (k : nat) (pc : CallerPc) (e : Engine) :
  passes (set_caller_pc k pc e) = passes e.
Proof. unfold set_caller_pc. by destruct (callers e !! k). Qed.

Lemma passes_caller_throw (k : nat) (err : UploadError) (e : Engine) :
  passes (caller_throw k err e) = passes e.
Proof. unfold caller_throw. by rewrite passes_set_caller_pc. Qed.

Lemma passes_completeUpload (k : nat) (e : Engine) :
  passes (completeUpload k e) = passes e.
Proof.
  unfold completeUpload.
  destruct (uploadSession (hook e)); [destruct (isPaused (hook e))|];
    by rewrite ?passes_caller_throw, ?passes_set_caller_pc.
Qed.

Lemma passes_start_reconcile (opts : S3UploadOptions) (f : File)
    (s : S3UploadSession) (e : Engine) :
  passes (start_reconcile opts f s e) = passes e.
Proof.
  unfold start_reconcile. destruct (_ <=? 0); [|done].
  by rewrite passes_updateTotalProgress.
Qed.

Lemma passes_resume_chunks (l : list nat) (e : Engine) :
  passes (fold_left resume_chunk l e) = passes e.
Proof.
  revert e. induction l as [|a l IH]; intros e; simpl; [done|].
  rewrite IH. unfold resume_chunk.
  destruct (heap e !! a) as [ch|]; [|done].
  destruct (_ && _); [|done]. apply passes_upd_chunk.
Qed.

Create Rewrite HintDb frame.
#[local] Hint Rewrite passes_upd_hook passes_upd_chunk
  passes_updateTotalProgress passes_worker_finally passes_set_caller_pc
  passes_caller_throw passes_completeUpload passes_start_reconcile
  passes_resume_chunks : frame.

Lemma passes_uploadChunk (a : nat) (e e' : Engine) r :
  uploadChunk a e = Some (e', r) -> passes e' = passes e.
Proof.
  unfold uploadChunk. intros H.
  destruct (heap e !! a) as [c|]; simpl in H; [|done].
  destruct (uploadSession (hook e)), (or_null (chunkHash c));
    inversion H; subst; simpl; try done.
  by rewrite passes_upd_chunk.
Qed.

Lemma passes_worker_exit (opts : S3UploadOptions) (a : nat) (s : bool)
    (e : Engine) :
  passes (fst (worker_exit opts a s e)) = passes e.
Proof.
  unfold worker_exit.
  destruct (negb s && negb (isPaused (hook e))); simpl;
    apply passes_worker_finally.
Qed.

Lemma passes_worker_loop (opts : S3UploadOptions) (a : nat) (n : Z)
    (e e' : Engine) r :
  worker_loop opts a n e = Some (e', r) -> passes e' = passes e.
Proof.
  unfold worker_loop. intros H.
  destruct ((n <? retryTimes opts) && negb (isPaused (hook e))).
  - destruct (uploadChunk a e) as [[e1 [ctrl x]]|] eqn:Hu; simpl in H; [|done].
    inversion H; subst. by eapply passes_uploadChunk.
  - pose proof (passes_worker_exit opts a false e) as Hx.
    destruct (worker_exit opts a false e) as [e1 pc]. inversion H; subst. done.
Qed.

Lemma uploadSingleChunk_spec (opts : S3UploadOptions) (a : nat)
    (e e' : Engine) (w : Worker) :
  uploadSingleChunk opts a e = Some (e', w) ->
  passes e' = passes e /\ w_promise w = Pending /\ w_chunk w = a.
Proof.
  unfold uploadSingleChunk. intros H.
  destruct (heap e !! a) as [c|]; simpl in H; [|done].
  destruct (isPaused (hook e)).
  - by simplify_eq.
  - match type of H with
    | context [worker_loop ?o ?a ?n ?e0] =>
        destruct (worker_loop o a n e0) as [[e2 [n2 pc]]|] eqn:Hl
    end; simpl in H; [|done].
    inversion H; subst. apply passes_worker_loop in Hl. by rewrite Hl.
Qed.

Lemma worker_resume_spec (opts : S3UploadOptions) (w w' : Worker)
    (e e' : Engine) :
  worker_resume opts w e = Some (e', w') ->
  passes e' = passes e /\ w_promise w' = w_promise w /\ running w = true.
Proof.
  unfold worker_resume, running. intros H.
  destruct (w_pc w) as [ctrl [t|s|err]| | |]; try done.
  - destruct (negb s && (w_attempts w <? retryTimes opts)
              && negb (isPaused (hook e))).
    + by simplify_eq.
    + pose proof (passes_worker_exit opts (w_chunk w) s e) as Hx.
      destruct (worker_exit opts (w_chunk w) s e) as [e1 pc].
      by simplify_eq.
  - destruct (isPaused (hook e) && mentions_cancel err);
      inversion H; subst; simpl; by rewrite passes_worker_finally.
Qed.

Lemma worker_after_delay_spec (opts : S3UploadOptions) (w w' : Worker)
    (e e' : Engine) :
  worker_after_delay opts w e = Some (e', w') ->
  passes e' = passes e /\ w_promise w' = w_promise w /\ running w = true.
Proof.
  unfold worker_after_delay, running. intros H.
  destruct (w_pc w) as [| until | |]; try done.
  destruct (until <=? clock e); [|done].
  destruct (worker_loop opts (w_chunk w) (w_attempts w) e)
    as [[e1 [n pc]]|] eqn:Hl; simpl in H; [|done].
  inversion H; subst. apply passes_worker_loop in Hl. by rewrite Hl.
Qed.

(** *** The invariant is kept by every operation on a pass *)

Lemma pass_inv_set_worker (c : Z) (ps : Pass) (k : nat) (w w' : Worker) :
  PassInv c ps -> p_workers ps !! k = Some w ->
  w_promise w' = w_promise w -> (running w' = true -> running w = true) ->
  PassInv c (set_p_workers (<[k := w']> (p_workers ps)) ps).
Proof.
  intros [H1 H2 H3 H4] Hk Hp Hr. split; simpl; try done.
  - rewrite H1. f_equal.
    change (map ?f ?l) with (f <$> l).
    rewrite list_fmap_insert, Hp. symmetry. apply list_insert_id.
    by rewrite list_lookup_fmap, Hk.
  - apply Forall_insert; [done|].
    intros Hrun. rewrite Hp.
    eapply (Forall_lookup_1 _ _ _ _ H4 Hk). by apply Hr.
Qed.

Lemma abort_worker_spec (ctrl : nat) (w : Worker) :
  w_promise (abort_worker ctrl w) = w_promise w
  /\ running (abort_worker ctrl w) = running w.
Proof.
  unfold abort_worker, running.
  destruct (w_pc w) as [[c'|] [t|s|err]| | |] eqn:E; simpl; rewrite ?E;
    try done.
  destruct (Nat.eqb c' ctrl); simpl; by rewrite ?E.
Qed.

Lemma pass_inv_abort (c : Z) (ctrl : nat) (ps : Pass) :
  PassInv c ps ->
  PassInv c (set_p_workers (map (abort_worker ctrl) (p_workers ps)) ps).
Proof.
  intros [H1 H2 H3 H4]. split; simpl; try done.
  - rewrite H1, map_map. f_equal. apply map_ext.
    intros w. symmetry. apply abort_worker_spec.
  - change (map ?f ?l) with (f <$> l). apply Forall_fmap.
    eapply Forall_impl; [exact H4|]. intros w Hw. unfold worker_ok in *. simpl.
    destruct (abort_worker_spec ctrl w) as [-> ->]. done.
Qed.

Lemma pass_inv_reaction (c : Z) (k : nat) (e : Engine) (ps ps' : Pass) :
  PassInv c ps -> promise_reaction k e ps = Some ps' -> PassInv c ps'.
Proof.
  intros [H1 H2 H3 H4] H. unfold promise_reaction in H.
  destruct (p_workers ps !! k) as [w|] eqn:Hk; simpl in H; [|done].
  assert (Hgen : forall st, st <> Pending -> w_promise w = Pending ->
            running w = false ->
            PassInv c (set_p_executing (splice_out k (p_executing ps))
                         (set_p_workers
                            (<[k := set_w_promise st w]> (p_workers ps)) ps))).
  { intros st Hst Hp Hrun. split; simpl.
    - change (map ?f ?l) with (f <$> l).
      rewrite list_fmap_insert. simpl.
      rewrite (pending_from_settle _ 0 k st); [by rewrite H1| |done].
      by rewrite list_lookup_fmap, Hk, <- Hp.
    - pose proof (splice_out_length k (p_executing ps)). lia.
    - destruct (p_pc ps); try done. destruct H3 as [Hs Hb]. split; [|done].
      etrans; [apply splice_out_sublist | done].
    - apply Forall_insert; [done|]. unfold worker_ok. simpl.
      unfold running in *. simpl. by rewrite Hrun. }
  destruct (w_promise w) eqn:Hp; try done.
  destruct (w_pc w) eqn:Hpc; try done.
  - inversion H; subst. apply Hgen; [done | done | by unfold running; rewrite Hpc].
  - inversion H; subst.
    apply Hgen; [by destruct (negb (isPaused (hook e))) | done
                | by unfold running; rewrite Hpc].
Qed.

Lemma pass_inv_all_settled (c : Z) (ps ps' : Pass) :
  PassInv c ps -> all_settled ps = Some ps' -> PassInv c ps'.
Proof.
  intros [H1 H2 H3 H4] H. unfold all_settled in H.
  destruct (p_pc ps); try done.
  destruct (forallb _ _); [|done]. inversion H; subst. by split.
Qed.

Lemma pass_loop_inv (opts : S3UploadOptions) (todo : list nat) :
  forall (e : Engine) (ps : Pass) (e' : Engine) (ps' : Pass),
    pass_loop opts todo e ps = Some (e', ps') ->
    p_executing ps = pending_from 0 (map w_promise (p_workers ps)) ->
    Z.of_nat (length (p_executing ps)) < Z.max 1 (concurrent opts) ->
    Forall worker_ok (p_workers ps) ->
    PassInv (concurrent opts) ps' /\ passes e' = passes e.
Proof.
  induction todo as [|a rest IH]; intros e ps e' ps' H H1 H2 H4.
  - simpl in H. inversion H; subst. split; [|done]. split; simpl; try done. lia.
  - simpl in H. destruct (isPaused (hook e)).
    + inversion H; subst. split; [|done]. split; simpl; try done. lia.
    + destruct (uploadSingleChunk opts a e) as [[e1 w]|] eqn:Hu; simpl in H;
        [|done].
      apply uploadSingleChunk_spec in Hu as (Hpass & Hprom & _).
      assert (G1 : p_executing ps ++ [length (p_workers ps)]
                   = pending_from 0 (map w_promise (p_workers ps ++ [w]))).
      { rewrite map_app, pending_from_app, <- H1, length_map. simpl.
        by rewrite Hprom. }
      assert (G4 : Forall worker_ok (p_workers ps ++ [w])).
      { apply Forall_app. split; [done|]. apply Forall_singleton.
        by intros _. }
      assert (Glen : length (p_executing ps ++ [length (p_workers ps)])
                     = S (length (p_executing ps)))
        by (rewrite length_app; simpl; lia).
      destruct (Z.leb_spec (concurrent opts)
                  (Z.of_nat (length (p_executing ps ++ [length (p_workers ps)]))))
        as [Hle|Hlt].
      * inversion H; subst. split; [|done].
        split; simpl; try done; rewrite ?Glen; try lia.
        split; [done | lia].
      * apply IH in H as [Hinv Hp]; simpl; try done.
        -- split; [done | by rewrite Hp].
        -- lia.
Qed.

Lemma pass_inv_race (opts : S3UploadOptions) (k : nat) (e e' : Engine)
    (ps ps' : Pass) :
  PassInv (concurrent opts) ps -> race_settled opts k e ps = Some (e', ps') ->
  PassInv (concurrent opts) ps' /\ passes e' = passes e.
Proof.
  intros [H1 H2 H3 H4] H. unfold race_settled in H.
  destruct (p_pc ps) as [snapshot| | |] eqn:Hpc; try done.
  destruct (bool_decide (k ∈ snapshot)) eqn:Hin; [|done].
  apply bool_decide_eq_true in Hin.
  destruct (p_workers ps !! k) as [w|] eqn:Hk; simpl in H; [|done].
  destruct H3 as [Hsub Hb].
  destruct (w_promise w) eqn:Hp; [done| |].
  - eapply pass_loop_inv; eauto.
    assert (Hnot : k ∉ p_executing ps).
    { rewrite H1. intros (j & -> & Hj)%pending_from_lookup.
      rewrite list_lookup_fmap in Hj. simpl in Hk. rewrite Hk in Hj.
      simpl in Hj. congruence. }
    pose proof (sublist_missing_length _ _ _ Hsub Hin Hnot). lia.
  - destruct (isPaused (hook e)); inversion H; subst; (split; [|done]);
      split; simpl; done.
Qed.

(** *** The invariant over the engine *)

#[local] Arguments updateNetworkStats : simpl never.
#[local] Arguments uploadedSize : simpl never.
#[local] Arguments Math_round_percent : simpl never.

Lemma inv_frame (c : Z) (e e' : Engine) :
  passes e' = passes e -> EngineInv c e -> EngineInv c e'.
Proof. unfold EngineInv. by intros ->. Qed.

(** Closes a goal [EngineInv c e'] when [e'] has the passes of a state for
    which the invariant is known. *)
Ltac keep_passes :=
  eapply inv_frame; [by autorewrite with frame | try done].

Lemma inv_set_worker (c : Z) (p k : nat) (w w' : Worker) (e : Engine) :
  EngineInv c e -> get_worker p k e = Some w ->
  w_promise w' = w_promise w -> (running w' = true -> running w = true) ->
  EngineInv c (set_worker p k w' e).
Proof.
  unfold EngineInv, get_worker, set_worker. intros Hinv Hg Hp Hr.
  destruct (passes e !! p) as [ps|] eqn:Hps; simpl in Hg; [|done].
  simpl. apply Forall_insert; [done|].
  eapply pass_inv_set_worker; eauto.
  eapply Forall_lookup_1; eauto.
Qed.

Lemma inv_with_worker (c : Z) (p k : nat)
    (f : Worker -> Engine -> option (Engine * Worker)) (e e' : Engine) :
  (forall w e1 w1, f w e = Some (e1, w1) ->
     passes e1 = passes e /\ w_promise w1 = w_promise w /\ running w = true) ->
  EngineInv c e -> with_worker p k f e = Some e' -> EngineInv c e'.
Proof.
  intros Hf Hinv H. unfold with_worker in H.
  destruct (get_worker p k e) as [w|] eqn:Hg; simpl in H; [|done].
  destruct (f w e) as [[e1 w1]|] eqn:Hfw; simpl in H; [|done].
  inversion H; subst. apply Hf in Hfw as (Hp & Hw & Hr).
  eapply inv_set_worker with (w := w); eauto.
  - by eapply inv_frame.
  - unfold get_worker in *. by rewrite Hp.
Qed.

Lemma inv_with_pass (c : Z) (p : nat)
    (f : Engine -> Pass -> option (Engine * Pass)) (e e' : Engine) :
  (forall ps e1 ps1, PassInv c ps -> f e ps = Some (e1, ps1) ->
     PassInv c ps1 /\ passes e1 = passes e) ->
  EngineInv c e -> with_pass p f e = Some e' -> EngineInv c e'.
Proof.
  intros Hf Hinv H. unfold with_pass in H.
  destruct (passes e !! p) as [ps|] eqn:Hps; simpl in H; [|done].
  destruct (f e ps) as [[e1 ps1]|] eqn:Hfp; simpl in H; [|done].
  inversion H; subst. unfold EngineInv in *. simpl.
  apply Hf in Hfp as [Hinv1 Hp]; [|by eapply Forall_lookup_1].
  rewrite Hp. by apply Forall_insert.
Qed.

Lemma inv_abort (c : Z) (ctrl : nat) (e : Engine) :
  EngineInv c e -> EngineInv c (abort ctrl e).
Proof.
  unfold EngineInv, abort. intros Hinv.
  destruct (bool_decide (ctrl ∈ aborted e)); [done|]. simpl.
  change (map ?f ?l) with (f <$> l). apply Forall_fmap.
  eapply Forall_impl; [exact Hinv|]. intros ps. apply pass_inv_abort.
Qed.

Lemma inv_pause_chunk (c : Z) (e : Engine) (a : nat) :
  EngineInv c e -> EngineInv c (pause_chunk e a).
Proof.
  intros Hinv. unfold pause_chunk.
  destruct (heap e !! a) as [ch|]; [|done].
  destruct (abortController ch) as [ctrl|]; [|done].
  destruct (negb (uploaded ch) && (0 <? progress ch)); [|done].
  eapply inv_frame; [apply passes_upd_chunk|]. by apply inv_abort.
Qed.

Lemma inv_pauseUpload (c : Z) (e : Engine) :
  EngineInv c e -> EngineInv c (pauseUpload e).
Proof.
  unfold pauseUpload. intros Hinv.
  assert (H0 : EngineInv c (upd_hook (set_isPaused true) e)) by done.
  generalize dependent (upd_hook (set_isPaused true) e).
  generalize (chunks (hook e)).
  intros l. induction l as [|a l IH]; intros e0 H0; simpl; [done|].
  apply IH. by apply inv_pause_chunk.
Qed.

Lemma inv_start_pass (opts : S3UploadOptions) (k : nat) (e e' : Engine) :
  EngineInv (concurrent opts) e -> start_pass opts k e = Some e' ->
  EngineInv (concurrent opts) e'.
Proof.
  intros Hinv H. unfold start_pass, uploadChunksConcurrently in H.
  destruct (pass_loop _ _ _ _) as [[e1 ps]|] eqn:Hl; simpl in H; [|done].
  inversion H; subst.
  apply pass_loop_inv in Hl as [Hps Hp]; simpl; try done; [|lia].
  eapply inv_frame; [apply passes_set_caller_pc|].
  unfold EngineInv. simpl. rewrite Hp. apply Forall_app. split; [done|].
  by apply Forall_singleton.
Qed.

Lemma inv_start_transfer (opts : S3UploadOptions) (k : nat) (e e' : Engine) :
  EngineInv (concurrent opts) e -> start_transfer opts k e = Some e' ->
  EngineInv (concurrent opts) e'.
Proof.
  intros Hinv H. unfold start_transfer in H.
  destruct (Nat.eqb _ _).
  - inversion H; subst.
    keep_passes.
  - eapply inv_start_pass; [|exact H].
    keep_passes.
Qed.

Lemma step_inv (opts : S3UploadOptions) (e e' : Engine) (ev : Event) :
  EngineInv (concurrent opts) e -> step opts e ev = Some e' ->
  EngineInv (concurrent opts) e'.
Proof.
  intros Hinv H. destruct ev; simpl in H.
  - (* Tick *)
    destruct (0 <=? dt); [|done]. by inversion H; subst.
  - (* StartUpload *)
    inversion H; subst. unfold startUpload.
    destruct (currentFile (hook e)); [|done].
    by destruct (String.eqb _ _).
  - (* PauseUpload *)
    inversion H; subst. by apply inv_pauseUpload.
  - (* ResumeUpload *)
    unfold resumeUpload in H.
    destruct (currentFile (hook e)); [|by inversion H; subst].
    destruct (isCompleted (hook e)); [by inversion H; subst|].
    eapply inv_start_pass; [|exact H].
    eapply inv_frame; [|exact Hinv]. simpl.
    by autorewrite with frame.
  - (* CheckResponse *)
    unfold check_response in H.
    destruct (callers e !! c) as [cl|]; simpl in H; [|done].
    destruct (currentFile (hook e)) as [f|]; simpl in H; [|done].
    destruct (c_pc cl); try done.
    destruct r as [err|result].
    + inversion H; subst.
      keep_passes.
    + destruct (fileExists result && isComplete result).
      * inversion H; subst.
        keep_passes.
      * match type of H with
        | context [upd_hook (set_isCheckingUpload false) ?e1] =>
            assert (Hinv1 : EngineInv (concurrent opts) e1)
        end.
        { destruct (session result); [|done].
          keep_passes. }
        match type of H with
        | match ?o with _ => _ end = _ => destruct o
        end.
        -- eapply inv_start_transfer; [|exact H]. done.
        -- inversion H; subst.
           keep_passes.
  - (* InitializeResponse *)
    unfold initialize_response in H.
    destruct (callers e !! c) as [cl|]; simpl in H; [|done].
    destruct (c_pc cl); try done.
    destruct r as [err|res]; [|destruct (init_success res)];
      inversion H; subst;
      keep_passes.
  - (* ChunksHashed *)
    unfold chunks_hashed in H.
    destruct (callers e !! c) as [cl|]; simpl in H; [|done].
    destruct (currentFile (hook e)) as [f|]; simpl in H; [|done].
    destruct (c_pc cl); try done.
    destruct ok.
    + eapply inv_start_transfer; [|exact H]. done.
    + inversion H; subst. keep_passes.
  - (* Reconciled *)
    unfold reconciled in H.
    destruct (jobs e !! j) as [jb|]; simpl in H; [|done].
    destruct (j_done jb); [done|].
    destruct ok; inversion H; subst; [|done].
    keep_passes.
  - (* CompleteResponse *)
    unfold complete_response in H.
    destruct (callers e !! c) as [cl|]; simpl in H; [|done].
    destruct (c_pc cl); try done.
    destruct r as [err|res]; [|destruct (complete_success res)];
      inversion H; subst;
      keep_passes.
  - (* PassSettled *)
    unfold pass_settled in H.
    destruct (callers e !! c) as [cl|]; simpl in H; [|done].
    destruct (c_pc cl); try done.
    destruct (passes e !! p) as [ps|]; simpl in H; [|done].
    destruct (p_pc ps), (c_kind cl); try done;
      try destruct (Nat.eqb _ _); inversion H; subst;
      keep_passes.
  - (* XhrProgress *)
    unfold xhr_progress in H.
    destruct (get_worker p k e) as [w|]; simpl in H; [|done].
    destruct (heap e !! w_chunk w) as [ch|]; simpl in H; [|done].
    destruct (w_pc w) as [ctrl [t|s|err]| | |]; try done.
    destruct (_ && _); [|done].
    destruct (negb (signal_aborted e ch)); [|by inversion H; subst].
    destruct (updateNetworkStats _ _ _) as [si ns]. inversion H; subst.
    keep_passes.
  - (* XhrLoad *)
    unfold xhr_load in H.
    destruct (get_worker p k e) as [w|] eqn:Hg; simpl in H; [|done].
    destruct (w_pc w) as [ctrl [t|s|err]| | |] eqn:Hpc; try done.
    assert (Hrun : running w = true) by (by unfold running; rewrite Hpc).
    destruct (_ && _).
    + destruct body as [result|]; [destruct (chunk_success result)|];
        inversion H; subst; eapply inv_set_worker with (w := w); eauto.
      * keep_passes.
      * unfold get_worker in *.
        by rewrite passes_updateTotalProgress, passes_upd_chunk.
    + inversion H; subst. eapply inv_set_worker with (w := w); eauto.
  - (* XhrError *)
    unfold xhr_error in H.
    destruct (get_worker p k e) as [w|] eqn:Hg; simpl in H; [|done].
    destruct (w_pc w) as [ctrl [t|s|err]| | |] eqn:Hpc; try done.
    assert (Hrun : running w = true) by (by unfold running; rewrite Hpc).
    inversion H; subst. eapply inv_set_worker with (w := w); eauto.
  - (* ChunkTimeout *)
    unfold chunk_timeout in H.
    destruct (get_worker p k e) as [w|] eqn:Hg; simpl in H; [|done].
    destruct (heap e !! w_chunk w) as [ch|]; simpl in H; [|done].
    destruct (w_pc w) as [ctrl [[d|]|s|err]| | |] eqn:Hpc; try done.
    assert (Hrun : running w = true) by (by unfold running; rewrite Hpc).
    destruct (d <=? clock e); [|done].
    destruct (negb (signal_aborted e ch)); inversion H; subst;
      eapply inv_set_worker with (w := w); eauto.
  - (* UploadSettled *)
    eapply inv_with_worker; [|exact Hinv|exact H].
    intros w e1 w1. apply worker_resume_spec.
  - (* DelayElapsed *)
    eapply inv_with_worker; [|exact Hinv|exact H].
    intros w e1 w1. apply worker_after_delay_spec.
  - (* PromiseReaction *)
    eapply inv_with_pass; [|exact Hinv|exact H].
    intros ps e1 ps1 Hps Hr. simpl in Hr.
    destruct (promise_reaction k e ps) as [ps2|] eqn:Hpr; simpl in Hr; [|done].
    inversion Hr; subst. split; [|done]. by eapply pass_inv_reaction.
  - (* RaceSettled *)
    eapply inv_with_pass; [|exact Hinv|exact H].
    intros ps e1 ps1 Hps Hr. by eapply pass_inv_race.
  - (* AllSettled *)
    eapply inv_with_pass; [|exact Hinv|exact H].
    intros ps e1 ps1 Hps Hr. simpl in Hr.
    destruct (all_settled ps) as [ps2|] eqn:Hpr; simpl in Hr; [|done].
    inversion Hr; subst. split; [|done]. by eapply pass_inv_all_settled.
Qed.

Lemma run_inv (opts : S3UploadOptions) (evs : list Event) :
  forall e e', EngineInv (concurrent opts) e -> run opts e evs = Some e' ->
               EngineInv (concurrent opts) e'.
Proof.
  induction evs as [|ev evs IH]; intros e e' Hinv H; simpl in H.
  - by inversion H; subst.
  - destruct (step opts e ev) as [e1|] eqn:Hs; simpl in H; [|done].
    eapply IH; [|exact H]. by eapply step_inv.
Qed.

(** X20.  Whatever the user, the network and the timers do after the hook
    starts with no pass running, the chunk uploads that one activation of
    [uploadChunksConcurrently] has in flight never exceed [max 1 concurrent],
    and neither does its [executing] array; for a limit of at least one this
    is the configured [concurrent].  The bound is per activation: the
    uploads of two activations running side by side add up. *)
Theorem pass_inflight_bound (opts : S3UploadOptions) (e0 e : Engine)
    (evs : list Event) :
  passes e0 = [] -> run opts e0 evs = Some e ->
  forall (p : nat) (ps : Pass), passes e !! p = Some ps ->
    Z.of_nat (inFlight ps) <= Z.max 1 (concurrent opts)
    /\ Z.of_nat (length (p_executing ps)) <= Z.max 1 (concurrent opts)
    /\ (1 <= concurrent opts -> Z.of_nat (inFlight ps) <= concurrent opts).
Proof.
  intros H0 Hrun p ps Hps.
  assert (Hinv : EngineInv (concurrent opts) e).
  { eapply run_inv; [|exact Hrun]. unfold EngineInv. rewrite H0. constructor. }
  pose proof (Forall_lookup_1 _ _ _ _ Hinv Hps) as Hp.
  pose proof (pass_inv_inFlight _ _ Hp) as Hb.
  split; [exact Hb|]. split; [apply Hp|]. lia.
Qed.

Lemma pass_inflight_bound_witness :
  passes (boot file23 "abc") = []
  /\ (exists e, run defaultOptions (boot file23 "abc") resume_after_pause = Some e)
  /\ forall e p ps,
       run defaultOptions (boot file23 "abc") resume_after_pause = Some e ->
       passes e !! p = Some ps -> Z.of_nat (inFlight ps) <= 3.
Proof.
  split; [reflexivity|]. split.
  - destruct (run defaultOptions (boot file23 "abc") resume_after_pause)
      as [e|] eqn:E; [by exists e|].
    exfalso. revert E. vm_compute. discriminate.
  - intros e p ps Hrun Hps.
    apply (pass_inflight_bound defaultOptions (boot file23 "abc") e
             resume_after_pause eq_refl Hrun p ps Hps).
    vm_compute. discriminate.
Defined.

(** With a limit of zero the first chunk is started all the same: with
    [concurrent] itself as the bound of one activation, the statement
    fails. *)
Lemma inflight_exceeds_zero_limit :
  ~ (forall (opts : S3UploadOptions) (e0 e : Engine) (evs : list Event),
       passes e0 = [] -> run opts e0 evs = Some e ->
       forall (p : nat) (ps : Pass), passes e !! p = Some ps ->
         Z.of_nat (inFlight ps) <= concurrent opts).
Proof.
  intros H.
  destruct (run noneAtATime (boot file1 "abc") fresh_start) as [e|] eqn:E;
    [|revert E; vm_compute; discriminate].
  assert (Hm : map inFlight (passes e) = [1%nat]).
  { assert (G : option_map (fun e => map inFlight (passes e))
                  (run noneAtATime (boot file1 "abc") fresh_start)
                = Some [1%nat]) by (vm_compute; reflexivity).
    rewrite E in G. simpl in G. by inversion G. }
  destruct (passes e) as [|ps [|ps' l]] eqn:Hp; simpl in Hm; try discriminate.
  inversion Hm as [Hin].
  specialize (H noneAtATime (boot file1 "abc") e fresh_start eq_refl E 0%nat ps).
  rewrite Hp in H. specialize (H eq_refl). rewrite Hin in H.
  simpl in H. lia.
Qed.

(** * Instant transfer *)

Lemma startUpload_awaits_check (e : Engine) (f : File) :
  currentFile (hook e) = Some f -> fileHash (hook e) <> "" ->
  let e1 := startUpload e in
  callers e1 = callers e ++ [{| c_kind := FromStart; c_pc := AwaitCheck |}]
  /\ calls e1 = calls e ++ [CallCheck]
  /\ currentFile (hook e1) = Some f
  /\ uploadSession (hook e1) = uploadSession (hook e)
  /\ chunks (hook e1) = chunks (hook e)
  /\ uploadProgress (hook e1) = uploadProgress (hook e)
  /\ heap e1 = heap e /\ passes e1 = passes e /\ jobs e1 = jobs e.
Proof.
  intros Hf Hh. unfold startUpload. rewrite Hf.
  apply String.eqb_neq in Hh. rewrite Hh. simpl. by rewrite Hf.
Qed.

Lemma check_response_instant (opts : S3UploadOptions) (e : Engine) (c : nat)
    (k : CallerKind) (f : File) (r : S3CheckUploadResponse) :
  callers e !! c = Some {| c_kind := k; c_pc := AwaitCheck |} ->
  currentFile (hook e) = Some f ->
  fileExists r = true -> isComplete r = true ->
  exists e',
    step opts e (CheckResponse c (inr r)) = Some e'
    /\ callers e'
       = <[c := {| c_kind := k; c_pc := Returned (or_null (url r)) |}]>
           (callers e)
    /\ isCompleted (hook e') = true
    /\ isSecondTransfer (hook e') = true
    /\ isUploading (hook e') = false
    /\ isCheckingUpload (hook e') = false
    /\ calls e' = calls e
    /\ uploadSession (hook e') = uploadSession (hook e)
    /\ chunks (hook e') = chunks (hook e)
    /\ uploadProgress (hook e') = uploadProgress (hook e)
    /\ heap e' = heap e /\ passes e' = passes e /\ jobs e' = jobs e.
Proof.
  intros Hc Hf He Hcpl. eexists. split.
  - simpl. unfold check_response. rewrite Hc, Hf. simpl. rewrite He, Hcpl. simpl.
    reflexivity.
  - unfold set_caller_pc. simpl. rewrite Hc. simpl. repeat split.
Qed.

Lemma run_cons (opts : S3UploadOptions) (e e1 : Engine) (ev : Event)
    (rest : list Event) :
  step opts e ev = Some e1 -> run opts e (ev :: rest) = run opts e1 rest.
Proof. intros H. cbn [run]. by rewrite H. Qed.

(** C6.  When the check answer reports the object as existing and complete,
    [startUpload] goes straight to completed: it returns the URL of the
    answer (or null), the only request sent is the check itself (no
    initialize, no chunk, no complete), [uploadSession] is left as it was, and
    no scheduling pass and no reconciliation job is started. *)
Theorem instant_transfer (opts : S3UploadOptions) (e : Engine) (f : File)
    (r : S3CheckUploadResponse) :
  currentFile (hook e) = Some f -> fileHash (hook e) <> "" ->
  fileExists r = true -> isComplete r = true ->
  exists e',
    run opts e [StartUpload; CheckResponse (length (callers e)) (inr r)] = Some e'
    /\ callers e' !! length (callers e)
       = Some {| c_kind := FromStart; c_pc := Returned (or_null (url r)) |}
    /\ isCompleted (hook e') = true
    /\ isUploading (hook e') = false
    /\ calls e' = calls e ++ [CallCheck]
    /\ uploadSession (hook e') = uploadSession (hook e)
    /\ passes e' = passes e
    /\ jobs e' = jobs e
    /\ heap e' = heap e.
Proof.
  intros Hf Hh He Hcpl.
  destruct (startUpload_awaits_check e f Hf Hh)
    as (Hcl & Hcalls & Hf1 & Hs1 & Hch1 & Hup1 & Hheap1 & Hp1 & Hj1).
  destruct (check_response_instant opts (startUpload e) (length (callers e))
              FromStart f r) as (e' & Hstep & Hcl' & Hcomp & Hsec & Hupl & _
                                 & Hcalls' & Hs' & Hch' & Hup' & Hheap' & Hp' & Hj');
    [ by rewrite Hcl, list_lookup_middle | done | done | done |].
  exists e'. split; [|split; [|split; [|split; [|split; [|split; [|split; [|split]]]]]]].
  - rewrite (run_cons opts e (startUpload e)) by done.
    by rewrite (run_cons opts _ e') by done.
  - rewrite Hcl', Hcl. rewrite list_lookup_insert_eq; [done|].
    rewrite length_app. simpl. lia.
  - done.
  - done.
  - by rewrite Hcalls'.
  - by rewrite Hs'.
  - by rewrite Hp'.
  - by rewrite Hj'.
  - by rewrite Hheap'.
Qed.

Lemma instant_transfer_witness :
  currentFile (hook (boot file23 "abc")) = Some file23
  /\ fileHash (hook (boot file23 "abc")) <> ""
  /\ fileExists checkComplete = true /\ isComplete checkComplete = true
  /\ exists e',
       run defaultOptions (boot file23 "abc")
         [StartUpload; CheckResponse 0 (inr checkComplete)] = Some e'
       /\ calls e' = [CallCheck] /\ uploadSession (hook e') = None.
Proof.
  assert (Hh : fileHash (hook (boot file23 "abc")) <> "") by discriminate.
  split; [reflexivity|]. split; [exact Hh|].
  split; [reflexivity|]. split; [reflexivity|].
  destruct (instant_transfer defaultOptions (boot file23 "abc") file23
              checkComplete eq_refl Hh eq_refl eq_refl)
    as (e' & Hrun & _ & _ & _ & Hcalls & Hsess & _).
  exists e'. split; [exact Hrun|]. split; [exact Hcalls | exact Hsess].
Defined.

(** C10.  When [startUpload] ends through the instant-transfer branch it
    returns the URL of the check answer (or null) with [isCompleted] and
    [isSecondTransfer] set, and it writes neither the chunk list nor
    [uploadProgress]: from the reset state the list stays empty and [loaded]
    and [percentage] stay 0, so [uploadedSize] is 0 and differs from the size
    of a non-empty file. *)
Theorem instant_transfer_leaves_progress (opts : S3UploadOptions) (e : Engine)
    (f : File) (r : S3CheckUploadResponse) :
  currentFile (hook e) = Some f -> fileHash (hook e) <> "" ->
  fileExists r = true -> isComplete r = true ->
  chunks (hook e) = [] ->
  loaded (uploadProgress (hook e)) = 0 ->
  percentage (uploadProgress (hook e)) = 0 ->
  exists e',
    run opts e [StartUpload; CheckResponse (length (callers e)) (inr r)] = Some e'
    /\ callers e' !! length (callers e)
       = Some {| c_kind := FromStart; c_pc := Returned (or_null (url r)) |}
    /\ isCompleted (hook e') = true
    /\ isSecondTransfer (hook e') = true
    /\ chunks (hook e') = []
    /\ loaded (uploadProgress (hook e')) = 0
    /\ percentage (uploadProgress (hook e')) = 0
    /\ uploadedSize e' = 0
    /\ (0 < size f -> uploadedSize e' <> size f).
Proof.
  intros Hf Hh He Hcpl Hch Hl Hpct.
  destruct (startUpload_awaits_check e f Hf Hh)
    as (Hcl & Hcalls & Hf1 & Hs1 & Hch1 & Hup1 & Hheap1 & Hp1 & Hj1).
  destruct (check_response_instant opts (startUpload e) (length (callers e))
              FromStart f r) as (e' & Hstep & Hcl' & Hcomp & Hsec & Hupl & _
                                 & Hcalls' & Hs' & Hch' & Hup' & Hheap' & Hp' & Hj');
    [ by rewrite Hcl, list_lookup_middle | done | done | done |].
  assert (Hsize : uploadedSize e' = 0).
  { unfold uploadedSize, uploadedChunks, chunkObjects.
    by rewrite Hch', Hch1, Hch. }
  exists e'. split; [|split; [|split; [|split; [|split; [|split; [|split; [|split]]]]]]].
  - rewrite (run_cons opts e (startUpload e)) by done.
    by rewrite (run_cons opts _ e') by done.
  - rewrite Hcl', Hcl. rewrite list_lookup_insert_eq; [done|].
    rewrite length_app. simpl. lia.
  - done.
  - done.
  - by rewrite Hch', Hch1.
  - by rewrite Hup', Hup1.
  - by rewrite Hup', Hup1.
  - done.
  - rewrite Hsize. lia.
Qed.

Lemma instant_transfer_leaves_progress_witness :
  exists e',
    run defaultOptions (boot file23 "abc")
      [StartUpload; CheckResponse 0 (inr checkComplete)] = Some e'
    /\ callers e' !! 0%nat
       = Some {| c_kind := FromStart;
                 c_pc := Returned (Some "https://cdn.example/video.mp4") |}
    /\ uploadedSize e' = 0
    /\ uploadedSize e' <> size file23.
Proof.
  assert (Hh : fileHash (hook (boot file23 "abc")) <> "") by discriminate.
  destruct (instant_transfer_leaves_progress defaultOptions (boot file23 "abc")
              file23 checkComplete eq_refl Hh eq_refl eq_refl eq_refl eq_refl
              eq_refl)
    as (e' & Hrun & Hret & _ & _ & _ & _ & _ & Hsz & Hne).
  exists e'. split; [exact Hrun|]. split; [exact Hret|].
  split; [exact Hsz|]. apply Hne. reflexivity.
Defined.

(** * Where the hooks depart from the specification *)

(** A rejected upload ends its worker at once: the worker returns or throws,
    its attempt count stays, and no chunk object changes (so no
    [retryCount] is incremented). *)
Lemma rejected_upload_ends_worker (opts : S3UploadOptions) (w : Worker)
    (e : Engine) (ctrl : option nat) (err : UploadError) :
  w_pc w = WUpload ctrl (XRejected err) ->
  exists e' w',
    worker_resume opts w e = Some (e', w')
    /\ (w_pc w' = WReturned \/ w_pc w' = WThrown err)
    /\ w_attempts w' = w_attempts w
    /\ heap e' = heap e.
Proof.
  intros Hpc. unfold worker_resume. rewrite Hpc.
  assert (Hh : heap (worker_finally (w_chunk w) e) = heap e).
  { unfold worker_finally. by destruct (heap e !! w_chunk w). }
  destruct (isPaused (hook e) && mentions_cancel err);
    eexists _, _; (split; [reflexivity|]); simpl; auto.
Qed.

(** C5 (defect).  With [retryTimes = 3], a chunk whose first request fails
    with a network error is not sent again: the worker has made one attempt
    and has thrown, the chunk is not uploaded and its [retryCount] is 0, one
    [chunk] request was sent, and neither a second response nor a retry delay
    can follow.  The task then fails after that single attempt, or, when the
    loop had already left for [Promise.allSettled], goes on to the complete
    request with the chunk missing.  In general a rejected upload ends its
    worker without a retry. *)
Theorem failed_chunk_is_not_retried :
  retryTimes defaultOptions = 3
  /\ (let r := run defaultOptions (boot file23 "abc") first_chunk_fails in
      option_map (fun e => (chunkState e 0, workerState e 0 0, chunkCalls e 0)) r
      = Some (Some (false, 1, 0%nat),
              Some (1, WThrown ErrNetwork, Rejected ErrNetwork), 1%nat))
  /\ run defaultOptions (boot file23 "abc")
       (first_chunk_fails ++ [XhrLoad 0 0 200 "OK" chunkOk]) = None
  /\ run defaultOptions (boot file23 "abc")
       (first_chunk_fails ++ [Tick 3000; DelayElapsed 0 0]) = None
  /\ (let r := run defaultOptions (boot file23 "abc")
                 (first_chunk_fails ++ [RaceSettled 0 0; PassSettled 0]) in
      option_map (fun e => (callerState e 0, isUploading (hook e),
                            isCompleted (hook e), chunkState e 0)) r
      = Some (Some (Thrown ErrNetwork), false, false,
              Some (false, 1, 0%nat)))
  /\ (let r := run defaultOptions (boot file1 "abc")
                 (first_chunk_fails ++ [AllSettled 0; PassSettled 0]) in
      option_map (fun e => (callerState e 0, calls e, chunkState e 0)) r
      = Some (Some AwaitComplete,
              [CallCheck; CallInitialize; CallChunk 0; CallComplete],
              Some (false, 1, 0%nat)))
  /\ (forall opts w e ctrl err,
        w_pc w = WUpload ctrl (XRejected err) ->
        exists e' w',
          worker_resume opts w e = Some (e', w')
          /\ (w_pc w' = WReturned \/ w_pc w' = WThrown err)
          /\ w_attempts w' = w_attempts w
          /\ heap e' = heap e).
Proof.
  split; [reflexivity|].
  split; [vm_compute; reflexivity|].
  split; [vm_compute; reflexivity|].
  split; [vm_compute; reflexivity|].
  split; [vm_compute; reflexivity|].
  split; [vm_compute; reflexivity|].
  apply rejected_upload_ends_worker.
Qed.

(** C7 (defect).  Three uploads are in flight; the first has reported so few
    bytes that its [progress] rounds to 0, the second is at 50.  After
    [pauseUpload] the second and third are cancelled and back at progress 0,
    but the request of the first is still in flight.  After [resumeUpload]
    the first chunk has two requests in flight, and both complete: the chunk
    is uploaded to completion twice. *)
Theorem pause_leaves_request_in_flight :
  (let r := run defaultOptions (boot file23 "abc") pause_at_partial_progress in
   option_map (fun e => (isPaused (hook e),
                         (transporters e 0, transporters e 1, transporters e 2),
                         (chunkState e 0, chunkState e 1, chunkState e 2))) r
   = Some (true, (1%nat, 0%nat, 0%nat),
           (Some (false, 0, 0%nat), Some (false, 0, 0%nat),
            Some (false, 0, 0%nat))))
  /\ (let r := run defaultOptions (boot file23 "abc") resume_after_pause in
      option_map (fun e => (transporters e 0, chunkCalls e 0)) r
      = Some (2%nat, 2%nat))
  /\ (let r := run defaultOptions (boot file23 "abc") both_requests_complete in
      option_map (fun e => (completedUploads e 0, chunkState e 0)) r
      = Some (2%nat, Some (true, 100, 0%nat))).
Proof.
  split; [vm_compute; reflexivity|].
  split; vm_compute; reflexivity.
Qed.

(** C3 (defect).  With one upload at a time, a pause that finds the only
    request at progress 0 cancels nothing, and [resumeUpload] clears the
    registry and starts a second pass next to the first: the first chunk
    then has two requests in flight.  When the first pass goes on to the
    second chunk, its index is recorded in the registry and its request is
    in flight; the second pass starts that chunk once more. *)
Theorem two_transporters_for_one_chunk :
  (let r := run oneAtATime (boot file23 "abc") overlapping_passes in
   option_map (fun e => (transporters e 0, registry e, length (passes e))) r
   = Some (2%nat, [0%nat], 2%nat))
  /\ (let r := run oneAtATime (boot file23 "abc") first_pass_goes_on in
      option_map (fun e => (transporters e 1, registry e)) r
      = Some (1%nat, [1%nat]))
  /\ (let r := run oneAtATime (boot file23 "abc") second_pass_goes_on in
      option_map (fun e => (transporters e 1, registry e, chunkCalls e 1)) r
      = Some (2%nat, [1%nat], 2%nat)).
Proof.
  split; [vm_compute; reflexivity|].
  split; vm_compute; reflexivity.
Qed.

(** C2 (defect).  With the default limit of three uploads at a time, three
    requests are in flight when the user pauses; the first has reported so
    few bytes that its [progress] rounds to 0, so [pauseUpload] leaves it on
    the wire and the first activation of [uploadChunksConcurrently] keeps
    waiting for it.  [resumeUpload] starts a second activation, which sends
    the first three chunks at once: four chunk uploads are in flight, one in
    the first activation and three in the second, against a limit of
    three. *)
Theorem four_uploads_at_limit_three :
  concurrent defaultOptions = 3
  /\ (let r := run defaultOptions (boot file23 "abc") pause_at_partial_progress in
      option_map (fun e => (onTheWire e, map inFlight (passes e))) r
      = Some (1%nat, [1%nat]))
  /\ (let r := run defaultOptions (boot file23 "abc") resume_after_pause in
      option_map (fun e => (onTheWire e, map inFlight (passes e),
                            map (transporters e) [0; 1; 2; 3; 4]%nat)) r
      = Some (4%nat, [1%nat; 3%nat], [2; 1; 1; 0; 0]%nat)).
Proof.
  split; [reflexivity|].
  split; vm_compute; reflexivity.
Qed.

(** Every upload arms its own timer one hour ahead. *)
Lemma uploadChunk_arms_timer (a : nat) (e e' : Engine) (ctrl : nat)
    (x : XhrSt) :
  uploadChunk a e = Some (e', (Some ctrl, x)) ->
  x = XInFlight (Some (clock e + 60000 * 60)).
Proof.
  unfold uploadChunk. intros H.
  destruct (heap e !! a) as [c|]; simpl in H; [|done].
  destruct (uploadSession (hook e)), (or_null (chunkHash c)); by simplify_eq.
Qed.

(** X21.  Every chunk upload of the S3 hook arms its own timeout, one hour
    ([60_000 * 60] ms) ahead.  The timeout cannot fire before that; when it
    fires while the request is in flight and the chunk's controller has not
    been aborted, the request is aborted (it is no longer in flight), the
    upload's promise is rejected with the error of the request's [abort]
    listener, and [uploadSingleChunk] throws that error, paused or not,
    without another attempt. *)
Theorem chunk_timeout_one_hour (opts : S3UploadOptions) (e : Engine)
    (p k : nat) (w : Worker) (c : S3ChunkInfo) (ctrl : option nat)
    (deadline : Z) :
  get_worker p k e = Some w ->
  heap e !! w_chunk w = Some c ->
  w_pc w = WUpload ctrl (XInFlight (Some deadline)) ->
  (forall a e0 e1 ctrl0 x,
     uploadChunk a e0 = Some (e1, (Some ctrl0, x)) ->
     x = XInFlight (Some (clock e0 + 3600000)))
  /\ (clock e < deadline -> chunk_timeout p k e = None)
  /\ (deadline <= clock e -> signal_aborted e c = false ->
      exists e' w',
        chunk_timeout p k e = Some e'
        /\ get_worker p k e' = Some w'
        /\ w_pc w' = WUpload ctrl (XRejected ErrAborted)
        /\ transporting w' = false
        /\ exists e'' w'',
             worker_resume opts w' e' = Some (e'', w'')
             /\ w_pc w'' = WThrown ErrAborted).
Proof.
  intros Hg Hc Hpc. split; [|split].
  - intros a e0 e1 ctrl0 x H. by apply uploadChunk_arms_timer in H.
  - intros Hlt. unfold chunk_timeout. rewrite Hg. simpl. rewrite Hc. simpl.
    rewrite Hpc. destruct (Z.leb_spec deadline (clock e)); [lia|done].
  - intros Hle Hsig. unfold chunk_timeout. rewrite Hg. simpl. rewrite Hc. simpl.
    rewrite Hpc. destruct (Z.leb_spec deadline (clock e)); [|lia].
    rewrite Hsig. simpl.
    unfold get_worker in Hg.
    destruct (passes e !! p) as [ps|] eqn:Hps; simpl in Hg; [|done].
    eexists _, (set_w_pc (WUpload ctrl (XRejected ErrAborted)) w).
    split; [reflexivity|]. split.
    { unfold get_worker, set_worker. rewrite Hps. simpl.
      rewrite list_lookup_insert_eq by (by eapply lookup_lt_Some). simpl.
      apply list_lookup_insert_eq. by eapply lookup_lt_Some. }
    split; [reflexivity|]. split; [reflexivity|].
    unfold worker_resume. simpl.
    assert (Hm : mentions_cancel ErrAborted = false) by (vm_compute; reflexivity).
    rewrite Hm, andb_false_r. eexists _, _. split; reflexivity.
Qed.

Lemma chunk_timeout_one_hour_witness :
  let e := after defaultOptions file23 (fresh_start ++ [Tick 3600000]) in
  exists w c,
    get_worker 0 0 e = Some w
    /\ heap e !! w_chunk w = Some c
    /\ w_pc w = WUpload (Some 0%nat) (XInFlight (Some 3600001))
    /\ 3600001 <= clock e
    /\ signal_aborted e c = false
    /\ exists e', chunk_timeout 0 0 e = Some e'.
Proof.
  intros e.
  destruct (get_worker 0 0 e) as [w|] eqn:Hw; [|revert Hw; vm_compute; discriminate].
  destruct (heap e !! w_chunk w) as [c|] eqn:Hc.
  2:{ revert Hc. assert (Hw' : get_worker 0 0 e = Some w) by exact Hw.
      revert Hw'. vm_compute. intros [= <-]. discriminate. }
  assert (Hpc : w_pc w = WUpload (Some 0%nat) (XInFlight (Some 3600001))).
  { revert Hw. vm_compute. by intros [= <-]. }
  assert (Hclock : 3600001 <= clock e) by (vm_compute; discriminate).
  assert (Hsig : signal_aborted e c = false).
  { revert Hc. revert Hw. vm_compute. intros [= <-]. by intros [= <-]. }
  exists w, c. split; [reflexivity|]. split; [exact Hc|]. split; [exact Hpc|].
  split; [exact Hclock|]. split; [exact Hsig|].
  destruct (chunk_timeout_one_hour defaultOptions e 0 0 w c (Some 0%nat) 3600001
              Hw Hc Hpc) as (_ & _ & Hfire).
  destruct (Hfire Hclock Hsig) as (e' & _ & He' & _).
  by exists e'.
Defined.

(** C8 (defect).  On neither hook does a chunk upload time out after 30 to
    60 seconds, and a timeout is not retried.  In the S3 hook the timer is
    set to [60_000 * 60] ms, an hour, where the other copy of the function
    sets 60 000 ms: after 60 seconds without any network event the timeout
    cannot fire and the request is still in flight.  When it fires after the
    hour, the request is aborted and the upload is rejected with the error
    of the [abort] listener; [uploadSingleChunk] throws it after this one
    attempt of three, one request was sent for the chunk, and the pass and
    [startUpload] fail with it.  An upload cancelled by [pauseUpload] is
    rejected with the same error.  In the local hook the 30 second timer aborts a controller nothing
    listens to: when it fires the request stays in flight, and the
    request's own [timeout] event can never happen since [xhr.timeout] is
    0. *)
Theorem timeout_not_within_a_minute :
  chunkTimeoutMs = 3600000
  /\ ~ (30000 <= chunkTimeoutMs <= 60000)
  /\ option_map (fun e => transporters e 0)
       (run defaultOptions (boot file23 "abc") (fresh_start ++ [Tick 60000]))
     = Some 1%nat
  /\ run defaultOptions (boot file23 "abc")
       (fresh_start ++ [Tick 60000; ChunkTimeout 0 0]) = None
  /\ retryTimes defaultOptions = 3
  /\ option_map (fun e => (workerState e 0 0, transporters e 0, chunkCalls e 0,
                           map p_pc (passes e), callerState e 0,
                           isUploading (hook e)))
       (run defaultOptions (boot file23 "abc") first_chunk_times_out)
     = Some (Some (1, WThrown ErrAborted, Rejected ErrAborted), 0%nat, 1%nat,
             [PassThrown ErrAborted], Some (Thrown ErrAborted), false)
  /\ option_map (fun e => workerState e 0 1)
       (run defaultOptions (boot file23 "abc") pause_cancels_second)
     = Some (Some (1, WUpload (Some 1%nat) (XRejected ErrAborted), Pending))
  /\ (forall (now : Z) (c : Local.ChunkInfo),
        exists t,
          Local.on_event (now + 30000) Local.TimerFired (Local.uploadChunk now c)
          = Some t
          /\ Local.controller_aborted t = true
          /\ Local.in_flight t = true)
  /\ (forall (now now' : Z) (c : Local.ChunkInfo),
        Local.on_event now' Local.RequestTimeout (Local.uploadChunk now c)
        = None).
Proof.
  split; [reflexivity|].
  split; [unfold chunkTimeoutMs; lia|].
  split; [vm_compute; reflexivity|].
  split; [vm_compute; reflexivity|].
  split; [reflexivity|].
  split; [vm_compute; reflexivity|].
  split; [vm_compute; reflexivity|].
  split.
  - intros now c. unfold Local.on_event, Local.uploadChunk. simpl.
    unfold Local.timerDelayMs. rewrite Z.leb_refl. eexists. split; [reflexivity|].
    split; reflexivity.
  - intros now now' c. reflexivity.
Qed.

(** * Chunk objects and progress over time *)

#[local] Instance chunk_evolves_refl : Reflexive chunk_evolves.
Proof. intros c. by repeat split. Qed.

#[local] Instance chunk_evolves_trans : Transitive chunk_evolves.
Proof.
  unfold chunk_evolves. intros c1 c2 c3 (?&?&?&?&?&?&?&?) (?&?&?&?&?&?&?&?).
  repeat split; try congruence. auto.
Qed.

#[local] Instance heap_evolves_refl : Reflexive heap_evolves.
Proof. intros h. apply Forall2_same_length_lookup. split; [done|].
  intros i x y H1 H2. rewrite H1 in H2. by inversion H2. Qed.

#[local] Instance heap_evolves_trans : Transitive heap_evolves.
Proof.
  unfold heap_evolves. intros h1 h2 h3 H12. revert h3.
  induction H12 as [|c1 c2 h1 h2 Hc H12 IH]; intros h3 H23; [done|].
  inversion H23 as [|? c3 ? h3' Hc' H23']; subst.
  constructor; [by etrans | by apply IH].
Qed.

#[local] Instance Core_refl : Reflexive Core.
Proof. intros e. by split. Qed.

#[local] Instance Core_trans : Transitive Core.
Proof.
  intros e1 e2 e3 [] []. split; try congruence. by etrans.
Qed.

Lemma Keeps_quiet (e e' : Engine) :
  Core e e' -> uploadProgress (hook e') = uploadProgress (hook e) -> Keeps e e'.
Proof. intros Hc Hp. split; [done | by left]. Qed.

#[local] Instance Keeps_refl : Reflexive Keeps.
Proof. intros e. by apply Keeps_quiet. Qed.

#[local] Instance Keeps_trans : Transitive Keeps.
Proof.
  intros e1 e2 e3 [C12 P12] [C23 P23]. split; [by etrans|].
  destruct P23 as [P23|(e'' & C & P)].
  - destruct P12 as [P12|(e'' & C & P)].
    + left. congruence.
    + right. exists e''. split; [done | congruence].
  - right. exists e''. split; [by etrans | done].
Qed.

(** Closes [Keeps e e'] when [e'] differs from [e] in fields the relation
    does not look at. *)
Ltac keeps_same := apply Keeps_quiet; [by split | done].

Lemma Keeps_upd_hook (g : Hook -> Hook) (e : Engine) :
  (forall h, chunks (g h) = chunks h /\ currentFile (g h) = currentFile h
             /\ uploadProgress (g h) = uploadProgress h) ->
  Keeps e (upd_hook g e).
Proof. intros Hg. destruct (Hg (hook e)) as (? & ? & ?). keeps_same. Qed.

Lemma Keeps_upd_chunk (a : nat) (g : S3ChunkInfo -> S3ChunkInfo) (e : Engine) :
  (forall c, chunk_evolves c (g c)) -> Keeps e (upd_chunk a g e).
Proof.
  intros Hg. unfold upd_chunk. destruct (heap e !! a) as [c|] eqn:Ha; [|done].
  apply Keeps_quiet; [|done]. split; simpl; try done.
  unfold heap_evolves.
  rewrite <- (list_insert_id (heap e) a c) at 1 by done.
  apply Forall2_insert; [reflexivity | apply Hg].
Qed.

Lemma Keeps_abort (ctrl : nat) (e : Engine) : Keeps e (abort ctrl e).
Proof. unfold abort. destruct (bool_decide _); [done | keeps_same]. Qed.

Ltac keeps_hook := apply Keeps_upd_hook; intros ?; by repeat split.
Ltac keeps_chunk := apply Keeps_upd_chunk; intros ?; by repeat split.

Lemma Keeps_updateTotalProgress (e : Engine) : Keeps e (updateTotalProgress e).
Proof.
  split.
  - unfold updateTotalProgress. destruct (currentFile (hook e)); by split.
  - right. by exists e.
Qed.

Lemma Keeps_worker_finally (a : nat) (e : Engine) : Keeps e (worker_finally a e).
Proof. unfold worker_finally. destruct (heap e !! a); [|done]. keeps_hook. Qed.

Lemma Keeps_set_caller_pc k pc e : Keeps e (set_caller_pc k pc e).
Proof. unfold set_caller_pc. destruct (callers e !! k); [keeps_same | done]. Qed.

Lemma Keeps_caller_throw k err e : Keeps e (caller_throw k err e).
Proof.
  unfold caller_throw. etrans; [|apply Keeps_set_caller_pc]. keeps_hook.
Qed.

Lemma Keeps_completeUpload k e : Keeps e (completeUpload k e).
Proof.
  unfold completeUpload.
  destruct (uploadSession (hook e)); [destruct (isPaused (hook e))|];
    try apply Keeps_caller_throw.
  etrans; [|apply Keeps_set_caller_pc]. keeps_same.
Qed.

Lemma Keeps_uploadChunk a e e' r :
  uploadChunk a e = Some (e', r) -> Keeps e e'.
Proof.
  unfold uploadChunk. intros H.
  destruct (heap e !! a) as [c|]; simpl in H; [|done].
  destruct (uploadSession (hook e)), (or_null (chunkHash c));
    inversion H; subst; try done.
  match goal with
  | |- Keeps _ (set_calls _ ?e2) => trans e2; [|keeps_same]
  end.
  match goal with
  | |- Keeps _ (upd_chunk _ _ ?e1) => trans e1; [keeps_same|]
  end.
  keeps_chunk.
Qed.

Lemma Keeps_worker_exit opts a s e : Keeps e (fst (worker_exit opts a s e)).
Proof.
  unfold worker_exit. destruct (_ && _); simpl; apply Keeps_worker_finally.
Qed.

Lemma Keeps_worker_loop opts a n e e' r :
  worker_loop opts a n e = Some (e', r) -> Keeps e e'.
Proof.
  unfold worker_loop. intros H.
  destruct (_ && _).
  - destruct (uploadChunk a e) as [[e1 [ctrl x]]|] eqn:Hu; simpl in H; [|done].
    inversion H; subst. by eapply Keeps_uploadChunk.
  - pose proof (Keeps_worker_exit opts a false e) as Hx.
    destruct (worker_exit opts a false e) as [e1 pc]. by inversion H; subst.
Qed.

Lemma Keeps_uploadSingleChunk opts a e e' w :
  uploadSingleChunk opts a e = Some (e', w) -> Keeps e e'.
Proof.
  unfold uploadSingleChunk. intros H.
  destruct (heap e !! a) as [c|]; simpl in H; [|done].
  destruct (isPaused (hook e)); [by simplify_eq|].
  match type of H with
  | context [worker_loop ?o ?a ?n ?e0] =>
      destruct (worker_loop o a n e0) as [[e2 [n2 pc]]|] eqn:Hl
  end; simpl in H; [|done].
  inversion H; subst. apply Keeps_worker_loop in Hl.
  etrans; [|exact Hl]. keeps_hook.
Qed.

Lemma Keeps_worker_resume opts w w' e e' :
  worker_resume opts w e = Some (e', w') -> Keeps e e'.
Proof.
  unfold worker_resume. intros H.
  destruct (w_pc w) as [ctrl [t|s|err]| | |]; try done.
  - destruct (_ && _ && _); [by simplify_eq|].
    pose proof (Keeps_worker_exit opts (w_chunk w) s e) as Hx.
    destruct (worker_exit opts (w_chunk w) s e) as [e1 pc]. by simplify_eq.
  - destruct (_ && _); inversion H; subst; apply Keeps_worker_finally.
Qed.

Lemma Keeps_worker_after_delay opts w w' e e' :
  worker_after_delay opts w e = Some (e', w') -> Keeps e e'.
Proof.
  unfold worker_after_delay. intros H.
  destruct (w_pc w) as [| until | |]; try done.
  destruct (until <=? clock e); [|done].
  destruct (worker_loop opts (w_chunk w) (w_attempts w) e)
    as [[e1 [n pc]]|] eqn:Hl; simpl in H; [|done].
  inversion H; subst. by eapply Keeps_worker_loop.
Qed.

Lemma Keeps_pass_loop opts todo : forall e ps e' ps',
  pass_loop opts todo e ps = Some (e', ps') -> Keeps e e'.
Proof.
  induction todo as [|a rest IH]; intros e ps e' ps' H; simpl in H.
  - by inversion H.
  - destruct (isPaused (hook e)); [by inversion H|].
    destruct (uploadSingleChunk opts a e) as [[e1 w]|] eqn:Hu; simpl in H;
      [|done].
    apply Keeps_uploadSingleChunk in Hu.
    destruct (_ <=? _); [by inversion H; subst|].
    etrans; [exact Hu|]. by eapply IH.
Qed.

Lemma Keeps_start_pass opts k e e' : start_pass opts k e = Some e' -> Keeps e e'.
Proof.
  unfold start_pass, uploadChunksConcurrently. intros H.
  destruct (pass_loop _ _ _ _) as [[e1 ps]|] eqn:Hl; simpl in H; [|done].
  inversion H; subst. apply Keeps_pass_loop in Hl.
  etrans; [exact Hl|]. etrans; [|apply Keeps_set_caller_pc]. keeps_same.
Qed.

Lemma Keeps_start_transfer opts k e e' :
  start_transfer opts k e = Some e' -> Keeps e e'.
Proof.
  unfold start_transfer. intros H.
  destruct (Nat.eqb _ _).
  - inversion H; subst. etrans; [apply Keeps_updateTotalProgress|].
    apply Keeps_completeUpload.
  - etrans; [apply Keeps_updateTotalProgress|]. by eapply Keeps_start_pass.
Qed.

Lemma Keeps_pause_chunk e a : Keeps e (pause_chunk e a).
Proof.
  unfold pause_chunk.
  destruct (heap e !! a) as [ch|]; [|done].
  destruct (abortController ch) as [ctrl|]; [|done].
  destruct (_ && _); [|done].
  etrans; [apply Keeps_abort|]. keeps_chunk.
Qed.

Lemma Keeps_fold (f : Engine -> nat -> Engine) (l : list nat) :
  (forall e a, Keeps e (f e a)) -> forall e, Keeps e (fold_left f l e).
Proof.
  intros Hf. induction l as [|a l IH]; intros e; simpl; [done|].
  etrans; [apply Hf | apply IH].
Qed.

Lemma Keeps_pauseUpload e : Keeps e (pauseUpload e).
Proof.
  unfold pauseUpload. etrans; [|apply Keeps_fold, Keeps_pause_chunk].
  keeps_hook.
Qed.

Lemma Keeps_resume_chunk e a : Keeps e (resume_chunk e a).
Proof.
  unfold resume_chunk.
  destruct (heap e !! a) as [ch|]; [|done].
  destruct (_ && _ && _); [|done]. keeps_chunk.
Qed.

Lemma Keeps_resumeUpload opts e e' : resumeUpload opts e = Some e' -> Keeps e e'.
Proof.
  unfold resumeUpload. intros H.
  destruct (currentFile (hook e)); [|inversion H; subst; keeps_same].
  destruct (isCompleted (hook e)); [inversion H; subst; keeps_same|].
  apply Keeps_start_pass in H. etrans; [|exact H].
  match goal with
  | |- Keeps _ (push_caller _ ?e2) => trans e2; [|keeps_same]
  end.
  etrans; [|apply Keeps_fold, Keeps_resume_chunk]. keeps_hook.
Qed.

Lemma Keeps_set_worker p k w e : Keeps e (set_worker p k w e).
Proof. unfold set_worker. destruct (passes e !! p); [keeps_same | done]. Qed.

Lemma Keeps_step_inner opts e ev e' :
  step opts e ev = Some e' ->
  match ev with
  | CheckResponse _ _ | ChunksHashed _ _ | Reconciled _ _ => True
  | _ => Keeps e e'
  end.
Proof.
  intros H. destruct ev; simpl in H; try done.
  - destruct (0 <=? dt); [|done]. inversion H; subst. keeps_same.
  - inversion H; subst. unfold startUpload.
    destruct (currentFile (hook e)) eqn:Hf; [|keeps_same].
    destruct (String.eqb _ _); [keeps_same|].
    apply Keeps_quiet; [|done]. by split.
  - inversion H; subst. apply Keeps_pauseUpload.
  - by eapply Keeps_resumeUpload.
  - unfold initialize_response in H.
    destruct (callers e !! c) as [cl|]; simpl in H; [|done].
    destruct (c_pc cl); try done.
    destruct r as [err|res]; [|destruct (init_success res)];
      inversion H; subst.
    + etrans; [|apply Keeps_caller_throw]. keeps_hook.
    + etrans; [|apply Keeps_set_caller_pc]. keeps_same.
    + etrans; [|apply Keeps_caller_throw]. keeps_hook.
  - unfold complete_response in H.
    destruct (callers e !! c) as [cl|]; simpl in H; [|done].
    destruct (c_pc cl); try done.
    destruct r as [err|res]; [|destruct (complete_success res)];
      inversion H; subst.
    + apply Keeps_caller_throw.
    + etrans; [|apply Keeps_set_caller_pc]. keeps_hook.
    + apply Keeps_caller_throw.
  - unfold pass_settled in H.
    destruct (callers e !! c) as [cl|]; simpl in H; [|done].
    destruct (c_pc cl); try done.
    destruct (passes e !! p) as [ps|]; simpl in H; [|done].
    destruct (p_pc ps), (c_kind cl); try done;
      try destruct (Nat.eqb _ _); inversion H; subst;
      try apply Keeps_completeUpload; try apply Keeps_caller_throw.
    etrans; [|apply Keeps_set_caller_pc]. keeps_hook.
  - unfold xhr_progress in H.
    destruct (get_worker p k e) as [w|]; simpl in H; [|done].
    destruct (heap e !! w_chunk w) as [ch|]; simpl in H; [|done].
    destruct (w_pc w) as [ctrl [t|s|err]| | |]; try done.
    destruct (_ && _); [|done].
    destruct (negb (signal_aborted e ch)); [|by inversion H; subst].
    destruct (updateNetworkStats _ _ _) as [si ns]. inversion H; subst.
    etrans; [|apply Keeps_updateTotalProgress].
    etrans; [|keeps_hook]. keeps_chunk.
  - unfold xhr_load in H.
    destruct (get_worker p k e) as [w|] eqn:Hg; simpl in H; [|done].
    destruct (w_pc w) as [ctrl [t|s|err]| | |] eqn:Hpc; try done.
    destruct (_ && _).
    + destruct body as [result|]; [destruct (chunk_success result)|];
        inversion H; subst; (etrans; [|apply Keeps_set_worker]); try done.
      etrans; [|apply Keeps_updateTotalProgress]. keeps_chunk.
    + inversion H; subst. apply Keeps_set_worker.
  - unfold xhr_error in H.
    destruct (get_worker p k e) as [w|] eqn:Hg; simpl in H; [|done].
    destruct (w_pc w) as [ctrl [t|s|err]| | |] eqn:Hpc; try done.
    inversion H; subst. apply Keeps_set_worker.
  - unfold chunk_timeout in H.
    destruct (get_worker p k e) as [w|] eqn:Hg; simpl in H; [|done].
    destruct (heap e !! w_chunk w) as [ch|]; simpl in H; [|done].
    destruct (w_pc w) as [ctrl [[d|]|s|err]| | |] eqn:Hpc; try done.
    destruct (d <=? clock e); [|done].
    destruct (negb (signal_aborted e ch)); inversion H; subst;
      apply Keeps_set_worker.
  - unfold with_worker in H.
    destruct (get_worker p k e) as [w|] eqn:Hg; simpl in H; [|done].
    destruct (worker_resume opts w e) as [[e1 w1]|] eqn:Hfw; simpl in H; [|done].
    inversion H; subst. etrans; [|apply Keeps_set_worker].
    by eapply Keeps_worker_resume.
  - unfold with_worker in H.
    destruct (get_worker p k e) as [w|] eqn:Hg; simpl in H; [|done].
    destruct (worker_after_delay opts w e) as [[e1 w1]|] eqn:Hfw; simpl in H; [|done].
    inversion H; subst. etrans; [|apply Keeps_set_worker].
    by eapply Keeps_worker_after_delay.
  - unfold with_pass in H.
    destruct (passes e !! p) as [ps|] eqn:Hps; simpl in H; [|done].
    destruct (promise_reaction k e ps) as [ps2|]; simpl in H; [|done].
    inversion H; subst. keeps_same.
  - unfold with_pass in H.
    destruct (passes e !! p) as [ps|] eqn:Hps; simpl in H; [|done].
    destruct (race_settled opts k e ps) as [[e1 ps1]|] eqn:Hr; simpl in H; [|done].
    inversion H; subst. trans e1; [|keeps_same].
    unfold race_settled in Hr.
    destruct (p_pc ps); try done.
    destruct (bool_decide _); [|done].
    destruct (p_workers ps !! k) as [w|]; simpl in Hr; [|done].
    destruct (w_promise w); try done.
    + by eapply Keeps_pass_loop.
    + destruct (isPaused (hook e)); by inversion Hr; subst.
  - unfold with_pass in H.
    destruct (passes e !! p) as [ps|] eqn:Hps; simpl in H; [|done].
    destruct (all_settled ps) as [ps2|]; simpl in H; [|done].
    inversion H; subst. keeps_same.
Qed.


Lemma planned_evolves opts f c c' :
  chunk_evolves c c' -> planned opts f c -> planned opts f c'.
Proof.
  intros (Hi & _ & Hs & He & _) (H1 & H2 & H3). unfold planned.
  rewrite Hi, Hs, He. done.
Qed.

Lemma Shape_Core opts f e e' : Shape opts f e -> Core e e' -> Shape opts f e'.
Proof.
  intros [Hf Hj Hh (base & m & Hc & Hm & Hlen & Hidx)] [Kh Kc Kf Kj].
  split.
  - by rewrite Kf.
  - by rewrite Kj.
  - unfold heap_evolves in Kh. clear -Kh Hh.
    induction Kh; [done|]. inversion Hh; subst.
    constructor; [by eapply planned_evolves | auto].
  - exists base, m. rewrite Kc. split; [done|]. split; [done|].
    pose proof (Forall2_length _ _ _ Kh) as Hl. split; [lia|].
    intros i Hi. specialize (Hidx i Hi).
    destruct (heap e !! (base + i)%nat) as [c|] eqn:Hc0; [|done].
    destruct (Forall2_lookup_l _ _ _ _ _ Kh Hc0) as (c' & Hc' & Hev).
    rewrite Hc'. simpl in *. destruct Hev as (-> & _). done.
Qed.


Lemma planned_list_createChunks opts f : planned_list opts f (createChunks opts f).
Proof. by exists (fun _ => false). Qed.

Lemma planned_list_marked opts f s :
  planned_list opts f (createChunksAndMarkUploaded opts f s).
Proof. by exists (fun i => Z.of_nat i <? or_zero (uploadedParts s)). Qed.

Lemma planned_list_lookup opts f cs i c :
  planned_list opts f cs -> cs !! i = Some c ->
  index c = i /\ planned opts f c.
Proof.
  intros [b ->]. change (map ?g ?l) with (g <$> l).
  rewrite list_lookup_fmap. intros H.
  destruct (seq 0 _ !! i) as [j|] eqn:Hj; [|done].
  apply lookup_seq in Hj as [-> Hlt]. simpl in H. inversion H; subst.
  unfold planned. simpl. done.
Qed.

Lemma planned_list_length opts f cs :
  planned_list opts f cs -> length cs = chunkCount opts f.
Proof. intros [b ->]. by rewrite length_map, length_seq. Qed.

Lemma Shape_store_chunks opts f cs e :
  Shape opts f e -> planned_list opts f cs -> Shape opts f (store_chunks cs e).
Proof.
  intros [Hf Hj Hh _] Hcs. split; simpl; try done.
  - apply Forall_app. split; [done|].
    apply Forall_lookup. intros i c Hi.
    by destruct (planned_list_lookup _ _ _ _ _ Hcs Hi).
  - exists (length (heap e)), (length cs). split; [done|].
    split; [right; by apply planned_list_length|].
    rewrite length_app. split; [lia|].
    intros i Hi. rewrite lookup_app_r by lia.
    replace (length (heap e) + i - length (heap e))%nat with i by lia.
    destruct (lookup_lt_is_Some_2 cs i Hi) as [c Hc]. rewrite Hc. simpl.
    by destruct (planned_list_lookup _ _ _ _ _ Hcs Hc) as [-> _].
Qed.

Lemma Math_round_percent_range (a b : Z) :
  0 <= a <= b -> 0 < b -> 0 <= Math_round_percent a b <= 100.
Proof.
  intros Ha Hb. unfold Math_round_percent. split.
  - apply Z.div_pos; lia.
  - apply Z.lt_succ_r. apply Z.div_lt_upper_bound; lia.
Qed.

Lemma Zsum_filter_le (g : S3ChunkInfo -> Z) (p : S3ChunkInfo -> bool)
    (l : list S3ChunkInfo) :
  Forall (fun c => 0 <= g c) l ->
  0 <= Zsum (map g (List.filter p l)) <= Zsum (map g l).
Proof.
  induction 1 as [|c l Hc Hl IH]; simpl; [lia|].
  destruct (p c); simpl; lia.
Qed.

Section Tidy.
Context (opts : S3UploadOptions) (f : File).
Hypothesis Hcs : 0 < chunkSize opts.
Hypothesis HF : 0 <= size f.

Lemma chunkCount_bounds :
  (Z.of_nat (chunkCount opts f) - 1) * chunkSize opts < size f
  /\ size f <= Z.of_nat (chunkCount opts f) * chunkSize opts.
Proof.
  unfold chunkCount.
  pose proof (Math_ceil_div_bounds (size f) (chunkSize opts) Hcs) as Hb.
  destruct (Z.le_gt_cases 0 (Math_ceil_div (size f) (chunkSize opts))).
  - rewrite Z2Nat.id by done. lia.
  - nia.
Qed.

Lemma planned_span (c : S3ChunkInfo) :
  planned opts f c ->
  end_ c - start c = span (chunkSize opts) (size f) (index c)
  /\ 0 <= end_ c - start c.
Proof.
  intros (Hi & Hs & He). pose proof chunkCount_bounds as [Hb _].
  rewrite He, Hs. unfold span. split; [done|]. nia.
Qed.

Lemma omap_seq_index (h : list S3ChunkInfo) (m : nat) :
  forall base i0,
    (forall i, (i < m)%nat -> index <$> (h !! (base + i)%nat) = Some (i0 + i)%nat) ->
    map index (omap (fun a => h !! a) (seq base m)) = seq i0 m
    /\ Forall (fun c => c ∈ h) (omap (fun a => h !! a) (seq base m)).
Proof.
  induction m as [|m IH]; intros base i0 Hidx; [done|].
  pose proof (Hidx 0%nat ltac:(lia)) as H0.
  rewrite !Nat.add_0_r in H0.
  destruct (h !! base) as [c|] eqn:Ha; [|discriminate].
  simpl in H0. inversion H0 as [Hi].
  destruct (IH (S base) (S i0)) as [IH1 IH2].
  { intros i Hlt. specialize (Hidx (S i) ltac:(lia)).
    by replace (S base + i)%nat with (base + S i)%nat by lia;
       replace (S i0 + i)%nat with (i0 + S i)%nat by lia. }
  csimpl. rewrite Ha. csimpl. rewrite IH1, Hi. split; [done|].
  constructor; [by eapply list_elem_of_lookup_2 | done].
Qed.

Lemma Shape_chunkObjects (e : Engine) :
  Shape opts f e ->
  exists m, (m = 0%nat \/ m = chunkCount opts f)
    /\ length (chunks (hook e)) = m
    /\ map index (chunkObjects e) = seq 0 m
    /\ Forall (planned opts f) (chunkObjects e).
Proof.
  intros [Hf Hj Hh (base & m & Hc & Hm & Hlen & Hidx)].
  exists m. split; [done|]. split; [by rewrite Hc, length_seq|].
  unfold chunkObjects. rewrite Hc.
  destruct (omap_seq_index (heap e) m base 0%nat Hidx) as [H1 H2].
  split; [done|].
  eapply Forall_impl; [exact H2|]. intros c Hin.
  by eapply (proj1 (Forall_forall _ _) Hh).
Qed.

Lemma uploadedSize_range (e : Engine) :
  Shape opts f e -> 0 <= uploadedSize e <= size f.
Proof.
  intros Hsh. destruct (Shape_chunkObjects e Hsh) as (m & Hm & _ & Hidx & Hpl).
  unfold uploadedSize, uploadedChunks.
  pose proof (Zsum_filter_le (fun c => end_ c - start c) uploaded
                (chunkObjects e)) as Hle.
  assert (Hall : Zsum (map (fun c => end_ c - start c) (chunkObjects e))
                 <= size f).
  { assert (Heq : map (fun c => end_ c - start c) (chunkObjects e)
                  = map (span (chunkSize opts) (size f)) (seq 0 m)).
    { rewrite <- Hidx, map_map. apply map_ext_Forall.
      eapply Forall_impl; [exact Hpl|]. intros c Hc.
      by destruct (planned_span c Hc) as [-> _]. }
    rewrite Heq. pose proof chunkCount_bounds as [Hb _].
    rewrite span_sum; [lia | done | done |].
    destruct Hm as [->| ->]; lia. }
  assert (Hpos : Forall (fun c => 0 <= end_ c - start c) (chunkObjects e)).
  { eapply Forall_impl; [exact Hpl|]. intros c Hc.
    by destruct (planned_span c Hc). }
  specialize (Hle Hpos). lia.
Qed.

Lemma progress_ok_update (e : Engine) :
  Shape opts f e -> progress_ok f (uploadProgress (hook (updateTotalProgress e))).
Proof.
  intros Hsh. pose proof (uploadedSize_range e Hsh) as Hr.
  unfold updateTotalProgress. rewrite (sh_file _ _ _ Hsh). simpl.
  unfold progress_ok. simpl. split; [done|]. split; [lia|].
  destruct (Z.ltb_spec 0 (size f)); [|lia].
  by apply Math_round_percent_range.
Qed.

Lemma Tidy_Keeps (e e' : Engine) : Tidy opts f e -> Keeps e e' -> Tidy opts f e'.
Proof.
  intros [Hsh Hp] [Hc Hk]. split; [by eapply Shape_Core|].
  destruct Hk as [->|(e'' & Hc' & ->)]; [done|].
  apply progress_ok_update. by eapply Shape_Core.
Qed.

Lemma Tidy_store_chunks (cs : list S3ChunkInfo) (e : Engine) :
  Tidy opts f e -> planned_list opts f cs -> Tidy opts f (store_chunks cs e).
Proof. intros [Hsh Hp] Hcs'. split; [by apply Shape_store_chunks | done]. Qed.

Lemma Tidy_step (e : Engine) (ev : Event) (e' : Engine) :
  Tidy opts f e -> step opts e ev = Some e' -> Tidy opts f e'.
Proof.
  intros Hsh H.
  pose proof (Keeps_step_inner opts e ev e' H) as Hk.
  destruct ev; try (by eapply Tidy_Keeps); clear Hk; simpl in H.
  - (* CheckResponse *)
    unfold check_response in H.
    destruct (callers e !! c) as [cl|]; simpl in H; [|done].
    destruct (currentFile (hook e)) as [f0|] eqn:Hf0; simpl in H; [|done].
    assert (f0 = f) as -> by (destruct Hsh as [[] _]; congruence).
    destruct (c_pc cl); try done.
    destruct r as [err|result].
    + inversion H; subst. eapply Tidy_Keeps; [done|].
      etrans; [|apply Keeps_caller_throw]. keeps_hook.
    + destruct (fileExists result && isComplete result).
      * inversion H; subst. eapply Tidy_Keeps; [done|].
        etrans; [|apply Keeps_set_caller_pc]. keeps_hook.
      * match type of H with
        | context [upd_hook (set_isCheckingUpload false) ?e1] =>
            assert (Hsh1 : Tidy opts f e1)
        end.
        { destruct (session result) as [s|]; [|done].
          unfold start_reconcile.
          match goal with
          | |- context [upd_hook ?g e] =>
              assert (Hsh0 : Tidy opts f (upd_hook g e))
                by (eapply Tidy_Keeps; [exact Hsh|]; keeps_hook);
              generalize dependent (upd_hook g e)
          end.
          intros e0 H Hsh0.
          destruct (Z.leb_spec (Math_ceil_div (size f) (chunkSize opts)) 0).
          - eapply Tidy_Keeps; [|apply Keeps_updateTotalProgress].
            apply Tidy_store_chunks; [done|].
            exists (fun _ => false). unfold chunkCount.
            by replace (Z.to_nat _) with 0%nat by lia.
          - destruct Hsh0 as [[Hf Hj Hh Hc] Hp]. split; [|done].
            split; simpl; try done.
            apply Forall_app. split; [done|]. by apply Forall_singleton. }
        match type of H with
        | context [upd_hook (set_isCheckingUpload false) ?e1] =>
            assert (Hsh2 : Tidy opts f (upd_hook (set_isCheckingUpload false) e1))
              by (eapply Tidy_Keeps; [exact Hsh1|]; keeps_hook)
        end.
        match type of H with
        | match ?o with _ => _ end = _ => destruct o
        end.
        -- eapply Tidy_Keeps; [exact Hsh2|].
           eapply Keeps_start_transfer. exact H.
        -- inversion H; subst. eapply Tidy_Keeps; [exact Hsh2|].
           etrans; [|apply Keeps_set_caller_pc].
           match goal with
           | |- Keeps _ (set_calls _ ?e3) => trans e3; [|keeps_same]
           end.
           keeps_hook.
  - (* ChunksHashed *)
    unfold chunks_hashed in H.
    destruct (callers e !! c) as [cl|]; simpl in H; [|done].
    destruct (currentFile (hook e)) as [f0|] eqn:Hf0; simpl in H; [|done].
    assert (f0 = f) as -> by (destruct Hsh as [[] _]; congruence).
    destruct (c_pc cl); try done.
    destruct ok.
    + eapply Tidy_Keeps; [|by eapply Keeps_start_transfer].
      apply Tidy_store_chunks; [done|]. apply planned_list_createChunks.
    + inversion H; subst. eapply Tidy_Keeps; [done|]. apply Keeps_caller_throw.
  - (* Reconciled *)
    unfold reconciled in H.
    destruct (jobs e !! j) as [jb|] eqn:Hjb; simpl in H; [|done].
    destruct (j_done jb); [done|].
    assert (Hjf : j_file jb = f).
    { destruct Hsh as [[_ Hj _ _] _]. by eapply (Forall_lookup_1 _ _ _ _ Hj Hjb). }
    rewrite Hjf in H. clear Hjf.
    match type of H with
    | context [set_jobs ?js e] => assert (Hsh1 : Tidy opts f (set_jobs js e))
    end.
    { destruct Hsh as [[Hf Hj Hh Hc] Hp]. split; [|done].
      split; simpl; try done. apply Forall_insert; [done|]. done. }
    destruct ok; inversion H; subst; [|done].
    eapply Tidy_Keeps; [|apply Keeps_updateTotalProgress].
    apply Tidy_store_chunks; [done|]. apply planned_list_marked.
Qed.

Lemma Tidy_run (evs : list Event) : forall e e',
  Tidy opts f e -> run opts e evs = Some e' -> Tidy opts f e'.
Proof.
  induction evs as [|ev evs IH]; intros e e' Hsh H; simpl in H.
  - by inversion H; subst.
  - destruct (step opts e ev) as [e1|] eqn:Hs; simpl in H; [|done].
    eapply IH; [|exact H]. by eapply Tidy_step.
Qed.

Lemma Tidy_boot (hash : string) : Tidy opts f (boot f hash).
Proof.
  split; [|unfold progress_ok; simpl; lia].
  split; simpl; try done.
  exists 0%nat, 0%nat. repeat split; auto. intros i Hi. lia.
Qed.

End Tidy.




#[local] Instance Grows_refl : Reflexive Grows.
Proof. intros e. exists []. split; [done|]. by rewrite app_nil_r. Qed.

Lemma heap_evolves_app (h1 h1' h2 h2' : list S3ChunkInfo) :
  heap_evolves h1 h1' -> heap_evolves h2 h2' -> heap_evolves (h1 ++ h2) (h1' ++ h2').
Proof. apply Forall2_app. Qed.

Lemma heap_evolves_app_inv (h1 h2 h' : list S3ChunkInfo) :
  heap_evolves (h1 ++ h2) h' ->
  exists h1' h2', h' = h1' ++ h2' /\ heap_evolves h1 h1' /\ heap_evolves h2 h2'.
Proof. intros H. apply Forall2_app_inv_l in H as (k1 & k2 & ? & ? & ->). eauto. Qed.

Lemma fresh_evolves (new new' : list S3ChunkInfo) :
  heap_evolves new new' -> Forall fresh new -> Forall fresh new'.
Proof.
  induction 1 as [|c c' l l' Hc Hl IH]; [done|].
  intros Hf. inversion Hf; subst. constructor; [|auto].
  destruct Hc as (_&_&_&_&_&_&Hr&_). unfold fresh in *. congruence.
Qed.

#[local] Instance Grows_trans : Transitive Grows.
Proof.
  intros e1 e2 e3 (n1 & F1 & H1) (n2 & F2 & H2).
  exists (n1 ++ n2). split; [by apply Forall_app|].
  rewrite app_assoc. etrans; [|exact H2].
  apply heap_evolves_app; [done | reflexivity].
Qed.

Lemma Grows_Keeps (e e' : Engine) : Keeps e e' -> Grows e e'.
Proof. intros [[Hh _ _ _] _]. exists []. split; [done|]. by rewrite app_nil_r. Qed.

Lemma planned_list_fresh opts f cs : planned_list opts f cs -> Forall fresh cs.
Proof.
  intros [b ->]. change (map ?g ?l) with (g <$> l).
  apply Forall_fmap, Forall_forall. by intros i _.
Qed.

Lemma Grows_store_chunks opts f cs e :
  planned_list opts f cs -> Grows e (store_chunks cs e).
Proof.
  intros Hcs. exists cs. split; [by eapply planned_list_fresh | reflexivity].
Qed.

Lemma Grows_step (opts : S3UploadOptions) (e : Engine) (ev : Event) (e' : Engine) :
  step opts e ev = Some e' -> Grows e e'.
Proof.
  intros H.
  pose proof (Keeps_step_inner opts e ev e' H) as Hk.
  destruct ev; try (by apply Grows_Keeps); clear Hk; simpl in H.
  - (* CheckResponse *)
    unfold check_response in H.
    destruct (callers e !! c) as [cl|]; simpl in H; [|done].
    destruct (currentFile (hook e)) as [f|] eqn:Hf0; simpl in H; [|done].
    destruct (c_pc cl); try done.
    destruct r as [err|result].
    + inversion H; subst. apply Grows_Keeps.
      etrans; [|apply Keeps_caller_throw]. keeps_hook.
    + destruct (fileExists result && isComplete result).
      * inversion H; subst. apply Grows_Keeps.
        etrans; [|apply Keeps_set_caller_pc]. keeps_hook.
      * match type of H with
        | context [upd_hook (set_isCheckingUpload false) ?e1] =>
            assert (Hg1 : Grows e (upd_hook (set_isCheckingUpload false) e1))
        end.
        { etrans; [|apply Grows_Keeps; keeps_hook].
          destruct (session result) as [s|]; [|done].
          unfold start_reconcile.
          match goal with
          | |- context [upd_hook ?g e] =>
              trans (upd_hook g e); [apply Grows_Keeps; keeps_hook|];
              generalize (upd_hook g e)
          end.
          intros e0.
          destruct (Z.leb_spec (Math_ceil_div (size f) (chunkSize opts)) 0).
          - etrans; [|apply Grows_Keeps, Keeps_updateTotalProgress].
            apply (Grows_store_chunks opts f).
            exists (fun _ => false). unfold chunkCount.
            by replace (Z.to_nat _) with 0%nat by lia.
          - exists []. split; [done | by rewrite app_nil_r]. }
        match type of H with
        | match ?o with _ => _ end = _ => destruct o
        end.
        -- etrans; [exact Hg1|]. apply Grows_Keeps.
           eapply Keeps_start_transfer. exact H.
        -- inversion H; subst. etrans; [exact Hg1|]. apply Grows_Keeps.
           etrans; [|apply Keeps_set_caller_pc].
           match goal with
           | |- Keeps _ (set_calls _ ?e3) => trans e3; [|keeps_same]
           end.
           keeps_hook.
  - (* ChunksHashed *)
    unfold chunks_hashed in H.
    destruct (callers e !! c) as [cl|]; simpl in H; [|done].
    destruct (currentFile (hook e)) as [f|] eqn:Hf0; simpl in H; [|done].
    destruct (c_pc cl); try done.
    destruct ok.
    + etrans; [|apply Grows_Keeps; by eapply Keeps_start_transfer].
      apply (Grows_store_chunks opts f), planned_list_createChunks.
    + inversion H; subst. apply Grows_Keeps, Keeps_caller_throw.
  - (* Reconciled *)
    unfold reconciled in H.
    destruct (jobs e !! j) as [jb|] eqn:Hjb; simpl in H; [|done].
    destruct (j_done jb); [done|].
    match type of H with
    | context [set_jobs ?js e] =>
        assert (Hg1 : Grows e (set_jobs js e))
          by (exists []; split; [done | by rewrite app_nil_r]);
        generalize dependent (set_jobs js e)
    end.
    intros e1 H Hg1.
    destruct ok; inversion H; subst; [|done].
    etrans; [exact Hg1|].
    etrans; [|apply Grows_Keeps, Keeps_updateTotalProgress].
    apply (Grows_store_chunks opts (j_file jb)), planned_list_marked.
Qed.

Lemma Grows_run (opts : S3UploadOptions) (evs : list Event) : forall e e',
  run opts e evs = Some e' -> Grows e e'.
Proof.
  induction evs as [|ev evs IH]; intros e e' H; simpl in H.
  - by inversion H; subst.
  - destruct (step opts e ev) as [e1|] eqn:Hs; simpl in H; [|done].
    etrans; [by eapply Grows_step | by eapply IH].
Qed.

(** X1.  Chunk objects are never dropped or re-planned: over any sequence
    of events every chunk object keeps its index, part number, byte range,
    blob and hash; its [retryCount] is never changed (so it stays 0 when
    all objects start at 0); and once [uploaded] is true it stays true. *)
Theorem chunk_objects_persist (opts : S3UploadOptions) (e e' : Engine)
    (evs : list Event) :
  run opts e evs = Some e' ->
  (forall a c, heap e !! a = Some c ->
     exists c', heap e' !! a = Some c'
       /\ index c' = index c /\ partNumber c' = partNumber c
       /\ start c' = start c /\ end_ c' = end_ c /\ blob c' = blob c
       /\ chunkHash c' = chunkHash c /\ retryCount c' = retryCount c
       /\ (uploaded c = true -> uploaded c' = true))
  /\ (Forall (fun c => retryCount c = 0%nat) (heap e) ->
      Forall (fun c => retryCount c = 0%nat) (heap e')).
Proof.
  intros Hrun. destruct (Grows_run opts evs e e' Hrun) as (new & Hf & Hev).
  split.
  - intros a c Ha.
    assert (Ha' : (heap e ++ new) !! a = Some c) by by apply lookup_app_l_Some.
    destruct (Forall2_lookup_l _ _ _ _ _ Hev Ha') as (c' & Hc' & Hle).
    exists c'. split; [done|]. exact Hle.
  - intros H0. eapply (fresh_evolves (heap e ++ new)); [done|].
    by apply Forall_app.
Qed.



Lemma chunk_objects_persist_witness :
  exists e',
    run defaultOptions (after defaultOptions file23 fresh_start)
      settle_pause_resume = Some e'
    /\ Forall (fun c => retryCount c = 0%nat) (heap e')
    /\ forall a c,
         heap (after defaultOptions file23 fresh_start) !! a = Some c ->
         exists c', heap e' !! a = Some c' /\ index c' = index c.
Proof.
  destruct (run defaultOptions (after defaultOptions file23 fresh_start)
              settle_pause_resume) as [e'|] eqn:E;
    [|exfalso; revert E; vm_compute; discriminate].
  exists e'. split; [reflexivity|].
  destruct (chunk_objects_persist defaultOptions
              (after defaultOptions file23 fresh_start) e'
              settle_pause_resume E) as [H1 H2].
  split.
  - apply H2. vm_compute. repeat constructor.
  - intros a c Ha. destruct (H1 a c Ha) as (c' & Hc' & Hi & _).
    exists c'. split; [exact Hc' | exact Hi].
Defined.

(** * What a scheduling pass never does *)








Section Calm.
Context (opts : S3UploadOptions) (f : File).
Hypothesis Hcs : 0 < chunkSize opts.
Hypothesis HF : 0 <= size f.
Hypothesis Hsmall : Z.of_nat (chunkCount opts f) < concurrent opts.





End Calm.



Lemma Once_frame (e e' : Engine) : passes e' = passes e -> Once e -> Once e'.
Proof. unfold Once. by intros ->. Qed.

Ltac once_frame := eapply Once_frame; [by autorewrite with frame | try done].

Lemma uploadChunk_outcome (a : nat) (e e' : Engine) ctrl x :
  uploadChunk a e = Some (e', (ctrl, x)) ->
  match x with XResolved _ => False | _ => True end.
Proof.
  unfold uploadChunk. intros H.
  destruct (heap e !! a) as [c|]; simpl in H; [|done].
  destruct (uploadSession (hook e)), (or_null (chunkHash c));
    by inversion H; subst.
Qed.

Lemma worker_exit_pc opts a s e :
  match snd (worker_exit opts a s e) with
  | WReturned | WThrown _ => True
  | _ => False
  end.
Proof. unfold worker_exit. by destruct (_ && _). Qed.

Lemma uploadSingleChunk_once opts a e e' w :
  uploadSingleChunk opts a e = Some (e', w) -> once w.
Proof.
  unfold uploadSingleChunk. intros H.
  destruct (heap e !! a) as [c|]; simpl in H; [|done].
  destruct (isPaused (hook e)).
  - inversion H; subst. split; simpl; [lia | done].
  - match type of H with
    | context [worker_loop ?o ?a ?n ?e0] =>
        destruct (worker_loop o a n e0) as [[e2 [n2 pc]]|] eqn:Hl
    end; simpl in H; [|done].
    inversion H; subst. unfold worker_loop in Hl.
    destruct (_ && _).
    + match type of Hl with
      | context [uploadChunk ?a ?e0] =>
          destruct (uploadChunk a e0) as [[e3 [ctrl x]]|] eqn:Hu
      end; simpl in Hl; [|done].
      inversion Hl; subst. apply uploadChunk_outcome in Hu.
      split; simpl; [lia|]. by destruct x.
    + match type of Hl with
      | context [worker_exit ?o ?a ?s ?e0] =>
          pose proof (worker_exit_pc o a s e0) as Hx;
          destruct (worker_exit o a s e0) as [e3 pc3]
      end.
      inversion Hl; subst. split; simpl; [lia|]. simpl in Hx. by destruct pc.
Qed.

Lemma worker_resume_once opts w w' e e' :
  once w -> worker_resume opts w e = Some (e', w') -> once w'.
Proof.
  unfold worker_resume, once. intros [Ha Hpc] H.
  destruct (w_pc w) as [ctrl [t|s|err]| | |]; try done.
  - destruct s; [|done]. simpl in H.
    pose proof (worker_exit_pc opts (w_chunk w) true e) as Hx.
    destruct (worker_exit opts (w_chunk w) true e) as [e1 pc].
    inversion H; subst. simpl in *. split; [done|]. by destruct pc.
  - destruct (_ && _); inversion H; subst; simpl; done.
Qed.

Lemma abort_worker_once ctrl w : once w -> once (abort_worker ctrl w).
Proof.
  unfold abort_worker, once. intros [Ha Hpc].
  destruct (w_pc w) as [[c'|] [t|s|err]| | |] eqn:E; simpl; rewrite ?E;
    try done.
  destruct (Nat.eqb c' ctrl); simpl; by rewrite ?E.
Qed.

Lemma Once_set_worker (p k : nat) (w : Worker) (e : Engine) :
  Once e -> once w -> Once (set_worker p k w e).
Proof.
  unfold Once, set_worker. intros H Hw.
  destruct (passes e !! p) as [ps|] eqn:Hps; [|done]. simpl.
  apply Forall_insert; [done|]. simpl.
  apply Forall_insert; [|done].
  by apply (Forall_lookup_1 _ _ _ _ H Hps).
Qed.

Lemma Once_get_worker (p k : nat) (w : Worker) (e : Engine) :
  Once e -> get_worker p k e = Some w -> once w.
Proof.
  unfold Once, get_worker. intros H Hg.
  destruct (passes e !! p) as [ps|] eqn:Hps; simpl in Hg; [|done].
  pose proof (Forall_lookup_1 _ _ _ _ H Hps) as Hws.
  by apply (Forall_lookup_1 _ _ _ _ Hws Hg).
Qed.

Lemma Once_abort (ctrl : nat) (e : Engine) : Once e -> Once (abort ctrl e).
Proof.
  unfold Once, abort. intros H.
  destruct (bool_decide _); [done|]. simpl.
  change (map ?g ?l) with (g <$> l). apply Forall_fmap.
  eapply Forall_impl; [exact H|]. intros ps Hps. simpl.
  change (map ?g ?l) with (g <$> l). apply Forall_fmap.
  eapply Forall_impl; [exact Hps|]. intros w. apply abort_worker_once.
Qed.

Lemma Once_pauseUpload (e : Engine) : Once e -> Once (pauseUpload e).
Proof.
  unfold pauseUpload. intros H.
  assert (H0 : Once (upd_hook (set_isPaused true) e)) by done.
  generalize dependent (upd_hook (set_isPaused true) e).
  generalize (chunks (hook e)).
  intros l. induction l as [|a l IH]; intros e0 H0; simpl; [done|].
  apply IH. unfold pause_chunk.
  destruct (heap e0 !! a) as [ch|]; [|done].
  destruct (abortController ch) as [ctrl|]; [|done].
  destruct (_ && _); [|done].
  eapply Once_frame; [apply passes_upd_chunk|]. by apply Once_abort.
Qed.

Lemma pass_loop_once (opts : S3UploadOptions) (todo : list nat) :
  forall e ps e' ps',
    pass_loop opts todo e ps = Some (e', ps') ->
    Forall once (p_workers ps) ->
    Forall once (p_workers ps') /\ passes e' = passes e.
Proof.
  induction todo as [|a rest IH]; intros e ps e' ps' H Hws; simpl in H.
  - by inversion H; subst.
  - destruct (isPaused (hook e)); [by inversion H; subst|].
    destruct (uploadSingleChunk opts a e) as [[e1 w]|] eqn:Hu; simpl in H;
      [|done].
    pose proof (uploadSingleChunk_once _ _ _ _ _ Hu) as Hw.
    apply uploadSingleChunk_spec in Hu as (Hp & _).
    assert (Hws' : Forall once (p_workers ps ++ [w])).
    { apply Forall_app. split; [done|]. by apply Forall_singleton. }
    destruct (_ <=? _).
    + by inversion H; subst.
    + apply IH in H as [H1 H2]; [|done]. split; [done | congruence].
Qed.

Lemma Once_start_pass opts k e e' :
  Once e -> start_pass opts k e = Some e' -> Once e'.
Proof.
  intros Hc H. unfold start_pass, uploadChunksConcurrently in H.
  destruct (pass_loop _ _ _ _) as [[e1 ps]|] eqn:Hl; simpl in H; [|done].
  inversion H; subst.
  apply pass_loop_once in Hl as [Hps Hp]; [|done].
  eapply Once_frame; [apply passes_set_caller_pc|].
  unfold Once. simpl. rewrite Hp. apply Forall_app. split; [done|].
  by apply Forall_singleton.
Qed.

Lemma Once_start_transfer opts k e e' :
  Once e -> start_transfer opts k e = Some e' -> Once e'.
Proof.
  intros Hc H. unfold start_transfer in H.
  destruct (Nat.eqb _ _).
  - inversion H; subst. once_frame.
  - eapply Once_start_pass; [|exact H]. once_frame.
Qed.

Lemma Once_step opts e ev e' : Once e -> step opts e ev = Some e' -> Once e'.
Proof.
  intros Hc H. destruct ev; simpl in H.
  - destruct (0 <=? dt); [|done]. by inversion H; subst.
  - inversion H; subst. unfold startUpload.
    destruct (currentFile (hook e)); [|done].
    by destruct (String.eqb _ _).
  - inversion H; subst. by apply Once_pauseUpload.
  - unfold resumeUpload in H.
    destruct (currentFile (hook e)); [|by inversion H; subst].
    destruct (isCompleted (hook e)); [by inversion H; subst|].
    eapply Once_start_pass; [|exact H].
    eapply Once_frame; [|exact Hc]. simpl. by autorewrite with frame.
  - unfold check_response in H.
    destruct (callers e !! c) as [cl|]; simpl in H; [|done].
    destruct (currentFile (hook e)) as [f0|] eqn:Hf0; simpl in H; [|done].
    destruct (c_pc cl); try done.
    destruct r as [err|result].
    + inversion H; subst. once_frame.
    + destruct (fileExists result && isComplete result).
      * inversion H; subst. once_frame.
      * match type of H with
        | context [upd_hook (set_isCheckingUpload false) ?e1] =>
            assert (H1 : Once e1)
        end.
        { destruct (session result); [|done]. once_frame. }
        match type of H with
        | match ?o with _ => _ end = _ => destruct o
        end.
        -- eapply Once_start_transfer; [|exact H]. done.
        -- inversion H; subst. once_frame.
  - unfold initialize_response in H.
    destruct (callers e !! c) as [cl|]; simpl in H; [|done].
    destruct (c_pc cl); try done.
    destruct r as [err|res]; [|destruct (init_success res)];
      inversion H; subst; once_frame.
  - unfold chunks_hashed in H.
    destruct (callers e !! c) as [cl|]; simpl in H; [|done].
    destruct (currentFile (hook e)) as [f0|] eqn:Hf0; simpl in H; [|done].
    destruct (c_pc cl); try done.
    destruct ok.
    + eapply Once_start_transfer; [|exact H]. done.
    + inversion H; subst. once_frame.
  - unfold reconciled in H.
    destruct (jobs e !! j) as [jb|]; simpl in H; [|done].
    destruct (j_done jb); [done|].
    destruct ok; inversion H; subst; [|done].
    once_frame.
  - unfold complete_response in H.
    destruct (callers e !! c) as [cl|]; simpl in H; [|done].
    destruct (c_pc cl); try done.
    destruct r as [err|res]; [|destruct (complete_success res)];
      inversion H; subst; once_frame.
  - unfold pass_settled in H.
    destruct (callers e !! c) as [cl|]; simpl in H; [|done].
    destruct (c_pc cl); try done.
    destruct (passes e !! p) as [ps|]; simpl in H; [|done].
    destruct (p_pc ps), (c_kind cl); try done;
      try destruct (Nat.eqb _ _); inversion H; subst; once_frame.
  - unfold xhr_progress in H.
    destruct (get_worker p k e) as [w|]; simpl in H; [|done].
    destruct (heap e !! w_chunk w) as [ch|]; simpl in H; [|done].
    destruct (w_pc w) as [ctrl [t|s|err]| | |]; try done.
    destruct (_ && _); [|done].
    destruct (negb (signal_aborted e ch)); [|by inversion H; subst].
    destruct (updateNetworkStats _ _ _) as [si ns]. inversion H; subst.
    once_frame.
  - unfold xhr_load in H.
    destruct (get_worker p k e) as [w|] eqn:Hg; simpl in H; [|done].
    pose proof (Once_get_worker _ _ _ _ Hc Hg) as [Ha _].
    destruct (w_pc w) as [ctrl [t|s|err]| | |] eqn:Hpc; try done.
    destruct (_ && _).
    + destruct body as [result|]; [destruct (chunk_success result)|];
        inversion H; subst; apply Once_set_worker; try done.
      once_frame.
    + inversion H; subst. by apply Once_set_worker.
  - unfold xhr_error in H.
    destruct (get_worker p k e) as [w|] eqn:Hg; simpl in H; [|done].
    pose proof (Once_get_worker _ _ _ _ Hc Hg) as [Ha _].
    destruct (w_pc w) as [ctrl [t|s|err]| | |] eqn:Hpc; try done.
    inversion H; subst. by apply Once_set_worker.
  - unfold chunk_timeout in H.
    destruct (get_worker p k e) as [w|] eqn:Hg; simpl in H; [|done].
    pose proof (Once_get_worker _ _ _ _ Hc Hg) as [Ha _].
    destruct (heap e !! w_chunk w) as [ch|]; simpl in H; [|done].
    destruct (w_pc w) as [ctrl [[d|]|s|err]| | |] eqn:Hpc; try done.
    destruct (d <=? clock e); [|done].
    destruct (negb (signal_aborted e ch)); inversion H; subst;
      by apply Once_set_worker.
  - unfold with_worker in H.
    destruct (get_worker p k e) as [w|] eqn:Hg; simpl in H; [|done].
    pose proof (Once_get_worker _ _ _ _ Hc Hg) as Hw.
    destruct (worker_resume opts w e) as [[e1 w1]|] eqn:Hfw; simpl in H; [|done].
    inversion H; subst.
    pose proof (worker_resume_once _ _ _ _ _ Hw Hfw) as Hw1.
    apply worker_resume_spec in Hfw as (Hp & _).
    apply Once_set_worker; [by eapply Once_frame | done].
  - unfold with_worker in H.
    destruct (get_worker p k e) as [w|] eqn:Hg; simpl in H; [|done].
    pose proof (Once_get_worker _ _ _ _ Hc Hg) as [_ Hw].
    destruct (worker_after_delay opts w e) as [[e1 w1]|] eqn:Hfw; simpl in H;
      [|done].
    unfold worker_after_delay in Hfw. by destruct (w_pc w).
  - unfold with_pass in H.
    destruct (passes e !! p) as [ps|] eqn:Hps; simpl in H; [|done].
    destruct (promise_reaction k e ps) as [ps2|] eqn:Hr; simpl in H; [|done].
    inversion H; subst. unfold Once. simpl. apply Forall_insert; [done|].
    pose proof (Forall_lookup_1 _ _ _ _ Hc Hps) as Hws.
    unfold promise_reaction in Hr.
    destruct (p_workers ps !! k) as [w|] eqn:Hk; simpl in Hr; [|done].
    pose proof (Forall_lookup_1 _ _ _ _ Hws Hk) as Hw.
    destruct (w_promise w); try done.
    destruct (w_pc w) eqn:Hpc; try done; inversion Hr; subst; simpl;
      (apply Forall_insert; [done|]); unfold once in *; simpl; by rewrite Hpc in *.
  - unfold with_pass in H.
    destruct (passes e !! p) as [ps|] eqn:Hps; simpl in H; [|done].
    destruct (race_settled opts k e ps) as [[e1 ps1]|] eqn:Hr; simpl in H;
      [|done].
    pose proof (Forall_lookup_1 _ _ _ _ Hc Hps) as Hws.
    inversion H; subst. unfold race_settled in Hr.
    destruct (p_pc ps); try done.
    destruct (bool_decide _); [|done].
    destruct (p_workers ps !! k) as [w|]; simpl in Hr; [|done].
    destruct (w_promise w); try done.
    + apply pass_loop_once in Hr as [H1 H2]; [|done].
      unfold Once. simpl. rewrite H2. by apply Forall_insert.
    + destruct (isPaused (hook e)); inversion Hr; subst; unfold Once; simpl;
        by apply Forall_insert.
  - unfold with_pass in H.
    destruct (passes e !! p) as [ps|] eqn:Hps; simpl in H; [|done].
    destruct (all_settled ps) as [ps2|] eqn:Hr; simpl in H; [|done].
    pose proof (Forall_lookup_1 _ _ _ _ Hc Hps) as Hws.
    inversion H; subst. unfold Once. simpl. apply Forall_insert; [done|].
    unfold all_settled in Hr.
    destruct (p_pc ps); try done.
    destruct (forallb _ _); [|done]. by inversion Hr; subst.
Qed.

Lemma Once_run opts evs : forall e e',
  Once e -> run opts e evs = Some e' -> Once e'.
Proof.
  induction evs as [|ev evs IH]; intros e e' Hc H; simpl in H.
  - by inversion H; subst.
  - destruct (step opts e ev) as [e1|] eqn:Hs; simpl in H; [|done].
    eapply IH; [|exact H]. by eapply Once_step.
Qed.


(** X4.  An activation of [uploadSingleChunk] calls [uploadChunk] at most
    once: in every reachable state each worker has made 0 or 1 attempts, is
    never in the retry delay, and never holds an upload that resolved with
    [false]. *)
Theorem upload_is_attempted_once (opts : S3UploadOptions) (e0 e : Engine)
    (evs : list Event) :
  passes e0 = [] -> run opts e0 evs = Some e ->
  forall p ps k w, passes e !! p = Some ps -> p_workers ps !! k = Some w ->
    0 <= w_attempts w <= 1
    /\ (forall t, w_pc w <> WDelay t)
    /\ (forall ctrl, w_pc w <> WUpload ctrl (XResolved false)).
Proof.
  intros H0 Hrun p ps k w Hps Hk.
  assert (Hc : Once e).
  { eapply Once_run; [|exact Hrun]. unfold Once. rewrite H0. constructor. }
  pose proof (Forall_lookup_1 _ _ _ _ Hc Hps) as Hws.
  destruct (Forall_lookup_1 _ _ _ _ Hws Hk) as [Ha Hpc].
  split; [done|]. split; intros x Hx; by rewrite Hx in Hpc.
Qed.



Lemma upload_is_attempted_once_witness :
  passes (boot file23 "abc") = []
  /\ exists e,
       run defaultOptions (boot file23 "abc") first_chunk_fails = Some e
       /\ workerState e 0 0 = Some (1, WThrown ErrNetwork, Rejected ErrNetwork)
       /\ forall p ps k w, passes e !! p = Some ps ->
            p_workers ps !! k = Some w -> 0 <= w_attempts w <= 1.
Proof.
  split; [reflexivity|].
  destruct (run defaultOptions (boot file23 "abc") first_chunk_fails)
    as [e|] eqn:E; [|exfalso; revert E; vm_compute; discriminate].
  exists e. split; [reflexivity|].
  assert (G : option_map (fun e => workerState e 0 0)
                (run defaultOptions (boot file23 "abc") first_chunk_fails)
              = Some (Some (1, WThrown ErrNetwork, Rejected ErrNetwork)))
    by (vm_compute; reflexivity).
  rewrite E in G. simpl in G. inversion G as [G1].
  split; [reflexivity|].
  intros p ps k w Hps Hk.
  apply (upload_is_attempted_once defaultOptions (boot file23 "abc") e
           first_chunk_fails eq_refl E p ps k w Hps Hk).
Defined.

(** * Pausing, resuming from a session, and admission *)

#[local] Instance Still_refl : Reflexive Still.
Proof. by intros e. Qed.

#[local] Instance Still_trans : Transitive Still.
Proof. intros e1 e2 e3 [] []. split; congruence. Qed.

Lemma Still_upd_hook (g : Hook -> Hook) (e : Engine) :
  (forall h, isPaused (g h) = isPaused h) -> Still e (upd_hook g e).
Proof. intros Hg. split; [apply Hg | done]. Qed.

Ltac still_hook := apply Still_upd_hook; by intros ?.

Lemma Still_upd_chunk a g e : Still e (upd_chunk a g e).
Proof. unfold upd_chunk. by destruct (heap e !! a). Qed.

Lemma Still_abort ctrl e : Still e (abort ctrl e).
Proof. unfold abort. by destruct (bool_decide _). Qed.

Lemma Still_updateTotalProgress e : Still e (updateTotalProgress e).
Proof. unfold updateTotalProgress. by destruct (currentFile (hook e)). Qed.

Lemma Still_worker_finally a e : Still e (worker_finally a e).
Proof. unfold worker_finally. by destruct (heap e !! a). Qed.

Lemma Still_set_caller_pc k pc e : Still e (set_caller_pc k pc e).
Proof. unfold set_caller_pc. by destruct (callers e !! k). Qed.

Lemma Still_caller_throw k err e : Still e (caller_throw k err e).
Proof. unfold caller_throw. etrans; [|apply Still_set_caller_pc]. done. Qed.

Lemma Still_set_worker p k w e : Still e (set_worker p k w e).
Proof. unfold set_worker. by destruct (passes e !! p). Qed.

Lemma Still_worker_exit opts a s e : Still e (fst (worker_exit opts a s e)).
Proof.
  unfold worker_exit. destruct (_ && _); simpl; apply Still_worker_finally.
Qed.

Lemma Still_fold (g : Engine -> nat -> Engine) (l : list nat) :
  (forall e a, Still e (g e a)) -> forall e, Still e (fold_left g l e).
Proof.
  intros Hg. induction l as [|a l IH]; intros e; simpl; [done|].
  etrans; [apply Hg | apply IH].
Qed.

Lemma Still_pause_chunk e a : Still e (pause_chunk e a).
Proof.
  unfold pause_chunk.
  destruct (heap e !! a) as [ch|]; [|done].
  destruct (abortController ch) as [ctrl|]; [|done].
  destruct (_ && _); [|done].
  etrans; [apply Still_abort | apply Still_upd_chunk].
Qed.

Section Paused.
Context (opts : S3UploadOptions).

Lemma Still_completeUpload k e :
  isPaused (hook e) = true -> Still e (completeUpload k e).
Proof.
  intros Hp. unfold completeUpload. rewrite Hp.
  destruct (uploadSession (hook e)); apply Still_caller_throw.
Qed.

Lemma Still_worker_loop a n e e' r :
  isPaused (hook e) = true -> worker_loop opts a n e = Some (e', r) ->
  Still e e'.
Proof.
  intros Hp H. unfold worker_loop in H. rewrite Hp, andb_false_r in H.
  pose proof (Still_worker_exit opts a false e) as Hx.
  destruct (worker_exit opts a false e) as [e1 pc]. by inversion H; subst.
Qed.

Lemma Still_worker_resume w w' e e' :
  worker_resume opts w e = Some (e', w') -> Still e e'.
Proof.
  unfold worker_resume. intros H.
  destruct (w_pc w) as [ctrl [t|s|err]| | |]; try done.
  - destruct (_ && _ && _); [by simplify_eq|].
    pose proof (Still_worker_exit opts (w_chunk w) s e) as Hx.
    destruct (worker_exit opts (w_chunk w) s e) as [e1 pc]. by simplify_eq.
  - destruct (_ && _); inversion H; subst; apply Still_worker_finally.
Qed.

Lemma Still_pass_loop todo e ps e' ps' :
  isPaused (hook e) = true -> pass_loop opts todo e ps = Some (e', ps') ->
  Still e e'.
Proof.
  intros Hp H. destruct todo as [|a rest]; simpl in H.
  - by inversion H; subst.
  - rewrite Hp in H. by inversion H; subst.
Qed.

Lemma Still_start_pass k e e' :
  isPaused (hook e) = true -> start_pass opts k e = Some e' -> Still e e'.
Proof.
  intros Hp H. unfold start_pass, uploadChunksConcurrently in H.
  destruct (pass_loop _ _ _ _) as [[e1 ps]|] eqn:Hl; simpl in H; [|done].
  inversion H; subst. apply Still_pass_loop in Hl; [|done].
  etrans; [exact Hl|]. etrans; [|apply Still_set_caller_pc]. done.
Qed.

Lemma Still_start_transfer k e e' :
  isPaused (hook e) = true -> start_transfer opts k e = Some e' -> Still e e'.
Proof.
  intros Hp H. unfold start_transfer in H.
  pose proof (Still_updateTotalProgress e) as [H1 H2].
  destruct (Nat.eqb _ _).
  - inversion H; subst. etrans; [apply Still_updateTotalProgress|].
    apply Still_completeUpload. congruence.
  - etrans; [apply Still_updateTotalProgress|].
    eapply Still_start_pass; [|exact H]. congruence.
Qed.

Lemma Still_start_reconcile f s e : Still e (start_reconcile opts f s e).
Proof.
  unfold start_reconcile. destruct (_ <=? 0); [|done].
  etrans; [|apply Still_updateTotalProgress]. done.
Qed.

Lemma paused_step (e : Engine) (ev : Event) (e' : Engine) :
  isPaused (hook e) = true -> ev <> StartUpload -> ev <> ResumeUpload ->
  step opts e ev = Some e' ->
  isPaused (hook e') = true
  /\ (calls e' = calls e \/ calls e' = calls e ++ [CallInitialize]).
Proof.
  intros Hp Hs Hr H.
  assert (Hstill : Still e e' ->
            isPaused (hook e') = true
            /\ (calls e' = calls e \/ calls e' = calls e ++ [CallInitialize])).
  { intros [H1 H2]. split; [congruence | by left]. }
  destruct ev; simpl in H; try done.
  - destruct (0 <=? dt); [|done]. by inversion H; subst; apply Hstill.
  - inversion H; subst. unfold pauseUpload.
    pose proof (Still_fold pause_chunk (chunks (hook e)) Still_pause_chunk
                  (upd_hook (set_isPaused true) e)) as [H1 H2].
    split; [by rewrite H1 | left; by rewrite H2].
  - unfold check_response in H.
    destruct (callers e !! c) as [cl|]; simpl in H; [|done].
    destruct (currentFile (hook e)) as [f0|] eqn:Hf0; simpl in H; [|done].
    destruct (c_pc cl); try done.
    destruct r as [err|result].
    + inversion H; subst. apply Hstill.
      etrans; [|apply Still_caller_throw]. done.
    + destruct (fileExists result && isComplete result).
      * inversion H; subst. apply Hstill.
        etrans; [|apply Still_set_caller_pc]. done.
      * match type of H with
        | context [upd_hook (set_isCheckingUpload false) ?e1] =>
            assert (H1 : Still e (upd_hook (set_isCheckingUpload false) e1))
        end.
        { etrans; [|still_hook].
          destruct (session result) as [s|]; [|done].
          etrans; [|apply Still_start_reconcile]. still_hook. }
        match type of H with
        | match ?o with _ => _ end = _ => destruct o
        end.
        -- apply Hstill. etrans; [exact H1|].
           eapply Still_start_transfer; [|exact H].
           destruct H1 as [-> _]. done.
        -- inversion H; subst. destruct H1 as [H1 H2].
           pose proof (Still_set_caller_pc c AwaitInitialize) as Hx.
           match goal with
           | |- context [set_caller_pc c AwaitInitialize ?e3] =>
               destruct (Hx e3) as [-> ->]
           end.
           simpl in *. split; [congruence | right; by rewrite H2].
  - unfold initialize_response in H.
    destruct (callers e !! c) as [cl|]; simpl in H; [|done].
    destruct (c_pc cl); try done.
    destruct r as [err|res]; [|destruct (init_success res)];
      inversion H; subst; apply Hstill.
    + etrans; [|apply Still_caller_throw]. done.
    + etrans; [|apply Still_set_caller_pc]. done.
    + etrans; [|apply Still_caller_throw]. done.
  - unfold chunks_hashed in H.
    destruct (callers e !! c) as [cl|]; simpl in H; [|done].
    destruct (currentFile (hook e)) as [f0|] eqn:Hf0; simpl in H; [|done].
    destruct (c_pc cl); try done.
    destruct ok.
    + apply Hstill.
      etrans; [|eapply Still_start_transfer; [|exact H]]; done.
    + inversion H; subst. apply Hstill, Still_caller_throw.
  - unfold reconciled in H.
    destruct (jobs e !! j) as [jb|]; simpl in H; [|done].
    destruct (j_done jb); [done|].
    destruct ok; inversion H; subst; apply Hstill; [|done].
    etrans; [|apply Still_updateTotalProgress]. done.
  - unfold complete_response in H.
    destruct (callers e !! c) as [cl|]; simpl in H; [|done].
    destruct (c_pc cl); try done.
    destruct r as [err|res]; [|destruct (complete_success res)];
      inversion H; subst; apply Hstill.
    + apply Still_caller_throw.
    + etrans; [|apply Still_set_caller_pc]. done.
    + apply Still_caller_throw.
  - unfold pass_settled in H.
    destruct (callers e !! c) as [cl|]; simpl in H; [|done].
    destruct (c_pc cl); try done.
    destruct (passes e !! p) as [ps|]; simpl in H; [|done].
    destruct (p_pc ps), (c_kind cl); try done;
      try destruct (Nat.eqb _ _); inversion H; subst; apply Hstill;
      try (by apply Still_completeUpload); try apply Still_caller_throw.
    etrans; [|apply Still_set_caller_pc]. done.
  - unfold xhr_progress in H.
    destruct (get_worker p k e) as [w|]; simpl in H; [|done].
    destruct (heap e !! w_chunk w) as [ch|]; simpl in H; [|done].
    destruct (w_pc w) as [ctrl [t|s|err]| | |]; try done.
    destruct (_ && _); [|done].
    destruct (negb (signal_aborted e ch)); [|by inversion H; subst; apply Hstill].
    destruct (updateNetworkStats _ _ _) as [si ns]. inversion H; subst.
    apply Hstill.
    etrans; [|apply Still_updateTotalProgress].
    etrans; [apply Still_upd_chunk|]. done.
  - unfold xhr_load in H.
    destruct (get_worker p k e) as [w|] eqn:Hg; simpl in H; [|done].
    destruct (w_pc w) as [ctrl [t|s|err]| | |] eqn:Hpc; try done.
    destruct (_ && _).
    + destruct body as [result|]; [destruct (chunk_success result)|];
        inversion H; subst; apply Hstill;
        (etrans; [|apply Still_set_worker]); try done.
      etrans; [|apply Still_updateTotalProgress]. apply Still_upd_chunk.
    + inversion H; subst. apply Hstill, Still_set_worker.
  - unfold xhr_error in H.
    destruct (get_worker p k e) as [w|] eqn:Hg; simpl in H; [|done].
    destruct (w_pc w) as [ctrl [t|s|err]| | |] eqn:Hpc; try done.
    inversion H; subst. apply Hstill, Still_set_worker.
  - unfold chunk_timeout in H.
    destruct (get_worker p k e) as [w|] eqn:Hg; simpl in H; [|done].
    destruct (heap e !! w_chunk w) as [ch|]; simpl in H; [|done].
    destruct (w_pc w) as [ctrl [[d|]|s|err]| | |] eqn:Hpc; try done.
    destruct (d <=? clock e); [|done].
    destruct (negb (signal_aborted e ch)); inversion H; subst;
      apply Hstill, Still_set_worker.
  - unfold with_worker in H.
    destruct (get_worker p k e) as [w|] eqn:Hg; simpl in H; [|done].
    destruct (worker_resume opts w e) as [[e1 w1]|] eqn:Hfw; simpl in H; [|done].
    inversion H; subst. apply Hstill. etrans; [|apply Still_set_worker].
    by eapply Still_worker_resume.
  - unfold with_worker in H.
    destruct (get_worker p k e) as [w|] eqn:Hg; simpl in H; [|done].
    destruct (worker_after_delay opts w e) as [[e1 w1]|] eqn:Hfw; simpl in H;
      [|done].
    inversion H; subst. apply Hstill. etrans; [|apply Still_set_worker].
    unfold worker_after_delay in Hfw.
    destruct (w_pc w) as [| until | |]; try done.
    destruct (until <=? clock e); [|done].
    destruct (worker_loop opts (w_chunk w) (w_attempts w) e)
      as [[e2 [n pc]]|] eqn:Hl; simpl in Hfw; [|done].
    inversion Hfw; subst. by eapply Still_worker_loop.
  - unfold with_pass in H.
    destruct (passes e !! p) as [ps|] eqn:Hps; simpl in H; [|done].
    destruct (promise_reaction k e ps) as [ps2|]; simpl in H; [|done].
    inversion H; subst. by apply Hstill.
  - unfold with_pass in H.
    destruct (passes e !! p) as [ps|] eqn:Hps; simpl in H; [|done].
    destruct (race_settled opts k e ps) as [[e1 ps1]|] eqn:Hrs; simpl in H;
      [|done].
    inversion H; subst. apply Hstill.
    match goal with
    | |- Still e (set_passes ?v e1) => trans e1; [|done]
    end.
    unfold race_settled in Hrs.
    destruct (p_pc ps); try done.
    destruct (bool_decide _); [|done].
    destruct (p_workers ps !! k) as [w|]; simpl in Hrs; [|done].
    destruct (w_promise w); try done.
    + by eapply Still_pass_loop.
    + rewrite Hp in Hrs. by inversion Hrs; subst.
  - unfold with_pass in H.
    destruct (passes e !! p) as [ps|] eqn:Hps; simpl in H; [|done].
    destruct (all_settled ps) as [ps2|]; simpl in H; [|done].
    inversion H; subst. by apply Hstill.
Qed.

End Paused.

Lemma paused_run (opts : S3UploadOptions) (e e' : Engine)
    (evs : list Event) :
  isPaused (hook e) = true ->
  Forall (fun ev => ev <> StartUpload /\ ev <> ResumeUpload) evs ->
  run opts e evs = Some e' ->
  isPaused (hook e') = true
  /\ exists l, calls e' = calls e ++ l /\ Forall (fun c => c = CallInitialize) l.
Proof.
  revert e. induction evs as [|ev evs IH]; intros e Hp Hevs H; simpl in H.
  - inversion H; subst. split; [done|]. exists []. by rewrite app_nil_r.
  - destruct (step opts e ev) as [e1|] eqn:Hs; simpl in H; [|done].
    apply Forall_cons in Hevs as [[Hn1 Hn2] Hevs].
    destruct (paused_step opts e ev e1 Hp Hn1 Hn2 Hs) as [Hp1 Hc1].
    destruct (IH e1 Hp1 Hevs H) as (Hp' & l & Hl & Hall).
    split; [done|].
    destruct Hc1 as [Hc1|Hc1]; rewrite Hc1 in Hl.
    + by exists l.
    + exists (CallInitialize :: l). rewrite Hl, <- app_assoc. split; [done|].
      by constructor.
Qed.

(** X5.  While the upload is paused nothing but an [initialize] request can
    be sent: whatever responses, progress events, timers and resumptions
    of suspended code occur, until [startUpload] or [resumeUpload] is
    called the hook stays paused, sends no chunk and never posts
    [complete]. *)
Theorem paused_upload_sends_no_chunk (opts : S3UploadOptions) (e e' : Engine)
    (evs : list Event) :
  isPaused (hook e) = true ->
  Forall (fun ev => ev <> StartUpload /\ ev <> ResumeUpload) evs ->
  run opts e evs = Some e' ->
  isPaused (hook e') = true
  /\ exists l, calls e' = calls e ++ l /\ Forall (fun c => c = CallInitialize) l.
Proof. apply paused_run. Qed.


Lemma paused_upload_sends_no_chunk_witness :
  isPaused (hook (after defaultOptions file23 pause_at_partial_progress)) = true
  /\ exists e',
       run defaultOptions (after defaultOptions file23 pause_at_partial_progress)
         last_request_completes = Some e'
       /\ callerState e' 0 = Some (Thrown ErrPaused)
       /\ isPaused (hook e') = true
       /\ exists l,
            calls e'
            = calls (after defaultOptions file23 pause_at_partial_progress) ++ l
            /\ Forall (fun c => c = CallInitialize) l.
Proof.
  assert (Hp : isPaused (hook (after defaultOptions file23
                                pause_at_partial_progress)) = true)
    by (vm_compute; reflexivity).
  split; [exact Hp|].
  destruct (run defaultOptions
              (after defaultOptions file23 pause_at_partial_progress)
              last_request_completes) as [e'|] eqn:E;
    [|exfalso; revert E; vm_compute; discriminate].
  exists e'. split; [reflexivity|].
  assert (G : option_map (fun e => callerState e 0)
                (run defaultOptions
                   (after defaultOptions file23 pause_at_partial_progress)
                   last_request_completes)
              = Some (Some (Thrown ErrPaused))) by (vm_compute; reflexivity).
  rewrite E in G. simpl in G. inversion G as [G1].
  split; [reflexivity|].
  apply (paused_upload_sends_no_chunk defaultOptions
           (after defaultOptions file23 pause_at_partial_progress) e'
           last_request_completes Hp); [|exact E].
  unfold last_request_completes. repeat constructor; discriminate.
Defined.

(** X6.  When the check answer carries a session and the hook has no chunk
    list yet, [startUpload] posts [complete] at once: the reconciliation it
    has started is still hashing its first chunk, so the test ``all chunks
    uploaded'' compares 0 with 0; no chunk is uploaded and no pass is
    started. *)
Theorem session_answer_completes_at_once (opts : S3UploadOptions) (e : Engine)
    (f : File) (r : S3CheckUploadResponse) (s : S3UploadSession) :
  currentFile (hook e) = Some f -> fileHash (hook e) <> "" ->
  chunks (hook e) = [] -> 0 < size f -> 0 < chunkSize opts ->
  fileExists r && isComplete r = false -> session r = Some s ->
  exists e',
    run opts e [StartUpload; CheckResponse (length (callers e)) (inr r)] = Some e'
    /\ calls e' = calls e ++ [CallCheck; CallComplete]
    /\ callers e' !! length (callers e)
       = Some {| c_kind := FromStart; c_pc := AwaitComplete |}
    /\ uploadSession (hook e') = Some s
    /\ chunks (hook e') = []
    /\ jobs e' = jobs e ++ [{| j_file := f; j_session := s; j_done := false |}]
    /\ passes e' = passes e
    /\ heap e' = heap e.
Proof.
  intros Hf Hh Hch HF Hcs Hnot Hs.
  destruct (startUpload_awaits_check e f Hf Hh)
    as (Hcl & Hcalls & Hf1 & Hs1 & Hch1 & Hup1 & Hheap1 & Hp1 & Hj1).
  assert (Hpaused : isPaused (hook (startUpload e)) = false).
  { unfold startUpload. rewrite Hf. apply String.eqb_neq in Hh. by rewrite Hh. }
  assert (Hceil : (Math_ceil_div (size f) (chunkSize opts) <=? 0) = false).
  { apply Z.leb_gt. by apply Math_ceil_div_pos. }
  eexists. split.
  - rewrite (run_cons opts e (startUpload e)) by done.
    cbn [run step]. unfold check_response.
    rewrite Hcl, list_lookup_middle by done. cbn [mbind option_bind c_pc].
    rewrite Hf1. cbn [mbind option_bind]. rewrite Hnot, Hs.
    unfold start_reconcile. rewrite Hceil.
    cbn [uploadSession hook upd_hook set_hook set_jobs set_isCheckingUpload
         set_resumeInfo set_uploadSession].
    unfold start_transfer, updateTotalProgress.
    cbn [currentFile hook upd_hook set_hook set_jobs set_isCheckingUpload
         set_resumeInfo set_uploadSession].
    rewrite Hf1.
    unfold uploadedChunks, chunkObjects, totalChunksOf.
    cbn [chunks hook upd_hook set_hook set_jobs set_isCheckingUpload
         set_resumeInfo set_uploadSession set_uploadProgress].
    rewrite Hch1, Hch. cbn [omap list_omap List.filter length Nat.eqb].
    unfold completeUpload.
    cbn [uploadSession isPaused hook upd_hook set_hook set_jobs
         set_isCheckingUpload set_resumeInfo set_uploadSession
         set_uploadProgress].
    rewrite Hpaused. cbn [mbind option_bind]. reflexivity.
  - unfold set_caller_pc. simpl. rewrite Hcl, list_lookup_middle by done.
    simpl. rewrite Hcalls, Hch1, Hch, Hj1, Hp1, Hheap1.
    rewrite <- app_assoc. simpl.
    rewrite list_lookup_insert_eq by (rewrite length_app; simpl; lia).
    repeat split.
Qed.


Lemma session_answer_completes_at_once_witness :
  exists e',
    run defaultOptions (boot file25 "abc")
      [StartUpload; CheckResponse 0 (inr checkResume)] = Some e'
    /\ calls e' = [CallCheck; CallComplete]
    /\ chunks (hook e') = [] /\ passes e' = [].
Proof.
  destruct (session_answer_completes_at_once defaultOptions (boot file25 "abc")
              file25 checkResume session3)
    as (e' & Hrun & Hcalls & _ & _ & Hch & _ & Hp & _);
    try reflexivity; try discriminate.
  exists e'. split; [exact Hrun|]. split; [exact Hcalls|]. split; [exact Hch|].
  exact Hp.
Defined.

Lemma hashed_Keeps (e e' : Engine) : Keeps e e' -> hashed e -> hashed e'.
Proof.
  intros [[Hh _ _ _] _]. unfold hashed, heap_evolves in *.
  induction Hh as [|c c' l l' Hc Hl IH]; [done|].
  intros Hf. inversion Hf; subst. constructor; [|auto].
  destruct Hc as (_&_&_&_&_&Hc&_). by rewrite Hc.
Qed.

Lemma indexAt_Keeps (e e' : Engine) (a : nat) :
  Keeps e e' -> indexAt e' a = indexAt e a.
Proof.
  intros [[Hh _ _ _] _]. unfold indexAt.
  destruct (heap e !! a) as [c|] eqn:Ha.
  - destruct (Forall2_lookup_l _ _ _ _ _ Hh Ha) as (c' & -> & Hc).
    by destruct Hc as (-> & _).
  - destruct (heap e' !! a) as [c'|] eqn:Ha'; [|done].
    destruct (Forall2_lookup_r _ _ _ _ _ Hh Ha') as (c & Hc & _). congruence.
Qed.

Lemma uploadSingleChunk_starts (opts : S3UploadOptions) (a : nat)
    (c : S3ChunkInfo) (e : Engine) :
  heap e !! a = Some c -> isPaused (hook e) = false ->
  uploadSession (hook e) <> None -> or_null (chunkHash c) <> None ->
  1 <= retryTimes opts ->
  exists e' w,
    uploadSingleChunk opts a e = Some (e', w)
    /\ w_chunk w = a /\ transporting w = true /\ w_attempts w = 1
    /\ w_promise w = Pending
    /\ calls e' = calls e ++ [CallChunk (index c)]
    /\ isPaused (hook e') = false
    /\ uploadSession (hook e') = uploadSession (hook e)
    /\ callers e' = callers e /\ passes e' = passes e.
Proof.
  intros Ha Hp Hs Hh Hr.
  unfold uploadSingleChunk. rewrite Ha. cbn [mbind option_bind]. rewrite Hp.
  unfold worker_loop.
  cbn [isPaused hook upd_hook set_hook set_executingChunks].
  rewrite Hp. destruct (Z.ltb_spec 0 (retryTimes opts)); [|lia].
  cbn [andb negb]. unfold uploadChunk.
  cbn [heap upd_hook set_hook]. rewrite Ha. cbn [mbind option_bind].
  cbn [uploadSession hook upd_hook set_hook set_executingChunks].
  destruct (uploadSession (hook e)) as [s|] eqn:Es; [|done].
  destruct (or_null (chunkHash c)) as [h|] eqn:Eh; [|done].
  cbn [mbind option_bind]. eexists _, _. split; [reflexivity|].
  unfold upd_chunk. cbn [heap set_nextController upd_hook set_hook].
  rewrite Ha. simpl. by rewrite Hp, Es.
Qed.

Lemma pass_loop_effect (opts : S3UploadOptions) (todo : list nat) :
  forall (e : Engine) (ps : Pass),
    let limit := Z.to_nat (Z.max 1 (concurrent opts)) in
    let lw := length (p_workers ps) in
    let lx := length (p_executing ps) in
    isPaused (hook e) = false -> uploadSession (hook e) <> None ->
    1 <= retryTimes opts -> hashed e ->
    Forall (fun a => is_Some (heap e !! a)) todo ->
    (lx < limit)%nat ->
    let k := Nat.min (length todo) (limit - lx) in
    exists e' ps' new,
      pass_loop opts todo e ps = Some (e', ps')
      /\ p_workers ps' = p_workers ps ++ new
      /\ map w_chunk new = take k todo
      /\ Forall (fun w => transporting w = true /\ w_attempts w = 1
                          /\ w_promise w = Pending) new
      /\ p_executing ps' = p_executing ps ++ seq lw k
      /\ p_todo ps' = drop k todo
      /\ p_pc ps' = (if (length todo <? limit - lx)%nat
                     then AwaitAllSettled (p_executing ps')
                     else AwaitRace (p_executing ps'))
      /\ calls e' = calls e ++ map (fun a => CallChunk (indexAt e a)) (take k todo)
      /\ Keeps e e'
      /\ isPaused (hook e') = false
      /\ uploadSession (hook e') = uploadSession (hook e)
      /\ callers e' = callers e /\ passes e' = passes e.
Proof.
  induction todo as [|a rest IH];
    intros e ps limit lw lx Hp Hs Hr Hh Htodo Hlen k.
  - subst k. simpl. exists e, (set_p_pc (AwaitAllSettled (p_executing ps))
                               (set_p_todo [] ps)), [].
    split; [reflexivity|]. simpl. rewrite !app_nil_r.
    destruct (Nat.ltb_spec 0 (limit - lx)); [|lia].
    do 7 (split; [done|]). split; [reflexivity | done].
  - apply Forall_cons in Htodo as [[c Ha] Htodo].
    assert (Hc : or_null (chunkHash c) <> None).
    { unfold hashed in Hh. by eapply (Forall_lookup_1 _ _ _ _ Hh Ha). }
    destruct (uploadSingleChunk_starts opts a c e Ha Hp Hs Hc Hr)
      as (e1 & w & Hu & Hwc & Hwt & Hwa & Hwp & Hcalls & Hp1 & Hs1 & Hcl1 & Hps1).
    pose proof (Keeps_uploadSingleChunk _ _ _ _ _ Hu) as Hk.
    cbn [pass_loop]. rewrite Hp, Hu. cbn [mbind option_bind].
    cbn [p_executing p_workers set_p_executing set_p_workers].
    rewrite length_app. cbn [length]. fold lw lx.
    assert (Hix : indexAt e a = index c) by (unfold indexAt; by rewrite Ha).
    destruct (Z.leb_spec (concurrent opts) (Z.of_nat (lx + 1))) as [Hle|Hgt].
    + assert (Hroom : (limit - lx = 1)%nat) by (subst limit; lia).
      assert (Hk1 : k = 1%nat) by (subst k; rewrite Hroom; simpl; lia).
      rewrite Hk1, Hroom. clear Hk1 k.
      eexists _, _, [w]. split; [reflexivity|]. simpl.
      rewrite Hwc, Hcalls, Hix, drop_0.
      split; [done|]. split; [done|]. split; [by constructor|].
      do 4 (split; [done|]). split; [exact Hk | done].
    + set (ps1 := set_p_executing (p_executing ps ++ [lw])
                    (set_p_workers (p_workers ps ++ [w]) ps)).
      assert (Hlw1 : length (p_workers ps1) = S lw).
      { subst ps1. simpl. rewrite length_app. simpl. lia. }
      assert (Hlx1 : length (p_executing ps1) = S lx).
      { subst ps1. simpl. rewrite length_app. simpl. lia. }
      destruct (IH e1 ps1)
        as (e' & ps' & new & Hl & Hw & Hch & Hall & Hex' & Htd & Hpc & Hcl
            & Hk' & Hp' & Hs' & Hcl' & Hps'); try done.
      * by rewrite Hs1.
      * by eapply hashed_Keeps.
      * eapply Forall_impl; [exact Htodo|]. intros a' [c' Ha'].
        destruct Hk as [[Hheap _ _ _] _].
        destruct (Forall2_lookup_l _ _ _ _ _ Hheap Ha') as (c'' & -> & _). done.
      * rewrite Hlx1. subst limit. lia.
      * rewrite Hlx1, Hlw1 in *.
        assert (Hkk : k = S (Nat.min (length rest) (limit - S lx))).
        { subst k. cbn [length]. lia. }
        assert (Hb : (S (length rest) <? limit - lx)%nat
                     = (length rest <? limit - S lx)%nat).
        { destruct (Nat.ltb_spec (length rest) (limit - S lx)),
                   (Nat.ltb_spec (S (length rest)) (limit - lx)); try done; lia. }
        rewrite Hkk, Hb. exists e', ps', (w :: new). split; [exact Hl|].
        set (k' := Nat.min (length rest) (limit - S lx)) in *.
        cbn [take drop]. split.
        { rewrite Hw. subst ps1. simpl. by rewrite <- app_assoc. }
        split; [simpl; by rewrite Hwc, Hch|].
        split; [by constructor|].
        split.
        { rewrite Hex'. subst ps1. simpl. by rewrite <- app_assoc. }
        split; [done|]. split; [done|]. split.
        { rewrite Hcl, Hcalls, <- app_assoc. simpl. rewrite Hix. do 2 f_equal.
          apply map_ext. intros a'. by rewrite (indexAt_Keeps e e1). }
        split; [by etrans|]. split; [done|]. repeat split; congruence.
Qed.

(** X7.  Up to its first [await], [uploadChunksConcurrently] admits the
    pending chunks (not uploaded, not in the registry) in list order: it
    starts exactly [min(pending, max(1, concurrent))] uploads, one request
    each; the remaining chunks stay queued; it then waits on
    [Promise.race] when the limit was reached and on [Promise.allSettled]
    when the list ran out first. *)
Theorem pass_admits_pending_in_order (opts : S3UploadOptions) (e : Engine) :
  isPaused (hook e) = false -> uploadSession (hook e) <> None ->
  1 <= retryTimes opts ->
  Forall (fun c => or_null (chunkHash c) <> None) (heap e) ->
  let pending := pendingChunks e in
  let limit := Z.to_nat (Z.max 1 (concurrent opts)) in
  let k := Nat.min (length pending) limit in
  exists e' ps,
    uploadChunksConcurrently opts e = Some (e', ps)
    /\ map w_chunk (p_workers ps) = take k pending
    /\ Forall (fun w => transporting w = true /\ w_attempts w = 1) (p_workers ps)
    /\ p_executing ps = seq 0 k
    /\ p_todo ps = drop k pending
    /\ p_pc ps = (if (length pending <? limit)%nat
                  then AwaitAllSettled (seq 0 k) else AwaitRace (seq 0 k))
    /\ calls e' = calls e ++ map (fun a => CallChunk (indexAt e a)) (take k pending).
Proof.
  intros Hp Hs Hr Hh pending limit k.
  unfold uploadChunksConcurrently.
  destruct (pass_loop_effect opts pending e
              {| p_todo := []; p_executing := []; p_workers := [];
                 p_pc := AwaitAllSettled [] |})
    as (e' & ps & new & Hl & Hw & Hch & Hall & Hex & Htd & Hpc & Hcl & _);
    try done.
  - subst pending. unfold pendingChunks.
    apply Forall_forall. intros a Hin.
    apply list_elem_of_In, filter_In in Hin as [_ Hin].
    by destruct (heap e !! a).
  - simpl. lia.
  - simpl in *. rewrite Nat.sub_0_r in *. subst new. exists e', ps.
    split; [exact Hl|]. split; [exact Hch|]. split.
    { eapply Forall_impl; [exact Hall|]. by intros w (? & ? & _). }
    rewrite Hpc, Hex. done.
Qed.


Lemma pass_admits_pending_in_order_witness :
  exists e' ps,
    uploadChunksConcurrently defaultOptions ready23 = Some (e', ps)
    /\ map w_chunk (p_workers ps) = [0; 1; 2]%nat
    /\ p_todo ps = [3; 4]%nat
    /\ p_pc ps = AwaitRace [0; 1; 2]%nat
    /\ calls e' = calls ready23 ++ [CallChunk 0; CallChunk 1; CallChunk 2].
Proof.
  destruct (pass_admits_pending_in_order defaultOptions ready23)
    as (e' & ps & Hu & Hw & _ & _ & Htd & Hpc & Hcl).
  - reflexivity.
  - discriminate.
  - vm_compute. discriminate.
  - vm_compute. repeat constructor; discriminate.
  - exists e', ps. split; [exact Hu|].
    split; [exact Hw|]. split; [exact Htd|]. split; [exact Hpc|]. exact Hcl.
Defined.

(** * The progress display *)

#[local] Instance sized_refl : Reflexive sized.
Proof. by intros c. Qed.

#[local] Instance sized_trans : Transitive sized.
Proof. intros c1 c2 c3 (? & ? & ?) (? & ? & ?). repeat split; congruence. Qed.

#[local] Instance Level_refl : Reflexive Level.
Proof.
  intros e. by split.
Qed.

#[local] Instance Level_trans : Transitive Level.
Proof.
  intros e1 e2 e3 [H12 ? ? ?] [H23 ? ? ?]. split; try congruence.
  revert H23. generalize (heap e3). induction H12 as [|c1 c2 h1 h2 Hc H12 IH];
    intros h3 H23; [done|].
  inversion H23 as [|? c3 ? h3' Hc' H23']; subst.
  constructor; [by etrans | by apply IH].
Qed.

Lemma Level_same (e e' : Engine) :
  heap e' = heap e -> hook e' = hook e -> Level e e'.
Proof.
  intros Hh Hk. destruct (Level_refl e) as [H1 _ _ _].
  split; rewrite ?Hk, ?Hh; done.
Qed.

(** Closes [Level e e'] when [e'] differs from [e] in fields the relation
    does not look at. *)
Ltac level_same := by apply Level_same.

Lemma Level_upd_hook (g : Hook -> Hook) (e : Engine) :
  (forall h, chunks (g h) = chunks h /\ currentFile (g h) = currentFile h
             /\ uploadProgress (g h) = uploadProgress h) ->
  Level e (upd_hook g e).
Proof. intros Hg. destruct (Hg (hook e)) as (? & ? & ?). by split. Qed.

Lemma Level_upd_chunk (a : nat) (g : S3ChunkInfo -> S3ChunkInfo) (e : Engine) :
  (forall c, sized c (g c)) -> Level e (upd_chunk a g e).
Proof.
  intros Hg. unfold upd_chunk. destruct (heap e !! a) as [c|] eqn:Ha; [|done].
  split; simpl; try done.
  rewrite <- (list_insert_id (heap e) a c) at 1 by done.
  apply Forall2_insert; [reflexivity | apply Hg].
Qed.

Lemma Level_abort (ctrl : nat) (e : Engine) : Level e (abort ctrl e).
Proof. unfold abort. destruct (bool_decide _); [done | level_same]. Qed.

Ltac level_hook := apply Level_upd_hook; intros ?; by repeat split.
Ltac level_chunk := apply Level_upd_chunk; intros ?; by repeat split.

Lemma Level_worker_finally (a : nat) (e : Engine) : Level e (worker_finally a e).
Proof. unfold worker_finally. destruct (heap e !! a); [|done]. level_hook. Qed.

Lemma Level_set_caller_pc k pc e : Level e (set_caller_pc k pc e).
Proof. unfold set_caller_pc. destruct (callers e !! k); [level_same | done]. Qed.

Lemma Level_caller_throw k err e : Level e (caller_throw k err e).
Proof.
  unfold caller_throw. etrans; [|apply Level_set_caller_pc]. level_hook.
Qed.

Lemma Level_completeUpload k e : Level e (completeUpload k e).
Proof.
  unfold completeUpload.
  destruct (uploadSession (hook e)); [destruct (isPaused (hook e))|];
    try apply Level_caller_throw.
  etrans; [|apply Level_set_caller_pc]. level_same.
Qed.

Lemma Level_uploadChunk a e e' r :
  uploadChunk a e = Some (e', r) -> Level e e'.
Proof.
  unfold uploadChunk. intros H.
  destruct (heap e !! a) as [c|]; simpl in H; [|done].
  destruct (uploadSession (hook e)), (or_null (chunkHash c));
    inversion H; subst; try done.
  match goal with
  | |- Level _ (set_calls _ ?e2) => trans e2; [|level_same]
  end.
  match goal with
  | |- Level _ (upd_chunk _ _ ?e1) => trans e1; [level_same|]
  end.
  level_chunk.
Qed.

Lemma Level_worker_exit opts a s e : Level e (fst (worker_exit opts a s e)).
Proof.
  unfold worker_exit. destruct (_ && _); simpl; apply Level_worker_finally.
Qed.

Lemma Level_worker_loop opts a n e e' r :
  worker_loop opts a n e = Some (e', r) -> Level e e'.
Proof.
  unfold worker_loop. intros H.
  destruct (_ && _).
  - destruct (uploadChunk a e) as [[e1 [ctrl x]]|] eqn:Hu; simpl in H; [|done].
    inversion H; subst. by eapply Level_uploadChunk.
  - pose proof (Level_worker_exit opts a false e) as Hx.
    destruct (worker_exit opts a false e) as [e1 pc]. by inversion H; subst.
Qed.

Lemma Level_uploadSingleChunk opts a e e' w :
  uploadSingleChunk opts a e = Some (e', w) -> Level e e'.
Proof.
  unfold uploadSingleChunk. intros H.
  destruct (heap e !! a) as [c|]; simpl in H; [|done].
  destruct (isPaused (hook e)); [by simplify_eq|].
  match type of H with
  | context [worker_loop ?o ?a ?n ?e0] =>
      destruct (worker_loop o a n e0) as [[e2 [n2 pc]]|] eqn:Hl
  end; simpl in H; [|done].
  inversion H; subst. apply Level_worker_loop in Hl.
  etrans; [|exact Hl]. level_hook.
Qed.

Lemma Level_worker_resume opts w w' e e' :
  worker_resume opts w e = Some (e', w') -> Level e e'.
Proof.
  unfold worker_resume. intros H.
  destruct (w_pc w) as [ctrl [t|s|err]| | |]; try done.
  - destruct (_ && _ && _); [by simplify_eq|].
    pose proof (Level_worker_exit opts (w_chunk w) s e) as Hx.
    destruct (worker_exit opts (w_chunk w) s e) as [e1 pc]. by simplify_eq.
  - destruct (_ && _); inversion H; subst; apply Level_worker_finally.
Qed.

Lemma Level_worker_after_delay opts w w' e e' :
  worker_after_delay opts w e = Some (e', w') -> Level e e'.
Proof.
  unfold worker_after_delay. intros H.
  destruct (w_pc w) as [| until | |]; try done.
  destruct (until <=? clock e); [|done].
  destruct (worker_loop opts (w_chunk w) (w_attempts w) e)
    as [[e1 [n pc]]|] eqn:Hl; simpl in H; [|done].
  inversion H; subst. by eapply Level_worker_loop.
Qed.

Lemma Level_pass_loop opts todo : forall e ps e' ps',
  pass_loop opts todo e ps = Some (e', ps') -> Level e e'.
Proof.
  induction todo as [|a rest IH]; intros e ps e' ps' H; simpl in H.
  - by inversion H.
  - destruct (isPaused (hook e)); [by inversion H|].
    destruct (uploadSingleChunk opts a e) as [[e1 w]|] eqn:Hu; simpl in H;
      [|done].
    apply Level_uploadSingleChunk in Hu.
    destruct (_ <=? _); [by inversion H; subst|].
    etrans; [exact Hu|]. by eapply IH.
Qed.

Lemma Level_start_pass opts k e e' : start_pass opts k e = Some e' -> Level e e'.
Proof.
  unfold start_pass, uploadChunksConcurrently. intros H.
  destruct (pass_loop _ _ _ _) as [[e1 ps]|] eqn:Hl; simpl in H; [|done].
  inversion H; subst. apply Level_pass_loop in Hl.
  etrans; [exact Hl|]. etrans; [|apply Level_set_caller_pc]. level_same.
Qed.

Lemma Level_pause_chunk e a : Level e (pause_chunk e a).
Proof.
  unfold pause_chunk.
  destruct (heap e !! a) as [ch|]; [|done].
  destruct (abortController ch) as [ctrl|]; [|done].
  destruct (_ && _); [|done].
  etrans; [apply Level_abort|]. level_chunk.
Qed.

Lemma Level_fold (f : Engine -> nat -> Engine) (l : list nat) :
  (forall e a, Level e (f e a)) -> forall e, Level e (fold_left f l e).
Proof.
  intros Hf. induction l as [|a l IH]; intros e; simpl; [done|].
  etrans; [apply Hf | apply IH].
Qed.

Lemma Level_pauseUpload e : Level e (pauseUpload e).
Proof.
  unfold pauseUpload. etrans; [|apply Level_fold, Level_pause_chunk].
  level_hook.
Qed.

Lemma Level_resume_chunk e a : Level e (resume_chunk e a).
Proof.
  unfold resume_chunk.
  destruct (heap e !! a) as [ch|]; [|done].
  destruct (_ && _ && _); [|done]. level_chunk.
Qed.

Lemma Level_resumeUpload opts e e' : resumeUpload opts e = Some e' -> Level e e'.
Proof.
  unfold resumeUpload. intros H.
  destruct (currentFile (hook e)); [|inversion H; subst; level_same].
  destruct (isCompleted (hook e)); [inversion H; subst; level_same|].
  apply Level_start_pass in H. etrans; [|exact H].
  match goal with
  | |- Level _ (push_caller _ ?e2) => trans e2; [|level_same]
  end.
  etrans; [|apply Level_fold, Level_resume_chunk]. level_hook.
Qed.

Lemma Level_set_worker p k w e : Level e (set_worker p k w e).
Proof. unfold set_worker. destruct (passes e !! p); [level_same | done]. Qed.

Lemma chunkObjects_Level (e e' : Engine) :
  Level e e' -> Forall2 sized (chunkObjects e) (chunkObjects e').
Proof.
  intros [Hh Hc _ _]. unfold chunkObjects. rewrite Hc. clear Hc.
  induction (chunks (hook e)) as [|a l IH]; [constructor|]. csimpl.
  destruct (heap e !! a) as [c|] eqn:Ha.
  - destruct (Forall2_lookup_l _ _ _ _ _ Hh Ha) as (c' & -> & Hs).
    csimpl. by constructor.
  - destruct (heap e' !! a) as [c'|] eqn:Ha'; [|done].
    destruct (Forall2_lookup_r _ _ _ _ _ Hh Ha') as (c & Hc0 & _). congruence.
Qed.

Lemma uploadedSize_Level (e e' : Engine) :
  Level e e' -> uploadedSize e' = uploadedSize e.
Proof.
  intros H%chunkObjects_Level. unfold uploadedSize, uploadedChunks.
  induction H as [|c c' l l' (Hu & Hs & He) Hl IH]; [done|]. simpl.
  rewrite Hu. destruct (uploaded c); simpl; [|done]. by rewrite IH, Hs, He.
Qed.

Lemma uploadedSize_updateTotalProgress (e : Engine) :
  uploadedSize (updateTotalProgress e) = uploadedSize e.
Proof. unfold updateTotalProgress. by destruct (currentFile (hook e)). Qed.

Lemma Synced_Level (f : File) (e e' : Engine) :
  Synced f e -> Level e e' -> Synced f e'.
Proof.
  intros [Hf Hs] HL. pose proof (uploadedSize_Level e e' HL) as Hu.
  destruct HL as [_ _ Lf Lp]. split; [congruence|].
  unfold shown in *. rewrite Lp, Hu. done.
Qed.

Lemma Synced_update (f : File) (e : Engine) :
  currentFile (hook e) = Some f -> Synced f (updateTotalProgress e).
Proof.
  intros Hf. split.
  - unfold updateTotalProgress. by rewrite Hf.
  - left. unfold shown. rewrite uploadedSize_updateTotalProgress.
    unfold updateTotalProgress. by rewrite Hf.
Qed.

Lemma Synced_start_transfer (opts : S3UploadOptions) (f : File) (k : nat)
    (e e' : Engine) :
  currentFile (hook e) = Some f -> start_transfer opts k e = Some e' ->
  Synced f e'.
Proof.
  intros Hf H. unfold start_transfer in H.
  pose proof (Synced_update f e Hf) as Hs.
  destruct (Nat.eqb _ _).
  - inversion H; subst. eapply Synced_Level; [exact Hs|].
    apply Level_completeUpload.
  - eapply Synced_Level; [exact Hs|]. by eapply Level_start_pass.
Qed.

Lemma Synced_step (opts : S3UploadOptions) (f : File) (e e' : Engine)
    (ev : Event) :
  Synced f e -> step opts e ev = Some e' -> Synced f e'.
Proof.
  intros Hs H. pose proof Hs as [Hf _]. destruct ev; simpl in H.
  - (* Tick *)
    destruct (0 <=? dt); [|done]. inversion H; subst.
    eapply Synced_Level; [done|]. level_same.
  - (* StartUpload *)
    inversion H; subst. eapply Synced_Level; [done|]. unfold startUpload.
    rewrite Hf. destruct (String.eqb _ _); [level_same|].
    match goal with
    | |- Level _ (push_caller _ (set_calls _ ?e1)) => trans e1; [|level_same]
    end.
    level_hook.
  - (* PauseUpload *)
    inversion H; subst. eapply Synced_Level; [done|]. apply Level_pauseUpload.
  - (* ResumeUpload *)
    eapply Synced_Level; [done|]. by eapply Level_resumeUpload.
  - (* CheckResponse *)
    unfold check_response in H.
    destruct (callers e !! c) as [cl|]; simpl in H; [|done].
    rewrite Hf in H. simpl in H.
    destruct (c_pc cl); try done.
    destruct r as [err|result].
    + inversion H; subst. eapply Synced_Level; [done|].
      etrans; [|apply Level_caller_throw]. level_hook.
    + destruct (fileExists result && isComplete result).
      * inversion H; subst. eapply Synced_Level; [done|].
        etrans; [|apply Level_set_caller_pc]. level_hook.
      * match type of H with
        | context [upd_hook (set_isCheckingUpload false) ?e1] =>
            assert (Hs1 : Synced f e1)
        end.
        { destruct (session result) as [s|]; [|done].
          unfold start_reconcile. destruct (_ <=? _).
          - apply Synced_update. simpl. done.
          - eapply Synced_Level; [exact Hs|].
            match goal with
            | |- Level _ (set_jobs _ ?e1) => trans e1; [|level_same]
            end.
            level_hook. }
        match type of H with
        | context [upd_hook (set_isCheckingUpload false) ?e1] =>
            assert (Hs2 : Synced f (upd_hook (set_isCheckingUpload false) e1))
              by (eapply Synced_Level; [exact Hs1|]; level_hook)
        end.
        match type of H with
        | match ?o with _ => _ end = _ => destruct o
        end.
        -- eapply Synced_start_transfer; [|exact H]. by destruct Hs2.
        -- inversion H; subst. eapply Synced_Level; [exact Hs2|].
           etrans; [|apply Level_set_caller_pc].
           match goal with
           | |- Level _ (set_calls _ ?e3) => trans e3; [|level_same]
           end.
           level_hook.
  - (* InitializeResponse *)
    eapply Synced_Level; [done|].
    unfold initialize_response in H.
    destruct (callers e !! c) as [cl|]; simpl in H; [|done].
    destruct (c_pc cl); try done.
    destruct r as [err|res]; [|destruct (init_success res)];
      inversion H; subst.
    + etrans; [|apply Level_caller_throw]. level_hook.
    + etrans; [|apply Level_set_caller_pc]. etrans; level_hook.
    + etrans; [|apply Level_caller_throw]. level_hook.
  - (* ChunksHashed *)
    unfold chunks_hashed in H.
    destruct (callers e !! c) as [cl|]; simpl in H; [|done].
    rewrite Hf in H. simpl in H.
    destruct (c_pc cl); try done.
    destruct ok.
    + eapply Synced_start_transfer; [|exact H]. done.
    + inversion H; subst. eapply Synced_Level; [done|].
      apply Level_caller_throw.
  - (* Reconciled *)
    unfold reconciled in H.
    destruct (jobs e !! j) as [jb|] eqn:Hjb; simpl in H; [|done].
    destruct (j_done jb); [done|].
    destruct ok; inversion H; subst.
    + by apply Synced_update.
    + eapply Synced_Level; [done|]. level_same.
  - (* CompleteResponse *)
    eapply Synced_Level; [done|].
    unfold complete_response in H.
    destruct (callers e !! c) as [cl|]; simpl in H; [|done].
    destruct (c_pc cl); try done.
    destruct r as [err|res]; [|destruct (complete_success res)];
      inversion H; subst.
    + apply Level_caller_throw.
    + etrans; [|apply Level_set_caller_pc]. level_hook.
    + apply Level_caller_throw.
  - (* PassSettled *)
    eapply Synced_Level; [done|].
    unfold pass_settled in H.
    destruct (callers e !! c) as [cl|]; simpl in H; [|done].
    destruct (c_pc cl); try done.
    destruct (passes e !! p) as [ps|]; simpl in H; [|done].
    destruct (p_pc ps), (c_kind cl); try done;
      try destruct (Nat.eqb _ _); inversion H; subst;
      try apply Level_completeUpload; try apply Level_caller_throw.
    etrans; [|apply Level_set_caller_pc]. level_hook.
  - (* XhrProgress *)
    unfold xhr_progress in H.
    destruct (get_worker p k e) as [w|]; simpl in H; [|done].
    destruct (heap e !! w_chunk w) as [ch|]; simpl in H; [|done].
    destruct (w_pc w) as [ctrl [t|s|err]| | |]; try done.
    destruct (_ && _); [|done].
    destruct (negb (signal_aborted e ch)); [|by inversion H; subst].
    destruct (updateNetworkStats _ _ _) as [si ns]. inversion H; subst.
    apply Synced_update. simpl. unfold upd_chunk.
    by destruct (heap e !! w_chunk w).
  - (* XhrLoad *)
    unfold xhr_load in H.
    destruct (get_worker p k e) as [w|] eqn:Hg; simpl in H; [|done].
    destruct (w_pc w) as [ctrl [t|s|err]| | |] eqn:Hpc; try done.
    destruct (_ && _).
    + destruct body as [result|]; [destruct (chunk_success result)|];
        inversion H; subst;
        (eapply Synced_Level; [|apply Level_set_worker]); try done.
      apply Synced_update. unfold upd_chunk.
      by destruct (heap e !! w_chunk w).
    + inversion H; subst. eapply Synced_Level; [done|]. apply Level_set_worker.
  - (* XhrError *)
    eapply Synced_Level; [done|].
    unfold xhr_error in H.
    destruct (get_worker p k e) as [w|] eqn:Hg; simpl in H; [|done].
    destruct (w_pc w) as [ctrl [t|s|err]| | |] eqn:Hpc; try done.
    inversion H; subst. apply Level_set_worker.
  - (* ChunkTimeout *)
    eapply Synced_Level; [done|].
    unfold chunk_timeout in H.
    destruct (get_worker p k e) as [w|] eqn:Hg; simpl in H; [|done].
    destruct (heap e !! w_chunk w) as [ch|]; simpl in H; [|done].
    destruct (w_pc w) as [ctrl [[d|]|s|err]| | |] eqn:Hpc; try done.
    destruct (d <=? clock e); [|done].
    destruct (negb (signal_aborted e ch)); inversion H; subst;
      apply Level_set_worker.
  - (* UploadSettled *)
    eapply Synced_Level; [done|].
    unfold with_worker in H.
    destruct (get_worker p k e) as [w|] eqn:Hg; simpl in H; [|done].
    destruct (worker_resume opts w e) as [[e1 w1]|] eqn:Hfw; simpl in H; [|done].
    inversion H; subst. etrans; [|apply Level_set_worker].
    by eapply Level_worker_resume.
  - (* DelayElapsed *)
    eapply Synced_Level; [done|].
    unfold with_worker in H.
    destruct (get_worker p k e) as [w|] eqn:Hg; simpl in H; [|done].
    destruct (worker_after_delay opts w e) as [[e1 w1]|] eqn:Hfw; simpl in H;
      [|done].
    inversion H; subst. etrans; [|apply Level_set_worker].
    by eapply Level_worker_after_delay.
  - (* PromiseReaction *)
    eapply Synced_Level; [done|].
    unfold with_pass in H.
    destruct (passes e !! p) as [ps|] eqn:Hps; simpl in H; [|done].
    destruct (promise_reaction k e ps) as [ps2|]; simpl in H; [|done].
    inversion H; subst. level_same.
  - (* RaceSettled *)
    eapply Synced_Level; [done|].
    unfold with_pass in H.
    destruct (passes e !! p) as [ps|] eqn:Hps; simpl in H; [|done].
    destruct (race_settled opts k e ps) as [[e1 ps1]|] eqn:Hr; simpl in H;
      [|done].
    inversion H; subst. trans e1; [|level_same].
    unfold race_settled in Hr.
    destruct (p_pc ps); try done.
    destruct (bool_decide _); [|done].
    destruct (p_workers ps !! k) as [w|]; simpl in Hr; [|done].
    destruct (w_promise w); try done.
    + by eapply Level_pass_loop.
    + destruct (isPaused (hook e)); by inversion Hr; subst.
  - (* AllSettled *)
    eapply Synced_Level; [done|].
    unfold with_pass in H.
    destruct (passes e !! p) as [ps|] eqn:Hps; simpl in H; [|done].
    destruct (all_settled ps) as [ps2|]; simpl in H; [|done].
    inversion H; subst. level_same.
Qed.

Lemma Synced_run (opts : S3UploadOptions) (f : File) (evs : list Event) :
  forall e e', Synced f e -> run opts e evs = Some e' -> Synced f e'.
Proof.
  induction evs as [|ev evs IH]; intros e e' Hs H; simpl in H.
  - by inversion H; subst.
  - destruct (step opts e ev) as [e1|] eqn:Hstep; simpl in H; [|done].
    eapply IH; [|exact H]. by eapply Synced_step.
Qed.

Lemma Synced_boot (f : File) (hash : string) : Synced f (boot f hash).
Proof. split; [done|]. right. by split. Qed.

Lemma Synced_full (f : File) (e : Engine) :
  Synced f e -> 0 < size f -> uploadedSize e = size f ->
  uploadProgress (hook e)
  = {| loaded := size f; total := size f; percentage := 100 |}.
Proof.
  intros [_ [Hs|[_ Hz]]] HF Hu; [|lia].
  rewrite Hs. unfold shown. rewrite Hu.
  destruct (Z.ltb_spec 0 (size f)); [|lia]. f_equal.
  unfold Math_round_percent. symmetry.
  apply (Z.div_unique _ _ 100 (size f)); lia.
Qed.

(** X9.  Whatever the user, the backend, the requests and the timers do
    after a file was selected, [uploadProgress.loaded] is the total size
    of the chunks marked uploaded ([uploadedSize]); [uploadProgress.total]
    is the file size, unless [updateTotalProgress] has not run yet and the
    progress is still all zero; the percentage is 0 while nothing is
    uploaded, and the progress reads the whole file at 100 percent as soon
    as every byte is uploaded. *)
Theorem progress_shows_uploaded_bytes (opts : S3UploadOptions) (f : File)
    (hash : string) (evs : list Event) (e : Engine) :
  run opts (boot f hash) evs = Some e ->
  loaded (uploadProgress (hook e)) = uploadedSize e
  /\ (total (uploadProgress (hook e)) = size f
      \/ uploadProgress (hook e)
         = {| loaded := 0; total := 0; percentage := 0 |})
  /\ (uploadedSize e = 0 -> percentage (uploadProgress (hook e)) = 0)
  /\ (0 < size f -> uploadedSize e = size f ->
      uploadProgress (hook e)
      = {| loaded := size f; total := size f; percentage := 100 |}).
Proof.
  intros Hrun.
  assert (Hs : Synced f e).
  { eapply Synced_run; [|exact Hrun]. apply Synced_boot. }
  split; [|split; [|split]].
  - destruct Hs as [_ [->|[-> ->]]]; done.
  - destruct Hs as [_ [->|[-> _]]]; [by left | by right].
  - intros Hz. destruct Hs as [_ [->|[-> _]]]; [|done].
    unfold shown. simpl. rewrite Hz.
    destruct (Z.ltb_spec 0 (size f)); [|done].
    unfold Math_round_percent. apply Z.div_small. lia.
  - intros HF Hu. by apply Synced_full.
Qed.

Lemma progress_shows_uploaded_bytes_witness :
  exists e,
    run defaultOptions (boot file23 "abc") both_requests_complete = Some e
    /\ loaded (uploadProgress (hook e)) = uploadedSize e
    /\ uploadedSize e = 5 * MiB.
Proof.
  destruct (run defaultOptions (boot file23 "abc") both_requests_complete)
    as [e|] eqn:E; [|exfalso; revert E; vm_compute; discriminate].
  exists e. split; [reflexivity|].
  destruct (progress_shows_uploaded_bytes defaultOptions file23 "abc"
              both_requests_complete e E) as (H1 & _).
  split; [exact H1|].
  assert (G : option_map uploadedSize
                (run defaultOptions (boot file23 "abc") both_requests_complete)
              = Some (5 * MiB)) by (vm_compute; reflexivity).
  rewrite E in G. simpl in G. inversion G as [G']. reflexivity.
Defined.

(** * An undisturbed upload *)

Lemma uploadedAt_evolves (e e' : Engine) (a : nat) :
  heap_evolves (heap e) (heap e') -> uploadedAt e a -> uploadedAt e' a.
Proof.
  intros Hh (c & Ha & Hu).
  destruct (Forall2_lookup_l _ _ _ _ _ Hh Ha) as (c' & Hc' & Hev).
  exists c'. split; [done|]. by apply Hev.
Qed.

Lemma worker_fine_evolves (e e' : Engine) (k : nat) (w : Worker) :
  heap_evolves (heap e) (heap e') -> worker_fine e k w -> worker_fine e' k w.
Proof.
  intros Hh [Hc Hpc]. split; [done|].
  destruct (w_pc w) as [ctrl [t|[]|err]| | |]; try done.
  - destruct Hpc as [? ?]. split; [done | by eapply uploadedAt_evolves].
  - destruct Hpc as [? ?]. split; [by eapply uploadedAt_evolves | done].
Qed.

Lemma up_heap_evolves (h h' : list S3ChunkInfo) :
  heap_evolves h h' ->
  (forall i c, h !! i = Some c -> index c = i /\ or_null (chunkHash c) <> None) ->
  forall i c, h' !! i = Some c -> index c = i /\ or_null (chunkHash c) <> None.
Proof.
  intros Hh H i c' Hc'.
  destruct (Forall2_lookup_r _ _ _ _ _ Hh Hc') as (c & Hc & Hev).
  destruct (H i c Hc) as [Hi Hhash].
  destruct Hev as (-> & _ & _ & _ & _ & -> & _). done.
Qed.

Lemma Uploading_Keeps (n : nat) (d : bool) (e e' : Engine) :
  Uploading n d e -> Keeps e e' -> passes e' = passes e ->
  calls e' = calls e -> uploadSession (hook e') = uploadSession (hook e) ->
  Uploading n d e'.
Proof.
  intros [Hs Hl Hch Hh (ps & Hps & Hw & Hc & Hst)] [[Kh Kc _ _] _] Hp Hcalls
    Hsess.
  split.
  - by rewrite Hsess.
  - by rewrite <- (Forall2_length _ _ _ Kh).
  - by rewrite Kc.
  - by eapply up_heap_evolves.
  - exists ps. rewrite Hp, Hcalls. split; [done|]. split; [|done].
    intros k w Hk. eapply worker_fine_evolves; [done|]. by apply Hw.
Qed.

Lemma pass_stage_set_worker (n : nat) (d : bool) (ps : Pass) (k : nat)
    (w w' : Worker) :
  p_workers ps !! k = Some w -> w_promise w' = w_promise w ->
  pass_stage n d ps ->
  pass_stage n d (set_p_workers (<[k := w']> (p_workers ps)) ps).
Proof.
  intros Hk Hp [Hlen Hst]. unfold pass_stage. simpl.
  rewrite length_insert. split; [done|].
  destruct (p_pc ps) as [snap|snap| |]; try done.
  - destruct Hst as (Hn & Hin & Hv & Hd). split; [done|]. split; [|done].
    intros k' w0 Hk' Hpend. destruct (decide (k' = k)) as [->|Hne].
    + rewrite list_lookup_insert_eq in Hk' by (by eapply lookup_lt_Some).
      inversion Hk'; subst. apply (Hin k w Hk). congruence.
    + rewrite list_lookup_insert_ne in Hk' by done. by eapply Hin.
  - destruct Hst as (Hn & Hall). split; [done|].
    intros k' w0 Hk'. destruct (decide (k' = k)) as [->|Hne].
    + rewrite list_lookup_insert_eq in Hk' by (by eapply lookup_lt_Some).
      inversion Hk'; subst. rewrite Hp. by eapply Hall.
    + rewrite list_lookup_insert_ne in Hk' by done. by eapply Hall.
Qed.

(** One worker of the only pass moves on. *)
Lemma Uploading_set_worker (n : nat) (d : bool) (e e1 : Engine) (k : nat)
    (w w' : Worker) :
  Uploading n d e -> Keeps e e1 -> passes e1 = passes e ->
  calls e1 = calls e -> uploadSession (hook e1) = uploadSession (hook e) ->
  get_worker 0 k e = Some w -> worker_fine e1 k w' ->
  w_promise w' = w_promise w ->
  Uploading n d (set_worker 0 k w' e1).
Proof.
  intros Hup Hk Hp Hcalls Hsess Hg Hfine Hprom.
  pose proof (Uploading_Keeps n d e e1 Hup Hk Hp Hcalls Hsess)
    as [Hs Hl Hch Hh (ps & Hps & Hw & Hc & Hst)].
  unfold get_worker in Hg. rewrite <- Hp, Hps in Hg. simpl in Hg.
  unfold set_worker. rewrite Hps. simpl. split; simpl; try done.
  exists (set_p_workers (<[k := w']> (p_workers ps)) ps).
  split; [done|]. simpl. rewrite length_insert. split; [|split; [done|]].
  - intros k' w0 Hk'.
    eapply (worker_fine_evolves e1); [reflexivity|].
    destruct (decide (k' = k)) as [->|Hne].
    + rewrite list_lookup_insert_eq in Hk' by (by eapply lookup_lt_Some).
      by inversion Hk'; subst.
    + rewrite list_lookup_insert_ne in Hk' by done. by apply Hw.
  - by eapply pass_stage_set_worker.
Qed.

#[local] Instance Quiet_refl : Reflexive Quiet.
Proof. by intros e. Qed.

#[local] Instance Quiet_trans : Transitive Quiet.
Proof. intros e1 e2 e3 (? & ? & ? & ?) (? & ? & ? & ?). repeat split; congruence. Qed.

Lemma Quiet_upd_chunk a g e : Quiet e (upd_chunk a g e).
Proof. unfold upd_chunk. by destruct (heap e !! a). Qed.

Lemma Quiet_updateTotalProgress e : Quiet e (updateTotalProgress e).
Proof. unfold updateTotalProgress. by destruct (currentFile (hook e)). Qed.

Lemma Quiet_worker_finally a e : Quiet e (worker_finally a e).
Proof. unfold worker_finally. by destruct (heap e !! a). Qed.

Lemma Quiet_set_worker p k w e : Quiet e (set_worker p k w e).
Proof. unfold set_worker. by destruct (passes e !! p). Qed.

Lemma Uploading_quiet (n : nat) (d : bool) (e e' : Engine) :
  Uploading n d e -> Keeps e e' -> Quiet e e' -> passes e' = passes e ->
  Uploading n d e'.
Proof.
  intros Hup Hk (_ & Hs & _ & Hc) Hp. by eapply Uploading_Keeps.
Qed.

Lemma heap_updateTotalProgress e : heap (updateTotalProgress e) = heap e.
Proof. unfold updateTotalProgress. by destruct (currentFile (hook e)). Qed.

Lemma Uploading_worker (n : nat) (d : bool) (e : Engine) (p k : nat)
    (w : Worker) :
  Uploading n d e -> get_worker p k e = Some w ->
  p = 0%nat /\ worker_fine e k w /\ (k < length (heap e))%nat.
Proof.
  intros [Hs Hl Hch Hh (ps & Hps & Hw & Hc & Hlen & Hst)]. unfold get_worker.
  rewrite Hps. destruct p as [|p]; [|done]. simpl. intros Hk.
  split; [done|]. split; [by apply Hw|].
  apply lookup_lt_Some in Hk. lia.
Qed.

Lemma xhr_progress_quiet p k l t e e' :
  xhr_progress p k l t e = Some e' -> Quiet e e' /\ passes e' = passes e.
Proof.
  unfold xhr_progress. intros H.
  destruct (get_worker p k e) as [w|]; [|done]. simpl in H.
  destruct (heap e !! w_chunk w) as [c|]; [|done]. simpl in H.
  destruct (w_pc w) as [ctrl [tm| |]| | |]; try done.
  destruct (_ && _ && _); [|done].
  destruct (negb (signal_aborted e c)); [|by inversion H].
  destruct (updateNetworkStats _ _ _) as [si ns]. inversion H; subst.
  split.
  - etrans; [|apply Quiet_updateTotalProgress].
    etrans; [apply (Quiet_upd_chunk (w_chunk w))|]. done.
  - by autorewrite with frame.
Qed.


Lemma filter_all {A} (p : A -> bool) (l : list A) :
  (forall x, x ∈ l -> p x = true) -> List.filter p l = l.
Proof.
  induction l as [|x l IH]; intros H; [done|]. simpl.
  rewrite (H x) by apply list_elem_of_here.
  rewrite IH; [done|]. intros y Hy. apply H. by apply list_elem_of_further.
Qed.

Lemma filter_none {A} (p : A -> bool) (l : list A) :
  (forall x, x ∈ l -> p x = false) -> List.filter p l = [].
Proof.
  induction l as [|x l IH]; intros H; [done|]. simpl.
  rewrite (H x) by apply list_elem_of_here.
  apply IH. intros y Hy. apply H. by apply list_elem_of_further.
Qed.

Lemma omap_lookup_seq {A} (l pre : list A) :
  omap (fun a => (pre ++ l) !! a) (seq (length pre) (length l)) = l.
Proof.
  revert pre. induction l as [|x l IH]; intros pre; [done|].
  csimpl. rewrite list_lookup_middle by done. csimpl. f_equal.
  specialize (IH (pre ++ [x])). rewrite length_app in IH. simpl in IH.
  rewrite <- app_assoc in IH. simpl in IH.
  by replace (S (length pre)) with (length pre + 1)%nat by lia.
Qed.

Section Happy.
Context (opts : S3UploadOptions) (f : File).
Hypothesis Hcs : 0 < chunkSize opts.
Hypothesis HF : 0 < size f.
Hypothesis Hr : 1 <= retryTimes opts.
Hypothesis Hmd5 : forall a b, md5_of f a b <> "".

Lemma Uploading_xhr_load (n : nat) (d : bool) p k status text result e e' :
  Uploading n d e ->
  (200 <=? status) && (status <? 300) && chunk_success result = true ->
  xhr_load p k status text (Some result) e = Some e' ->
  Uploading n d e' /\ Quiet e e'.
Proof.
  intros Hup Hok H.
  pose proof (Keeps_step_inner opts e (XhrLoad p k status text (Some result))
                e' H) as HK. simpl in HK.
  unfold xhr_load in H.
  destruct (get_worker p k e) as [w|] eqn:Hg; [|done]. simpl in H.
  destruct (Uploading_worker _ _ _ _ _ _ Hup Hg) as (-> & [Hwc Hfine] & Hlt).
  destruct (w_pc w) as [ctrl [tm| |]| | |] eqn:Hpc; try done.
  apply andb_prop in Hok as [Hst Hsucc]. rewrite Hst, Hsucc in H.
  inversion H; subst e'. clear H.
  set (g := fun c => set_uploadEndTime (Some (clock e))
                       (set_etag (chunk_etag result)
                          (set_progress 100 (set_uploaded true c)))) in *.
  set (e1 := updateTotalProgress (upd_chunk (w_chunk w) g e)) in *.
  assert (Hq : Quiet e e1).
  { subst e1. etrans; [apply (Quiet_upd_chunk (w_chunk w) g)|].
    apply Quiet_updateTotalProgress. }
  assert (Hk1 : Keeps e e1).
  { subst e1. etrans; [|apply Keeps_updateTotalProgress].
    apply Keeps_upd_chunk. intros c. by repeat split. }
  assert (Hp1 : passes e1 = passes e) by (subst e1; by autorewrite with frame).
  split.
  - destruct Hq as (_ & Hs & _ & Hc).
    eapply (Uploading_set_worker n d e e1 k w); try done.
    split; [done|]. simpl. split; [done|].
    destruct (lookup_lt_is_Some_2 (heap e) k Hlt) as [c Hc0].
    exists (g c). subst e1. rewrite heap_updateTotalProgress.
    unfold upd_chunk. rewrite Hwc, Hc0. simpl.
    rewrite list_lookup_insert_eq by done. done.
  - etrans; [exact Hq | apply Quiet_set_worker].
Qed.

Lemma Uploading_upload_settled (n : nat) (d : bool) p k e e' :
  Uploading n d e ->
  with_worker p k (worker_resume opts) e = Some e' ->
  Uploading n d e' /\ Quiet e e'.
Proof.
  intros Hup H. unfold with_worker in H.
  destruct (get_worker p k e) as [w|] eqn:Hg; [|done]. simpl in H.
  destruct (Uploading_worker _ _ _ _ _ _ Hup Hg) as (-> & [Hwc Hfine] & Hlt).
  unfold worker_resume in H.
  destruct (w_pc w) as [ctrl [tm|[]|]| | |] eqn:Hpc; try done.
  simpl in H. unfold worker_exit in H. simpl in H.
  inversion H; subst e'. clear H. destruct Hfine as [Hpend Hat].
  set (e1 := worker_finally (w_chunk w) e) in *.
  assert (Hq : Quiet e e1) by apply Quiet_worker_finally.
  assert (Hk1 : Keeps e e1) by apply Keeps_worker_finally.
  assert (Hp1 : passes e1 = passes e) by (subst e1; by autorewrite with frame).
  split.
  - destruct Hq as (_ & Hs & _ & Hc).
    eapply (Uploading_set_worker n d e e1 k w); try done.
    split; [done|]. simpl. rewrite Hpend. split; [|done].
    eapply uploadedAt_evolves; [|exact Hat]. by destruct Hk1 as [[? _ _ _] _].
  - etrans; [exact Hq | apply Quiet_set_worker].
Qed.

Lemma Uploading_promise_reaction (n : nat) (d : bool) p k e e' :
  Uploading n d e ->
  with_pass p (fun e ps => ps1 ← promise_reaction k e ps; Some (e, ps1)) e
  = Some e' ->
  Uploading n d e' /\ Quiet e e'.
Proof.
  intros [Hs Hl Hch Hh (ps & Hps & Hw & Hc & Hlen & Hst)] H.
  unfold with_pass in H. rewrite Hps in H.
  destruct p as [|p]; [|done]. simpl in H.
  unfold promise_reaction in H.
  destruct (p_workers ps !! k) as [w|] eqn:Hk; [|done]. simpl in H.
  destruct (Hw k w Hk) as [Hwc Hfine].
  destruct (w_promise w) eqn:Hpr; try done.
  destruct (w_pc w) as [ctrl x| | |] eqn:Hpc; try done.
  simpl in H. inversion H; subst e'. clear H. rewrite Hps. simpl.
  split; [|done]. split; simpl; try done.
  eexists. split; [reflexivity|]. simpl. rewrite length_insert.
  split; [|split; [done|]].
  - intros k' w' Hk'. destruct (decide (k' = k)) as [->|Hne].
    + rewrite list_lookup_insert_eq in Hk' by (by eapply lookup_lt_Some).
      inversion Hk'; subst w'. split; [done|]. simpl. rewrite Hpc.
      by destruct Hfine.
    + rewrite list_lookup_insert_ne in Hk' by done. by apply Hw.
  - unfold pass_stage. simpl. rewrite length_insert. split; [done|].
    destruct (p_pc ps) as [snap|snap| |]; try done.
    + destruct Hst as (Hn & Hin & Hv & Hd). split; [done|]. split; [|done].
      intros k' w' Hk' Hpend. destruct (decide (k' = k)) as [->|Hne].
      * rewrite list_lookup_insert_eq in Hk' by (by eapply lookup_lt_Some).
        by inversion Hk'; subst w'.
      * rewrite list_lookup_insert_ne in Hk' by done. by eapply Hin.
    + destruct Hst as (Hn & Hall). split; [done|].
      intros k' w' Hk'. destruct (decide (k' = k)) as [->|Hne].
      * rewrite list_lookup_insert_eq in Hk' by (by eapply lookup_lt_Some).
        by inversion Hk'; subst w'.
      * rewrite list_lookup_insert_ne in Hk' by done. by eapply Hall.
Qed.

Lemma Uploading_all_settled (n : nat) (d : bool) p e e' :
  Uploading n d e ->
  with_pass p (fun e ps => ps1 ← all_settled ps; Some (e, ps1)) e = Some e' ->
  Uploading n d e' /\ Quiet e e'.
Proof.
  intros [Hs Hl Hch Hh (ps & Hps & Hw & Hc & Hlen & Hst)] H.
  unfold with_pass in H. rewrite Hps in H.
  destruct p as [|p]; [|done]. simpl in H.
  unfold all_settled in H.
  destruct (p_pc ps) as [snap|snap| |] eqn:Hpc; try done.
  destruct (forallb (is_settled ps) snap) eqn:Hall; [|done].
  simpl in H. inversion H; subst e'. clear H. rewrite Hps. simpl.
  split; [|done]. split; simpl; try done.
  eexists. split; [reflexivity|]. simpl.
  split; [done|]. split; [done|].
  unfold pass_stage. simpl. split; [done|].
  destruct Hst as (Hn & Hin & Hv & Hd). split; [done|].
  intros k w Hk.
  assert (Hset : w_promise w = Pending -> False).
  { intros Hpend. specialize (Hin k w Hk Hpend).
    rewrite forallb_forall in Hall.
    apply list_elem_of_In, Hall in Hin. unfold is_settled in Hin.
    by rewrite Hk, Hpend in Hin. }
  destruct (Hw k w Hk) as [_ Hfine].
  destruct (w_pc w) as [ctrl [tm|[]|]| | |]; try done;
    destruct (w_promise w); try done; try (by destruct Hset);
    by destruct Hfine.
Qed.

Lemma executing_valid (c : Z) (ps : Pass) :
  PassInv c ps ->
  Forall (fun k => (k < length (p_workers ps))%nat) (p_executing ps).
Proof.
  intros Hi. rewrite (inv_executing _ _ Hi). apply Forall_forall.
  intros k (j & -> & Hj)%pending_from_lookup. apply lookup_lt_Some in Hj.
  rewrite length_map in Hj. simpl. lia.
Qed.

Lemma pending_from_elem (l : list Settled) :
  forall i j, l !! j = Some Pending -> (i + j)%nat ∈ pending_from i l.
Proof.
  induction l as [|s l IH]; intros i j Hj; [done|].
  destruct j as [|j]; simpl in Hj.
  - inversion Hj; subst. simpl. rewrite Nat.add_0_r. apply list_elem_of_here.
  - specialize (IH (S i) j Hj).
    replace (i + S j)%nat with (S i + j)%nat by lia.
    simpl. destruct s; try done. by apply list_elem_of_further.
Qed.

(** The scheduling loop on the chunks that no worker has taken yet. *)
Lemma pass_loop_uploading (n : nat) (e e1 : Engine) (ps ps1 : Pass)
    (pre : list BackendCall) :
  isPaused (hook e) = false -> uploadSession (hook e) <> None ->
  length (heap e) = n ->
  (forall i c, heap e !! i = Some c ->
     index c = i /\ or_null (chunkHash c) <> None) ->
  (forall k w, p_workers ps !! k = Some w -> worker_fine e k w) ->
  calls e = pre ++ map CallChunk (seq 0 (length (p_workers ps))) ->
  (length (p_workers ps) <= n)%nat ->
  (length (p_executing ps) < Z.to_nat (Z.max 1 (concurrent opts)))%nat ->
  pass_loop opts (seq (length (p_workers ps)) (n - length (p_workers ps))) e ps
  = Some (e1, ps1) ->
  p_executing ps = pending_from 0 (map w_promise (p_workers ps)) ->
  Forall worker_ok (p_workers ps) ->
  Keeps e e1 /\ isPaused (hook e1) = false
  /\ uploadSession (hook e1) = uploadSession (hook e)
  /\ callers e1 = callers e /\ passes e1 = passes e
  /\ (forall k w, p_workers ps1 !! k = Some w -> worker_fine e1 k w)
  /\ calls e1 = pre ++ map CallChunk (seq 0 (length (p_workers ps1)))
  /\ pass_stage n false ps1.
Proof.
  intros Hp Hs Hl Hh Hw Hc Hlen Hroom Hloop Hex0 Hok0.
  assert (Hinv : PassInv (concurrent opts) ps1).
  { eapply pass_loop_inv; [exact Hloop | done | lia | done]. }
  set (lw := length (p_workers ps)) in *.
  set (lx := length (p_executing ps)) in *.
  set (limit := Z.to_nat (Z.max 1 (concurrent opts))) in *.
  destruct (pass_loop_effect opts (seq lw (n - lw)) e ps)
    as (e1' & ps1' & new & Hl' & Hws & Hch & Hnew & Hex & Htd & Hpc & Hcl
        & Hk & Hp1 & Hs1 & Hcl1 & Hps1); try done.
  { apply Forall_lookup. intros i c Hi. by destruct (Hh i c Hi). }
  { apply Forall_forall. intros a Ha%elem_of_seq.
    apply lookup_lt_is_Some_2. lia. }
  rewrite Hl' in Hloop. inversion Hloop; subst e1' ps1'. clear Hloop Hl'.
  rewrite length_seq in *. fold lw lx limit in Hch, Hex, Htd, Hpc, Hcl.
  set (kk := Nat.min (n - lw) (limit - lx)) in *.
  assert (Hkk : Nat.min kk (n - lw) = kk) by lia.
  rewrite take_seq, Hkk in Hch, Hcl.
  assert (Hln : length new = kk).
  { rewrite <- (length_map w_chunk), Hch. apply length_seq. }
  assert (Hlw1 : length (p_workers ps1) = (lw + kk)%nat).
  { rewrite Hws, length_app. fold lw. lia. }
  do 5 (split; [done|]). split; [|split].
  - intros k w. rewrite Hws. intros [Hk1|[Hge Hk1]]%lookup_app_Some.
    + eapply worker_fine_evolves; [by destruct Hk as [[? _ _ _] _]|].
      by apply Hw.
    + fold lw in Hge, Hk1.
      pose proof (Forall_lookup_1 _ _ _ _ Hnew Hk1) as (Htr & _ & Hpend).
      assert (Hwc : w_chunk w = k).
      { assert (Hm : map w_chunk new !! (k - lw)%nat = Some (w_chunk w)).
        { change (map w_chunk new) with (w_chunk <$> new).
          by rewrite list_lookup_fmap, Hk1. }
        rewrite Hch in Hm. apply lookup_seq in Hm as [-> _]. lia. }
      split; [done|]. unfold transporting in Htr.
      destruct (w_pc w) as [ctrl [tm| |]| | |]; done.
  - rewrite Hcl, Hc, Hlw1, seq_app, map_app, <- app_assoc. do 2 f_equal.
    apply map_ext_in. intros a Ha%list_elem_of_In%elem_of_seq.
    unfold indexAt.
    destruct (lookup_lt_is_Some_2 (heap e) a ltac:(lia)) as [c Hc0].
    rewrite Hc0. by destruct (Hh a c Hc0) as [-> _].
  - pose proof (executing_valid _ _ Hinv) as Hval. rewrite Hlw1 in Hval.
    unfold pass_stage. rewrite Hlw1. split; [lia|]. rewrite Hpc.
    destruct (Nat.ltb_spec (n - lw) (limit - lx)).
    + split; [lia|]. split; [|done]. intros k w Hk1 Hpend.
      rewrite (inv_executing _ _ Hinv).
      apply (pending_from_elem _ 0%nat k).
      change (map w_promise (p_workers ps1)) with (w_promise <$> p_workers ps1).
      by rewrite list_lookup_fmap, Hk1, <- Hpend.
    + split; [|split; [|done]].
      * rewrite Htd, drop_seq. f_equal; lia.
      * intros Heq. apply (f_equal length) in Heq.
        rewrite Hex, length_app, length_seq in Heq. simpl in Heq. lia.
Qed.

Lemma Uploading_race_settled (n : nat) (d : bool) p k e e' :
  Uploading n d e -> isPaused (hook e) = false ->
  EngineInv (concurrent opts) e ->
  with_pass p (race_settled opts k) e = Some e' ->
  Uploading n d e' /\ Keeps e e' /\ callers e' = callers e
  /\ isPaused (hook e') = false.
Proof.
  intros [Hs Hl Hch Hh (ps & Hps & Hw & Hc & Hlen & Hst)] Hp Hinv H.
  unfold with_pass in H. rewrite Hps in H.
  destruct p as [|p]; [|done]. simpl in H.
  destruct (race_settled opts k e ps) as [[e1 ps1]|] eqn:Hrace; [|done].
  simpl in H. inversion H; subst e'. clear H.
  unfold race_settled in Hrace.
  destruct (p_pc ps) as [snap|snap| |] eqn:Hpc; try done.
  destruct Hst as (Htodo & _ & _ & ->).
  destruct (bool_decide (k ∈ snap)) eqn:Hin; [|done].
  apply bool_decide_eq_true in Hin.
  destruct (p_workers ps !! k) as [w|] eqn:Hk; [|done]. simpl in Hrace.
  destruct (Hw k w Hk) as [_ Hfine].
  destruct (w_promise w) eqn:Hpr; try done.
  2: { destruct (w_pc w) as [ctrl [tm|[]|]| | |]; try done;
       by destruct Hfine. }
  rewrite Htodo in Hrace.
  unfold EngineInv in Hinv. rewrite Hps in Hinv.
  apply Forall_cons in Hinv as [Hpi _].
  assert (Hroom : (length (p_executing ps)
                   < Z.to_nat (Z.max 1 (concurrent opts)))%nat).
  { pose proof (inv_race _ _ Hpi) as Hr'. rewrite Hpc in Hr'.
    destruct Hr' as [Hsub Hbound].
    assert (Hnot : k ∉ p_executing ps).
    { rewrite (inv_executing _ _ Hpi).
      intros (j & -> & Hj)%pending_from_lookup. simpl in Hk.
      change (map w_promise (p_workers ps)) with (w_promise <$> p_workers ps) in Hj.
      rewrite list_lookup_fmap, Hk in Hj. simpl in Hj. congruence. }
    pose proof (sublist_missing_length _ _ _ Hsub Hin Hnot). lia. }
  rewrite app_nil_r in Hc.
  destruct (pass_loop_uploading n e e1 ps ps1 [CallCheck; CallInitialize])
    as (HK & Hp1 & Hs1 & Hcl1 & Hps1 & Hw1 & Hc1 & Hst1); try done.
  { apply (inv_executing _ _ Hpi). }
  { apply (inv_workers _ _ Hpi). }
  rewrite Hps1, Hps. simpl. split; [|split; [|done]].
  2: { etrans; [exact HK|]. by apply Keeps_quiet. }
  split; simpl.
  - by rewrite Hs1.
  - destruct HK as [[Hheap _ _ _] _]. by rewrite <- (Forall2_length _ _ _ Hheap).
  - destruct HK as [[_ Kc _ _] _]. by rewrite Kc.
  - eapply up_heap_evolves; [|exact Hh]. by destruct HK as [[? _ _ _] _].
  - exists ps1. split; [done|]. split; [done|]. split; [|done].
    by rewrite app_nil_r.
Qed.


Lemma createChunks_fresh (i : nat) (c : S3ChunkInfo) :
  createChunks opts f !! i = Some c ->
  index c = i /\ uploaded c = false /\ or_null (chunkHash c) <> None.
Proof.
  unfold createChunks. change (map ?g ?l) with (g <$> l).
  rewrite list_lookup_fmap. intros H.
  destruct (seq 0 _ !! i) as [j|] eqn:Hj; [|done].
  apply lookup_seq in Hj as [-> _]. simpl in H. inversion H; subst c. simpl.
  split; [done|]. split; [done|]. unfold calculateChunkHash.
  destruct (String.eqb_spec (md5_of f (blob_from (slice f (Z.of_nat i * chunkSize opts)
     (Z.min (Z.of_nat i * chunkSize opts + chunkSize opts) (size f))))
     (blob_to (slice f (Z.of_nat i * chunkSize opts)
     (Z.min (Z.of_nat i * chunkSize opts + chunkSize opts) (size f))))) "")
    as [Heq|Hne]; [|done].
  by apply Hmd5 in Heq.
Qed.

Lemma createChunks_length : length (createChunks opts f) = chunkCount opts f.
Proof. unfold createChunks. by rewrite length_map, length_seq. Qed.

Lemma chunkCount_pos : (0 < chunkCount opts f)%nat.
Proof.
  unfold chunkCount.
  pose proof (Math_ceil_div_pos (size f) (chunkSize opts) Hcs HF). lia.
Qed.

(** The state in which [startUpload] calls [uploadChunksConcurrently]. *)
Lemma fresh_plan (e : Engine) :
  Blank e -> currentFile (hook e) = Some f ->
  let e1 := updateTotalProgress (store_chunks (createChunks opts f) e) in
  heap e1 = createChunks opts f
  /\ chunks (hook e1) = seq 0 (chunkCount opts f)
  /\ uploadedChunks e1 = []
  /\ pendingChunks e1 = seq 0 (chunkCount opts f)
  /\ passes e1 = [] /\ callers e1 = callers e /\ calls e1 = calls e
  /\ isPaused (hook e1) = isPaused (hook e)
  /\ uploadSession (hook e1) = uploadSession (hook e)
  /\ jobs e1 = jobs e /\ currentFile (hook e1) = Some f.
Proof.
  intros (Hh & Hp & Hc & Hx) Hf e1.
  assert (H1 : heap e1 = createChunks opts f).
  { subst e1. rewrite heap_updateTotalProgress. simpl. by rewrite Hh. }
  assert (H2 : chunks (hook e1) = seq 0 (chunkCount opts f)).
  { subst e1. unfold updateTotalProgress. simpl. rewrite Hf. simpl.
    by rewrite Hh, createChunks_length. }
  assert (H3 : executingChunks (hook e1) = ∅).
  { subst e1. unfold updateTotalProgress. simpl. rewrite Hf. simpl. done. }
  assert (H4 : chunkObjects e1 = createChunks opts f).
  { unfold chunkObjects. rewrite H1, H2, <- createChunks_length.
    apply (omap_lookup_seq (createChunks opts f) []). }
  assert (Hlook : forall a, a ∈ seq 0 (chunkCount opts f) ->
            exists c, createChunks opts f !! a = Some c).
  { intros a Ha%elem_of_seq. apply lookup_lt_is_Some_2.
    rewrite createChunks_length. lia. }
  assert (H5 : remainingChunks e1 = seq 0 (chunkCount opts f)).
  { unfold remainingChunks. rewrite H1, H2. apply filter_all.
    intros a [c Ha]%Hlook. rewrite Ha.
    by destruct (createChunks_fresh a c Ha) as (_ & -> & _). }
  split; [done|]. split; [done|]. split; [|split].
  - unfold uploadedChunks. rewrite H4. apply filter_none.
    intros c [i Hi]%list_elem_of_lookup_1.
    by destruct (createChunks_fresh i c Hi) as (_ & -> & _).
  - unfold pendingChunks. rewrite H5, H1, H3. apply filter_all.
    intros a [c Ha]%Hlook. rewrite Ha. done.
  - subst e1. unfold updateTotalProgress. simpl. rewrite Hf. simpl.
    by repeat split.
Qed.

Lemma Happy_frame (e e' : Engine) :
  Happy opts f e -> Keeps e e' -> callers e' = callers e ->
  isPaused (hook e') = isPaused (hook e) ->
  (passes e = [] ->
   passes e' = [] /\ executingChunks (hook e') = executingChunks (hook e)
   /\ calls e' = calls e
   /\ uploadSession (hook e') = uploadSession (hook e)) ->
  (forall d, Uploading (chunkCount opts f) d e ->
             Uploading (chunkCount opts f) d e') ->
  Happy opts f e'.
Proof.
  intros (Hp & Hf & Hj & Hcl) [[Kh Kc Kf Kj] _] Hcallers Hpause Hblank Hup.
  unfold Happy. rewrite Hcallers, Hpause, Kf, Kj.
  do 3 (split; [done|]).
  destruct (callers e) as [|cl [|? ?]]; try done.
  destruct Hcl as [Hkind Hph]. split; [done|].
  assert (HB : Blank e -> Blank e'
            /\ calls e' = calls e
            /\ uploadSession (hook e') = uploadSession (hook e)).
  { intros (Hh & Hps & Hc & Hx).
    destruct (Hblank Hps) as (Hps' & Hx' & Hc' & Hs').
    split; [|done]. unfold Blank. rewrite Hps', Hx', Kc, Hc, Hx.
    rewrite Hh in Kh. by inversion Kh. }
  destruct (c_pc cl); try done; try (by apply Hup).
  - destruct Hph as (HBl & Hs & Hc).
    destruct (HB HBl) as (? & -> & ->). done.
  - destruct Hph as (HBl & Hc).
    destruct (HB HBl) as (? & -> & _). done.
  - destruct Hph as (HBl & Hs & Hc).
    destruct (HB HBl) as (? & -> & ->). done.
  - destruct Hph as [-> Hph]. split; [done | by apply Hup].
Qed.

Lemma Happy_worker (e : Engine) (p k : nat) (w : Worker) :
  Happy opts f e -> get_worker p k e = Some w ->
  passes e <> [] /\ worker_fine e k w.
Proof.
  intros (Hp & Hf & Hj & Hcl) Hg.
  split.
  { intros Hps. unfold get_worker in Hg. rewrite Hps in Hg. by destruct p. }
  destruct (callers e) as [|cl [|? ?]]; try done.
  destruct Hcl as [Hkind Hph].
  assert (HB : Blank e -> worker_fine e k w).
  { intros (_ & Hps & _). unfold get_worker in Hg. rewrite Hps in Hg.
    by destruct p. }
  destruct (c_pc cl); try done;
    try (by apply HB, Hph);
    try (by eapply (Uploading_worker _ _ _ p); [apply Hph | done]).
Qed.

Lemma Happy_uploading (e : Engine) :
  Happy opts f e -> passes e <> [] ->
  exists d, Uploading (chunkCount opts f) d e.
Proof.
  intros (Hp & Hf & Hj & Hcl) Hne.
  destruct (callers e) as [|cl [|? ?]]; try done.
  destruct Hcl as [Hkind Hph].
  destruct (c_pc cl); try done; try (by destruct Hph as [(_ & ? & _) _]);
    try (by exists true).
  exists false. by destruct Hph.
Qed.

Lemma Happy_inner (e e' : Engine) :
  Happy opts f e -> passes e <> [] -> Keeps e e' ->
  (forall d, Uploading (chunkCount opts f) d e ->
     Uploading (chunkCount opts f) d e' /\ callers e' = callers e
     /\ isPaused (hook e') = isPaused (hook e)) ->
  Happy opts f e'.
Proof.
  intros HH Hne HK Hstep.
  destruct (Happy_uploading e HH Hne) as [d Hup].
  destruct (Hstep d Hup) as (_ & Hc & Hp).
  apply (Happy_frame e); try done. intros d' Hup'. by apply Hstep.
Qed.

Lemma with_worker_passes (p k : nat) g (e e' : Engine) :
  with_worker p k g e = Some e' -> passes e <> [].
Proof.
  unfold with_worker, get_worker. intros H Hps. rewrite Hps in H.
  by destruct p.
Qed.

Lemma with_pass_passes (p : nat) g (e e' : Engine) :
  with_pass p g e = Some e' -> passes e <> [].
Proof.
  unfold with_pass. intros H Hps. rewrite Hps in H. by destruct p.
Qed.

Lemma Happy_step (e e' : Engine) (ev : Event) :
  Happy opts f e -> EngineInv (concurrent opts) e -> undisturbed ev = true ->
  step opts e ev = Some e' -> Happy opts f e'.
Proof.
  intros HH Hinv Hund H.
  pose proof (Keeps_step_inner opts e ev e' H) as HK.
  destruct ev; try done; simpl in H, HK.
  - (* Tick *)
    destruct (0 <=? dt); [|done]. inversion H; subst e'.
    apply (Happy_frame e); try done.
    intros d Hup. by apply (Uploading_quiet _ _ e).
  - (* CheckResponse *)
    destruct r as [err|r]; [done|]. simpl in Hund.
    apply andb_prop in Hund as [Hnot Hsess].
    apply negb_true_iff in Hnot.
    destruct (session r) eqn:Es; [done|].
    destruct HH as (Hp & Hf & Hj & Hcl). unfold check_response in H.
    destruct (callers e) as [|cl [|? ?]] eqn:Ecl; try done.
    destruct c as [|c]; [|done]. simpl in H. rewrite Hf in H. simpl in H.
    destruct Hcl as [Hkind Hph].
    destruct (c_pc cl) eqn:Epc; try done.
    destruct Hph as (HBl & Hs & Hc).
    rewrite Hnot, Es in H. simpl in H. rewrite Hs in H.
    inversion H; subst e'. clear H.
    destruct HBl as (? & ? & ? & ?).
    unfold Happy, Blank, set_caller_pc. simpl. rewrite ?Ecl. simpl.
    rewrite Hc. by repeat split.
  - (* InitializeResponse *)
    destruct r as [err|res]; [done|]. simpl in Hund.
    apply andb_prop in Hund as [Hok Hsess].
    destruct (init_session res) as [s|] eqn:Es; [|done].
    destruct HH as (Hp & Hf & Hj & Hcl). unfold initialize_response in H.
    destruct (callers e) as [|cl [|? ?]] eqn:Ecl; try done.
    destruct c as [|c]; [|done]. simpl in H.
    destruct Hcl as [Hkind Hph].
    destruct (c_pc cl) eqn:Epc; try done.
    destruct Hph as (HBl & Hc).
    rewrite Hok in H. inversion H; subst e'. clear H.
    destruct HBl as (? & ? & ? & ?).
    unfold Happy, Blank, set_caller_pc. simpl. rewrite ?Ecl. simpl.
    rewrite Es. by repeat split.
  - (* ChunksHashed *)
    destruct ok; [|done].
    destruct HH as (Hp & Hf & Hj & Hcl). unfold chunks_hashed in H.
    destruct (callers e) as [|cl [|? ?]] eqn:Ecl; try done.
    destruct c as [|c]; [|done]. simpl in H. rewrite Hf in H. simpl in H.
    destruct Hcl as [Hkind Hph].
    destruct (c_pc cl) eqn:Epc; try done.
    destruct Hph as (HBl & Hs & Hc).
    unfold start_transfer in H.
    destruct (fresh_plan e HBl Hf)
      as (H1 & H2 & H3 & H4 & H5 & H6 & H7 & H8 & H9 & H10 & H11).
    set (e1 := updateTotalProgress (store_chunks (createChunks opts f) e)) in *.
    unfold totalChunksOf in H. rewrite H3, H2, length_seq in H.
    pose proof chunkCount_pos as Hpos.
    destruct (Nat.eqb_spec (length (@nil S3ChunkInfo)) (chunkCount opts f))
      as [Hz|_]; [simpl in Hz; lia|].
    unfold start_pass, uploadChunksConcurrently in H. rewrite H4 in H.
    match type of H with
    | context [pass_loop ?o ?t ?s ?p] =>
        destruct (pass_loop o t s p) as [[e2 ps]|] eqn:Hloop
    end; [|done].
    simpl in H. inversion H; subst e'. clear H.
    destruct (pass_loop_uploading (chunkCount opts f) e1 e2
                {| p_todo := []; p_executing := []; p_workers := [];
                   p_pc := AwaitAllSettled [] |} ps
                [CallCheck; CallInitialize])
      as (HK2 & Hp2 & Hs2 & Hcl2 & Hps2 & Hw2 & Hc2 & Hst2); simpl; try done.
    { congruence. }
    { congruence. }
    { by rewrite H1, createChunks_length. }
    { intros i c. rewrite H1. intros Hi.
      by destruct (createChunks_fresh i c Hi) as (? & _ & ?). }
    { by rewrite H7, Hc. }
    { lia. }
    { lia. }
    { by rewrite Nat.sub_0_r. }
    destruct HK2 as [[Kh Kc Kf Kj] _].
    unfold Happy, set_caller_pc. simpl. rewrite Hcl2, H6, ?Ecl. simpl.
    rewrite Kf, Kj, H10, H11, Hps2, H5. simpl.
    do 5 (split; [done|]). split; simpl.
    + congruence.
    + by rewrite <- (Forall2_length _ _ _ Kh), H1, createChunks_length.
    + by rewrite Kc.
    + eapply up_heap_evolves; [exact Kh|].
      intros i c. rewrite H1. intros Hi.
      by destruct (createChunks_fresh i c Hi) as (? & _ & ?).
    + exists ps. split; [done|]. split; [done|]. split; [|done].
      by rewrite app_nil_r.
  - (* Reconciled *)
    destruct HH as (_ & _ & Hj & _). unfold reconciled in H.
    by rewrite Hj in H.
  - (* CompleteResponse *)
    destruct r as [err|res]; [done|]. simpl in Hund.
    destruct HH as (Hp & Hf & Hj & Hcl). unfold complete_response in H.
    destruct (callers e) as [|cl [|? ?]] eqn:Ecl; try done.
    destruct c as [|c]; [|done]. simpl in H.
    destruct Hcl as [Hkind Hph].
    destruct (c_pc cl) eqn:Epc; try done.
    destruct HK as [[Kh Kc Kf Kj] Kp].
    rewrite Hund in H. inversion H; subst e'; clear H.
    unfold Happy, set_caller_pc in *. simpl in *. rewrite ?Ecl in *.
    simpl in *. do 4 (split; [done|]).
    by eapply (Uploading_Keeps _ _ e).
  - (* PassSettled *)
    destruct HH as (Hp & Hf & Hj & Hcl). unfold pass_settled in H.
    destruct (callers e) as [|cl [|? ?]] eqn:Ecl; try done.
    destruct c as [|c]; [|done]. simpl in H.
    destruct Hcl as [Hkind Hph].
    destruct (c_pc cl) eqn:Epc; try done.
    destruct Hph as [-> [Hs Hl Hch Hh (ps & Hps & Hw & Hc & Hlen & Hst)]].
    rewrite Hps in H. simpl in H. rewrite Hkind in H.
    destruct (p_pc ps) eqn:Hpc; try done.
    inversion H; subst e'. clear H. unfold completeUpload.
    destruct (uploadSession (hook e)) eqn:Es; [|done]. rewrite Hp.
    unfold Happy, set_caller_pc. simpl. rewrite ?Ecl. simpl.
    do 4 (split; [done|]). split; simpl; try done.
    + by rewrite Es.
    + exists ps. split; [done|]. split; [done|]. split.
      * rewrite Hc, app_nil_r. by rewrite <- app_assoc.
      * unfold pass_stage. by rewrite Hpc.
  - (* XhrProgress *)
    destruct (xhr_progress_quiet _ _ _ _ _ _ H) as [(Hq1 & Hq2 & Hq3 & Hq4) Hps].
    apply (Happy_inner e); try done.
    + unfold xhr_progress, get_worker in H. intros Hnil. rewrite Hnil in H.
      by destruct p.
    + intros d Hup. split; [|done]. by apply (Uploading_quiet _ _ e).
  - (* XhrLoad *)
    destruct body as [result|]; [|done]. simpl in Hund.
    apply (Happy_inner e); try done.
    + unfold xhr_load, get_worker in H. intros Hnil. rewrite Hnil in H.
      by destruct p.
    + intros d Hup.
      destruct (Uploading_xhr_load _ _ _ _ _ _ _ _ _ Hup Hund H)
        as (? & ? & _ & ? & _). done.
  - (* UploadSettled *)
    apply (Happy_inner e); try done.
    + by eapply with_worker_passes.
    + intros d Hup.
      destruct (Uploading_upload_settled _ _ _ _ _ _ Hup H)
        as (? & ? & _ & ? & _). done.
  - (* DelayElapsed *)
    unfold with_worker in H.
    destruct (get_worker p k e) as [w|] eqn:Hg; [|done]. simpl in H.
    destruct (Happy_worker _ _ _ _ HH Hg) as [_ [_ Hfine]].
    unfold worker_after_delay in H.
    by destruct (w_pc w) as [ctrl [tm|[]|]| | |].
  - (* PromiseReaction *)
    apply (Happy_inner e); try done.
    + by eapply with_pass_passes.
    + intros d Hup.
      destruct (Uploading_promise_reaction _ _ _ _ _ _ Hup H)
        as (? & ? & _ & ? & _). done.
  - (* RaceSettled *)
    apply (Happy_inner e); try done.
    + by eapply with_pass_passes.
    + intros d Hup. destruct HH as (Hp & _).
      destruct (Uploading_race_settled _ _ _ _ _ _ Hup Hp Hinv H)
        as (? & _ & ? & ?). split; [done|]. split; [done | congruence].
  - (* AllSettled *)
    apply (Happy_inner e); try done.
    + by eapply with_pass_passes.
    + intros d Hup.
      destruct (Uploading_all_settled _ _ _ _ _ Hup H)
        as (? & ? & _ & ? & _). done.
Qed.

Lemma Happy_run (evs : list Event) : forall e e',
  Happy opts f e -> EngineInv (concurrent opts) e ->
  forallb undisturbed evs = true -> run opts e evs = Some e' ->
  Happy opts f e'.
Proof.
  induction evs as [|ev evs IH]; intros e e' HH Hinv Hund H; simpl in H.
  - by inversion H; subst.
  - simpl in Hund. apply andb_prop in Hund as [Hev Hevs].
    destruct (step opts e ev) as [e1|] eqn:Hstep; [|done]. simpl in H.
    eapply (IH e1); try done.
    + by eapply Happy_step.
    + by eapply step_inv.
Qed.

Lemma Happy_start (hash : string) :
  hash <> "" -> Happy opts f (startUpload (boot f hash)).
Proof.
  intros Hh. unfold startUpload. simpl.
  destruct (String.eqb_spec hash "") as [|_]; [done|].
  unfold Happy, Blank. simpl. by repeat split.
Qed.

End Happy.

Lemma map_by_index {A B} (g : A -> B) (h : nat -> B) (l : list A) :
  forall k, (forall i c, l !! i = Some c -> g c = h (k + i)%nat) ->
            map g l = map h (seq k (length l)).
Proof.
  induction l as [|x l IH]; intros k H; [done|]. simpl. f_equal.
  - rewrite (H 0%nat x) by done. f_equal. lia.
  - apply IH. intros i c Hi. rewrite (H (S i) c) by done. f_equal. lia.
Qed.

(** Once the pass has returned, every chunk object is uploaded and
    [chunks.value] lists them all. *)
Lemma Uploading_done (n : nat) (e : Engine) :
  Uploading n true e ->
  chunkObjects e = heap e /\ Forall (fun c => uploaded c = true) (heap e).
Proof.
  intros [Hs Hl Hch Hh (ps & Hps & Hw & Hc & Hlen & Hst)]. split.
  - unfold chunkObjects. rewrite Hch, <- Hl.
    apply (omap_lookup_seq (heap e) []).
  - destruct (p_pc ps) as [snap|snap| |]; try done;
      try (by destruct Hst as (_ & _ & _ & ?)).
    destruct Hst as [Hn Hall]. apply Forall_lookup. intros i c Hi.
    assert (Hlt : (i < length (p_workers ps))%nat).
    { apply lookup_lt_Some in Hi. lia. }
    destruct (lookup_lt_is_Some_2 _ _ Hlt) as [w Hk].
    destruct (Hw i w Hk) as [_ Hfine]. specialize (Hall i w Hk).
    rewrite Hall in Hfine.
    destruct (w_pc w) as [ctrl [tm|[]|]| | |]; try done;
      try (by destruct Hfine).
    destruct Hfine as [(c' & Hc' & Hu) _]. congruence.
Qed.

Lemma Uploading_size (opts : S3UploadOptions) (f : File) (e : Engine) :
  0 < chunkSize opts -> 0 < size f ->
  Uploading (chunkCount opts f) true e -> Shape opts f e ->
  uploadedSize e = size f.
Proof.
  intros Hcs HF Hup Hsh.
  destruct (Uploading_done _ _ Hup) as [Hobj Hall].
  destruct Hup as [Hs Hl Hch Hh _]. destruct Hsh as [_ _ Hplan _].
  assert (HF' : 0 <= size f) by lia.
  unfold uploadedSize, uploadedChunks. rewrite Hobj.
  rewrite filter_all.
  2: { intros c Hc. by apply (proj1 (Forall_forall _ _) Hall). }
  rewrite (map_by_index _ (span (chunkSize opts) (size f)) (heap e) 0%nat).
  - rewrite Hl.
    pose proof (chunkCount_bounds opts f Hcs HF') as [Hb1 Hb2].
    rewrite span_sum by done. lia.
  - intros i c Hi. destruct (Hh i c Hi) as [Hidx _].
    pose proof (Forall_lookup_1 _ _ _ _ Hplan Hi) as Hp.
    destruct (planned_span opts f Hcs HF' c Hp) as [-> _].
    by rewrite Hidx.
Qed.

(** X8.  An upload that nothing disturbs (no second [startUpload], no pause
    or resume, no failing answer or request, no timeout) sends the requests
    check, initialize, chunk 0, chunk 1, ... and complete, in this order
    and none of them twice; [startUpload] does not throw; and once it is
    at the completion request or has returned, every chunk object is marked
    uploaded, [uploadedSize] is the size of the file and [uploadProgress]
    reads the whole file at 100 percent. *)
Theorem undisturbed_upload_sends_each_chunk_once (opts : S3UploadOptions)
    (f : File) (hash : string) (evs : list Event) (e : Engine) :
  0 < chunkSize opts -> 0 < size f -> 1 <= retryTimes opts -> hash <> "" ->
  (forall a b, md5_of f a b <> "") ->
  forallb undisturbed evs = true ->
  run opts (boot f hash) (StartUpload :: evs) = Some e ->
  (exists rest, calls e ++ rest = wholeUpload (chunkCount opts f))
  /\ (forall err, callerState e 0 <> Some (Thrown err))
  /\ (callerState e 0 = Some AwaitComplete
      \/ (exists r, callerState e 0 = Some (Returned r)) ->
      calls e = wholeUpload (chunkCount opts f)
      /\ length (chunkObjects e) = chunkCount opts f
      /\ Forall (fun c => uploaded c = true) (chunkObjects e)
      /\ uploadedSize e = size f
      /\ uploadProgress (hook e)
         = {| loaded := size f; total := size f; percentage := 100 |}).
Proof.
  intros Hcs HF Hr Hhash Hmd5 Hund Hrun.
  assert (Hsy : Synced f e).
  { eapply Synced_run; [|exact Hrun]. apply Synced_boot. }
  assert (Ht : Tidy opts f e).
  { assert (HF' : 0 <= size f) by lia.
    eapply (Tidy_run opts f Hcs HF'); [|exact Hrun]. by apply Tidy_boot. }
  destruct Ht as [Hsh _].
  change (run opts (startUpload (boot f hash)) evs = Some e) in Hrun.
  assert (HH : Happy opts f e).
  { eapply (Happy_run opts f Hcs HF Hr Hmd5 evs); [| |exact Hund|exact Hrun].
    - by apply Happy_start.
    - eapply (step_inv opts (boot f hash) _ StartUpload); [|done].
      unfold EngineInv. simpl. constructor. }
  destruct HH as (Hp & Hf & Hj & Hcl). unfold callerState.
  destruct (callers e) as [|cl [|? ?]]; try done. simpl.
  destruct Hcl as [Hkind Hph].
  assert (Hdone : Uploading (chunkCount opts f) true e ->
            (exists rest, calls e ++ rest = wholeUpload (chunkCount opts f))
            /\ (calls e = wholeUpload (chunkCount opts f)
                /\ length (chunkObjects e) = chunkCount opts f
                /\ Forall (fun c => uploaded c = true) (chunkObjects e)
                /\ uploadedSize e = size f
                /\ uploadProgress (hook e)
                   = {| loaded := size f; total := size f;
                        percentage := 100 |})).
  { intros Hup. pose proof (Uploading_size opts f e Hcs HF Hup Hsh) as Hsz.
    destruct (Uploading_done _ _ Hup) as [Hobj Hall].
    destruct Hup as [Hs Hl Hch Hh (ps & Hps & Hw & Hc & Hlen & Hst)].
    assert (Hn : length (p_workers ps) = chunkCount opts f).
    { destruct (p_pc ps); try done; try (by destruct Hst as (? & ?));
        by destruct Hst as (_ & _ & _ & ?). }
    rewrite Hn in Hc. split; [exists []; by rewrite app_nil_r|].
    rewrite Hobj. do 4 (split; [done|]). by apply Synced_full. }
  destruct (c_pc cl) eqn:Epc; try done.
  - destruct Hph as (_ & _ & Hc). split; [|split].
    + eexists. rewrite Hc. reflexivity.
    + done.
    + by intros [|[r ?]].
  - destruct Hph as (_ & Hc). split; [|split].
    + eexists. rewrite Hc. reflexivity.
    + done.
    + by intros [|[r ?]].
  - destruct Hph as (_ & _ & Hc). split; [|split].
    + eexists. rewrite Hc. reflexivity.
    + done.
    + by intros [|[r ?]].
  - destruct Hph as [_ [Hs Hl Hch Hh (ps & Hps & Hw & Hc & Hlen & Hst)]].
    split; [|split].
    + exists (map CallChunk (seq (length (p_workers ps))
                               (chunkCount opts f - length (p_workers ps)))
              ++ [CallComplete]).
      rewrite Hc. unfold wholeUpload. rewrite app_nil_r, <- !app_assoc.
      f_equal. rewrite app_assoc, <- map_app. do 2 f_equal.
      replace (chunkCount opts f)
        with (length (p_workers ps)
              + (chunkCount opts f - length (p_workers ps)))%nat at 2 by lia.
      by rewrite seq_app.
    + done.
    + by intros [|[r ?]].
  - destruct (Hdone Hph) as [H1 H2]. split; [done|]. split; [done|]. done.
  - destruct (Hdone Hph) as [H1 H2]. split; [done|]. split; [done|]. done.
Qed.

Lemma undisturbed_upload_sends_each_chunk_once_witness :
  exists e,
    run defaultOptions (boot file23 "abc") (StartUpload :: whole_upload)
    = Some e
    /\ calls e = wholeUpload 5
    /\ uploadedSize e = 23 * MiB
    /\ percentage (uploadProgress (hook e)) = 100.
Proof.
  assert (Hc : 0 < chunkSize defaultOptions) by reflexivity.
  assert (HF : 0 < size file23) by reflexivity.
  assert (Hr : 1 <= retryTimes defaultOptions) by (vm_compute; discriminate).
  assert (Hh : "abc" <> "") by discriminate.
  assert (Hm : forall a b, md5_of file23 a b <> "") by (intros a b; discriminate).
  assert (Hu : forallb undisturbed whole_upload = true) by reflexivity.
  destruct (run defaultOptions (boot file23 "abc") (StartUpload :: whole_upload))
    as [e|] eqn:E; [|exfalso; revert E; vm_compute; discriminate].
  exists e. split; [reflexivity|].
  assert (G : option_map (fun e => callerState e 0)
                (run defaultOptions (boot file23 "abc")
                   (StartUpload :: whole_upload))
              = Some (Some (Returned (Some "https://cdn.example/video.mp4"))))
    by (vm_compute; reflexivity).
  rewrite E in G. simpl in G. inversion G as [G'].
  destruct (undisturbed_upload_sends_each_chunk_once defaultOptions file23
              "abc" whole_upload e Hc HF Hr Hh Hm Hu E) as (_ & _ & Hdone).
  destruct Hdone as (H1 & _ & _ & H4 & H5).
  - right. eexists. exact G'.
  - split; [exact H1|]. split; [exact H4|]. rewrite H5. reflexivity.
Defined.

(** * The file fingerprint *)

Section CalculateFileHash.
Import Hashing.
Context (spark_end : list Blob -> string) (hashChunkSize : Z) (file : File).
Hypothesis Hh : 0 < hashChunkSize.
Hypothesis HF : 0 <= size file.

Lemma reads_bounds :
  (Z.of_nat (reads hashChunkSize file) - 1) * hashChunkSize < size file
  /\ size file <= Z.of_nat (reads hashChunkSize file) * hashChunkSize
  /\ Math_ceil_div (size file) hashChunkSize
     = Z.of_nat (reads hashChunkSize file).
Proof.
  unfold reads.
  pose proof (Math_ceil_div_bounds (size file) hashChunkSize Hh) as Hb.
  destruct (Z.le_gt_cases 0 (Math_ceil_div (size file) hashChunkSize)).
  - rewrite Z2Nat.id by done. lia.
  - nia.
Qed.

Lemma buffer_range (i : nat) :
  (i < reads hashChunkSize file)%nat ->
  blob_from (buffer hashChunkSize file i) = Z.of_nat i * hashChunkSize
  /\ blob_to (buffer hashChunkSize file i)
     = Z.min (Z.of_nat i * hashChunkSize + hashChunkSize) (size file).
Proof.
  intros Hi. pose proof reads_bounds as (Hb & _ & _).
  assert (Z.of_nat i * hashChunkSize < size file) by nia.
  unfold buffer, slice. simpl. split; lia.
Qed.

Lemma Tiled_processNextChunk (i : nat) (j : Job) :
  Tiled spark_end hashChunkSize file i j ->
  waiting j <> Reading (buffer hashChunkSize file i) ->
  promise j = HPending ->
  Tiled spark_end hashChunkSize file i
    (processNextChunk spark_end hashChunkSize file j).
Proof.
  intros (Hi & Hle & Hs & Hp & Hg & Hw) Hnr Hpend.
  pose proof reads_bounds as (_ & Hub & Hn).
  unfold processNextChunk. rewrite Hn, Hi.
  destruct (Z.leb_spec (Z.of_nat (reads hashChunkSize file)) (Z.of_nat i)).
  - assert (i = reads hashChunkSize file) as Hin by lia.
    unfold Tiled, settle. simpl. rewrite Hpend.
    do 5 (split; [done|]). split; [done|]. split; [|done].
    by rewrite Hs, Hin.
  - unfold Tiled. simpl. rewrite Hpend. do 5 (split; [done|]).
    split; [done|]. split; [lia|].
    rewrite Hpend in Hw.
    destruct (waiting j); [by destruct Hw as (_ & _ & ?) | done | done].
Qed.

Lemma Tiled_start :
  Tiled spark_end hashChunkSize file 0
    (calculateFileHash spark_end hashChunkSize file).
Proof.
  unfold calculateFileHash. apply Tiled_processNextChunk; try done.
  unfold Tiled. simpl. repeat split; try done; lia.
Qed.

Lemma Tiled_step (ev : ReaderEvent) (i : nat) (j j' : Job) :
  Tiled spark_end hashChunkSize file i j ->
  on_event spark_end hashChunkSize file ev j = Some j' ->
  Tiled spark_end hashChunkSize file i j'
  \/ Tiled spark_end hashChunkSize file (S i) j'.
Proof.
  intros HT H. pose proof HT as (Hi & Hle & Hs & Hp & Hg & Hw).
  unfold on_event in H.
  destruct ev as [[]| |], (waiting j) as [b| |] eqn:Ew; try done;
    inversion H; subst j'; clear H.
  - (* load *)
    right. destruct (promise j) eqn:Epr; try done.
    destruct Hw as (-> & Hlt & Hc).
    destruct (buffer_range i Hlt) as [Hfrom Hto].
    pose proof reads_bounds as (Hb & _ & _).
    assert (Hnew : processedBytes j + blob_size (buffer hashChunkSize file i)
                   = Z.min (Z.of_nat (S i) * hashChunkSize) (size file)).
    { unfold blob_size. rewrite Hfrom, Hto, Hp. nia. }
    unfold Tiled. simpl. rewrite Hg, Hnew, Hi. simpl.
    split; [lia|]. split; [lia|]. split; [|done].
    change (buffer hashChunkSize file 0
            :: map (buffer hashChunkSize file) (seq 1 i))
      with (map (buffer hashChunkSize file) (seq 0 (S i))).
    by rewrite seq_S, map_app, Hs.
  - (* load without a result *)
    left. unfold Tiled. simpl. do 5 (split; [done|]).
    destruct (promise j); try done. by destruct Hw as (_ & _ & ?).
  - (* error *)
    left. unfold Tiled, settle. simpl. do 5 (split; [done|]).
    by destruct (promise j).
  - (* timer *)
    left. destruct (promise j) eqn:Epr; try done.
    apply Tiled_processNextChunk; try done. by rewrite Ew.
Qed.

Lemma Tiled_run (evs : list ReaderEvent) : forall i j j',
  Tiled spark_end hashChunkSize file i j ->
  run spark_end hashChunkSize file evs j = Some j' ->
  exists i', Tiled spark_end hashChunkSize file i' j'.
Proof.
  induction evs as [|ev evs IH]; intros i j j' HT H; simpl in H.
  - inversion H; subst. by exists i.
  - destruct (on_event spark_end hashChunkSize file ev j) as [j1|] eqn:Hs;
      simpl in H; [|done].
    destruct (Tiled_step ev i j j1 HT Hs); by eapply IH.
Qed.

(** Reading on: the chunks from [i] are read one after the other. *)
Lemma Tiled_all_loaded (k : nat) : forall i j,
  Tiled spark_end hashChunkSize file i j ->
  waiting j = Reading (buffer hashChunkSize file i) ->
  (i + S k = reads hashChunkSize file)%nat ->
  exists j',
    run spark_end hashChunkSize file (concat (repeat [Load true; Timer] (S k))) j
    = Some j'
    /\ promise j' = HResolved (spark_end (map (buffer hashChunkSize file)
                                            (seq 0 (reads hashChunkSize file)))).
Proof.
  induction k as [|k IH]; intros i j HT Hw Hk.
  - destruct (on_event spark_end hashChunkSize file (Load true) j) as [j1|] eqn:H1.
    2: { unfold on_event in H1. by rewrite Hw in H1. }
    destruct (Tiled_step _ _ _ _ HT H1) as [HT1|HT1].
    { exfalso. unfold on_event in H1. rewrite Hw in H1. inversion H1; subst j1.
      destruct HT as (Hi & _). destruct HT1 as (Hi1 & _). simpl in Hi1. lia. }
    assert (Hw1 : waiting j1 = NextTick).
    { unfold on_event in H1. rewrite Hw in H1. by inversion H1. }
    assert (Hp1 : promise j1 = HPending).
    { destruct HT1 as (_ & _ & _ & _ & _ & Hx). rewrite Hw1 in Hx.
      by destruct (promise j1). }
    change (concat (repeat [Load true; Timer] 1)) with [Load true; Timer].
    cbn [run]. rewrite H1. cbn [mbind option_bind].
    unfold on_event at 1. rewrite Hw1. cbn [mbind option_bind].
    eexists. split; [reflexivity|].
    pose proof reads_bounds as (_ & _ & Hn).
    destruct HT1 as (Hi1 & _ & Hs1 & _).
    unfold processNextChunk, settle. rewrite Hn, Hi1, Hp1.
    destruct (Z.leb_spec (Z.of_nat (reads hashChunkSize file)) (Z.of_nat (S i)));
      [|lia].
    simpl. rewrite Hs1.
    by replace (S i) with (reads hashChunkSize file) by lia.
  - destruct (on_event spark_end hashChunkSize file (Load true) j) as [j1|] eqn:H1.
    2: { unfold on_event in H1. by rewrite Hw in H1. }
    destruct (Tiled_step _ _ _ _ HT H1) as [HT1|HT1].
    { exfalso. unfold on_event in H1. rewrite Hw in H1. inversion H1; subst j1.
      destruct HT as (Hi & _). destruct HT1 as (Hi1 & _). simpl in Hi1. lia. }
    assert (Hw1 : waiting j1 = NextTick).
    { unfold on_event in H1. rewrite Hw in H1. by inversion H1. }
    assert (Hp1 : promise j1 = HPending).
    { destruct HT1 as (_ & _ & _ & _ & _ & Hx). rewrite Hw1 in Hx.
      by destruct (promise j1). }
    change (concat (repeat [Load true; Timer] (S (S k))))
      with (Load true :: Timer :: concat (repeat [Load true; Timer] (S k))).
    cbn [run]. rewrite H1. cbn [mbind option_bind].
    unfold on_event at 1. rewrite Hw1. cbn [mbind option_bind].
    apply (IH (S i)); [|  |lia].
    + apply Tiled_processNextChunk; try done. by rewrite Hw1.
    + pose proof reads_bounds as (_ & _ & Hn).
      destruct HT1 as (Hi1 & _).
      unfold processNextChunk. rewrite Hn, Hi1.
      destruct (Z.leb_spec (Z.of_nat (reads hashChunkSize file)) (Z.of_nat (S i)));
        [lia|]. simpl. done.
Qed.

End CalculateFileHash.

(** X10.  [calculateFileHash] (with [hashChunkSize > 0]) reads the file in
    [Math.ceil(size / hashChunkSize)] buffers that tile it: buffer [i]
    spans the bytes from [i * hashChunkSize] up to
    [min((i + 1) * hashChunkSize, size)].  Whatever the reader does, the
    buffers appended to the digest are the first ones, each once and in
    order, and [hashProgress.loaded] is their total size.  The promise
    resolves only with the digest of all the buffers, with the progress at
    the whole file and [isCalculatingHash] false; it rejects only with
    the read error, leaving [isCalculatingHash] false; while it is pending
    [isCalculatingHash] is true.  When every read succeeds it resolves. *)
Theorem file_hash_reads_every_byte_once (spark_end : list Blob -> string)
    (hashChunkSize : Z) (file : File) (evs : list Hashing.ReaderEvent)
    (j : Hashing.Job) :
  0 < hashChunkSize -> 0 <= size file ->
  Hashing.run spark_end hashChunkSize file evs
    (Hashing.calculateFileHash spark_end hashChunkSize file) = Some j ->
  let n := Hashing.reads hashChunkSize file in
  let buffer := Hashing.buffer hashChunkSize file in
  (forall i, (i < n)%nat ->
     blob_from (buffer i) = Z.of_nat i * hashChunkSize
     /\ blob_to (buffer i) = Z.min (Z.of_nat (S i) * hashChunkSize) (size file))
  /\ (exists i, (i <= n)%nat
        /\ Hashing.spark j = map buffer (seq 0 i)
        /\ loaded (Hashing.hashProgress j)
           = Z.min (Z.of_nat i * hashChunkSize) (size file))
  /\ total (Hashing.hashProgress j) = size file
  /\ (forall h, Hashing.promise j = Hashing.HResolved h ->
        h = spark_end (map buffer (seq 0 n))
        /\ Hashing.spark j = map buffer (seq 0 n)
        /\ Hashing.hashProgress j
           = {| loaded := size file; total := size file;
                percentage := if 0 <? size file then 100 else 0 |}
        /\ Hashing.isCalculatingHash j = false)
  /\ (forall m, Hashing.promise j = Hashing.HRejected m ->
        m = "文件读取失败" /\ Hashing.isCalculatingHash j = false)
  /\ (Hashing.promise j = Hashing.HPending ->
      Hashing.isCalculatingHash j = true)
  /\ exists j',
       Hashing.run spark_end hashChunkSize file
         (Hashing.all_loaded hashChunkSize file)
         (Hashing.calculateFileHash spark_end hashChunkSize file) = Some j'
       /\ Hashing.promise j'
          = Hashing.HResolved (spark_end (map buffer (seq 0 n))).
Proof.
  intros Hh HF Hrun n buffer. subst n buffer.
  pose proof (Tiled_start spark_end hashChunkSize file Hh HF) as H0.
  destruct (Tiled_run spark_end hashChunkSize file Hh HF evs _ _ _ H0 Hrun)
    as (i & Hi & Hle & Hs & Hp & Hg & Hw).
  pose proof (reads_bounds hashChunkSize file Hh HF) as (Hb1 & Hb2 & Hn).
  split; [|split; [|split; [|split; [|split; [|split]]]]].
  - intros k Hk.
    destruct (buffer_range hashChunkSize file Hh HF k Hk) as [H1 H2].
    split; [done|]. rewrite H2. f_equal. lia.
  - exists i. rewrite Hg. simpl. done.
  - by rewrite Hg.
  - intros h Hpr. rewrite Hpr in Hw.
    destruct (Hashing.waiting j); try done. destruct Hw as (Hin & -> & Hc).
    subst i. split; [done|]. split; [done|].
    split; [|done]. rewrite Hg, Hp.
    replace (Z.min (Z.of_nat (Hashing.reads hashChunkSize file) * hashChunkSize)
               (size file)) with (size file) by lia.
    f_equal. destruct (Hashing.reads hashChunkSize file) as [|n'].
    + destruct (Z.ltb_spec 0 (size file)); [lia | done].
    + destruct (Z.ltb_spec 0 (size file)); [|nia].
      unfold Math_round_percent.
      symmetry. apply (Z.div_unique _ _ 100 (size file)); lia.
  - intros m Hpr. rewrite Hpr in Hw.
    by destruct (Hashing.waiting j).
  - intros Hpr. rewrite Hpr in Hw.
    destruct (Hashing.waiting j); try done. by destruct Hw as (_ & _ & ?).
  - unfold Hashing.all_loaded.
    destruct (Hashing.reads hashChunkSize file) as [|k] eqn:En.
    + simpl. eexists. split; [reflexivity|].
      unfold Hashing.calculateFileHash, Hashing.processNextChunk.
      rewrite Hn. simpl. done.
    + destruct (Tiled_all_loaded spark_end hashChunkSize file Hh HF k 0%nat
                  (Hashing.calculateFileHash spark_end hashChunkSize file))
        as (j' & Hr' & Hp'); try done.
      * unfold Hashing.calculateFileHash, Hashing.processNextChunk.
        rewrite Hn. simpl.
        destruct (Z.leb_spec (Z.pos (Pos.of_succ_nat k)) 0); [lia | done].
      * exists j'. split; [done|]. by rewrite Hp', En.
Qed.

Lemma file_hash_reads_every_byte_once_witness :
  exists j,
    Hashing.run Hashing.count_buffers (2 * MiB) file23
      (Hashing.all_loaded (2 * MiB) file23)
      (Hashing.calculateFileHash Hashing.count_buffers (2 * MiB) file23)
    = Some j
    /\ Hashing.promise j = Hashing.HResolved "12"
    /\ loaded (Hashing.hashProgress j) = 23 * MiB.
Proof.
  assert (Hh : 0 < 2 * MiB) by reflexivity.
  assert (HF : 0 <= size file23) by (vm_compute; discriminate).
  destruct (Hashing.run Hashing.count_buffers (2 * MiB) file23
              (Hashing.all_loaded (2 * MiB) file23)
              (Hashing.calculateFileHash Hashing.count_buffers (2 * MiB) file23))
    as [j|] eqn:E; [|exfalso; revert E; vm_compute; discriminate].
  exists j. split; [reflexivity|].
  assert (G : option_map Hashing.promise
                (Hashing.run Hashing.count_buffers (2 * MiB) file23
                   (Hashing.all_loaded (2 * MiB) file23)
                   (Hashing.calculateFileHash Hashing.count_buffers (2 * MiB)
                      file23))
              = Some (Hashing.HResolved "12")) by (vm_compute; reflexivity).
  rewrite E in G. simpl in G. inversion G as [G'].
  split; [reflexivity|].
  destruct (file_hash_reads_every_byte_once Hashing.count_buffers (2 * MiB)
              file23 (Hashing.all_loaded (2 * MiB) file23) j Hh HF E)
    as (_ & _ & _ & Hres & _).
  destruct (Hres "12" G') as (_ & _ & Hprog & _).
  rewrite Hprog. reflexivity.
Defined.

(** * Cancelling *)

Lemma flying_elem (e : Engine) (ctrl : option nat) :
  ctrl ∈ flying e <->
  exists ps w t, ps ∈ passes e /\ w ∈ p_workers ps
                 /\ w_pc w = WUpload ctrl (XInFlight t).
Proof.
  unfold flying. rewrite list_elem_of_omap. split.
  - intros (w & Hw & Hpc).
    apply list_elem_of_In, in_concat in Hw as (ws & Hws & Hw).
    apply in_map_iff in Hws as (ps & <- & Hps).
    destruct (w_pc w) as [c [t| |]| | |] eqn:Hw0; try done.
    inversion Hpc; subst. exists ps, w, t. by rewrite !list_elem_of_In.
  - intros (ps & w & t & Hps & Hw & Hpc). exists w. rewrite Hpc.
    split; [|done]. apply list_elem_of_In, in_concat.
    exists (p_workers ps). rewrite <- !list_elem_of_In. split; [|done].
    apply list_elem_of_In, in_map, list_elem_of_In. done.
Qed.

Lemma flying_abort (ctrl : nat) (e : Engine) (c : option nat) :
  c ∈ flying (abort ctrl e) ->
  c ∈ flying e /\ (ctrl ∉ aborted e -> c <> Some ctrl).
Proof.
  unfold abort. destruct (bool_decide (ctrl ∈ aborted e)) eqn:Hb.
  { apply bool_decide_eq_true in Hb. done. }
  rewrite !flying_elem. simpl.
  intros (ps' & w' & t & Hps' & Hw' & Hpc).
  apply list_elem_of_In, in_map_iff in Hps' as (ps & <- & Hps).
  simpl in Hw'.
  apply list_elem_of_In, in_map_iff in Hw' as (w & <- & Hw).
  apply list_elem_of_In in Hps, Hw.
  unfold abort_worker in Hpc.
  destruct (w_pc w) as [[c'|] [t0| |]| | |] eqn:Hw0; try congruence.
  - destruct (Nat.eqb_spec c' ctrl) as [->|Hne]; simpl in Hpc; [done|].
    rewrite Hw0 in Hpc. inversion Hpc; subst.
    split; [by exists ps, w, t | congruence].
  - rewrite Hw0 in Hpc. inversion Hpc; subst.
    split; [by exists ps, w, t | done].
Qed.

Lemma aborted_abort (ctrl : nat) (e : Engine) (x : nat) :
  x ∈ aborted (abort ctrl e) <-> x = ctrl \/ x ∈ aborted e.
Proof.
  unfold abort. destruct (bool_decide (ctrl ∈ aborted e)) eqn:Hb.
  - apply bool_decide_eq_true in Hb. split; [by right|].
    by intros [->|].
  - simpl. set_solver.
Qed.

Lemma abort_frame (ctrl : nat) (e : Engine) :
  heap (abort ctrl e) = heap e /\ hook (abort ctrl e) = hook e
  /\ calls (abort ctrl e) = calls e.
Proof. unfold abort. by destruct (bool_decide _). Qed.

(** No request on the wire has an aborted controller. *)
Lemma cancel_chunk_spec (e : Engine) (a : nat) :
  (forall c', Some c' ∈ flying e -> c' ∉ aborted e) ->
  heap (cancel_chunk e a) = heap e /\ hook (cancel_chunk e a) = hook e
  /\ calls (cancel_chunk e a) = calls e
  /\ (forall c, c ∈ flying (cancel_chunk e a) -> c ∈ flying e)
  /\ (forall c', Some c' ∈ flying (cancel_chunk e a) ->
        c' ∉ aborted (cancel_chunk e a))
  /\ (forall c', controls e c' a = true ->
        Some c' ∉ flying (cancel_chunk e a)).
Proof.
  intros Hd. unfold cancel_chunk, controls.
  destruct (heap e !! a) as [ch|] eqn:Ha; [|done].
  destruct (abortController ch) as [ctrl|] eqn:Hc.
  2: { do 5 (split; [done|]). intros c'. by rewrite andb_false_r. }
  destruct (uploaded ch) eqn:Hu; simpl; [done|].
  destruct (abort_frame ctrl e) as (H1 & H2 & H3).
  do 3 (split; [done|]). split; [|split].
  - intros c Hfl. by apply flying_abort in Hfl as [? _].
  - intros c' Hfl. apply flying_abort in Hfl as [Hfl Hne].
    rewrite aborted_abort. intros [->|Hin]; [|by apply (Hd c')].
    destruct (decide (ctrl ∈ aborted e)) as [Hin|Hnot].
    + by apply (Hd ctrl).
    + by apply Hne.
  - intros c' Heq%Nat.eqb_eq. subst c'. intros Hfl.
    apply flying_abort in Hfl as [Hfl Hne].
    destruct (decide (ctrl ∈ aborted e)) as [Hin|Hnot].
    + by apply (Hd ctrl).
    + by apply Hne.
Qed.

Lemma controls_frame (e e' : Engine) (c' a : nat) :
  heap e' = heap e -> controls e' c' a = controls e c' a.
Proof. intros H. unfold controls. by rewrite H. Qed.

Lemma cancel_loop_spec (l : list nat) : forall e,
  (forall c', Some c' ∈ flying e -> c' ∉ aborted e) ->
  heap (fold_left cancel_chunk l e) = heap e
  /\ hook (fold_left cancel_chunk l e) = hook e
  /\ calls (fold_left cancel_chunk l e) = calls e
  /\ (forall c, c ∈ flying (fold_left cancel_chunk l e) -> c ∈ flying e)
  /\ (forall c' a, a ∈ l -> controls e c' a = true ->
        Some c' ∉ flying (fold_left cancel_chunk l e)).
Proof.
  induction l as [|a l IH]; intros e Hd; simpl.
  - do 4 (split; [done|]). by intros c' a Ha%elem_of_nil.
  - destruct (cancel_chunk_spec e a Hd) as (H1 & H2 & H3 & H4 & H5 & H6).
    destruct (IH (cancel_chunk e a) H5) as (I1 & I2 & I3 & I4 & I5).
    split; [congruence|]. split; [congruence|]. split; [congruence|].
    split; [by intros c Hc%I4%H4|].
    intros c' a' [->|Hin]%elem_of_cons Hctl.
    + intros Hfl%I4. by apply (H6 c').
    + apply (I5 c' a'); [done|]. by rewrite (controls_frame e).
Qed.

Lemma flying_upd_hook (g : Hook -> Hook) (e : Engine) :
  flying (upd_hook g e) = flying e.
Proof. done. Qed.

Lemma transporters_flying (e : Engine) (a : nat) :
  flying e = [] -> transporters e a = 0%nat.
Proof.
  unfold flying, transporters. intros H. rewrite filter_none; [done|].
  intros w Hw. apply andb_false_iff. left. unfold transporting.
  destruct (w_pc w) as [ctrl [t| |]| | |] eqn:Hpc; try done.
  assert (Hin : ctrl ∈ omap
            (fun w => match w_pc w with
                      | WUpload ctrl (XInFlight _) => Some ctrl
                      | _ => None
                      end) (concat (map p_workers (passes e)))).
  { apply list_elem_of_omap. exists w. by rewrite Hpc. }
  rewrite H in Hin. by apply elem_of_nil in Hin.
Qed.

Lemma cancelUpload_spec (e : Engine) :
  covered e = true ->
  flying (fst (cancelUpload e)) = []
  /\ heap (fst (cancelUpload e)) = heap e
  /\ calls (fst (cancelUpload e)) = calls e
  /\ isPaused (hook (fst (cancelUpload e))) = true
  /\ isUploading (hook (fst (cancelUpload e))) = false
  /\ executingChunks (hook (fst (cancelUpload e))) = ∅
  /\ uploadSession (hook (fst (cancelUpload e))) = uploadSession (hook e)
  /\ snd (cancelUpload e)
     = match uploadSession (hook e) with Some _ => true | None => false end.
Proof.
  intros Hcov. unfold covered in Hcov. rewrite forallb_forall in Hcov.
  set (e1 := upd_hook (fun h => set_isCheckingUpload false
                                  (set_isUploading false
                                     (set_isPaused true h))) e).
  assert (Hd : forall c', Some c' ∈ flying e1 -> c' ∉ aborted e1).
  { intros c' Hfl%list_elem_of_In%Hcov.
    apply andb_prop in Hfl as [_ Hfl]. apply negb_true_iff in Hfl.
    by apply bool_decide_eq_false in Hfl. }
  destruct (cancel_loop_spec (chunks (hook e1)) e1 Hd)
    as (H1 & H2 & H3 & H4 & H5).
  set (e2 := fold_left cancel_chunk (chunks (hook e1)) e1) in *.
  assert (Hnone : flying e2 = []).
  { destruct (flying e2) as [|c rest] eqn:Hfl; [done|]. exfalso.
    pose proof (H4 c (list_elem_of_here _ _)) as Hc1.
    pose proof (Hcov c (proj1 (list_elem_of_In _ _) Hc1)) as Hcv.
    destruct c as [c'|]; [|done].
    apply andb_prop in Hcv as [Hex _].
    apply existsb_exists in Hex as (a & Ha & Hctl).
    apply (H5 c' a); [by apply list_elem_of_In | done |].
    apply list_elem_of_here. }
  assert (Hsess : uploadSession (hook e2) = uploadSession (hook e))
    by (by rewrite H2).
  assert (Hp : isPaused (hook e2) = true) by (by rewrite H2).
  assert (Hu : isUploading (hook e2) = false) by (by rewrite H2).
  unfold cancelUpload. cbv zeta. fold e1. fold e2.
  change (uploadSession (hook (upd_hook (set_executingChunks ∅) e2)))
    with (uploadSession (hook e2)).
  rewrite Hsess.
  destruct (uploadSession (hook e)) as [s|] eqn:Hs; simpl;
    rewrite ?H1, ?H3; repeat split; done.
Qed.

(** X11.  [cancelUpload] aborts every request on the wire, whatever its
    progress, when each of them is held by a chunk of [chunks.value] that
    is not uploaded: afterwards no request is in flight; the chunk objects
    are untouched; the hook is paused, not uploading, and the registry is
    empty; the cancel request is posted exactly when there is a session.
    From then on, until [startUpload] or [resumeUpload] is called, the
    hook stays paused and sends no chunk and no [complete] request. *)
Theorem cancel_aborts_every_request (opts : S3UploadOptions) (e e' : Engine)
    (evs : list Event) :
  covered e = true ->
  Forall (fun ev => ev <> StartUpload /\ ev <> ResumeUpload) evs ->
  run opts (fst (cancelUpload e)) evs = Some e' ->
  flying (fst (cancelUpload e)) = []
  /\ (forall a, transporters (fst (cancelUpload e)) a = 0%nat)
  /\ heap (fst (cancelUpload e)) = heap e
  /\ isPaused (hook (fst (cancelUpload e))) = true
  /\ isUploading (hook (fst (cancelUpload e))) = false
  /\ executingChunks (hook (fst (cancelUpload e))) = ∅
  /\ snd (cancelUpload e)
     = match uploadSession (hook e) with Some _ => true | None => false end
  /\ isPaused (hook e') = true
  /\ exists l, calls e' = calls e ++ l /\ Forall (fun c => c = CallInitialize) l.
Proof.
  intros Hcov Hevs Hrun.
  destruct (cancelUpload_spec e Hcov)
    as (Hfl & Hh & Hc & Hp & Hu & Hx & Hs & Hsent).
  split; [done|]. split; [by intros a; apply transporters_flying|].
  do 5 (split; [done|]).
  destruct (paused_run opts _ _ evs Hp Hevs Hrun) as (Hp' & l & Hl & Hall).
  split; [done|]. exists l. by rewrite <- Hc.
Qed.

Lemma cancel_aborts_every_request_witness :
  let e := after defaultOptions file23 three_in_flight in
  covered e = true
  /\ transporters e 0 = 1%nat
  /\ transporters (pauseUpload e) 0 = 1%nat
  /\ transporters (fst (cancelUpload e)) 0 = 0%nat
  /\ snd (cancelUpload e) = true
  /\ exists e',
       run defaultOptions (fst (cancelUpload e)) cancelled_unwinds = Some e'
       /\ callerState e' 0 = Some (Thrown ErrPaused)
       /\ exists l, calls e' = calls e ++ l
                    /\ Forall (fun c => c = CallInitialize) l.
Proof.
  intros e.
  assert (Hcov : covered e = true) by (vm_compute; reflexivity).
  assert (Hevs : Forall (fun ev => ev <> StartUpload /\ ev <> ResumeUpload)
                   cancelled_unwinds).
  { unfold cancelled_unwinds. repeat constructor; discriminate. }
  split; [exact Hcov|].
  split; [vm_compute; reflexivity|].
  split; [vm_compute; reflexivity|].
  destruct (run defaultOptions (fst (cancelUpload e)) cancelled_unwinds)
    as [e'|] eqn:E; [|exfalso; revert E; vm_compute; discriminate].
  destruct (cancel_aborts_every_request defaultOptions e e' cancelled_unwinds
              Hcov Hevs E) as (_ & Ht & _ & _ & _ & _ & Hsent & _ & Hcalls).
  split; [exact (Ht 0%nat)|].
  split; [rewrite Hsent; vm_compute; reflexivity|].
  exists e'. split; [reflexivity|]. split; [|exact Hcalls].
  assert (G : option_map (fun e => callerState e 0)
                (run defaultOptions (fst (cancelUpload e)) cancelled_unwinds)
              = Some (Some (Thrown ErrPaused))) by (vm_compute; reflexivity).
  rewrite E in G. simpl in G. inversion G as [G']. reflexivity.
Defined.

(** * Chunk identifiers of the local hook *)

Lemma to_uint_not_nil (n : nat) : Nat.to_uint n <> Decimal.Nil.
Proof.
  intros H. pose proof (DecimalNat.Unsigned.of_to n) as Hn.
  rewrite H in Hn. simpl in Hn. subst n. discriminate H.
Qed.

Lemma toString_inj (i j : nat) : toString i = toString j -> i = j.
Proof.
  unfold toString. intros H.
  apply (f_equal NilZero.uint_of_string) in H.
  rewrite !NilZero.usu in H by apply to_uint_not_nil.
  inversion H as [Hu]. by apply DecimalNat.Unsigned.to_uint_inj.
Qed.

Lemma string_app_inv_head (p s1 s2 : string) :
  (p ++ s1 = p ++ s2)%string -> s1 = s2.
Proof.
  induction p as [|a p IH]; simpl; [done|]. intros H. inversion H. auto.
Qed.

Lemma chunkHashOf_inj (h : string) (i j : nat) :
  Local.chunkHashOf h i = Local.chunkHashOf h j -> i = j.
Proof.
  unfold Local.chunkHashOf. intros H.
  apply string_app_inv_head in H.
  apply (string_app_inv_head "_chunk_") in H. by apply toString_inj.
Qed.

(** X12.  Chunk identifiers of the local hook, [`${fileHash}_chunk_${i}`],
    are unambiguous: two chunks of a file never share one.  So when the
    check answer lists the identifiers of the chunks with indices [done],
    in any order and with repetitions, [createChunksAndMarkUploaded] marks
    exactly these chunks as uploaded (progress 100) and leaves the others
    pending (progress 0); with an empty list it is [createChunks]. *)
Theorem local_resume_marks_exactly (chunkSize : Z) (file : File)
    (fileHashValue : string) (done : list nat) :
  let cs := Local.createChunksAndMarkUploaded chunkSize file fileHashValue
              (map (Local.chunkHashOf fileHashValue) done) in
  (forall i j, Local.chunkHashOf fileHashValue i
               = Local.chunkHashOf fileHashValue j -> i = j)
  /\ (forall i c, cs !! i = Some c ->
        (Local.uploaded c = true <-> In i done)
        /\ Local.progress c = (if Local.uploaded c then 100 else 0))
  /\ Local.createChunksAndMarkUploaded chunkSize file fileHashValue []
     = Local.createChunks chunkSize file fileHashValue.
Proof.
  intros cs. split; [apply chunkHashOf_inj|]. split; [|reflexivity].
  intros i c. subst cs. unfold Local.createChunksAndMarkUploaded.
  change (map ?f ?l) with (f <$> l) at 1.
  rewrite list_lookup_fmap. intros H.
  destruct (seq 0 _ !! i) as [j|] eqn:Hj; [|discriminate].
  apply lookup_seq in Hj as [-> _]. simpl in H. inversion H; subst; clear H.
  simpl. split; [|done].
  rewrite Array_includes_In, in_map_iff. split.
  - intros (j & Hj & Hin). apply chunkHashOf_inj in Hj. by subst.
  - intros Hin. by exists i.
Qed.

(** * Outcomes of one upload request of the local hook *)

Lemma local_upload_ok_start (now : Z) (c : Local.ChunkInfo) :
  Local.uploaded c = false -> local_upload_ok c (Local.uploadChunk now c).
Proof. intros Hu. unfold local_upload_ok, local_plan. simpl. repeat split; try done; lia. Qed.

Lemma local_upload_ok_step (c : Local.ChunkInfo) (now : Z)
    (ev : Local.XhrEvent) (t t' : Local.Transporter) :
  local_upload_ok c t -> Local.on_event now ev t = Some t' ->
  local_upload_ok c t'.
Proof.
  intros (Hpl & Hb & Hh & Hr & Hp & Hx & Hpr) H.
  unfold Local.on_event in H.
  destruct ev as [|l tot|status text body| |].
  - destruct (Local.timer t) as [d|] eqn:Ht.
    2: { by destruct (Local.promise t). }
    assert (H' : (if d <=? now
                  then Some {| Local.t_chunk := Local.t_chunk t;
                               Local.controller_aborted := true;
                               Local.timer := None;
                               Local.xhr_timeout := Local.xhr_timeout t;
                               Local.promise := Local.promise t |}
                  else None) = Some t') by (by destruct (Local.promise t)).
    clear H. destruct (d <=? now); [|done]. inversion H'; subst t'.
    unfold local_upload_ok. simpl. do 6 (split; [done|]).
    destruct (Local.promise t) as [|v|m];
      [done | by destruct Hpr as (? & ? & ? & ?) | by destruct Hpr as (? & ?)].
  - destruct (Local.promise t) eqn:Epr; try done.
    destruct ((0 <=? l) && (l <=? tot) && (0 <? tot)) eqn:Hev; [|done].
    inversion H; subst t'. unfold local_upload_ok, local_plan in *. simpl.
    rewrite ?Epr. do 4 (split; [done|]). split; [|done].
    apply Math_round_percent_range; lia.
  - destruct (Local.promise t) eqn:Epr; try done.
    destruct ((200 <=? status) && (status <? 300)).
    + destruct body as [[[] m]|]; inversion H; subst t';
        unfold local_upload_ok, local_plan, Local.settle in *; simpl;
        rewrite ?Epr; repeat split; try done; lia.
    + inversion H; subst t'.
      unfold local_upload_ok, local_plan, Local.settle in *; simpl.
      rewrite ?Epr. repeat split; try done; lia.
  - destruct (Local.promise t) eqn:Epr; try done.
    inversion H; subst t'.
    unfold local_upload_ok, local_plan, Local.settle in *; simpl.
    rewrite ?Epr. repeat split; try done; lia.
  - destruct (Local.promise t) eqn:Epr; try done.
    destruct (Local.uploadStartTime (Local.t_chunk t)); [|done].
    rewrite Hx in H. simpl in H. done.
Qed.

Lemma local_upload_ok_run (c : Local.ChunkInfo)
    (evs : list (Z * Local.XhrEvent)) : forall t t',
  local_upload_ok c t -> local_run evs t = Some t' -> local_upload_ok c t'.
Proof.
  induction evs as [|[now ev] evs IH]; intros t t' Hok H; simpl in H.
  - by inversion H; subst.
  - destruct (Local.on_event now ev t) as [t1|] eqn:Hs; simpl in H; [|done].
    eapply IH; [|exact H]. by eapply local_upload_ok_step.
Qed.

(** X13.  One request of the local [uploadChunk], for a chunk that is not
    uploaded, whatever events occur: the plan, the blob, the identifier and
    [retryCount] of the chunk never change and its progress stays within 0
    and 100; the promise never resolves with [false]; it resolves (with
    [true]) exactly when the chunk is marked uploaded, at progress 100; a
    rejection leaves the chunk pending; the request's [timeout] event can
    never happen; the 30 second timer never settles the promise; and once
    the promise is settled no listener changes anything. *)
Theorem local_upload_outcomes (now : Z) (c : Local.ChunkInfo)
    (evs : list (Z * Local.XhrEvent)) (t : Local.Transporter) :
  Local.uploaded c = false ->
  local_run evs (Local.uploadChunk now c) = Some t ->
  local_plan (Local.t_chunk t) = local_plan c
  /\ Local.blob (Local.t_chunk t) = Local.blob c
  /\ Local.hash (Local.t_chunk t) = Local.hash c
  /\ Local.retryCount (Local.t_chunk t) = Local.retryCount c
  /\ 0 <= Local.progress (Local.t_chunk t) <= 100
  /\ Local.promise t <> Local.Resolved false
  /\ (Local.promise t = Local.Resolved true
      <-> Local.uploaded (Local.t_chunk t) = true)
  /\ (Local.uploaded (Local.t_chunk t) = true ->
      Local.progress (Local.t_chunk t) = 100)
  /\ (forall now', Local.on_event now' Local.RequestTimeout t = None)
  /\ (forall now' t', Local.on_event now' Local.TimerFired t = Some t' ->
        Local.promise t' = Local.promise t
        /\ Local.t_chunk t' = Local.t_chunk t)
  /\ (Local.promise t <> Local.Pending ->
      forall now' ev, Local.on_event now' ev t = None).
Proof.
  intros Hu Hrun.
  pose proof (local_upload_ok_run c evs _ _ (local_upload_ok_start now c Hu)
                Hrun) as (Hpl & Hb & Hh & Hr & Hp & Hx & Hpr).
  do 5 (split; [done|]). split; [|split; [|split; [|split; [|split]]]].
  - intros Heq. rewrite Heq in Hpr. by destruct Hpr.
  - split.
    + intros Heq. rewrite Heq in Hpr. by destruct Hpr as (_ & ? & _).
    + intros Hup. destruct (Local.promise t) as [|v|m]; try congruence.
      * destruct Hpr as (-> & _). done.
      * destruct Hpr. congruence.
  - intros Hup. destruct (Local.promise t) as [|v|m]; try congruence.
    + by destruct Hpr as (_ & _ & ? & _).
    + destruct Hpr. congruence.
  - intros now'. unfold Local.on_event.
    destruct (Local.promise t); try done.
    destruct (Local.uploadStartTime (Local.t_chunk t)); [|done].
    by rewrite Hx.
  - intros now' t' H. unfold Local.on_event in H.
    destruct (Local.timer t) as [d|];
      [|by destruct (Local.promise t)].
    assert (H' : (if d <=? now'
                  then Some {| Local.t_chunk := Local.t_chunk t;
                               Local.controller_aborted := true;
                               Local.timer := None;
                               Local.xhr_timeout := Local.xhr_timeout t;
                               Local.promise := Local.promise t |}
                  else None) = Some t') by (by destruct (Local.promise t)).
    destruct (d <=? now'); [|done]. by inversion H'; subst t'.
  - intros Hset now' ev. unfold Local.on_event.
    destruct (Local.promise t) as [|v|m] eqn:Epr; [done| |].
    + destruct Hpr as (_ & _ & _ & ->). by destruct ev.
    + destruct Hpr as (_ & ->). by destruct ev.
Qed.

Lemma local_upload_outcomes_witness :
  exists t,
    local_run slow_upload
      (Local.uploadChunk 1000 (planned_chunk 0)) = Some t
    /\ Local.promise t = Local.Resolved true
    /\ Local.controller_aborted t = true
    /\ Local.uploaded (Local.t_chunk t) = true.
Proof.
  assert (Hu : Local.uploaded (planned_chunk 0) = false) by reflexivity.
  destruct (local_run slow_upload (Local.uploadChunk 1000 (planned_chunk 0)))
    as [t|] eqn:E; [|exfalso; revert E; vm_compute; discriminate].
  exists t. split; [reflexivity|].
  assert (G : option_map (fun t => (Local.promise t, Local.controller_aborted t))
                (local_run slow_upload
                   (Local.uploadChunk 1000 (planned_chunk 0)))
              = Some (Local.Resolved true, true)) by (vm_compute; reflexivity).
  rewrite E in G. simpl in G. injection G as G1 G2.
  split; [exact G1|]. split; [exact G2|].
  destruct (local_upload_outcomes 1000 (planned_chunk 0) slow_upload t Hu E)
    as (_ & _ & _ & _ & _ & _ & Hiff & _).
  apply Hiff. exact G1.
Defined.

(** * The flags of the hook *)

#[local] Instance Flags_refl : Reflexive Flags.
Proof. intros e. by split. Qed.

#[local] Instance Flags_trans : Transitive Flags.
Proof. intros e1 e2 e3 [] []. split; congruence. Qed.

Lemma Flags_same (e e' : Engine) :
  callers e' = callers e -> hook e' = hook e -> Flags e e'.
Proof. intros Hc Hh. split; by rewrite ?Hh. Qed.

Ltac flags_same := by apply Flags_same.

Lemma Flags_upd_hook (g : Hook -> Hook) (e : Engine) :
  (forall h, isUploading (g h) = isUploading h
             /\ isCompleted (g h) = isCompleted h
             /\ isSecondTransfer (g h) = isSecondTransfer h
             /\ isCheckingUpload (g h) = isCheckingUpload h
             /\ isInitializing (g h) = isInitializing h) ->
  Flags e (upd_hook g e).
Proof. intros Hg. destruct (Hg (hook e)) as (? & ? & ? & ? & ?). by split. Qed.

Lemma Flags_upd_chunk (a : nat) (g : S3ChunkInfo -> S3ChunkInfo) (e : Engine) :
  Flags e (upd_chunk a g e).
Proof. unfold upd_chunk. by destruct (heap e !! a). Qed.

Ltac flags_hook := apply Flags_upd_hook; intros ?; by repeat split.
Ltac flags_chunk := apply Flags_upd_chunk.

Lemma Flags_updateTotalProgress (e : Engine) : Flags e (updateTotalProgress e).
Proof.
  unfold updateTotalProgress. destruct (currentFile (hook e)); [|done].
  flags_hook.
Qed.

Lemma Flags_store_chunks (cs : list S3ChunkInfo) (e : Engine) :
  Flags e (store_chunks cs e).
Proof. unfold store_chunks. by split. Qed.

Lemma Flags_abort (ctrl : nat) (e : Engine) : Flags e (abort ctrl e).
Proof. unfold abort. destruct (bool_decide _); [done | flags_same]. Qed.


Lemma Flags_worker_finally (a : nat) (e : Engine) : Flags e (worker_finally a e).
Proof. unfold worker_finally. destruct (heap e !! a); [|done]. flags_hook. Qed.

Lemma Flags_uploadChunk a e e' r :
  uploadChunk a e = Some (e', r) -> Flags e e'.
Proof.
  unfold uploadChunk. intros H.
  destruct (heap e !! a) as [c|]; simpl in H; [|done].
  destruct (uploadSession (hook e)), (or_null (chunkHash c));
    inversion H; subst; try done.
  match goal with
  | |- Flags _ (set_calls _ ?e2) => trans e2; [|flags_same]
  end.
  match goal with
  | |- Flags _ (upd_chunk _ _ ?e1) => trans e1; [flags_same|]
  end.
  flags_chunk.
Qed.

Lemma Flags_worker_exit opts a s e : Flags e (fst (worker_exit opts a s e)).
Proof.
  unfold worker_exit. destruct (_ && _); simpl; apply Flags_worker_finally.
Qed.

Lemma Flags_worker_loop opts a n e e' r :
  worker_loop opts a n e = Some (e', r) -> Flags e e'.
Proof.
  unfold worker_loop. intros H.
  destruct (_ && _).
  - destruct (uploadChunk a e) as [[e1 [ctrl x]]|] eqn:Hu; simpl in H; [|done].
    inversion H; subst. by eapply Flags_uploadChunk.
  - pose proof (Flags_worker_exit opts a false e) as Hx.
    destruct (worker_exit opts a false e) as [e1 pc]. by inversion H; subst.
Qed.

Lemma Flags_uploadSingleChunk opts a e e' w :
  uploadSingleChunk opts a e = Some (e', w) -> Flags e e'.
Proof.
  unfold uploadSingleChunk. intros H.
  destruct (heap e !! a) as [c|]; simpl in H; [|done].
  destruct (isPaused (hook e)); [by simplify_eq|].
  match type of H with
  | context [worker_loop ?o ?a ?n ?e0] =>
      destruct (worker_loop o a n e0) as [[e2 [n2 pc]]|] eqn:Hl
  end; simpl in H; [|done].
  inversion H; subst. apply Flags_worker_loop in Hl.
  etrans; [|exact Hl]. flags_hook.
Qed.

Lemma Flags_worker_resume opts w w' e e' :
  worker_resume opts w e = Some (e', w') -> Flags e e'.
Proof.
  unfold worker_resume. intros H.
  destruct (w_pc w) as [ctrl [t|s|err]| | |]; try done.
  - destruct (_ && _ && _); [by simplify_eq|].
    pose proof (Flags_worker_exit opts (w_chunk w) s e) as Hx.
    destruct (worker_exit opts (w_chunk w) s e) as [e1 pc]. by simplify_eq.
  - destruct (_ && _); inversion H; subst; apply Flags_worker_finally.
Qed.

Lemma Flags_worker_after_delay opts w w' e e' :
  worker_after_delay opts w e = Some (e', w') -> Flags e e'.
Proof.
  unfold worker_after_delay. intros H.
  destruct (w_pc w) as [| until | |]; try done.
  destruct (until <=? clock e); [|done].
  destruct (worker_loop opts (w_chunk w) (w_attempts w) e)
    as [[e1 [n pc]]|] eqn:Hl; simpl in H; [|done].
  inversion H; subst. by eapply Flags_worker_loop.
Qed.

Lemma Flags_pass_loop opts todo : forall e ps e' ps',
  pass_loop opts todo e ps = Some (e', ps') -> Flags e e'.
Proof.
  induction todo as [|a rest IH]; intros e ps e' ps' H; simpl in H.
  - by inversion H.
  - destruct (isPaused (hook e)); [by inversion H|].
    destruct (uploadSingleChunk opts a e) as [[e1 w]|] eqn:Hu; simpl in H;
      [|done].
    apply Flags_uploadSingleChunk in Hu.
    destruct (_ <=? _); [by inversion H; subst|].
    etrans; [exact Hu|]. by eapply IH.
Qed.

Lemma Flags_pause_chunk e a : Flags e (pause_chunk e a).
Proof.
  unfold pause_chunk.
  destruct (heap e !! a) as [ch|]; [|done].
  destruct (abortController ch) as [ctrl|]; [|done].
  destruct (_ && _); [|done].
  etrans; [apply Flags_abort|]. flags_chunk.
Qed.

Lemma Flags_fold (f : Engine -> nat -> Engine) (l : list nat) :
  (forall e a, Flags e (f e a)) -> forall e, Flags e (fold_left f l e).
Proof.
  intros Hf. induction l as [|a l IH]; intros e; simpl; [done|].
  etrans; [apply Hf | apply IH].
Qed.

Lemma Flags_pauseUpload e : Flags e (pauseUpload e).
Proof.
  unfold pauseUpload. etrans; [|apply Flags_fold, Flags_pause_chunk].
  flags_hook.
Qed.

Lemma Flags_resume_chunk e a : Flags e (resume_chunk e a).
Proof.
  unfold resume_chunk.
  destruct (heap e !! a) as [ch|]; [|done].
  destruct (_ && _ && _); [|done]. flags_chunk.
Qed.

Lemma Flags_set_worker p k w e : Flags e (set_worker p k w e).
Proof. unfold set_worker. destruct (passes e !! p); [flags_same | done]. Qed.
Lemma FlagsOk_Flags (e e' : Engine) : FlagsOk e -> Flags e e' -> FlagsOk e'.
Proof.
  intros [HU HS HC HI] [Fc Fu Fd Fs Fk Fi].
  split; rewrite ?Fc, ?Fu, ?Fd, ?Fs, ?Fk, ?Fi; done.
Qed.

Lemma witness_insert (Q : Caller -> Prop) (l : list Caller) (c : nat)
    (cl0 new : Caller) :
  l !! c = Some cl0 -> (Q cl0 -> Q new) ->
  (exists cl, cl ∈ l /\ Q cl) -> exists cl, cl ∈ <[c := new]> l /\ Q cl.
Proof.
  intros Hc Hnew (cl & [i Hi]%list_elem_of_lookup_1 & Hq).
  destruct (decide (i = c)) as [->|Hne].
  - exists new. split.
    + eapply list_elem_of_lookup_2. apply list_lookup_insert_eq.
      by eapply lookup_lt_Some.
    + apply Hnew. congruence.
  - exists cl. split; [|done]. eapply (list_elem_of_lookup_2 _ i).
    by rewrite list_lookup_insert_ne.
Qed.

Lemma witness_new (Q : Caller -> Prop) (l : list Caller) (c : nat)
    (cl0 new : Caller) :
  l !! c = Some cl0 -> Q new -> exists cl, cl ∈ <[c := new]> l /\ Q cl.
Proof.
  intros Hc Hq. exists new. split; [|done].
  eapply list_elem_of_lookup_2. apply list_lookup_insert_eq.
  by eapply lookup_lt_Some.
Qed.

(** The activation [c] moves to [pc] in a state [e1] whose flags were
    written since [e]. *)
Lemma FlagsOk_move (e e1 : Engine) (c : nat) (cl0 : Caller) (pc : CallerPc) :
  FlagsOk e -> callers e !! c = Some cl0 -> callers e1 = callers e ->
  (isUploading (hook e1) = true ->
   isCompleted (hook e1) = false
   /\ active {| c_kind := c_kind cl0; c_pc := pc |} = true) ->
  (isSecondTransfer (hook e1) = true -> isCompleted (hook e1) = true) ->
  (isCheckingUpload (hook e1) = true ->
   pc = AwaitCheck
   \/ (isCheckingUpload (hook e) = true /\ c_pc cl0 <> AwaitCheck)) ->
  (isInitializing (hook e1) = true ->
   pc = AwaitInitialize
   \/ (isInitializing (hook e) = true /\ c_pc cl0 <> AwaitInitialize)) ->
  FlagsOk (set_caller_pc c pc e1).
Proof.
  intros [HU HS HC HI] Hc Hcl H1 H2 H3 H4.
  unfold set_caller_pc. rewrite Hcl, Hc. split; simpl; rewrite ?Hcl.
  - intros Hu. destruct (H1 Hu) as [Hd Ha]. split; [done|].
    by eapply witness_new.
  - done.
  - intros Hk. destruct (H3 Hk) as [->|[Hk0 Hne]].
    + by eapply witness_new.
    + eapply witness_insert; [done| |by apply HC]. done.
  - intros Hk. destruct (H4 Hk) as [->|[Hk0 Hne]].
    + by eapply witness_new.
    + eapply witness_insert; [done| |by apply HI]. done.
Qed.

(** A new activation. *)
Lemma FlagsOk_push (e e1 : Engine) (cl : Caller) :
  FlagsOk e -> callers e1 = callers e ->
  (isUploading (hook e1) = true ->
   isCompleted (hook e1) = false
   /\ (active cl = true \/ isUploading (hook e) = true)) ->
  (isSecondTransfer (hook e1) = true -> isCompleted (hook e1) = true) ->
  (isCheckingUpload (hook e1) = true ->
   c_pc cl = AwaitCheck \/ isCheckingUpload (hook e) = true) ->
  (isInitializing (hook e1) = true -> isInitializing (hook e) = true) ->
  FlagsOk (push_caller cl e1).
Proof.
  intros [HU HS HC HI] Hcl H1 H2 H3 H4.
  assert (Hold : forall Q : Caller -> Prop,
            (exists x, x ∈ callers e /\ Q x) ->
            exists x, x ∈ callers e ++ [cl] /\ Q x).
  { intros Q (x & Hx & Hq). exists x. split; [|done].
    apply elem_of_app. by left. }
  assert (Hnew : forall Q : Caller -> Prop,
            Q cl -> exists x, x ∈ callers e ++ [cl] /\ Q x).
  { intros Q Hq. exists cl. split; [|done].
    apply elem_of_app. right. apply list_elem_of_here. }
  unfold push_caller. split; simpl; rewrite ?Hcl.
  - intros Hu. destruct (H1 Hu) as [Hd [Ha|Hu0]]; (split; [done|]).
    + by apply Hnew.
    + apply Hold. by apply HU.
  - done.
  - intros Hk. destruct (H3 Hk) as [Hpc|Hk0]; [by apply Hnew|].
    apply Hold. by apply HC.
  - intros Hk. apply Hold. by apply HI, H4.
Qed.

Lemma FlagsOk_caller_throw (e e1 : Engine) (c : nat) (cl0 : Caller)
    (err : UploadError) :
  FlagsOk e -> callers e !! c = Some cl0 -> callers e1 = callers e ->
  isCompleted (hook e1) = isCompleted (hook e) ->
  isSecondTransfer (hook e1) = isSecondTransfer (hook e) ->
  (isCheckingUpload (hook e1) = true ->
   isCheckingUpload (hook e) = true /\ c_pc cl0 <> AwaitCheck) ->
  (isInitializing (hook e1) = true ->
   isInitializing (hook e) = true /\ c_pc cl0 <> AwaitInitialize) ->
  FlagsOk (caller_throw c err e1).
Proof.
  intros Hok Hc Hcl Hd Hs Hk Hi. unfold caller_throw.
  apply (FlagsOk_move e _ c cl0); try done; simpl.
  - rewrite Hs, Hd. by destruct Hok.
  - intros H. by right; apply Hk.
  - intros H. by right; apply Hi.
Qed.

Lemma FlagsOk_completeUpload (e e1 : Engine) (c : nat) (cl0 : Caller) :
  FlagsOk e -> callers e !! c = Some cl0 -> Flags e e1 ->
  c_pc cl0 <> AwaitCheck \/ isCheckingUpload (hook e1) = false ->
  c_pc cl0 <> AwaitInitialize ->
  FlagsOk (completeUpload c e1).
Proof.
  intros Hok Hc HF Hk Hi. pose proof HF as [Fc Fu Fd Fs Fk Fi].
  unfold completeUpload.
  assert (Hthrow : forall err, FlagsOk (caller_throw c err e1)).
  { intros err. apply (FlagsOk_caller_throw e _ c cl0); try done.
    - intros H. split; [congruence|]. destruct Hk; congruence.
    - intros H. split; [congruence | done]. }
  destruct (uploadSession (hook e1)); [|done].
  destruct (isPaused (hook e1)); [done|].
  apply (FlagsOk_move e _ c cl0); try done; simpl.
  - rewrite Fu, Fd. intros H. split; [|done]. by apply Hok.
  - rewrite Fs, Fd. by destruct Hok.
  - rewrite Fk. intros H. right. split; [done|]. destruct Hk; congruence.
  - rewrite Fi. intros H. by right.
Qed.

Lemma FlagsOk_start_pass (opts : S3UploadOptions) (e e1 e' : Engine) (c : nat)
    (cl0 : Caller) :
  FlagsOk e -> callers e !! c = Some cl0 -> Flags e e1 ->
  c_pc cl0 <> AwaitCheck \/ isCheckingUpload (hook e1) = false ->
  c_pc cl0 <> AwaitInitialize ->
  start_pass opts c e1 = Some e' -> FlagsOk e'.
Proof.
  intros Hok Hc HF Hk Hi H. unfold start_pass, uploadChunksConcurrently in H.
  destruct (pass_loop _ _ _ _) as [[e2 ps]|] eqn:Hl; simpl in H; [|done].
  inversion H; subst e'. clear H. apply Flags_pass_loop in Hl.
  assert (HF2 : Flags e (set_passes (passes e2 ++ [ps]) e2)).
  { etrans; [exact HF|]. etrans; [exact Hl|]. flags_same. }
  destruct HF2 as [Fc Fu Fd Fs Fk Fi].
  assert (Hk1 : isCheckingUpload (hook e2) = isCheckingUpload (hook e1))
    by apply Hl.
  apply (FlagsOk_move e _ c cl0); try done; simpl in *.
  - rewrite Fu, Fd. intros H. split; [|done]. by apply Hok.
  - rewrite Fs, Fd. by destruct Hok.
  - rewrite Fk. intros H. right. split; [done|].
    destruct Hk as [|Hk]; [done|]. congruence.
  - rewrite Fi. intros H. by right.
Qed.

Lemma FlagsOk_start_transfer (opts : S3UploadOptions) (e e1 e' : Engine)
    (c : nat) (cl0 : Caller) :
  FlagsOk e -> callers e !! c = Some cl0 -> Flags e e1 ->
  c_pc cl0 <> AwaitCheck \/ isCheckingUpload (hook e1) = false ->
  c_pc cl0 <> AwaitInitialize ->
  start_transfer opts c e1 = Some e' -> FlagsOk e'.
Proof.
  intros Hok Hc HF Hk Hi H. unfold start_transfer in H.
  assert (HF1 : Flags e (updateTotalProgress e1)).
  { etrans; [exact HF|]. apply Flags_updateTotalProgress. }
  assert (Hk1 : c_pc cl0 <> AwaitCheck
                \/ isCheckingUpload (hook (updateTotalProgress e1)) = false).
  { destruct Hk as [|Hk]; [by left|]. right.
    by rewrite (fl_checking _ _ (Flags_updateTotalProgress e1)). }
  destruct (Nat.eqb _ _).
  - inversion H; subst. by eapply FlagsOk_completeUpload.
  - by eapply FlagsOk_start_pass.
Qed.

Lemma Flags_start_reconcile (opts : S3UploadOptions) (f : File)
    (s : S3UploadSession) (e : Engine) :
  Flags e (start_reconcile opts f s e).
Proof.
  unfold start_reconcile. destruct (_ <=? _); [|flags_same].
  etrans; [apply (Flags_store_chunks [])|]. apply Flags_updateTotalProgress.
Qed.

(** The events below [startUpload] and [resumeUpload]. *)
Lemma Flags_step_inner (opts : S3UploadOptions) (e e' : Engine) (ev : Event) :
  step opts e ev = Some e' ->
  match ev with
  | StartUpload | ResumeUpload | CheckResponse _ _ | InitializeResponse _ _
  | ChunksHashed _ _ | CompleteResponse _ _ | PassSettled _ => True
  | _ => Flags e e'
  end.
Proof.
  intros H. destruct ev; simpl in H; try done.
  - destruct (0 <=? dt); [|done]. inversion H; subst. flags_same.
  - inversion H; subst. apply Flags_pauseUpload.
  - unfold reconciled in H.
    destruct (jobs e !! j) as [jb|] eqn:Hjb; simpl in H; [|done].
    destruct (j_done jb); [done|].
    destruct ok; inversion H; subst; [|flags_same].
    etrans; [|apply Flags_updateTotalProgress].
    etrans; [|apply Flags_store_chunks]. flags_same.
  - unfold xhr_progress in H.
    destruct (get_worker p k e) as [w|]; simpl in H; [|done].
    destruct (heap e !! w_chunk w) as [ch|]; simpl in H; [|done].
    destruct (w_pc w) as [ctrl [t|s|err]| | |]; try done.
    destruct (_ && _); [|done].
    destruct (negb (signal_aborted e ch)); [|by inversion H; subst].
    destruct (updateNetworkStats _ _ _) as [si ns]. inversion H; subst.
    etrans; [|apply Flags_updateTotalProgress].
    etrans; [|flags_hook]. flags_chunk.
  - unfold xhr_load in H.
    destruct (get_worker p k e) as [w|] eqn:Hg; simpl in H; [|done].
    destruct (w_pc w) as [ctrl [t|s|err]| | |] eqn:Hpc; try done.
    destruct (_ && _).
    + destruct body as [result|]; [destruct (chunk_success result)|];
        inversion H; subst; (etrans; [|apply Flags_set_worker]); try done.
      etrans; [|apply Flags_updateTotalProgress]. flags_chunk.
    + inversion H; subst. apply Flags_set_worker.
  - unfold xhr_error in H.
    destruct (get_worker p k e) as [w|] eqn:Hg; simpl in H; [|done].
    destruct (w_pc w) as [ctrl [t|s|err]| | |] eqn:Hpc; try done.
    inversion H; subst. apply Flags_set_worker.
  - unfold chunk_timeout in H.
    destruct (get_worker p k e) as [w|] eqn:Hg; simpl in H; [|done].
    destruct (heap e !! w_chunk w) as [ch|]; simpl in H; [|done].
    destruct (w_pc w) as [ctrl [[d|]|s|err]| | |] eqn:Hpc; try done.
    destruct (d <=? clock e); [|done].
    destruct (negb (signal_aborted e ch)); inversion H; subst;
      apply Flags_set_worker.
  - unfold with_worker in H.
    destruct (get_worker p k e) as [w|] eqn:Hg; simpl in H; [|done].
    destruct (worker_resume opts w e) as [[e1 w1]|] eqn:Hfw; simpl in H; [|done].
    inversion H; subst. etrans; [|apply Flags_set_worker].
    by eapply Flags_worker_resume.
  - unfold with_worker in H.
    destruct (get_worker p k e) as [w|] eqn:Hg; simpl in H; [|done].
    destruct (worker_after_delay opts w e) as [[e1 w1]|] eqn:Hfw; simpl in H;
      [|done].
    inversion H; subst. etrans; [|apply Flags_set_worker].
    by eapply Flags_worker_after_delay.
  - unfold with_pass in H.
    destruct (passes e !! p) as [ps|] eqn:Hps; simpl in H; [|done].
    destruct (promise_reaction k e ps) as [ps2|]; simpl in H; [|done].
    inversion H; subst. flags_same.
  - unfold with_pass in H.
    destruct (passes e !! p) as [ps|] eqn:Hps; simpl in H; [|done].
    destruct (race_settled opts k e ps) as [[e1 ps1]|] eqn:Hr; simpl in H;
      [|done].
    inversion H; subst. trans e1; [|flags_same].
    unfold race_settled in Hr.
    destruct (p_pc ps); try done.
    destruct (bool_decide _); [|done].
    destruct (p_workers ps !! k) as [w|]; simpl in Hr; [|done].
    destruct (w_promise w); try done.
    + by eapply Flags_pass_loop.
    + destruct (isPaused (hook e)); by inversion Hr; subst.
  - unfold with_pass in H.
    destruct (passes e !! p) as [ps|] eqn:Hps; simpl in H; [|done].
    destruct (all_settled ps) as [ps2|]; simpl in H; [|done].
    inversion H; subst. flags_same.
Qed.

Lemma FlagsOk_unchecked (e : Engine) :
  FlagsOk e -> FlagsOk (upd_hook (set_isCheckingUpload false) e).
Proof. intros [HU HS HC HI]. by split. Qed.

(** Closes the conditions on the flags written by an event. *)
Ltac flags_close Hok :=
  simpl; try done;
  try (by apply Hok);
  try (by intros ?; split; [done | congruence]);
  try (by intros ?; right; split; [done | congruence]);
  try (by intros ?; left);
  try (by intros ?; right);
  try (by intros ?; split; [by apply Hok | done]);
  try (by intros ?; split; [by apply Hok | by right]);
  try (by intros ?; split; [done | by left]).

Lemma FlagsOk_step (opts : S3UploadOptions) (e e' : Engine) (ev : Event) :
  FlagsOk e -> step opts e ev = Some e' -> FlagsOk e'.
Proof.
  intros Hok H. pose proof (Flags_step_inner opts e e' ev H) as HF.
  destruct ev; try (by eapply FlagsOk_Flags); clear HF; simpl in H.
  - (* StartUpload *)
    inversion H; subst e'. clear H. unfold startUpload.
    assert (Hthrow : forall err,
              FlagsOk (push_caller {| c_kind := FromStart; c_pc := Thrown err |}
                         e))
      by (intros err; apply (FlagsOk_push e); flags_close Hok).
    destruct (currentFile (hook e)) as [f|]; [|done].
    destruct (String.eqb _ _); [done|].
    apply (FlagsOk_push e); flags_close Hok.
  - (* ResumeUpload *)
    unfold resumeUpload in H.
    assert (Hthrow : forall err,
              FlagsOk (push_caller {| c_kind := FromResume; c_pc := Thrown err |}
                         e))
      by (intros err; apply (FlagsOk_push e); flags_close Hok).
    destruct (currentFile (hook e)) as [f|]; [|by inversion H; subst].
    destruct (isCompleted (hook e)) eqn:Hd; [by inversion H; subst|].
    match type of H with
    | start_pass _ _ (push_caller ?cl (fold_left _ _ ?e1)) = _ =>
        assert (HF : Flags e1 (fold_left resume_chunk (chunks (hook e1)) e1))
          by apply Flags_fold, Flags_resume_chunk;
        assert (Hp : FlagsOk (push_caller cl
                                (fold_left resume_chunk (chunks (hook e1)) e1)));
        [|assert (Hc : callers (push_caller cl
                                  (fold_left resume_chunk (chunks (hook e1)) e1))
                       !! length (callers e) = Some cl)]
    end.
    + destruct HF as [Fc Fu Fd Fs Fk Fi]. simpl in *.
      apply (FlagsOk_push e); simpl; try done.
      * rewrite Fd. intros _. split; [done | by left].
      * rewrite Fs, Fd, Hd. intros Hs. apply Hok in Hs. congruence.
      * rewrite Fk. intros Hk. by right.
      * by rewrite Fi.
    + unfold push_caller. cbn [callers set_callers].
      rewrite (fl_callers _ _ HF). by apply list_lookup_middle.
    + eapply FlagsOk_start_pass; [exact Hp | exact Hc | reflexivity | | |exact H];
        simpl; [by left | done].
  - (* CheckResponse *)
    unfold check_response in H.
    destruct (callers e !! c) as [cl|] eqn:Hc; simpl in H; [|done].
    destruct (currentFile (hook e)) as [f|]; simpl in H; [|done].
    destruct (c_pc cl) eqn:Epc; try done.
    destruct r as [err|result].
    + inversion H; subst.
      apply (FlagsOk_caller_throw e _ c cl); try done; flags_close Hok.
    + destruct (fileExists result && isComplete result).
      * inversion H; subst.
        apply (FlagsOk_move e _ c cl); try done; flags_close Hok.
      * pose proof (FlagsOk_unchecked e Hok) as Hok0.
        match type of H with
        | context [upd_hook (set_isCheckingUpload false) ?e1] =>
            assert (HF1 : Flags e e1)
        end.
        { destruct (session result) as [s|]; [|done].
          etrans; [|apply Flags_start_reconcile]. flags_hook. }
        match type of H with
        | context [upd_hook (set_isCheckingUpload false) ?e1] =>
            assert (HF2 : Flags (upd_hook (set_isCheckingUpload false) e)
                            (upd_hook (set_isCheckingUpload false) e1))
              by (destruct HF1; by split)
        end.
        match type of H with
        | match ?o with _ => _ end = _ => destruct o
        end.
        -- eapply (FlagsOk_start_transfer opts _ _ e' c cl);
             [exact Hok0 | exact Hc | exact HF2 | by right | congruence
             | exact H].
        -- inversion H; subst. destruct HF1 as [Fc Fu Fd Fs Fk Fi].
           apply (FlagsOk_move _ _ c cl _ Hok0); try done;
             cbn [hook upd_hook set_hook set_calls isUploading isCompleted
                  isSecondTransfer isCheckingUpload isInitializing
                  set_isInitializing set_isCheckingUpload];
             rewrite ?Fu, ?Fd, ?Fs; flags_close Hok.
  - (* InitializeResponse *)
    unfold initialize_response in H.
    destruct (callers e !! c) as [cl|] eqn:Hc; simpl in H; [|done].
    destruct (c_pc cl) eqn:Epc; try done.
    destruct r as [err|res]; [|destruct (init_success res)];
      inversion H; subst; clear H.
    + apply (FlagsOk_caller_throw e _ c cl); try done; flags_close Hok.
    + apply (FlagsOk_move e _ c cl); try done; flags_close Hok.
    + apply (FlagsOk_caller_throw e _ c cl); try done; flags_close Hok.
  - (* ChunksHashed *)
    unfold chunks_hashed in H.
    destruct (callers e !! c) as [cl|] eqn:Hc; simpl in H; [|done].
    destruct (currentFile (hook e)) as [f|]; simpl in H; [|done].
    destruct (c_pc cl) eqn:Epc; try done.
    destruct ok.
    + eapply (FlagsOk_start_transfer opts e _ e' c cl);
        [exact Hok | exact Hc | apply Flags_store_chunks | left; congruence
        | congruence | exact H].
    + inversion H; subst.
      apply (FlagsOk_caller_throw e _ c cl); try done; flags_close Hok.
  - (* CompleteResponse *)
    unfold complete_response in H.
    destruct (callers e !! c) as [cl|] eqn:Hc; simpl in H; [|done].
    destruct (c_pc cl) eqn:Epc; try done.
    assert (Hthrow : forall err, FlagsOk (caller_throw c err e))
      by (intros err; apply (FlagsOk_caller_throw e _ c cl); try done;
          flags_close Hok).
    destruct r as [err|res]; [|destruct (complete_success res)];
      inversion H; subst; clear H; try done.
    apply (FlagsOk_move e _ c cl); try done; flags_close Hok.
  - (* PassSettled *)
    unfold pass_settled in H.
    destruct (callers e !! c) as [cl|] eqn:Hc; simpl in H; [|done].
    destruct (c_pc cl) eqn:Epc; try done.
    destruct (passes e !! p) as [ps|]; simpl in H; [|done].
    assert (Hthrow : forall err, FlagsOk (caller_throw c err e))
      by (intros err; apply (FlagsOk_caller_throw e _ c cl); try done;
          flags_close Hok).
    assert (Hcomplete : FlagsOk (completeUpload c e)).
    { apply (FlagsOk_completeUpload e e c cl); try done;
        [left; congruence | congruence]. }
    destruct (p_pc ps), (c_kind cl); try done;
      try destruct (Nat.eqb _ _); inversion H; subst; try done.
    apply (FlagsOk_move e _ c cl); try done; flags_close Hok.
Qed.

Lemma FlagsOk_run (opts : S3UploadOptions) (evs : list Event) : forall e e',
  FlagsOk e -> run opts e evs = Some e' -> FlagsOk e'.
Proof.
  induction evs as [|ev evs IH]; intros e e' Hok H; simpl in H.
  - by inversion H; subst.
  - destruct (step opts e ev) as [e1|] eqn:Hs; simpl in H; [|done].
    eapply IH; [|exact H]. by eapply FlagsOk_step.
Qed.

Lemma FlagsOk_boot (f : File) (hash : string) : FlagsOk (boot f hash).
Proof. by split. Qed.

Lemma check_response_segments (opts : S3UploadOptions) (c : nat)
    (r : UploadError + S3CheckUploadResponse) (e : Engine) :
  check_response opts c r e
  = (e1 ← check_settled opts c r e; check_resumed opts c r e1).
Proof.
  unfold check_response, check_settled, check_resumed.
  destruct (callers e !! c) as [cl|]; [|done]. simpl.
  destruct (currentFile (hook e)) as [f|]; [|done]. simpl.
  destruct (c_pc cl); try done.
  destruct r as [err|result]; [done|].
  destruct (fileExists result && isComplete result); done.
Qed.

Lemma initialize_response_segments (c : nat)
    (r : UploadError + InitializeResult) (e : Engine) :
  initialize_response c r e
  = (e1 ← initialize_settled c e; initialize_resumed c r e1).
Proof.
  unfold initialize_response, initialize_settled, initialize_resumed.
  destruct (callers e !! c) as [cl|]; [|done]. simpl.
  destruct (c_pc cl); try done.
Qed.

(** What the last segment of [checkUploadStatus] leaves of the flags. *)
Lemma check_settled_flags (opts : S3UploadOptions) (c : nat)
    (r : UploadError + S3CheckUploadResponse) (e e1 : Engine) :
  check_settled opts c r e = Some e1 ->
  callers e1 = callers e
  /\ isUploading (hook e1) = isUploading (hook e)
  /\ isCheckingUpload (hook e1) = false
  /\ isInitializing (hook e1) = isInitializing (hook e)
  /\ (if instant r
      then isCompleted (hook e1) = true /\ isSecondTransfer (hook e1) = true
      else isCompleted (hook e1) = isCompleted (hook e)
           /\ isSecondTransfer (hook e1) = isSecondTransfer (hook e)).
Proof.
  unfold check_settled. intros H.
  destruct (callers e !! c) as [cl|]; simpl in H; [|done].
  destruct (currentFile (hook e)) as [f|]; simpl in H; [|done].
  destruct (c_pc cl); try done.
  destruct r as [err|result]; simpl.
  - by inversion H; subst.
  - destruct (fileExists result && isComplete result).
    + by inversion H; subst.
    + inversion H; subst. clear H.
      match goal with
      | |- context [upd_hook (set_isCheckingUpload false) ?x] =>
          assert (HF : Flags e x)
      end.
      { destruct (session result) as [s|]; [|done].
        etrans; [|apply Flags_start_reconcile].
        apply Flags_upd_hook. intros ?. by repeat split. }
      destruct HF as [Fc Fu Fd Fs Fk Fi]. by repeat split.
Qed.

Lemma initialize_settled_flags (c : nat) (e e1 : Engine) :
  initialize_settled c e = Some e1 ->
  callers e1 = callers e
  /\ isUploading (hook e1) = isUploading (hook e)
  /\ isCompleted (hook e1) = isCompleted (hook e)
  /\ isSecondTransfer (hook e1) = isSecondTransfer (hook e)
  /\ isCheckingUpload (hook e1) = isCheckingUpload (hook e)
  /\ isInitializing (hook e1) = false.
Proof.
  unfold initialize_settled. intros H.
  destruct (callers e !! c) as [cl|]; simpl in H; [|done].
  destruct (c_pc cl); try done. by inversion H; subst.
Qed.

(** The third step of the indicator, for flags with [isSecondTransfer]
    only next to [isCompleted]. *)
Lemma third_step_shown (calc : bool) (h : Hook) :
  fileHash h <> "" ->
  (isSecondTransfer h = true -> isCompleted h = true) ->
  (classesOf (getStepClass 3 calc h), getStepIcon 3 calc h)
  = if isCompleted h
    then (if isUploading h then ["completed"; "processing"] else ["completed"],
          "✅")
    else if isUploading h then (["processing"], "⏳")
         else (["active"], "🚀").
Proof.
  intros Hh HS. unfold classesOf, getStepClass, getStepIcon. simpl.
  destruct (String.eqb_spec (fileHash h) "") as [|_]; [done|].
  destruct (isCompleted h) eqn:Ed, (isUploading h) eqn:Eu,
    (isSecondTransfer h) eqn:Es; try done; by specialize (HS eq_refl).
Qed.

(** X14.  The flags of the hook in every state reached from a freshly
    selected file.  Between two events: [isUploading] and [isCompleted] are
    not both true, and [isUploading] is true only while some activation of
    [startUpload] or [resumeUpload] has not ended; [isSecondTransfer]
    implies [isCompleted]; [isCheckingUpload] is true only while some
    activation awaits the check answer, and [isInitializing] only while
    some activation awaits the initialize answer; so, once the file is
    fingerprinted, the third step of the indicator carries exactly one of
    the classes [processing], [completed] and [active], and its icon agrees
    with the class.  The steps [CheckResponse] and [InitializeResponse] run
    two segments with a render in between.  After the last segment of
    [checkUploadStatus], before [startUpload] goes on, the same holds but
    for one thing: [isUploading] and [isCompleted] are both true exactly
    when the answer announces an instant transfer and [isUploading] was
    true, and the third step then carries both [completed] and
    [processing], with the icon of [completed].  After the last segment of
    [initializeUpload] all of it holds. *)
Theorem hook_flags_consistent (opts : S3UploadOptions) (f : File)
    (hash : string) (evs : list Event) (e : Engine) :
  run opts (boot f hash) evs = Some e ->
  ((isUploading (hook e) = true ->
    isCompleted (hook e) = false
    /\ exists cl, cl ∈ callers e /\ active cl = true)
   /\ (isSecondTransfer (hook e) = true -> isCompleted (hook e) = true)
   /\ (isCheckingUpload (hook e) = true ->
       exists cl, cl ∈ callers e /\ c_pc cl = AwaitCheck)
   /\ (isInitializing (hook e) = true ->
       exists cl, cl ∈ callers e /\ c_pc cl = AwaitInitialize)
   /\ (fileHash (hook e) <> "" -> forall isCalculatingHash,
       (classesOf (getStepClass 3 isCalculatingHash (hook e)),
        getStepIcon 3 isCalculatingHash (hook e))
       = if isUploading (hook e) then (["processing"], "⏳")
         else if isCompleted (hook e) then (["completed"], "✅")
         else (["active"], "🚀")))
  /\ (forall (c : nat) (r : UploadError + S3CheckUploadResponse) (e1 : Engine),
        check_settled opts c r e = Some e1 ->
        step opts e (CheckResponse c r) = check_resumed opts c r e1
        /\ (isUploading (hook e1) = true ->
            exists cl, cl ∈ callers e1 /\ active cl = true)
        /\ (isUploading (hook e1) = true /\ isCompleted (hook e1) = true
            <-> instant r = true /\ isUploading (hook e) = true)
        /\ (instant r = true ->
            isCompleted (hook e1) = true /\ isSecondTransfer (hook e1) = true)
        /\ (isSecondTransfer (hook e1) = true -> isCompleted (hook e1) = true)
        /\ isCheckingUpload (hook e1) = false
        /\ (isInitializing (hook e1) = true ->
            exists cl, cl ∈ callers e1 /\ c_pc cl = AwaitInitialize)
        /\ (fileHash (hook e1) <> "" -> forall isCalculatingHash,
            (classesOf (getStepClass 3 isCalculatingHash (hook e1)),
             getStepIcon 3 isCalculatingHash (hook e1))
            = if isCompleted (hook e1)
              then (if isUploading (hook e1)
                    then ["completed"; "processing"] else ["completed"], "✅")
              else if isUploading (hook e1) then (["processing"], "⏳")
                   else (["active"], "🚀")))
  /\ (forall (c : nat) (r : UploadError + InitializeResult) (e1 : Engine),
        initialize_settled c e = Some e1 ->
        step opts e (InitializeResponse c r) = initialize_resumed c r e1
        /\ (isUploading (hook e1) = true ->
            isCompleted (hook e1) = false
            /\ exists cl, cl ∈ callers e1 /\ active cl = true)
        /\ (isSecondTransfer (hook e1) = true -> isCompleted (hook e1) = true)
        /\ (isCheckingUpload (hook e1) = true ->
            exists cl, cl ∈ callers e1 /\ c_pc cl = AwaitCheck)
        /\ isInitializing (hook e1) = false).
Proof.
  intros Hrun.
  destruct (FlagsOk_run opts evs _ _ (FlagsOk_boot f hash) Hrun)
    as [HU HS HC HI].
  split; [|split].
  - do 4 (split; [done|]). intros Hh calc.
    rewrite third_step_shown by done.
    destruct (isUploading (hook e)) eqn:Eu.
    + destruct (HU eq_refl) as [Hd _]. by rewrite Hd.
    + by destruct (isCompleted (hook e)).
  - intros c r e1 H1.
    destruct (check_settled_flags opts c r e e1 H1)
      as (Fc & Fu & Fk & Fi & Hr).
    assert (HS1 : isSecondTransfer (hook e1) = true ->
                  isCompleted (hook e1) = true).
    { destruct (instant r); destruct Hr as [Hd Hs]; [done|].
      rewrite Hd, Hs. exact HS. }
    split.
    { simpl. rewrite check_response_segments, H1. reflexivity. }
    split.
    { rewrite Fu, Fc. intros Hu. by apply HU. }
    split.
    { rewrite Fu. destruct (instant r); destruct Hr as [Hd Hs].
      - rewrite Hd. tauto.
      - rewrite Hd. split; [|by intros [? _]].
        intros [Hu Hc]. apply HU in Hu as [Hu _]. congruence. }
    split.
    { intros Hi. by rewrite Hi in Hr. }
    split; [exact HS1|]. split; [exact Fk|]. split.
    { rewrite Fi, Fc. exact HI. }
    intros Hh calc. by apply third_step_shown.
  - intros c r e1 H1.
    destruct (initialize_settled_flags c e e1 H1)
      as (Fc & Fu & Fd & Fs & Fk & Fi).
    split.
    { simpl. rewrite initialize_response_segments, H1. reflexivity. }
    rewrite Fc, Fu, Fd, Fs, Fk. done.
Qed.

Lemma hook_flags_consistent_witness :
  exists e e1,
    run defaultOptions (boot file23 "abc") [StartUpload] = Some e
    /\ check_settled defaultOptions 0 (inr checkComplete) e = Some e1
    /\ isUploading (hook e1) = true
    /\ isCompleted (hook e1) = true
    /\ classesOf (getStepClass 3 false (hook e1)) = ["completed"; "processing"].
Proof.
  destruct (run defaultOptions (boot file23 "abc") [StartUpload])
    as [e|] eqn:E; [|exfalso; revert E; vm_compute; discriminate].
  destruct (check_settled defaultOptions 0 (inr checkComplete) e)
    as [e1|] eqn:E1.
  2:{ exfalso. revert E1. injection E as <-. vm_compute. discriminate. }
  exists e, e1. split; [reflexivity|]. split; [exact E1|].
  assert (G : option_map (fun e1 => (isUploading (hook e1), isCompleted (hook e1),
                                     fileHash (hook e1)))
                (e ← run defaultOptions (boot file23 "abc") [StartUpload];
                 check_settled defaultOptions 0 (inr checkComplete) e)
              = Some (true, true, "abc")) by (vm_compute; reflexivity).
  rewrite E in G. simpl in G. rewrite E1 in G. simpl in G.
  injection G as G1 G2 G3.
  split; [exact G1|]. split; [exact G2|].
  destruct (hook_flags_consistent defaultOptions file23 "abc" [StartUpload] e E)
    as (_ & Hcheck & _).
  destruct (Hcheck 0%nat (inr checkComplete) e1 E1)
    as (_ & _ & _ & _ & _ & _ & _ & Hstep).
  assert (Hh : fileHash (hook e1) <> "") by (rewrite G3; discriminate).
  pose proof (Hstep Hh false) as Hs. rewrite G1, G2 in Hs.
  injection Hs as Hcls _. exact Hcls.
Defined.

(** * What the chunk grid shows *)

Lemma chunkObjects_heap (e : Engine) (c : S3ChunkInfo) :
  c ∈ chunkObjects e -> c ∈ heap e.
Proof.
  unfold chunkObjects. intros (a & _ & Ha)%list_elem_of_omap.
  by eapply list_elem_of_lookup_2.
Qed.

(** X15.  The chunk grid never shows a retry: in every state reached from
    a freshly selected file, for every chunk of [chunks.value], the status
    icon is the done mark or the resumed mark when the chunk is uploaded
    (the latter when [resumeInfo] is set), the arrow when it is not
    uploaded and its progress is positive, and the circle otherwise, never
    the warning sign, and the tooltip carries no retry count, even after
    failed uploads. *)
Theorem chunk_grid_never_shows_retry (opts : S3UploadOptions) (f : File)
    (hash : string) (evs : list Event) (e : Engine) (c : S3ChunkInfo) :
  run opts (boot f hash) evs = Some e -> c ∈ chunkObjects e ->
  let resumed := match resumeInfo (hook e) with
                 | Some _ => true | None => false end in
  getChunkStatusIcon (resumeInfo (hook e)) c
  = (if uploaded c then (if resumed then "🔄" else "✓")
     else if 0 <? progress c then "↑" else "○")
  /\ getChunkStatusIcon (resumeInfo (hook e)) c <> "⚠"
  /\ getChunkTooltip (resumeInfo (hook e)) c
     = ("S3分片 " ++ toString (partNumber c) ++ ": "
        ++ (if uploaded c then "已完成"
            else if (0 <? progress c)%Z then "上传中" else "等待中")
        ++ (if uploaded c && resumed then " (断点续传)" else ""))%string.
Proof.
  intros Hrun Hc resumed.
  assert (Hr : retryCount c = 0%nat).
  { destruct (Grows_run opts evs _ _ Hrun) as (new & Hf & Hev).
    simpl in Hev. pose proof (fresh_evolves _ _ Hev Hf) as Hall.
    apply chunkObjects_heap in Hc.
    by apply (proj1 (Forall_forall _ _) Hall). }
  unfold getChunkStatusIcon, getChunkTooltip. fold resumed. rewrite Hr.
  destruct (uploaded c), resumed, (0 <? progress c); done.
Qed.

Lemma chunk_grid_never_shows_retry_witness :
  exists e c,
    run defaultOptions (boot file23 "abc") first_chunk_fails = Some e
    /\ chunkObjects e !! 0%nat = Some c
    /\ uploaded c = false
    /\ getChunkStatusIcon (resumeInfo (hook e)) c = "↑".
Proof.
  destruct (run defaultOptions (boot file23 "abc") first_chunk_fails)
    as [e|] eqn:E; [|exfalso; revert E; vm_compute; discriminate].
  destruct (chunkObjects e !! 0%nat) as [c|] eqn:Ec.
  2: { exfalso.
       assert (G : option_map (fun e => length (chunkObjects e))
                     (run defaultOptions (boot file23 "abc") first_chunk_fails)
                   = Some 5%nat) by (vm_compute; reflexivity).
       rewrite E in G. simpl in G. injection G as G.
       apply lookup_ge_None in Ec. lia. }
  exists e, c. split; [reflexivity|]. split; [exact Ec|].
  assert (G : option_map
                (fun e => option_map (fun c => (uploaded c, 0 <? progress c))
                            (chunkObjects e !! 0%nat))
                (run defaultOptions (boot file23 "abc") first_chunk_fails)
              = Some (Some (false, true))) by (vm_compute; reflexivity).
  rewrite E in G. simpl in G. rewrite Ec in G. simpl in G.
  injection G as G1 G2. split; [exact G1|].
  destruct (chunk_grid_never_shows_retry defaultOptions file23 "abc"
              first_chunk_fails e c E) as (Hicon & _).
  { by eapply list_elem_of_lookup_2. }
  rewrite Hicon, G1, G2. reflexivity.
Defined.

(** * An undisturbed upload comes to its end *)

Lemma worker_can_move (opts : S3UploadOptions) (e : Engine) (ps : Pass)
    (k : nat) (w : Worker) :
  passes e = [ps] -> p_workers ps !! k = Some w -> worker_fine e k w ->
  w_promise w = Pending -> CanMove opts e.
Proof.
  intros Hps Hk [Hwc Hfine] Hpend.
  assert (Hg : get_worker 0 k e = Some w).
  { unfold get_worker. by rewrite Hps. }
  destruct (w_pc w) as [ctrl [tm|[]|err]| | |] eqn:Hpc; try done.
  - exists (XhrLoad 0 k 200 "OK" chunkOk). eexists.
    do 2 (split; [reflexivity|]).
    simpl. unfold xhr_load. rewrite Hg. simpl. rewrite Hpc. reflexivity.
  - exists (UploadSettled 0 k). eexists. do 2 (split; [reflexivity|]).
    simpl. unfold with_worker. rewrite Hg. simpl. unfold worker_resume.
    rewrite Hpc. reflexivity.
  - exists (PromiseReaction 0 k). eexists. do 2 (split; [reflexivity|]).
    simpl. unfold with_pass. rewrite Hps. simpl. unfold promise_reaction.
    rewrite Hk. simpl. rewrite Hpend, Hpc. reflexivity.
Qed.

Lemma pass_can_start (opts : S3UploadOptions) (n : nat) (e : Engine)
    (ps : Pass) :
  1 <= retryTimes opts ->
  isPaused (hook e) = false -> uploadSession (hook e) <> None ->
  length (heap e) = n ->
  (forall i c, heap e !! i = Some c ->
     index c = i /\ or_null (chunkHash c) <> None) ->
  (length (p_executing ps) < Z.to_nat (Z.max 1 (concurrent opts)))%nat ->
  exists e1 ps1,
    pass_loop opts (seq (length (p_workers ps)) (n - length (p_workers ps)))
      e ps = Some (e1, ps1).
Proof.
  intros Hr Hp Hs Hl Hh Hroom.
  destruct (pass_loop_effect opts
              (seq (length (p_workers ps)) (n - length (p_workers ps))) e ps)
    as (e1 & ps1 & new & Hloop & _); try done.
  - apply Forall_lookup. intros i c Hi. by destruct (Hh i c Hi).
  - apply Forall_forall. intros a Ha%elem_of_seq.
    apply lookup_lt_is_Some_2. lia.
  - by exists e1, ps1.
Qed.

Lemma race_has_room (c : Z) (ps : Pass) (snap : list nat) (k : nat)
    (w : Worker) :
  PassInv c ps -> p_pc ps = AwaitRace snap -> k ∈ snap ->
  p_workers ps !! k = Some w -> w_promise w <> Pending ->
  (length (p_executing ps) < Z.to_nat (Z.max 1 c))%nat.
Proof.
  intros Hpi Hpc Hin Hk Hpr.
  pose proof (inv_race _ _ Hpi) as Hr'. rewrite Hpc in Hr'.
  destruct Hr' as [Hsub Hbound].
  assert (Hnot : k ∉ p_executing ps).
  { rewrite (inv_executing _ _ Hpi).
    intros (j & -> & Hj)%pending_from_lookup. simpl in Hk.
    change (map w_promise (p_workers ps)) with (w_promise <$> p_workers ps) in Hj.
    rewrite list_lookup_fmap, Hk in Hj. simpl in Hj. congruence. }
  pose proof (sublist_missing_length _ _ _ Hsub Hin Hnot). lia.
Qed.

Lemma forallb_false {A} (p : A -> bool) (l : list A) :
  forallb p l = false -> exists x, x ∈ l /\ p x = false.
Proof.
  induction l as [|x l IH]; [done|]. simpl.
  destruct (p x) eqn:Hx.
  - intros (y & Hy & Hpy)%IH. exists y. split; [by apply list_elem_of_further|done].
  - intros _. exists x. split; [apply list_elem_of_here|done].
Qed.

Lemma Happy_can_move (opts : S3UploadOptions) (f : File) (e : Engine) :
  0 < chunkSize opts -> 0 < size f -> 1 <= retryTimes opts ->
  (forall a b, md5_of f a b <> "") ->
  Happy opts f e -> EngineInv (concurrent opts) e ->
  (exists r, callerState e 0 = Some (Returned r)) \/ CanMove opts e.
Proof.
  intros Hcs HF Hr Hmd5 (Hp & Hf & Hj & Hcl) Hinv. unfold callerState.
  destruct (callers e) as [|cl [|? ?]] eqn:Ecl; try done. simpl.
  destruct Hcl as [Hkind Hph].
  destruct (c_pc cl) eqn:Epc; try done.
  - (* AwaitCheck *)
    right. destruct Hph as (HBl & Hs & Hc).
    exists (CheckResponse 0 (inr checkNothing)). eexists.
    do 2 (split; [reflexivity|]). simpl. unfold check_response.
    rewrite Ecl. simpl. rewrite Hf. simpl. rewrite Epc. simpl. rewrite Hs.
    reflexivity.
  - (* AwaitInitialize *)
    right. exists (InitializeResponse 0 (inr initOk)). eexists.
    do 2 (split; [reflexivity|]). simpl. unfold initialize_response.
    rewrite Ecl. simpl. rewrite Epc. reflexivity.
  - (* AwaitCreateChunks *)
    right. destruct Hph as (HBl & Hs & Hc).
    destruct (fresh_plan opts f Hmd5 e HBl Hf)
      as (H1 & H2 & H3 & H4 & H5 & H6 & H7 & H8 & H9 & H10 & H11).
    set (e1 := updateTotalProgress (store_chunks (createChunks opts f) e)) in *.
    destruct (pass_can_start opts (chunkCount opts f) e1
                {| p_todo := []; p_executing := []; p_workers := [];
                   p_pc := AwaitAllSettled [] |})
      as (e2 & ps & Hloop); simpl; try done.
    { congruence. }
    { congruence. }
    { by rewrite H1, (createChunks_length opts f). }
    { intros i c. rewrite H1. intros Hi.
      by destruct (createChunks_fresh opts f Hmd5 i c Hi) as (? & _ & ?). }
    { lia. }
    simpl in Hloop. rewrite Nat.sub_0_r in Hloop.
    exists (ChunksHashed 0 true). eexists. do 2 (split; [reflexivity|]).
    simpl. unfold chunks_hashed. rewrite Ecl. simpl. rewrite Hf. simpl.
    rewrite Epc. unfold start_transfer. fold e1.
    unfold totalChunksOf. rewrite H3, H2, length_seq.
    pose proof (chunkCount_pos opts f Hcs HF) as Hpos.
    destruct (Nat.eqb_spec (length (@nil S3ChunkInfo)) (chunkCount opts f))
      as [Hz|_]; [simpl in Hz; lia|].
    unfold start_pass, uploadChunksConcurrently. rewrite H4, Hloop.
    reflexivity.
  - (* AwaitPass *)
    right.
    destruct Hph as [-> [Hs Hl Hch Hh (ps & Hps & Hw & Hc & Hlen & Hst)]].
    unfold EngineInv in Hinv. rewrite Hps in Hinv.
    apply Forall_cons in Hinv as [Hpi _].
    destruct (p_pc ps) as [snap|snap| |] eqn:Hpc; try done.
    + (* Promise.race *)
      destruct Hst as (Htodo & Hne & Hv & _).
      destruct snap as [|k snap]; [done|].
      apply Forall_cons in Hv as [Hk _].
      destruct (lookup_lt_is_Some_2 _ _ Hk) as [w Hkw].
      destruct (w_promise w) eqn:Hpr.
      * apply (worker_can_move opts e ps k w Hps Hkw (Hw k w Hkw) Hpr).
      * assert (Hroom : (length (p_executing ps)
                         < Z.to_nat (Z.max 1 (concurrent opts)))%nat).
        { eapply (race_has_room _ ps (k :: snap) k w); try done.
          - apply list_elem_of_here.
          - congruence. }
        destruct (pass_can_start opts (chunkCount opts f) e ps)
          as (e1 & ps1 & Hloop); try done.
        exists (RaceSettled 0 k). eexists. do 2 (split; [reflexivity|]).
        simpl. unfold with_pass. rewrite Hps. simpl. unfold race_settled.
        rewrite Hpc. rewrite bool_decide_eq_true_2 by apply list_elem_of_here.
        rewrite Hkw. simpl. rewrite Hpr, Htodo, Hloop. reflexivity.
      * destruct (Hw k w Hkw) as [_ Hfine]. rewrite Hpr in Hfine.
        destruct (w_pc w) as [ctrl [tm|[]|]| | |]; try done;
          by destruct Hfine.
    + (* Promise.allSettled *)
      destruct Hst as (Hn & Hin & Hv & _).
      destruct (forallb (is_settled ps) snap) eqn:Hall.
      * exists (AllSettled 0). eexists. do 2 (split; [reflexivity|]).
        simpl. unfold with_pass. rewrite Hps. simpl. unfold all_settled.
        rewrite Hpc, Hall. reflexivity.
      * apply forallb_false in Hall as (k & Hk & Hset).
        pose proof (proj1 (Forall_forall _ _) Hv k Hk) as Hlt.
        destruct (lookup_lt_is_Some_2 _ _ Hlt) as [w Hkw].
        unfold is_settled in Hset. rewrite Hkw in Hset.
        destruct (w_promise w) eqn:Hpr; try done.
        apply (worker_can_move opts e ps k w Hps Hkw (Hw k w Hkw) Hpr).
    + (* the pass has returned *)
      exists (PassSettled 0). eexists. do 2 (split; [reflexivity|]).
      simpl. unfold pass_settled. rewrite Ecl. simpl. rewrite Epc, Hps. simpl.
      rewrite Hpc, Hkind. reflexivity.
  - (* AwaitComplete *)
    right. exists (CompleteResponse 0 (inr completeOk)). eexists.
    do 2 (split; [reflexivity|]). simpl. unfold complete_response.
    rewrite Ecl. simpl. rewrite Epc. reflexivity.
  - left. by eexists.
Qed.

Lemma sum_list_with_insert {A} (r : A -> nat) (l : list A) (k : nat)
    (x y : A) :
  l !! k = Some x ->
  (sum_list_with r (<[k := y]> l) + r x = sum_list_with r l + r y)%nat.
Proof.
  revert k. induction l as [|z l IH]; intros k Hk; [done|].
  destruct k as [|k]; simpl in *.
  - inversion Hk; subst. lia.
  - specialize (IH k Hk). lia.
Qed.

Lemma stepsLeft_set_worker (n : nat) (e e1 : Engine) (ps : Pass) (k : nat)
    (w w' : Worker) :
  passes e = [ps] -> passes e1 = passes e -> callers e1 = callers e ->
  p_workers ps !! k = Some w -> (worker_rank w' < worker_rank w)%nat ->
  (stepsLeft n (set_worker 0 k w' e1) < stepsLeft n e)%nat.
Proof.
  intros Hps Hp1 Hc1 Hk Hlt. unfold stepsLeft, set_worker.
  rewrite Hp1, Hps. simpl. rewrite Hc1. unfold pass_rank. simpl.
  pose proof (sum_list_with_insert worker_rank _ k w w' Hk). lia.
Qed.

Lemma stepsLeft_set_pass (n : nat) (e e1 : Engine) (ps ps1 : Pass) :
  passes e = [ps] -> passes e1 = passes e -> callers e1 = callers e ->
  (pass_rank ps1 < pass_rank ps)%nat ->
  (stepsLeft n (set_passes (<[0%nat := ps1]> (passes e1)) e1)
   < stepsLeft n e)%nat.
Proof.
  intros Hps Hp1 Hc1 Hlt. unfold stepsLeft. simpl. rewrite Hp1, Hps, Hc1.
  simpl. lia.
Qed.

Lemma stepsLeft_caller (n : nat) (e e1 : Engine) (cl : Caller)
    (pc : CallerPc) :
  callers e = [cl] -> callers e1 = callers e -> passes e1 = passes e ->
  (caller_rank pc < caller_rank (c_pc cl))%nat ->
  (stepsLeft n (set_caller_pc 0 pc e1) < stepsLeft n e)%nat.
Proof.
  intros Hcl Hc1 Hp1 Hlt. unfold stepsLeft, set_caller_pc.
  rewrite Hc1, Hcl. simpl. rewrite Hp1. lia.
Qed.

Lemma transporting_rank (w : Worker) :
  transporting w = true -> worker_rank w = 3%nat.
Proof.
  unfold transporting, worker_rank.
  by destruct (w_pc w) as [ctrl [tm| |]| | |].
Qed.

Lemma sum_transporting (ws : list Worker) :
  Forall (fun w => transporting w = true /\ w_attempts w = 1
                   /\ w_promise w = Pending) ws ->
  sum_list_with worker_rank ws = (3 * length ws)%nat.
Proof.
  induction 1 as [|w ws (Ht & _) _ IH]; [done|]. simpl.
  rewrite (transporting_rank w Ht), IH. lia.
Qed.

(** What the scheduling loop does to the rank of its pass. *)
Lemma pass_loop_rank (opts : S3UploadOptions) (n : nat) (e e1 : Engine)
    (ps ps1 : Pass) :
  1 <= retryTimes opts ->
  isPaused (hook e) = false -> uploadSession (hook e) <> None ->
  length (heap e) = n ->
  (forall i c, heap e !! i = Some c ->
     index c = i /\ or_null (chunkHash c) <> None) ->
  (length (p_executing ps) < Z.to_nat (Z.max 1 (concurrent opts)))%nat ->
  (length (p_workers ps) <= n)%nat ->
  pass_loop opts (seq (length (p_workers ps)) (n - length (p_workers ps)))
    e ps = Some (e1, ps1) ->
  (pass_rank ps1
   < 5 * (n - length (p_workers ps))
     + sum_list_with worker_rank (p_workers ps) + 2)%nat
  /\ callers e1 = callers e /\ passes e1 = passes e.
Proof.
  intros Hr Hp Hs Hl Hh Hroom Hlen Hloop.
  set (lw := length (p_workers ps)) in *.
  set (lx := length (p_executing ps)) in *.
  set (limit := Z.to_nat (Z.max 1 (concurrent opts))) in *.
  destruct (pass_loop_effect opts (seq lw (n - lw)) e ps)
    as (e1' & ps1' & new & Hl' & Hws & Hch & Hnew & Hex & Htd & Hpc & Hcl
        & Hk & Hp1 & Hs1 & Hcl1 & Hps1); try done.
  { apply Forall_lookup. intros i c Hi. by destruct (Hh i c Hi). }
  { apply Forall_forall. intros a Ha%elem_of_seq.
    apply lookup_lt_is_Some_2. lia. }
  rewrite Hl' in Hloop. inversion Hloop; subst e1' ps1'. clear Hloop Hl'.
  rewrite length_seq in *. fold lw lx limit in Hch, Hex, Htd, Hpc, Hcl.
  set (kk := Nat.min (n - lw) (limit - lx)) in *.
  assert (Hln : length new = Nat.min kk (n - lw)).
  { rewrite <- (length_map w_chunk), Hch, length_take, length_seq. done. }
  split; [|done]. unfold pass_rank.
  rewrite Hws, sum_list_with_app, (sum_transporting new Hnew), Htd,
    length_drop, length_seq, Hpc, Hln.
  destruct (Nat.ltb_spec (n - lw) (limit - lx)); lia.
Qed.

Lemma Happy_step_decreases (opts : S3UploadOptions) (f : File)
    (e e' : Engine) (ev : Event) :
  0 < chunkSize opts -> 0 < size f -> 1 <= retryTimes opts ->
  (forall a b, md5_of f a b <> "") ->
  Happy opts f e -> EngineInv (concurrent opts) e ->
  undisturbed ev = true -> advances ev = true ->
  step opts e ev = Some e' ->
  (stepsLeft (chunkCount opts f) e' < stepsLeft (chunkCount opts f) e)%nat.
Proof.
  intros Hcs HF Hr Hmd5 HH Hinv Hund Hadv H.
  destruct ev; try done; simpl in H.
  - (* CheckResponse *)
    destruct r as [err|r]; [done|]. simpl in Hund.
    apply andb_prop in Hund as [Hnot Hsess].
    apply negb_true_iff in Hnot.
    destruct (session r) eqn:Es; [done|].
    destruct HH as (Hp & Hf & Hj & Hcl). unfold check_response in H.
    destruct (callers e) as [|cl [|? ?]] eqn:Ecl; try done.
    destruct c as [|c]; [|done]. simpl in H. rewrite Hf in H. simpl in H.
    destruct Hcl as [Hkind Hph].
    destruct (c_pc cl) eqn:Epc; try done.
    destruct Hph as (HBl & Hs & Hc).
    rewrite Hnot, Es in H. simpl in H. rewrite Hs in H.
    inversion H; subst e'. clear H.
    eapply (stepsLeft_caller _ e _ cl); try done. rewrite Epc. simpl. lia.
  - (* InitializeResponse *)
    destruct r as [err|res]; [done|]. simpl in Hund.
    apply andb_prop in Hund as [Hok Hsess].
    destruct HH as (Hp & Hf & Hj & Hcl). unfold initialize_response in H.
    destruct (callers e) as [|cl [|? ?]] eqn:Ecl; try done.
    destruct c as [|c]; [|done]. simpl in H.
    destruct Hcl as [Hkind Hph].
    destruct (c_pc cl) eqn:Epc; try done.
    rewrite Hok in H. inversion H; subst e'. clear H.
    eapply (stepsLeft_caller _ e _ cl); try done. rewrite Epc. simpl. lia.
  - (* ChunksHashed *)
    destruct ok; [|done].
    destruct HH as (Hp & Hf & Hj & Hcl). unfold chunks_hashed in H.
    destruct (callers e) as [|cl [|? ?]] eqn:Ecl; try done.
    destruct c as [|c]; [|done]. simpl in H. rewrite Hf in H. simpl in H.
    destruct Hcl as [Hkind Hph].
    destruct (c_pc cl) eqn:Epc; try done.
    destruct Hph as (HBl & Hs & Hc).
    unfold start_transfer in H.
    destruct (fresh_plan opts f Hmd5 e HBl Hf)
      as (H1 & H2 & H3 & H4 & H5 & H6 & H7 & H8 & H9 & H10 & H11).
    set (e1 := updateTotalProgress (store_chunks (createChunks opts f) e)) in *.
    unfold totalChunksOf in H. rewrite H3, H2, length_seq in H.
    pose proof (chunkCount_pos opts f Hcs HF) as Hpos.
    destruct (Nat.eqb_spec (length (@nil S3ChunkInfo)) (chunkCount opts f))
      as [Hz|_]; [simpl in Hz; lia|].
    unfold start_pass, uploadChunksConcurrently in H. rewrite H4 in H.
    match type of H with
    | context [pass_loop ?o ?t ?s ?p] =>
        destruct (pass_loop o t s p) as [[e2 ps]|] eqn:Hloop
    end; [|done].
    simpl in H. inversion H; subst e'. clear H.
    destruct (pass_loop_rank opts (chunkCount opts f) e1 e2
                {| p_todo := []; p_executing := []; p_workers := [];
                   p_pc := AwaitAllSettled [] |} ps)
      as (Hrank & Hcl2 & Hps2); simpl; try done.
    { congruence. }
    { congruence. }
    { by rewrite H1, (createChunks_length opts f). }
    { intros i c. rewrite H1. intros Hi.
      by destruct (createChunks_fresh opts f Hmd5 i c Hi) as (? & _ & ?). }
    { lia. }
    { lia. }
    { by rewrite Nat.sub_0_r. }
    simpl in Hrank. destruct HBl as (_ & Hnil & _).
    unfold stepsLeft, set_caller_pc. simpl. rewrite Hcl2, H6, ?Ecl. simpl.
    rewrite Hps2, H5, Hnil, Epc. simpl. lia.
  - (* Reconciled *)
    destruct HH as (_ & _ & Hj & _). unfold reconciled in H.
    by rewrite Hj in H.
  - (* CompleteResponse *)
    destruct r as [err|res]; [done|]. simpl in Hund.
    destruct HH as (Hp & Hf & Hj & Hcl). unfold complete_response in H.
    destruct (callers e) as [|cl [|? ?]] eqn:Ecl; try done.
    destruct c as [|c]; [|done]. simpl in H.
    destruct Hcl as [Hkind Hph].
    destruct (c_pc cl) eqn:Epc; try done.
    rewrite Hund in H. inversion H; subst e'; clear H.
    eapply (stepsLeft_caller _ e _ cl); try done. rewrite Epc. simpl. lia.
  - (* PassSettled *)
    destruct HH as (Hp & Hf & Hj & Hcl). unfold pass_settled in H.
    destruct (callers e) as [|cl [|? ?]] eqn:Ecl; try done.
    destruct c as [|c]; [|done]. simpl in H.
    destruct Hcl as [Hkind Hph].
    destruct (c_pc cl) eqn:Epc; try done.
    destruct Hph as [-> [Hs Hl Hch Hh (ps & Hps & Hw & Hc & Hlen & Hst)]].
    rewrite Hps in H. simpl in H. rewrite Hkind in H.
    destruct (p_pc ps) eqn:Hpc; try done.
    inversion H; subst e'. clear H. unfold completeUpload.
    destruct (uploadSession (hook e)) eqn:Es; [|done]. rewrite Hp.
    eapply (stepsLeft_caller _ e _ cl); try done. rewrite Epc. simpl. lia.
  - (* XhrLoad *)
    destruct body as [result|]; [|done]. simpl in Hund.
    assert (Hne : passes e <> []).
    { unfold xhr_load, get_worker in H. intros Hnil. rewrite Hnil in H.
      by destruct p. }
    destruct (Happy_uploading opts f e HH Hne)
      as [d [Hs Hl Hch Hh (ps & Hps & Hw & Hc & Hlen & Hst)]].
    unfold xhr_load, get_worker in H. rewrite Hps in H.
    destruct p as [|p]; [|done]. simpl in H.
    destruct (p_workers ps !! k) as [w|] eqn:Hk; [|done]. simpl in H.
    destruct (w_pc w) as [ctrl [tm| |]| | |] eqn:Hpc; try done.
    apply andb_prop in Hund as [Hst' Hsucc]. rewrite Hst', Hsucc in H.
    inversion H; subst e'. clear H.
    eapply (stepsLeft_set_worker _ e _ ps k w); try done.
    + by autorewrite with frame.
    + etrans; [apply Quiet_updateTotalProgress | apply Quiet_upd_chunk].
    + unfold worker_rank. simpl. rewrite Hpc. lia.
  - (* UploadSettled *)
    assert (Hne : passes e <> []) by (by eapply with_worker_passes).
    destruct (Happy_uploading opts f e HH Hne)
      as [d [Hs Hl Hch Hh (ps & Hps & Hw & Hc & Hlen & Hst)]].
    unfold with_worker, get_worker in H. rewrite Hps in H.
    destruct p as [|p]; [|done]. simpl in H.
    destruct (p_workers ps !! k) as [w|] eqn:Hk; [|done]. simpl in H.
    destruct (Hw k w Hk) as [Hwc Hfine]. unfold worker_resume in H.
    destruct (w_pc w) as [ctrl [tm|[]|]| | |] eqn:Hpc; try done.
    simpl in H. unfold worker_exit in H. simpl in H.
    inversion H; subst e'. clear H. destruct Hfine as [Hpend _].
    eapply (stepsLeft_set_worker _ e _ ps k w); try done.
    + by autorewrite with frame.
    + apply Quiet_worker_finally.
    + unfold worker_rank. simpl. rewrite Hpc, Hpend. lia.
  - (* DelayElapsed *)
    unfold with_worker in H.
    destruct (get_worker p k e) as [w|] eqn:Hg; [|done]. simpl in H.
    destruct (Happy_worker opts f _ _ _ _ HH Hg) as [_ [_ Hfine]].
    unfold worker_after_delay in H.
    by destruct (w_pc w) as [ctrl [tm|[]|]| | |].
  - (* PromiseReaction *)
    assert (Hne : passes e <> []) by (by eapply with_pass_passes).
    destruct (Happy_uploading opts f e HH Hne)
      as [d [Hs Hl Hch Hh (ps & Hps & Hw & Hc & Hlen & Hst)]].
    unfold with_pass in H. rewrite Hps in H.
    destruct p as [|p]; [|done]. simpl in H.
    unfold promise_reaction in H.
    destruct (p_workers ps !! k) as [w|] eqn:Hk; [|done]. simpl in H.
    destruct (Hw k w Hk) as [Hwc Hfine].
    destruct (w_promise w) eqn:Hpr; try done.
    destruct (w_pc w) as [ctrl x| | |] eqn:Hpc; try done.
    simpl in H. inversion H; subst e'. clear H.
    eapply (stepsLeft_set_pass _ e e ps); try done.
    unfold pass_rank. simpl.
    pose proof (sum_list_with_insert worker_rank _ k w
                  (set_w_promise Fulfilled w) Hk) as Hsum.
    assert (R1 : worker_rank w = 1%nat).
    { unfold worker_rank. by rewrite Hpc, Hpr. }
    assert (R2 : worker_rank (set_w_promise Fulfilled w) = 0%nat).
    { unfold worker_rank. simpl. by rewrite Hpc. }
    rewrite R1, R2 in Hsum. lia.
  - (* RaceSettled *)
    assert (Hne : passes e <> []) by (by eapply with_pass_passes).
    destruct (Happy_uploading opts f e HH Hne)
      as [d [Hs Hl Hch Hh (ps & Hps & Hw & Hc & Hlen & Hst)]].
    destruct HH as (Hp & _).
    unfold with_pass in H. rewrite Hps in H.
    destruct p as [|p]; [|done]. simpl in H.
    destruct (race_settled opts k e ps) as [[e1 ps1]|] eqn:Hrace; [|done].
    simpl in H. inversion H; subst e'. clear H.
    unfold race_settled in Hrace.
    destruct (p_pc ps) as [snap|snap| |] eqn:Hpc; try done.
    destruct Hst as (Htodo & _ & _ & ->).
    destruct (bool_decide (k ∈ snap)) eqn:Hin; [|done].
    apply bool_decide_eq_true in Hin.
    destruct (p_workers ps !! k) as [w|] eqn:Hk; [|done]. simpl in Hrace.
    destruct (Hw k w Hk) as [_ Hfine].
    destruct (w_promise w) eqn:Hpr; try done.
    2: { destruct (w_pc w) as [ctrl [tm|[]|]| | |]; try done;
         by destruct Hfine. }
    unfold EngineInv in Hinv. rewrite Hps in Hinv.
    apply Forall_cons in Hinv as [Hpi _].
    assert (Hroom : (length (p_executing ps)
                     < Z.to_nat (Z.max 1 (concurrent opts)))%nat).
    { eapply (race_has_room _ ps snap k w); try done. congruence. }
    rewrite Htodo in Hrace.
    destruct (pass_loop_rank opts (chunkCount opts f) e e1 ps ps1)
      as (Hrank & Hcl1 & Hps1); try done.
    eapply (stepsLeft_set_pass _ e e1 ps); try done.
    unfold pass_rank at 2. rewrite Hpc, Htodo, length_seq. lia.
  - (* AllSettled *)
    assert (Hne : passes e <> []) by (by eapply with_pass_passes).
    destruct (Happy_uploading opts f e HH Hne)
      as [d [Hs Hl Hch Hh (ps & Hps & Hw & Hc & Hlen & Hst)]].
    unfold with_pass in H. rewrite Hps in H.
    destruct p as [|p]; [|done]. simpl in H.
    unfold all_settled in H.
    destruct (p_pc ps) as [snap|snap| |] eqn:Hpc; try done.
    destruct (forallb (is_settled ps) snap) eqn:Hall; [|done].
    simpl in H. inversion H; subst e'. clear H.
    eapply (stepsLeft_set_pass _ e e ps); try done.
    unfold pass_rank. simpl. rewrite Hpc. lia.
Qed.

Lemma stepsLeft_idle (opts : S3UploadOptions) (n : nat) (e e' : Engine)
    (ev : Event) :
  advances ev = false -> step opts e ev = Some e' ->
  stepsLeft n e' = stepsLeft n e.
Proof.
  intros Hadv H. destruct ev; try done; simpl in H.
  - destruct (0 <=? dt); [|done]. by inversion H; subst e'.
  - destruct (xhr_progress_quiet _ _ _ _ _ _ H) as [(Hc & _) Hp].
    unfold stepsLeft. by rewrite Hc, Hp.
Qed.

Lemma Happy_run_bound (opts : S3UploadOptions) (f : File)
    (evs : list Event) : forall e e',
  0 < chunkSize opts -> 0 < size f -> 1 <= retryTimes opts ->
  (forall a b, md5_of f a b <> "") ->
  Happy opts f e -> EngineInv (concurrent opts) e ->
  forallb undisturbed evs = true -> run opts e evs = Some e' ->
  (length (List.filter advances evs) + stepsLeft (chunkCount opts f) e'
   <= stepsLeft (chunkCount opts f) e)%nat.
Proof.
  induction evs as [|ev evs IH]; intros e e' Hcs HF Hr Hmd5 HH Hinv Hund H;
    simpl in H.
  - inversion H; subst. simpl. lia.
  - simpl in Hund. apply andb_prop in Hund as [Hev Hevs].
    destruct (step opts e ev) as [e1|] eqn:Hstep; [|done]. simpl in H.
    assert (HH1 : Happy opts f e1) by (by eapply Happy_step).
    assert (Hinv1 : EngineInv (concurrent opts) e1) by (by eapply step_inv).
    specialize (IH e1 e' Hcs HF Hr Hmd5 HH1 Hinv1 Hevs H). simpl.
    destruct (advances ev) eqn:Hadv.
    + pose proof (Happy_step_decreases opts f e e1 ev Hcs HF Hr Hmd5 HH Hinv
                    Hev Hadv Hstep). simpl. lia.
    + rewrite <- (stepsLeft_idle opts _ e e1 ev Hadv Hstep). lia.
Qed.

Lemma Happy_can_finish (opts : S3UploadOptions) (f : File) (m : nat) :
  forall e,
  0 < chunkSize opts -> 0 < size f -> 1 <= retryTimes opts ->
  (forall a b, md5_of f a b <> "") ->
  (stepsLeft (chunkCount opts f) e <= m)%nat ->
  Happy opts f e -> EngineInv (concurrent opts) e ->
  exists more e',
    forallb undisturbed more = true /\ run opts e more = Some e'
    /\ exists r, callerState e' 0 = Some (Returned r).
Proof.
  induction m as [|m IH]; intros e Hcs HF Hr Hmd5 Hm HH Hinv;
    (destruct (Happy_can_move opts f e Hcs HF Hr Hmd5 HH Hinv)
      as [Hret|(ev & e1 & Hund & Hadv & Hstep)];
     [by exists [], e|]);
    pose proof (Happy_step_decreases opts f e e1 ev Hcs HF Hr Hmd5 HH Hinv
                  Hund Hadv Hstep) as Hlt; [lia|].
  destruct (IH e1 Hcs HF Hr Hmd5) as (more & e' & Hmore & Hrun & Hret);
    [lia | by eapply Happy_step | by eapply step_inv |].
  exists (ev :: more), e'. simpl. rewrite Hund, Hmore, Hstep. done.
Qed.

(** X16.  An undisturbed upload never gets stuck and never runs on for
    ever.  From every state such an upload reaches, some further events of
    the same kind (answers and requests that succeed) bring [startUpload]
    to its return; and whatever the order of the events, the upload takes
    at most five of them per chunk plus seven, not counting clock ticks
    and progress reports. *)
Theorem undisturbed_upload_can_finish (opts : S3UploadOptions) (f : File)
    (hash : string) (evs : list Event) (e : Engine) :
  0 < chunkSize opts -> 0 < size f -> 1 <= retryTimes opts -> hash <> "" ->
  (forall a b, md5_of f a b <> "") ->
  forallb undisturbed evs = true ->
  run opts (boot f hash) (StartUpload :: evs) = Some e ->
  (exists more e',
      forallb undisturbed more = true /\ run opts e more = Some e'
      /\ exists r, callerState e' 0 = Some (Returned r))
  /\ (length (List.filter advances evs) <= 5 * chunkCount opts f + 7)%nat.
Proof.
  intros Hcs HF Hr Hhash Hmd5 Hund Hrun.
  change (run opts (startUpload (boot f hash)) evs = Some e) in Hrun.
  assert (HH0 : Happy opts f (startUpload (boot f hash)))
    by (by apply Happy_start).
  assert (Hinv0 : EngineInv (concurrent opts) (startUpload (boot f hash))).
  { eapply (step_inv opts (boot f hash) _ StartUpload); [|done].
    unfold EngineInv. simpl. constructor. }
  split.
  - eapply (Happy_can_finish opts f _ e); try done.
    + by eapply (Happy_run opts f Hcs HF Hr Hmd5 evs).
    + clear Hund. revert Hinv0 Hrun. generalize (startUpload (boot f hash)).
      induction evs as [|ev evs IH]; intros e0 Hinv0 Hrun; simpl in Hrun.
      * by inversion Hrun; subst.
      * destruct (step opts e0 ev) as [e1|] eqn:Hstep; [|done].
        eapply (IH e1); [by eapply step_inv | done].
  - pose proof (Happy_run_bound opts f evs _ e Hcs HF Hr Hmd5 HH0 Hinv0 Hund
                  Hrun) as Hb.
    assert (H0 : stepsLeft (chunkCount opts f) (startUpload (boot f hash))
                 = (5 * chunkCount opts f + 7)%nat).
    { unfold startUpload. simpl.
      destruct (String.eqb_spec hash "") as [|_]; [done|].
      unfold stepsLeft. simpl. lia. }
    lia.
Qed.

Lemma undisturbed_upload_can_finish_witness :
  exists e,
    run defaultOptions (boot file23 "abc") (StartUpload :: half_way) = Some e
    /\ callerState e 0 = Some (AwaitPass 0)
    /\ exists more e',
         forallb undisturbed more = true
         /\ run defaultOptions e more = Some e'
         /\ exists r, callerState e' 0 = Some (Returned r).
Proof.
  assert (Hc : 0 < chunkSize defaultOptions) by reflexivity.
  assert (HF : 0 < size file23) by reflexivity.
  assert (Hr : 1 <= retryTimes defaultOptions) by (vm_compute; discriminate).
  assert (Hh : "abc" <> "") by discriminate.
  assert (Hm : forall a b, md5_of file23 a b <> "") by (intros a b; discriminate).
  assert (Hu : forallb undisturbed half_way = true) by reflexivity.
  destruct (run defaultOptions (boot file23 "abc") (StartUpload :: half_way))
    as [e|] eqn:E; [|exfalso; revert E; vm_compute; discriminate].
  exists e. split; [reflexivity|].
  assert (G : option_map (fun e => callerState e 0)
                (run defaultOptions (boot file23 "abc")
                   (StartUpload :: half_way))
              = Some (Some (AwaitPass 0)))
    by (vm_compute; reflexivity).
  rewrite E in G. simpl in G. injection G as G'.
  split; [exact G'|].
  exact (proj1 (undisturbed_upload_can_finish defaultOptions file23 "abc"
                  half_way e Hc HF Hr Hh Hm Hu E)).
Defined.

(** * One activation of the local hook's scheduler *)

Lemma open_from_app (l r : list LocalPass.ThenSt) (i : nat) :
  open_from i (l ++ r) = open_from i l ++ open_from (i + length l) r.
Proof.
  revert i. induction l as [|s l IH]; intros i; simpl.
  - by rewrite Nat.add_0_r.
  - rewrite IH. replace (S i + length l)%nat with (i + S (length l))%nat by lia.
    by destruct s.
Qed.

Lemma open_from_lookup (l : list LocalPass.ThenSt) (i x : nat) :
  x ∈ open_from i l ->
  exists j s, x = (i + j)%nat /\ l !! j = Some s /\ s <> LocalPass.Fulfilled.
Proof.
  revert i. induction l as [|s l IH]; intros i; simpl.
  - by intros ?%elem_of_nil.
  - intros H.
    assert (Hrest : x ∈ open_from (S i) l ->
              exists j s', x = (i + j)%nat /\ (s :: l) !! j = Some s'
                           /\ s' <> LocalPass.Fulfilled).
    { intros (j & s' & -> & Hj & Hs)%IH. exists (S j), s'.
      split; [lia | done]. }
    destruct s; auto;
      (apply elem_of_cons in H as [->|H]; auto;
       exists 0%nat; eexists; split; [lia | done]).
Qed.

Lemma open_from_elem (l : list LocalPass.ThenSt) :
  forall i j s, l !! j = Some s -> s <> LocalPass.Fulfilled ->
                (i + j)%nat ∈ open_from i l.
Proof.
  induction l as [|s0 l IH]; intros i j s Hj Hs; [done|].
  destruct j as [|j]; simpl in Hj.
  - inversion Hj; subst. simpl. rewrite Nat.add_0_r.
    destruct s; try done; apply list_elem_of_here.
  - specialize (IH (S i) j s Hj Hs).
    replace (i + S j)%nat with (S i + j)%nat by lia.
    simpl. destruct s0; try done; by apply list_elem_of_further.
Qed.

(** The [then] callback always finds its promise in [executing], so that
    [splice] takes out that promise and no other. *)
Lemma open_from_fulfil (l : list LocalPass.ThenSt) :
  forall i k s, l !! k = Some s -> s <> LocalPass.Fulfilled ->
    exists j, LocalPass.indexOf (open_from i l) (i + k) = Some j
              /\ open_from i (<[k := LocalPass.Fulfilled]> l)
                 = delete j (open_from i l).
Proof.
  induction l as [|s0 l IH]; intros i k s Hk Hs; [done|].
  destruct k as [|k]; simpl in Hk.
  - inversion Hk; subst s0. exists 0%nat. simpl.
    rewrite Nat.add_0_r.
    destruct s; try done; simpl; by rewrite Nat.eqb_refl.
  - destruct (IH (S i) k s Hk Hs) as (j & Hj & Heq).
    replace (S i + k)%nat with (i + S k)%nat in Hj by lia.
    destruct s0; simpl.
    + exists (S j). destruct (Nat.eqb_spec i (i + S k)); [lia|].
      rewrite Hj. simpl. by rewrite Heq.
    + exists j. done.
    + exists (S j). destruct (Nat.eqb_spec i (i + S k)); [lia|].
      rewrite Hj. simpl. by rewrite Heq.
Qed.

Lemma open_from_same (l l' : list LocalPass.ThenSt) (i : nat) :
  Forall2 (fun a b => a = LocalPass.Fulfilled <-> b = LocalPass.Fulfilled) l l' ->
  open_from i l = open_from i l'.
Proof.
  intros H. revert i. induction H as [|a b l l' Hab _ IH]; intros i; [done|].
  simpl. rewrite (IH (S i)).
  destruct a, b; try done; destruct Hab as [H1 H2];
    try (by specialize (H1 eq_refl)); by specialize (H2 eq_refl).
Qed.

Lemma local_settled_no_event (c : Local.ChunkInfo) (t : Local.Transporter)
    (now : Z) (ev : Local.XhrEvent) :
  local_upload_ok c t -> Local.promise t <> Local.Pending ->
  Local.on_event now ev t = None.
Proof.
  intros (_ & _ & _ & _ & _ & _ & Hpr) Hset. unfold Local.on_event.
  destruct (Local.promise t) as [|v|m] eqn:Epr; [done| |].
  - destruct Hpr as (_ & _ & _ & ->). by destruct ev.
  - destruct Hpr as (_ & ->). by destruct ev.
Qed.

Lemma map_insert_same {A B} (g : A -> B) (l : list A) (k : nat) (x y : A) :
  l !! k = Some x -> g y = g x -> map g (<[k := y]> l) = map g l.
Proof.
  intros Hk Hg. change (map g ?l) with (g <$> l).
  rewrite list_fmap_insert, Hg. apply list_insert_id.
  by rewrite list_lookup_fmap, Hk.
Qed.

Section LocalPass.
Context (retryTimes concurrent : Z) (pendingChunks : list Local.ChunkInfo).

Lemma uploadSingleChunk_chunk (now : Z) (c : Local.ChunkInfo) :
  LocalPass.s_chunk (LocalPass.uploadSingleChunk retryTimes false now c) = c
  /\ LocalPass.s_then (LocalPass.uploadSingleChunk retryTimes false now c)
     = LocalPass.Waiting.
Proof.
  unfold LocalPass.uploadSingleChunk, LocalPass.loop_test. simpl.
  by destruct (0 <? retryTimes).
Qed.

Lemma single_ok_start (now : Z) (c : Local.ChunkInfo) :
  Local.uploaded c = false ->
  (single_ok retryTimes) (LocalPass.uploadSingleChunk retryTimes false now c).
Proof.
  intros Hu. unfold LocalPass.uploadSingleChunk, LocalPass.loop_test. simpl.
  destruct (Z.ltb_spec 0 retryTimes); simpl.
  - do 2 (split; [done|]). do 2 (split; [done|]). eexists. split; [done|].
    by apply local_upload_ok_start.
  - do 2 (split; [done|]). right. by repeat split.
Qed.

Lemma lp_pass_loop (chunks : list Local.ChunkInfo) : forall ps,
  pendingChunks = map LocalPass.s_chunk (LocalPass.singles ps) ++ chunks ->
  Forall (fun c => Local.uploaded c = false) chunks ->
  Forall (single_ok retryTimes) (LocalPass.singles ps) ->
  LocalPass.executing ps
  = open_from 0 (map LocalPass.s_then (LocalPass.singles ps)) ->
  Z.of_nat (length (LocalPass.executing ps)) < Z.max 1 concurrent ->
  LocalPassInv retryTimes concurrent pendingChunks (LocalPass.pass_loop retryTimes concurrent chunks ps).
Proof.
  induction chunks as [|c rest IH]; intros ps Hplan Hfresh Hok Hex Hlen.
  - simpl. split; simpl; try done; [lia|].
    intros k s Hk Hs. rewrite Hex. apply (open_from_elem _ 0%nat k (LocalPass.s_then s)); [|done].
    change (map ?g ?l) with (g <$> l). by rewrite list_lookup_fmap, Hk.
  - simpl. destruct (LocalPass.isPaused ps) eqn:Hp.
    + split; simpl; try done; [lia|].
      intros k s Hk Hs. rewrite Hex.
      apply (open_from_elem _ 0%nat k (LocalPass.s_then s)); [|done].
      change (map ?g ?l) with (g <$> l). by rewrite list_lookup_fmap, Hk.
    + apply Forall_cons in Hfresh as [Hc Hfresh].
      destruct (uploadSingleChunk_chunk (LocalPass.clock ps) c) as [Hsc Hst].
      pose proof (single_ok_start (LocalPass.clock ps) c Hc) as Hnew.
      set (new := LocalPass.uploadSingleChunk retryTimes false
                    (LocalPass.clock ps) c) in *.
      assert (Hplan1 : pendingChunks
                = map LocalPass.s_chunk (LocalPass.singles ps ++ [new]) ++ rest).
      { rewrite Hplan, map_app, <- app_assoc. simpl. by rewrite Hsc. }
      assert (Hok1 : Forall (single_ok retryTimes) (LocalPass.singles ps ++ [new])).
      { apply Forall_app. split; [done|]. by constructor. }
      assert (Hex1 : LocalPass.executing ps ++ [length (LocalPass.singles ps)]
                = open_from 0 (map LocalPass.s_then
                                 (LocalPass.singles ps ++ [new]))).
      { rewrite map_app, open_from_app, <- Hex, length_map. simpl.
        by rewrite Hst. }
      destruct (Z.leb_spec concurrent
                  (Z.of_nat (length (LocalPass.executing ps
                                      ++ [length (LocalPass.singles ps)])))).
      * rewrite length_app in *. simpl in *.
        split; simpl; try done; [rewrite length_app; simpl; lia|].
        split; [done|]. rewrite length_app. simpl. lia.
      * apply IH; simpl; try done. lia.
Qed.

Lemma lp_with_single (k : nat)
    (g : LocalPass.Single -> option LocalPass.Single)
    (ps ps' : LocalPass.Pass) :
  (forall s s1, LocalPass.singles ps !! k = Some s -> (single_ok retryTimes) s -> g s = Some s1 ->
     (single_ok retryTimes) s1 /\ LocalPass.s_then s1 = LocalPass.s_then s
     /\ LocalPass.s_chunk s1 = LocalPass.s_chunk s) ->
  LocalPassInv retryTimes concurrent pendingChunks ps -> LocalPass.with_single k g ps = Some ps' -> LocalPassInv retryTimes concurrent pendingChunks ps'.
Proof.
  intros Hg [Hplan Hfresh Hok Hex Hb Hpc] H. unfold LocalPass.with_single in H.
  destruct (LocalPass.singles ps !! k) as [s|] eqn:Hk; [|done]. simpl in H.
  destruct (g s) as [s1|] eqn:Hgs; [|done]. simpl in H.
  inversion H; subst ps'. clear H.
  destruct (Hg s s1 eq_refl (Forall_lookup_1 _ _ _ _ Hok Hk) Hgs)
    as (Hok1 & Hthen & Hchunk).
  assert (Hlook : forall k' s', <[k := s1]> (LocalPass.singles ps) !! k' = Some s' ->
            exists s0, LocalPass.singles ps !! k' = Some s0
                       /\ LocalPass.s_then s' = LocalPass.s_then s0).
  { intros k' s' Hk'. destruct (decide (k' = k)) as [->|Hne].
    - rewrite list_lookup_insert_eq in Hk' by (by eapply lookup_lt_Some).
      inversion Hk'; subst s'. by exists s.
    - rewrite list_lookup_insert_ne in Hk' by done. by exists s'. }
  split; simpl.
  - by rewrite (map_insert_same _ _ k s s1).
  - done.
  - apply Forall_insert; done.
  - by rewrite (map_insert_same _ _ k s s1).
  - done.
  - destruct (LocalPass.pc ps) as [snap|snap| |m]; try done.
    + intros k' s' Hk' Hs'. destruct (Hlook k' s' Hk') as (s0 & Hk0 & Heq).
      apply (Hpc k' s0 Hk0). congruence.
    + apply Forall_insert; [done|]. rewrite Hthen.
      by apply (Forall_lookup_1 _ _ _ _ Hpc Hk).
    + destruct Hpc as (k' & s' & Hk' & Hs').
      destruct (decide (k' = k)) as [->|Hne].
      * exists k, s1. rewrite list_lookup_insert_eq by (by eapply lookup_lt_Some).
        split; [done|]. rewrite Hthen. congruence.
      * exists k', s'. by rewrite list_lookup_insert_ne.
Qed.

Lemma lp_room (ps : LocalPass.Pass) (snap : list nat) (k : nat)
    (s : LocalPass.Single) :
  LocalPassInv retryTimes concurrent pendingChunks ps -> LocalPass.pc ps = LocalPass.AwaitRace snap -> k ∈ snap ->
  LocalPass.singles ps !! k = Some s ->
  LocalPass.s_then s = LocalPass.Fulfilled ->
  Z.of_nat (length (LocalPass.executing ps)) < Z.max 1 concurrent.
Proof.
  intros [_ _ _ Hex _ Hpc] Hrace Hin Hk Hs. rewrite Hrace in Hpc.
  destruct Hpc as [Hsub Hbound].
  assert (Hnot : k ∉ LocalPass.executing ps).
  { rewrite Hex. intros (j & s' & -> & Hj & Hs')%open_from_lookup.
    simpl in Hk. change (map ?g ?l) with (g <$> l) in Hj.
    rewrite list_lookup_fmap, Hk in Hj. simpl in Hj. congruence. }
  pose proof (sublist_missing_length _ _ _ Hsub Hin Hnot). lia.
Qed.

Lemma lp_step (ps ps' : LocalPass.Pass) (ev : LocalPass.Event) :
  LocalPassInv retryTimes concurrent pendingChunks ps -> LocalPass.step retryTimes concurrent ps ev = Some ps' -> LocalPassInv retryTimes concurrent pendingChunks ps'.
Proof.
  intros HI H. destruct ev; simpl in H.
  - (* Tick *)
    destruct (0 <=? dt); [|done]. inversion H; subst ps'.
    by destruct HI.
  - (* SetPaused *)
    inversion H; subst ps'. by destruct HI.
  - (* Xhr *)
    eapply lp_with_single; [|exact HI|exact H]. simpl.
    intros s s1 Hk (Hpos & Hthen & Hpc) Hg.
    destruct (LocalPass.s_request s) as [t|] eqn:Hreq; [|done]. simpl in Hg.
    destruct (Local.on_event (LocalPass.clock ps) ev t) as [t1|] eqn:Hev;
      [|done]. simpl in Hg. inversion Hg; subst s1. clear Hg.
    split; [|done]. split; [intros _; by apply Hpos|]. split; [done|]. simpl.
    destruct (LocalPass.s_pc s) as [|until| |m]; try done.
    + destruct Hpc as (Ha & Hs & t0 & Ht0 & Hok0).
      inversion Ht0; subst t0.
      do 2 (split; [done|]). exists t1. split; [done|].
      by eapply local_upload_ok_step.
    + destruct Hpc as (Ha & t0 & Ht0 & Hok0 & Hpr).
      inversion Ht0; subst t0.
      rewrite (local_settled_no_event _ t _ ev Hok0) in Hev; [done|].
      congruence.
    + destruct Hpc as [(Ha & t0 & Ht0 & Hok0 & Hpr)|(_ & _ & Hnone & _)];
        [|congruence].
      inversion Ht0; subst t0.
      rewrite (local_settled_no_event _ t _ ev Hok0) in Hev; [done|].
      congruence.
  - (* UploadSettled *)
    eapply lp_with_single; [|exact HI|exact H]. simpl.
    intros s s1 Hk (Hpos & Hthen & Hpc) Hg. unfold LocalPass.after_upload in Hg.
    destruct (LocalPass.s_pc s) as [|until| |m] eqn:Epc; try done.
    destruct Hpc as (Ha & Hs & t & Ht & Hok0). rewrite Ht in Hg.
    assert (Hw : LocalPass.s_then s = LocalPass.Waiting).
    { destruct (LocalPass.s_then s); [done|congruence..]. }
    destruct (Local.promise t) as [|v|m] eqn:Epr; [done| |].
    + pose proof Hok0 as (H1 & H2 & H3 & H4 & H5 & H6 & Hpr).
      rewrite Epr in Hpr. destruct Hpr as (-> & Hup & Hprog & Htimer).
      simpl in Hg. unfold LocalPass.loop_test in Hg. simpl in Hg.
      inversion Hg; subst s1. clear Hg. simpl.
      split; [|done]. split; [done|]. split; simpl; [by rewrite Hw|].
      split; [done|]. by exists t.
    + inversion Hg; subst s1. clear Hg. simpl.
      split; [|done]. split; [done|]. split; simpl; [by rewrite Hw|].
      left. split; [done|]. by exists t.
  - (* DelayElapsed *)
    eapply lp_with_single; [|exact HI|exact H]. simpl.
    intros s s1 Hk (Hpos & Hthen & Hpc) Hg. unfold LocalPass.after_delay in Hg.
    by destruct (LocalPass.s_pc s).
  - (* Reaction *)
    destruct HI as [Hplan Hfresh Hok Hex Hb Hpc].
    unfold LocalPass.reaction in H.
    destruct (LocalPass.singles ps !! k) as [s|] eqn:Hk; [|done]. simpl in H.
    pose proof (Forall_lookup_1 _ _ _ _ Hok Hk) as (Hpos & Hthen & Hspc).
    destruct (LocalPass.s_then s) eqn:Hw; try done.
    assert (Hmk : map LocalPass.s_then (LocalPass.singles ps) !! k
                  = Some LocalPass.Waiting).
    { change (map ?g ?l) with (g <$> l). rewrite list_lookup_fmap, Hk. simpl.
      by rewrite Hw. }
    destruct (LocalPass.s_pc s) as [|until| |m] eqn:Epc; try done.
    + (* the callback of [then] *)
      inversion H; subst ps'. clear H.
      destruct (open_from_fulfil _ 0%nat k _ Hmk ltac:(done))
        as (j & Hj & Heq). simpl in Hj.
      assert (Hsp : LocalPass.splice (LocalPass.executing ps)
                      (LocalPass.indexOf (LocalPass.executing ps) k)
                    = open_from 0
                        (map LocalPass.s_then
                           (<[k := LocalPass.set_s_then LocalPass.Fulfilled s]>
                              (LocalPass.singles ps)))).
      { rewrite Hex, Hj. simpl. rewrite <- Heq.
        change (map ?g ?l) with (g <$> l). by rewrite list_fmap_insert. }
      assert (Hsub : sublist (LocalPass.splice (LocalPass.executing ps)
                                (LocalPass.indexOf (LocalPass.executing ps) k))
                       (LocalPass.executing ps)).
      { rewrite Hex, Hj. simpl. apply sublist_delete. }
      split; simpl.
      * by rewrite (map_insert_same _ _ k s).
      * done.
      * apply Forall_insert; [done|]. split; [done|]. split; simpl; [done|].
        by rewrite Epc.
      * done.
      * apply sublist_length in Hsub. lia.
      * destruct (LocalPass.pc ps) as [snap|snap| |m]; try done.
        -- destruct Hpc as [Hs Hl]. split; [|done]. by etrans.
        -- intros k' s' Hk' Hs'. destruct (decide (k' = k)) as [->|Hne].
           ++ rewrite list_lookup_insert_eq in Hk' by (by eapply lookup_lt_Some).
              by inversion Hk'; subst s'.
           ++ rewrite list_lookup_insert_ne in Hk' by done. by eapply Hpc.
        -- by apply Forall_insert.
        -- destruct Hpc as (k' & s' & Hk' & Hs').
           exists k', s'. rewrite list_lookup_insert_ne; [done|].
           intros ->. congruence.
    + (* the rejection is passed on *)
      inversion H; subst ps'. clear H.
      split; simpl.
      * by rewrite (map_insert_same _ _ k s).
      * done.
      * apply Forall_insert; [done|]. split; [done|]. split; simpl; [done|].
        by rewrite Epc.
      * rewrite Hex. apply open_from_same.
        change (map ?g ?l) with (g <$> l). rewrite list_fmap_insert. simpl.
        apply Forall2_same_length_lookup. split; [by rewrite length_insert|].
        intros i a b Ha Hb'. destruct (decide (i = k)) as [->|Hne].
        -- rewrite list_lookup_insert_eq in Hb'
             by (rewrite length_fmap; by eapply lookup_lt_Some).
           change (LocalPass.s_then <$> LocalPass.singles ps)
             with (map LocalPass.s_then (LocalPass.singles ps)) in Ha.
           rewrite Hmk in Ha. inversion Ha; inversion Hb'; subst. done.
        -- rewrite list_lookup_insert_ne in Hb' by done.
           rewrite Ha in Hb'. by inversion Hb'.
      * done.
      * destruct (LocalPass.pc ps) as [snap|snap| |m']; try done.
        -- intros k' s' Hk' Hs'. destruct (decide (k' = k)) as [->|Hne].
           ++ eapply Hpc; [done|]. by rewrite Hw.
           ++ rewrite list_lookup_insert_ne in Hk' by done. by eapply Hpc.
        -- exfalso. pose proof (Forall_lookup_1 _ _ _ _ Hpc Hk). congruence.
        -- destruct Hpc as (k' & s' & Hk' & Hs').
           exists k', s'. rewrite list_lookup_insert_ne; [done|].
           intros ->. congruence.
  - (* RaceSettled *)
    unfold LocalPass.race_settled in H.
    destruct (LocalPass.pc ps) as [snap|snap| |m] eqn:Epc; try done.
    destruct (bool_decide (k ∈ snap)) eqn:Hin; [|done].
    apply bool_decide_eq_true in Hin.
    destruct (LocalPass.singles ps !! k) as [s|] eqn:Hk; [|done]. simpl in H.
    destruct (LocalPass.s_then s) as [| |m] eqn:Hs; [done| |].
    + inversion H; subst ps'. clear H.
      pose proof (lp_room ps snap k s HI Epc Hin Hk Hs) as Hroom.
      destruct HI as [Hplan Hfresh Hok Hex Hb Hpc]. by apply lp_pass_loop.
    + inversion H; subst ps'. clear H.
      destruct HI as [Hplan Hfresh Hok Hex Hb Hpc]. split; simpl; try done.
      by exists k, s.
  - (* AllFulfilled *)
    unfold LocalPass.all_fulfilled in H.
    destruct (LocalPass.pc ps) as [snap|snap| |m] eqn:Epc; try done.
    destruct (forallb (LocalPass.is_fulfilled ps) snap) eqn:Hall; [|done].
    inversion H; subst ps'. clear H.
    destruct HI as [Hplan Hfresh Hok Hex Hb Hpc]. rewrite Epc in Hpc.
    split; simpl; try done.
    apply Forall_lookup. intros k s Hk.
    assert (Hne : LocalPass.s_then s <> LocalPass.Fulfilled ->
                  LocalPass.s_then s = LocalPass.Fulfilled).
    { intros Hne. specialize (Hpc k s Hk Hne). rewrite forallb_forall in Hall.
      apply list_elem_of_In, Hall in Hpc. unfold LocalPass.is_fulfilled in Hpc.
      rewrite Hk in Hpc. by destruct (LocalPass.s_then s). }
    destruct (LocalPass.s_then s); [|done|]; by apply Hne.
  - (* AllRejected *)
    unfold LocalPass.all_rejected in H.
    destruct (LocalPass.pc ps) as [snap|snap| |m] eqn:Epc; try done.
    destruct (bool_decide (k ∈ snap)) eqn:Hin; [|done].
    destruct (LocalPass.singles ps !! k) as [s|] eqn:Hk; [|done]. simpl in H.
    destruct (LocalPass.s_then s) as [| |m] eqn:Hs; try done.
    inversion H; subst ps'. clear H.
    destruct HI as [Hplan Hfresh Hok Hex Hb Hpc]. split; simpl; try done.
    by exists k, s.
Qed.

End LocalPass.

Lemma inFlight_le_open (retryTimes : Z) (l : list LocalPass.Single) (i : nat) :
  Forall (single_ok retryTimes) l ->
  (length (List.filter
             (fun s => match LocalPass.s_request s with
                       | Some t => Local.in_flight t
                       | None => false
                       end) l)
   <= length (open_from i (map LocalPass.s_then l)))%nat.
Proof.
  revert i. induction l as [|s l IH]; intros i Hok; simpl; [done|].
  apply Forall_cons in Hok as [(_ & Hthen & Hpc) Hok]. specialize (IH (S i) Hok).
  destruct (match LocalPass.s_request s with
            | Some t => Local.in_flight t
            | None => false
            end) eqn:Hfl.
  2: { destruct (LocalPass.s_then s); simpl; lia. }
  destruct (LocalPass.s_request s) as [t|] eqn:Hreq; [|done].
  unfold Local.in_flight in Hfl.
  destruct (Local.promise t) eqn:Hpr; try done.
  destruct (LocalPass.s_then s) eqn:Hs; simpl; try lia.
  rewrite Hthen in Hpc. destruct Hpc as (_ & t0 & Ht0 & _ & Hp0).
  congruence.
Qed.

Section LocalPassRuns.
Context (retryTimes concurrent : Z).

Lemma lp_start (paused : bool) (now : Z)
    (pendingChunks : list Local.ChunkInfo) :
  Forall (fun c => Local.uploaded c = false) pendingChunks ->
  LocalPassInv retryTimes concurrent pendingChunks
    (LocalPass.uploadChunksConcurrently retryTimes concurrent paused now
       pendingChunks).
Proof.
  intros Hfresh. unfold LocalPass.uploadChunksConcurrently.
  apply lp_pass_loop; simpl; try done. lia.
Qed.

Lemma lp_run (pendingChunks : list Local.ChunkInfo)
    (evs : list LocalPass.Event) : forall ps ps',
  LocalPassInv retryTimes concurrent pendingChunks ps ->
  LocalPass.run retryTimes concurrent ps evs = Some ps' ->
  LocalPassInv retryTimes concurrent pendingChunks ps'.
Proof.
  induction evs as [|ev evs IH]; intros ps ps' HI H; simpl in H.
  - by inversion H; subst.
  - destruct (LocalPass.step retryTimes concurrent ps ev) as [ps1|] eqn:Hs;
      [|done]. simpl in H.
    eapply IH; [|exact H]. by eapply lp_step.
Qed.

Lemma unpaused_pass_loop (chunks : list Local.ChunkInfo) : forall ps,
  LocalPass.isPaused ps = false ->
  unpaused (LocalPass.pass_loop retryTimes concurrent chunks ps).
Proof.
  induction chunks as [|c rest IH]; intros ps Hp; simpl.
  - done.
  - rewrite Hp.
    destruct (concurrent <=? _); [done|]. by apply IH.
Qed.

Lemma unpaused_step (ps ps' : LocalPass.Pass) (ev : LocalPass.Event) :
  unpaused ps -> pauses ev = false ->
  LocalPass.step retryTimes concurrent ps ev = Some ps' -> unpaused ps'.
Proof.
  intros [Hp Hpc] Hev H. destruct ev; simpl in H.
  - destruct (0 <=? dt); [|done]. by inversion H; subst ps'.
  - destruct b; [done|]. by inversion H; subst ps'.
  - unfold LocalPass.with_single in H.
    destruct (LocalPass.singles ps !! k); [|done]. simpl in H.
    destruct (LocalPass.s_request s); [|done]. simpl in H.
    destruct (Local.on_event _ _ _); [|done]. simpl in H.
    by inversion H; subst ps'.
  - unfold LocalPass.with_single in H.
    destruct (LocalPass.singles ps !! k); [|done]. simpl in H.
    destruct (LocalPass.after_upload _ _ _ _); [|done]. simpl in H.
    by inversion H; subst ps'.
  - unfold LocalPass.with_single in H.
    destruct (LocalPass.singles ps !! k); [|done]. simpl in H.
    destruct (LocalPass.after_delay _ _ _ _); [|done]. simpl in H.
    by inversion H; subst ps'.
  - unfold LocalPass.reaction in H.
    destruct (LocalPass.singles ps !! k); [|done]. simpl in H.
    destruct (LocalPass.s_then s); try done.
    destruct (LocalPass.s_pc s); try done; by inversion H; subst ps'.
  - unfold LocalPass.race_settled in H.
    destruct (LocalPass.pc ps); try done.
    destruct (bool_decide _); [|done].
    destruct (LocalPass.singles ps !! k); [|done]. simpl in H.
    destruct (LocalPass.s_then s); try done; inversion H; subst ps'.
    + by apply unpaused_pass_loop.
    + done.
  - unfold LocalPass.all_fulfilled in H.
    destruct (LocalPass.pc ps); try done.
    destruct (forallb _ _); [|done]. by inversion H; subst ps'.
  - unfold LocalPass.all_rejected in H.
    destruct (LocalPass.pc ps); try done.
    destruct (bool_decide _); [|done].
    destruct (LocalPass.singles ps !! k); [|done]. simpl in H.
    destruct (LocalPass.s_then s); try done. by inversion H; subst ps'.
Qed.

Lemma unpaused_run (evs : list LocalPass.Event) : forall ps ps',
  unpaused ps -> forallb (fun ev => negb (pauses ev)) evs = true ->
  LocalPass.run retryTimes concurrent ps evs = Some ps' -> unpaused ps'.
Proof.
  induction evs as [|ev evs IH]; intros ps ps' HU Hevs H; simpl in H.
  - by inversion H; subst.
  - simpl in Hevs. apply andb_prop in Hevs as [Hev Hevs].
    apply negb_true_iff in Hev.
    destruct (LocalPass.step retryTimes concurrent ps ev) as [ps1|] eqn:Hs;
      [|done]. simpl in H.
    eapply IH; [|done|exact H]. by eapply unpaused_step.
Qed.

Lemma held_single (ps : LocalPass.Pass) (k : nat) (s s1 : LocalPass.Single) :
  LocalPass.isPaused ps = true -> LocalPass.singles ps !! k = Some s ->
  LocalPass.s_attempts s1 = LocalPass.s_attempts s ->
  held ps (LocalPass.set_singles (<[k := s1]> (LocalPass.singles ps)) ps).
Proof.
  intros Hp Hk Ha. split; [done|]. split; [|done]. simpl.
  by apply (map_insert_same _ _ k s).
Qed.

Lemma loop_test_paused (now : Z) (s : LocalPass.Single) :
  LocalPass.s_attempts (LocalPass.loop_test retryTimes true now s)
  = LocalPass.s_attempts s.
Proof.
  unfold LocalPass.loop_test. rewrite andb_false_r.
  by destruct (negb (LocalPass.s_success s)).
Qed.

Lemma held_step (ps ps' : LocalPass.Pass) (ev : LocalPass.Event) :
  LocalPass.isPaused ps = true -> unpauses ev = false ->
  LocalPass.step retryTimes concurrent ps ev = Some ps' -> held ps ps'.
Proof.
  intros Hp Hev H. destruct ev; simpl in H.
  - destruct (0 <=? dt); [|done]. by inversion H; subst ps'.
  - destruct b; [|done]. by inversion H; subst ps'.
  - unfold LocalPass.with_single in H.
    destruct (LocalPass.singles ps !! k) as [s|] eqn:Hk; [|done]. simpl in H.
    destruct (LocalPass.s_request s); [|done]. simpl in H.
    destruct (Local.on_event _ _ _); [|done]. simpl in H.
    inversion H; subst ps'. by apply (held_single ps k s).
  - unfold LocalPass.with_single in H.
    destruct (LocalPass.singles ps !! k) as [s|] eqn:Hk; [|done]. simpl in H.
    destruct (LocalPass.after_upload _ _ _ _) as [s1|] eqn:Hs1; [|done].
    simpl in H. inversion H; subst ps'. apply (held_single ps k s); try done.
    unfold LocalPass.after_upload in Hs1. rewrite Hp in Hs1.
    destruct (LocalPass.s_pc s); try done.
    destruct (LocalPass.s_request s) as [t|]; [|done].
    destruct (Local.promise t) as [|v|m]; [done| |].
    + destruct (negb v && _); inversion Hs1; subst s1; [done|].
      by rewrite loop_test_paused.
    + by inversion Hs1; subst s1.
  - unfold LocalPass.with_single in H.
    destruct (LocalPass.singles ps !! k) as [s|] eqn:Hk; [|done]. simpl in H.
    destruct (LocalPass.after_delay _ _ _ _) as [s1|] eqn:Hs1; [|done].
    simpl in H. inversion H; subst ps'. apply (held_single ps k s); try done.
    unfold LocalPass.after_delay in Hs1. rewrite Hp in Hs1.
    destruct (LocalPass.s_pc s); try done.
    destruct (until <=? _); [|done]. inversion Hs1; subst s1.
    by rewrite loop_test_paused.
  - unfold LocalPass.reaction in H.
    destruct (LocalPass.singles ps !! k) as [s|] eqn:Hk; [|done]. simpl in H.
    destruct (LocalPass.s_then s); try done.
    destruct (LocalPass.s_pc s); try done; inversion H; subst ps';
      (split; [done|]; split; [|done]; simpl;
       by apply (map_insert_same _ _ k s)).
  - unfold LocalPass.race_settled in H.
    destruct (LocalPass.pc ps); try done.
    destruct (bool_decide _); [|done].
    destruct (LocalPass.singles ps !! k); [|done]. simpl in H.
    destruct (LocalPass.s_then s); try done; inversion H; subst ps'; [|done].
    destruct (LocalPass.todo ps) as [|c rest] eqn:Htodo; simpl.
    + split; [done|]. split; [done|]. simpl. done.
    + rewrite Hp. split; [done|]. split; [done|]. simpl. done.
  - unfold LocalPass.all_fulfilled in H.
    destruct (LocalPass.pc ps); try done.
    destruct (forallb _ _); [|done]. by inversion H; subst ps'.
  - unfold LocalPass.all_rejected in H.
    destruct (LocalPass.pc ps); try done.
    destruct (bool_decide _); [|done].
    destruct (LocalPass.singles ps !! k); [|done]. simpl in H.
    destruct (LocalPass.s_then s); try done. by inversion H; subst ps'.
Qed.

Lemma held_run (evs : list LocalPass.Event) : forall ps ps',
  LocalPass.isPaused ps = true ->
  forallb (fun ev => negb (unpauses ev)) evs = true ->
  LocalPass.run retryTimes concurrent ps evs = Some ps' -> held ps ps'.
Proof.
  induction evs as [|ev evs IH]; intros ps ps' Hp Hevs H; simpl in H.
  - by inversion H; subst.
  - simpl in Hevs. apply andb_prop in Hevs as [Hev Hevs].
    apply negb_true_iff in Hev.
    destruct (LocalPass.step retryTimes concurrent ps ev) as [ps1|] eqn:Hs;
      [|done]. simpl in H.
    destruct (held_step ps ps1 ev Hp Hev Hs) as (Hp1 & Ha1 & Ht1).
    destruct (IH ps1 ps' Hp1 Hevs H) as (Hp2 & Ha2 & Ht2).
    split; [done|]. split; congruence.
Qed.

End LocalPassRuns.

(** X17.  One activation of the local hook's [uploadChunksConcurrently],
    started on chunks that are not uploaded, whatever the requests, the
    timers and the user do: it calls [uploadSingleChunk] for the pending
    chunks in order and at most once each; every such call sends exactly
    one request when [retryTimes] is positive and none otherwise, and never
    waits before a retry, so that a failed chunk is not tried again; it
    leaves the plan and [retryCount] of the chunk as they were; when it
    returns the chunk is marked uploaded at progress 100, and when it
    throws, it throws the error of its request, which left the chunk
    pending (or, with no request, the message that counts the retries);
    never more than [max 1 concurrent] requests are on the wire; and the
    [then] callback always finds its promise in [executing]. *)
Theorem local_pass_sends_each_chunk_once (retryTimes concurrent : Z)
    (paused : bool) (now : Z) (pendingChunks : list Local.ChunkInfo)
    (evs : list LocalPass.Event) (ps : LocalPass.Pass) :
  Forall (fun c => Local.uploaded c = false) pendingChunks ->
  LocalPass.run retryTimes concurrent
    (LocalPass.uploadChunksConcurrently retryTimes concurrent paused now
       pendingChunks) evs = Some ps ->
  pendingChunks
  = map LocalPass.s_chunk (LocalPass.singles ps) ++ LocalPass.todo ps
  /\ Z.of_nat (LocalPass.inFlight ps) <= Z.max 1 concurrent
  /\ Forall (fun s =>
       (forall until, LocalPass.s_pc s <> LocalPass.AwaitDelay until)
       /\ LocalPass.s_attempts s = (if 0 <? retryTimes then 1 else 0)
       /\ (LocalPass.s_request s = None <-> retryTimes <= 0)
       /\ local_plan (LocalPass.chunk_now s) = local_plan (LocalPass.s_chunk s)
       /\ Local.retryCount (LocalPass.chunk_now s)
          = Local.retryCount (LocalPass.s_chunk s)
       /\ (LocalPass.s_pc s = LocalPass.Returned ->
           Local.uploaded (LocalPass.chunk_now s) = true
           /\ Local.progress (LocalPass.chunk_now s) = 100)
       /\ (forall m, LocalPass.s_pc s = LocalPass.Thrown m ->
           if 0 <? retryTimes
           then exists t, LocalPass.s_request s = Some t
                          /\ Local.promise t = Local.Rejected m
                          /\ Local.uploaded (Local.t_chunk t) = false
           else m = LocalPass.retriedMessage retryTimes (LocalPass.s_chunk s)))
     (LocalPass.singles ps)
  /\ (forall k s, LocalPass.singles ps !! k = Some s ->
        LocalPass.s_then s = LocalPass.Waiting ->
        LocalPass.indexOf (LocalPass.executing ps) k <> None).
Proof.
  intros Hfresh Hrun.
  pose proof (lp_run retryTimes concurrent pendingChunks evs _ ps
                (lp_start retryTimes concurrent paused now pendingChunks Hfresh)
                Hrun) as [Hplan _ Hok Hex Hb _].
  split; [done|]. split.
  { unfold LocalPass.inFlight.
    pose proof (inFlight_le_open retryTimes (LocalPass.singles ps) 0 Hok) as H.
    rewrite <- Hex in H. lia. }
  split.
  2: { intros k s Hk Hs.
       destruct (open_from_fulfil (map LocalPass.s_then (LocalPass.singles ps))
                   0%nat k LocalPass.Waiting) as (j & Hj & _); [|done|].
       - change (map ?g ?l) with (g <$> l). rewrite list_lookup_fmap, Hk.
         simpl. by rewrite Hs.
       - simpl in Hj. rewrite Hex, Hj. done. }
  eapply Forall_impl; [exact Hok|]. intros s (Hpos & Hthen & Hpc).
  unfold LocalPass.chunk_now.
  destruct (LocalPass.s_pc s) as [|until| |m] eqn:Epc; try done.
  - destruct Hpc as (Ha & _ & t & Ht & Hok0). rewrite Ht in *.
    assert (Hr : 0 < retryTimes) by (by apply Hpos).
    destruct (Z.ltb_spec 0 retryTimes); [|lia].
    destruct Hok0 as (H1 & _ & _ & H4 & _).
    split; [done|]. split; [done|]. split; [split; [done|lia]|].
    by repeat split.
  - destruct Hpc as (Ha & t & Ht & Hok0 & Hpr). rewrite Ht in *.
    assert (Hr : 0 < retryTimes) by (by apply Hpos).
    destruct (Z.ltb_spec 0 retryTimes); [|lia].
    destruct Hok0 as (H1 & _ & _ & H4 & _ & _ & Hp). rewrite Hpr in Hp.
    destruct Hp as (_ & Hu & Hprog & _).
    split; [done|]. split; [done|]. split; [split; [done|lia]|].
    by repeat split.
  - destruct Hpc as [(Ha & t & Ht & Hok0 & Hpr)|(Hr & Ha & Hnone & ->)].
    + rewrite Ht in *.
      assert (Hr : 0 < retryTimes) by (by apply Hpos).
      destruct (Z.ltb_spec 0 retryTimes); [|lia].
      destruct Hok0 as (H1 & _ & _ & H4 & _ & _ & Hp). rewrite Hpr in Hp.
      destruct Hp as (Hu & _).
      split; [done|]. split; [done|]. split; [split; [done|lia]|].
      do 3 (split; [done|]). intros m' Hm'. inversion Hm'; subst m'.
      by exists t.
    + rewrite Hnone. destruct (Z.ltb_spec 0 retryTimes); [lia|].
      do 6 (split; [done|]). intros m' Hm'. by inversion Hm'.
Qed.

Lemma local_pass_sends_each_chunk_once_witness :
  exists ps,
    LocalPass.run 3 3
      (LocalPass.uploadChunksConcurrently 3 3 false 1000 five_chunks)
      second_request_fails = Some ps
    /\ LocalPass.pc ps = LocalPass.PassThrown "网络错误"
    /\ length (LocalPass.singles ps) = 3%nat
    /\ Forall (fun s => LocalPass.s_attempts s = 1) (LocalPass.singles ps).
Proof.
  assert (Hf : Forall (fun c => Local.uploaded c = false) five_chunks).
  { repeat constructor. }
  destruct (LocalPass.run 3 3
              (LocalPass.uploadChunksConcurrently 3 3 false 1000 five_chunks)
              second_request_fails) as [ps|] eqn:E;
    [|exfalso; revert E; vm_compute; discriminate].
  exists ps. split; [reflexivity|].
  assert (G : option_map (fun ps => (LocalPass.pc ps,
                                     length (LocalPass.singles ps)))
                (LocalPass.run 3 3
                   (LocalPass.uploadChunksConcurrently 3 3 false 1000
                      five_chunks) second_request_fails)
              = Some (LocalPass.PassThrown "网络错误", 3%nat))
    by (vm_compute; reflexivity).
  rewrite E in G. simpl in G. injection G as G1 G2.
  split; [exact G1|]. split; [exact G2|].
  destruct (local_pass_sends_each_chunk_once 3 3 false 1000 five_chunks
              second_request_fails ps Hf E) as (_ & _ & Hall & _).
  eapply Forall_impl; [exact Hall|]. intros s (_ & Ha & _). exact Ha.
Defined.

(** X18.  How one activation of the local hook's
    [uploadChunksConcurrently] ends, and what pausing does to it.  When it
    returns, every chunk it called [uploadSingleChunk] for is uploaded,
    and these are all the pending chunks provided [isPaused] was false
    throughout; when it throws, it throws the error of one of its chunks.
    While [isPaused] is true it calls [uploadChunk] for no further chunk
    and retries nothing; the requests on the wire are left to
    complete. *)
Theorem local_pass_outcome (retryTimes concurrent : Z) (paused : bool)
    (now : Z) (pendingChunks : list Local.ChunkInfo)
    (evs : list LocalPass.Event) (ps : LocalPass.Pass) :
  Forall (fun c => Local.uploaded c = false) pendingChunks ->
  LocalPass.run retryTimes concurrent
    (LocalPass.uploadChunksConcurrently retryTimes concurrent paused now
       pendingChunks) evs = Some ps ->
  (LocalPass.pc ps = LocalPass.PassReturned ->
   Forall (fun s => LocalPass.s_pc s = LocalPass.Returned
                    /\ Local.uploaded (LocalPass.chunk_now s) = true)
     (LocalPass.singles ps)
   /\ (paused = false -> forallb (fun ev => negb (pauses ev)) evs = true ->
       map LocalPass.s_chunk (LocalPass.singles ps) = pendingChunks))
  /\ (forall m, LocalPass.pc ps = LocalPass.PassThrown m ->
        exists k s, LocalPass.singles ps !! k = Some s
                    /\ LocalPass.s_pc s = LocalPass.Thrown m)
  /\ (LocalPass.isPaused ps = true ->
      forall more ps',
        forallb (fun ev => negb (unpauses ev)) more = true ->
        LocalPass.run retryTimes concurrent ps more = Some ps' ->
        LocalPass.isPaused ps' = true
        /\ map LocalPass.s_attempts (LocalPass.singles ps')
           = map LocalPass.s_attempts (LocalPass.singles ps)
        /\ LocalPass.todo ps' = LocalPass.todo ps).
Proof.
  intros Hfresh Hrun.
  pose proof (lp_run retryTimes concurrent pendingChunks evs _ ps
                (lp_start retryTimes concurrent paused now pendingChunks Hfresh)
                Hrun) as [Hplan _ Hok Hex Hb Hpc].
  split; [|split].
  - intros Hret. rewrite Hret in Hpc. split.
    + apply Forall_lookup. intros k s Hk.
      pose proof (Forall_lookup_1 _ _ _ _ Hpc Hk) as Hful.
      pose proof (Forall_lookup_1 _ _ _ _ Hok Hk) as (_ & Hthen & Hspc).
      rewrite Hful in Hthen. rewrite Hthen in Hspc. split; [done|].
      destruct Hspc as (_ & t & Ht & Hok0 & Hpr).
      unfold LocalPass.chunk_now. rewrite Ht.
      destruct Hok0 as (_ & _ & _ & _ & _ & _ & Hp). rewrite Hpr in Hp.
      by destruct Hp as (_ & ? & _).
    + intros -> Hevs.
      assert (HU : unpaused ps).
      { eapply unpaused_run; [|exact Hevs|exact Hrun].
        unfold LocalPass.uploadChunksConcurrently.
        by apply unpaused_pass_loop. }
      destruct HU as [_ HU]. rewrite Hret in HU.
      by rewrite Hplan, HU, app_nil_r.
  - intros m Hm. rewrite Hm in Hpc. destruct Hpc as (k & s & Hk & Hs).
    exists k, s. split; [done|].
    pose proof (Forall_lookup_1 _ _ _ _ Hok Hk) as (_ & Hthen & _).
    by rewrite Hs in Hthen.
  - intros Hp more ps' Hmore Hrun'.
    by apply (held_run retryTimes concurrent more ps ps').
Qed.

Lemma local_pass_outcome_witness :
  exists ps,
    LocalPass.run 3 3
      (LocalPass.uploadChunksConcurrently 3 3 false 1000 five_chunks)
      paused_after_first = Some ps
    /\ LocalPass.pc ps = LocalPass.PassReturned
    /\ LocalPass.todo ps = [planned_chunk 3; planned_chunk 4]
    /\ Forall (fun s => Local.uploaded (LocalPass.chunk_now s) = true)
         (LocalPass.singles ps).
Proof.
  assert (Hf : Forall (fun c => Local.uploaded c = false) five_chunks).
  { repeat constructor. }
  destruct (LocalPass.run 3 3
              (LocalPass.uploadChunksConcurrently 3 3 false 1000 five_chunks)
              paused_after_first) as [ps|] eqn:E;
    [|exfalso; revert E; vm_compute; discriminate].
  exists ps. split; [reflexivity|].
  assert (G : option_map (fun ps => (LocalPass.pc ps, LocalPass.todo ps))
                (LocalPass.run 3 3
                   (LocalPass.uploadChunksConcurrently 3 3 false 1000
                      five_chunks) paused_after_first)
              = Some (LocalPass.PassReturned,
                      [planned_chunk 3; planned_chunk 4]))
    by (vm_compute; reflexivity).
  rewrite E in G. simpl in G. injection G as G1 G2.
  split; [exact G1|]. split; [exact G2|].
  destruct (local_pass_outcome 3 3 false 1000 five_chunks
              paused_after_first ps Hf E) as (Hret & _ & _).
  destruct (Hret G1) as [Hall _].
  eapply Forall_impl; [exact Hall|]. intros s (_ & Hu). exact Hu.
Defined.

(** * One activation of the local hook's startUpload *)

Lemma filter_length_all {A} (p : A -> bool) (l : list A) :
  length (List.filter p l) = length l -> Forall (fun x => p x = true) l.
Proof.
  induction l as [|x l IH]; simpl; [constructor|].
  pose proof (List.filter_length_le p l) as Hle.
  destruct (p x) eqn:Hx; simpl; intros H.
  - constructor; [done|]. apply IH. lia.
  - lia.
Qed.

Lemma remaining_fresh (cs : list Local.ChunkInfo) :
  Forall (fun c => Local.uploaded c = false) (LocalStart.remainingChunks cs).
Proof.
  apply Forall_forall. intros c Hc%list_elem_of_In.
  apply List.filter_In in Hc as [_ Hc]. by apply negb_true_iff in Hc.
Qed.

Lemma weave_uploaded (cs : list Local.ChunkInfo) : forall held,
  length held = length (LocalStart.remainingChunks cs) ->
  Forall (fun c => Local.uploaded c = true) held ->
  Forall (fun c => Local.uploaded c = true) (LocalStart.weave cs held).
Proof.
  induction cs as [|c cs IH]; intros held Hlen Hall; simpl; [constructor|].
  unfold LocalStart.remainingChunks in Hlen. simpl in Hlen.
  destruct (Local.uploaded c) eqn:Hu; simpl in Hlen.
  - constructor; [done|]. by apply IH.
  - destruct held as [|h held]; [done|]. simpl in Hlen.
    apply Forall_cons in Hall as [Hh Hall].
    constructor; [done|]. apply IH; [|done]. unfold LocalStart.remainingChunks.
    lia.
Qed.

Section LocalStart.
Context (chunkSize retryTimes concurrent : Z) (file : File)
  (fileHash : string).

Lemma pass_returned_stable (ps ps' : LocalPass.Pass) (ev : LocalPass.Event) :
  LocalPass.pc ps = LocalPass.PassReturned ->
  LocalPass.step retryTimes concurrent ps ev = Some ps' ->
  LocalPass.pc ps' = LocalPass.PassReturned.
Proof.
  intros Hpc H. destruct ev; simpl in H.
  - destruct (0 <=? dt); [|done]. by inversion H; subst ps'.
  - by inversion H; subst ps'.
  - unfold LocalPass.with_single in H.
    destruct (LocalPass.singles ps !! k); [|done]. simpl in H.
    destruct (LocalPass.s_request s); [|done]. simpl in H.
    destruct (Local.on_event _ _ _); [|done]. simpl in H.
    by inversion H; subst ps'.
  - unfold LocalPass.with_single in H.
    destruct (LocalPass.singles ps !! k); [|done]. simpl in H.
    destruct (LocalPass.after_upload _ _ _ _); [|done]. simpl in H.
    by inversion H; subst ps'.
  - unfold LocalPass.with_single in H.
    destruct (LocalPass.singles ps !! k); [|done]. simpl in H.
    destruct (LocalPass.after_delay _ _ _ _); [|done]. simpl in H.
    by inversion H; subst ps'.
  - unfold LocalPass.reaction in H.
    destruct (LocalPass.singles ps !! k); [|done]. simpl in H.
    destruct (LocalPass.s_then s); try done.
    destruct (LocalPass.s_pc s); try done; by inversion H; subst ps'.
  - unfold LocalPass.race_settled in H. by rewrite Hpc in H.
  - unfold LocalPass.all_fulfilled in H. by rewrite Hpc in H.
  - unfold LocalPass.all_rejected in H. by rewrite Hpc in H.
Qed.

Lemma merge_ready_inner (u : LocalStart.Upload) (ps ps1 : LocalPass.Pass)
    (ev : LocalPass.Event) :
  LocalStart.pass u = Some ps ->
  LocalPass.step retryTimes concurrent ps ev = Some ps1 ->
  merge_ready retryTimes concurrent u ->
  merge_ready retryTimes concurrent (LocalStart.set_pass ps1 u).
Proof.
  unfold merge_ready. intros Hps Hstep. rewrite Hps. simpl.
  intros [Hinv Hpc]. split.
  - by eapply lp_step.
  - by eapply pass_returned_stable.
Qed.

Lemma inner_cases (ev : LocalPass.Event) (u u' : LocalStart.Upload) :
  LocalStart.inner retryTimes concurrent ev u = Some u' ->
  (forall r, LocalStart.pc u <> LocalStart.CheckReturned r)
  /\ match LocalStart.pass u with
     | Some ps =>
         exists ps1, LocalPass.step retryTimes concurrent ps ev = Some ps1
                     /\ u' = LocalStart.set_pass ps1 u
     | None =>
         LocalStart.pass u' = None
         /\ LocalStart.chunks u' = LocalStart.chunks u
         /\ LocalStart.calls u' = LocalStart.calls u
         /\ LocalStart.pc u' = LocalStart.pc u
         /\ LocalStart.isUploading u' = LocalStart.isUploading u
         /\ LocalStart.isCompleted u' = LocalStart.isCompleted u
         /\ LocalStart.isCheckingUpload u' = LocalStart.isCheckingUpload u
         /\ LocalStart.isSecondTransfer u' = LocalStart.isSecondTransfer u
         /\ match ev with
            | LocalPass.Tick _ => LocalStart.isPaused u' = LocalStart.isPaused u
            | LocalPass.SetPaused b => LocalStart.isPaused u' = b
            | _ => False
            end
     end.
Proof.
  unfold LocalStart.inner. intros H. split.
  { intros r E. by rewrite E in H. }
  assert (H' : match LocalStart.pass u with
               | Some ps =>
                   ps1 ← LocalPass.step retryTimes concurrent ps ev;
                   Some (LocalStart.set_pass ps1 u)
               | None =>
                   match ev with
                   | LocalPass.Tick dt =>
                       if 0 <=? dt
                       then Some {| LocalStart.isUploading := LocalStart.isUploading u;
                                    LocalStart.isCompleted := LocalStart.isCompleted u;
                                    LocalStart.isSecondTransfer := LocalStart.isSecondTransfer u;
                                    LocalStart.isCheckingUpload := LocalStart.isCheckingUpload u;
                                    LocalStart.isPaused := LocalStart.isPaused u;
                                    LocalStart.chunks := LocalStart.chunks u;
                                    LocalStart.pass := LocalStart.pass u;
                                    LocalStart.clock := LocalStart.clock u + dt;
                                    LocalStart.calls := LocalStart.calls u;
                                    LocalStart.pc := LocalStart.pc u |}
                       else None
                   | LocalPass.SetPaused b =>
                       Some {| LocalStart.isUploading := LocalStart.isUploading u;
                               LocalStart.isCompleted := LocalStart.isCompleted u;
                               LocalStart.isSecondTransfer := LocalStart.isSecondTransfer u;
                               LocalStart.isCheckingUpload := LocalStart.isCheckingUpload u;
                               LocalStart.isPaused := b;
                               LocalStart.chunks := LocalStart.chunks u;
                               LocalStart.pass := LocalStart.pass u;
                               LocalStart.clock := LocalStart.clock u;
                               LocalStart.calls := LocalStart.calls u;
                               LocalStart.pc := LocalStart.pc u |}
                   | _ => None
                   end
               end = Some u').
  { by destruct (LocalStart.pc u), (LocalStart.pass u). }
  clear H. destruct (LocalStart.pass u) as [ps|] eqn:Hps.
  - destruct (LocalPass.step retryTimes concurrent ps ev) as [ps1|]; [|done].
    simpl in H'. inversion H'; subst u'. by exists ps1.
  - destruct ev; try done.
    + destruct (0 <=? dt); [|done]. by inversion H'; subst u'.
    + by inversion H'; subst u'.
Qed.

Lemma LocalStartInv_step (u u' : LocalStart.Upload) (ev : LocalStart.Event) :
  LocalStartInv retryTimes concurrent u ->
  LocalStart.step chunkSize retryTimes concurrent file fileHash u ev = Some u' ->
  LocalStartInv retryTimes concurrent u'.
Proof.
  intros HI H. unfold LocalStartInv in HI. destruct ev; simpl in H.
  - (* CheckSettled *)
    unfold LocalStart.check_settled in H.
    destruct (LocalStart.pc u) eqn:Epc; try done.
    destruct HI as (Hps & Hc & Hu & Hd & Hch & Hs).
    destruct r as [m|result].
    { inversion H; subst u'. unfold LocalStartInv. simpl. by repeat split. }
    destruct (LocalStart.fileExists result && LocalStart.isComplete result)
      eqn:Einst.
    { inversion H; subst u'. unfold LocalStartInv. simpl. rewrite Einst.
      by repeat split. }
    inversion H; subst u'. unfold LocalStartInv. simpl. rewrite Einst.
    by destruct (0 <? _).
  - (* CheckResumed *)
    unfold LocalStart.check_resumed in H.
    destruct (LocalStart.pc u) as [|r| | | |] eqn:Epc; try done.
    destruct HI as (Hps & Hc & Hu & Hch & Hd & Hs).
    destruct r as [m|result].
    { inversion H; subst u'. unfold LocalStartInv. simpl. simpl in Hd, Hs.
      do 4 (split; [done|]). by left. }
    simpl in Hd, Hs.
    destruct (LocalStart.fileExists result && LocalStart.isComplete result).
    { inversion H; subst u'. unfold LocalStartInv. simpl.
      do 3 (split; [done|]). by left. }
    set (u3 := if Nat.eqb (length (LocalStart.chunks u)) 0 then _ else u) in H.
    assert (H3 : LocalStart.pass u3 = None /\ LocalStart.calls u3 = LocalStart.calls u
                 /\ LocalStart.isUploading u3 = true
                 /\ LocalStart.isCompleted u3 = false
                 /\ LocalStart.isSecondTransfer u3 = false
                 /\ LocalStart.isCheckingUpload u3 = false).
    { subst u3. by destruct (Nat.eqb _ 0). }
    destruct H3 as (P3 & C3 & U3 & D3 & S3 & K3).
    destruct (Nat.eqb_spec (length (LocalStart.uploadedChunksOf (LocalStart.chunks u3)))
                (length (LocalStart.chunks u3))) as [Heq|Hne].
    + inversion H; subst u'. unfold LocalStartInv, merge_ready. simpl.
      rewrite C3, Hc, P3. do 5 (split; [done|]).
      by apply filter_length_all.
    + inversion H; subst u'. unfold LocalStartInv. simpl.
      rewrite C3, Hc. do 5 (split; [done|]). eexists. split; [done|].
      apply lp_start. apply remaining_fresh.
  - (* PassSettled *)
    unfold LocalStart.pass_settled in H.
    destruct (LocalStart.pc u) eqn:Epc; try done.
    destruct HI as (Hc & Hu & Hd & Hch & Hs & ps & Hps & Hinv).
    rewrite Hps in H.
    destruct (LocalPass.pc ps) as [snap|snap| |m] eqn:Eps; try done.
    + inversion H; subst u'. unfold LocalStartInv, merge_ready. simpl.
      rewrite Hc, Hps. do 5 (split; [done|]). done.
    + inversion H; subst u'. unfold LocalStartInv. simpl.
      do 4 (split; [done|]). by left.
  - (* MergeSettled *)
    unfold LocalStart.merge_response in H.
    destruct (LocalStart.pc u) eqn:Epc; try done.
    destruct HI as (Hc & Hu & Hd & Hch & Hs & Hm).
    destruct r as [e|result].
    { inversion H; subst u'. unfold LocalStartInv. simpl.
      do 4 (split; [done|]). by right. }
    destruct (LocalStart.success result).
    + inversion H; subst u'. unfold LocalStartInv. simpl.
      do 3 (split; [done|]). by right.
    + inversion H; subst u'. unfold LocalStartInv. simpl.
      do 4 (split; [done|]). by right.
  - (* an event of the pass *)
    apply inner_cases in H as [Hnc H].
    destruct (LocalStart.pass u) as [ps|] eqn:Hps.
    + destruct H as (ps1 & Hstep & ->).
      pose proof (merge_ready_inner u ps ps1 ev Hps Hstep) as Hm.
      unfold LocalStartInv. simpl.
      destruct (LocalStart.pc u) eqn:Epc; try done.
      * destruct HI as (Hn & _). congruence.
      * destruct HI as (Hn & _). congruence.
      * destruct HI as (Hc & Hu & Hd & Hch & Hs & ps0 & Hps0 & Hinv).
        do 5 (split; [done|]). exists ps1. split; [done|].
        inversion Hps0; subst ps0. by eapply lp_step.
      * destruct HI as (Hc & Hu & Hd & Hch & Hs & Hr).
        do 5 (split; [done|]). by apply Hm.
      * destruct HI as (Hu & Hd & Hch & [Hl|(Hs & Hc & Hr)]).
        -- do 3 (split; [done|]). by left.
        -- do 3 (split; [done|]). right. do 2 (split; [done|]). by apply Hm.
      * destruct HI as (Hu & Hd & Hch & Hs & [Hl|(Hc & Hr)]).
        -- do 4 (split; [done|]). by left.
        -- do 4 (split; [done|]). right. split; [done|]. by apply Hm.
    + destruct H as (E1 & E2 & E3 & E4 & E5 & E6 & E7 & E8 & _).
      unfold LocalStartInv, merge_ready in *.
      rewrite E1, E2, E3, E4, E5, E6, E7, E8. by rewrite ?Hps in *.
Qed.

Lemma LocalStartInv_run (evs : list LocalStart.Event) : forall u u',
  LocalStartInv retryTimes concurrent u ->
  LocalStart.run chunkSize retryTimes concurrent file fileHash u evs = Some u' ->
  LocalStartInv retryTimes concurrent u'.
Proof.
  induction evs as [|ev evs IH]; intros u u' HI H; simpl in H.
  - by inversion H; subst.
  - destruct (LocalStart.step _ _ _ _ _ u ev) as [u1|] eqn:Hs; [|done].
    simpl in H. eapply IH; [|exact H]. by eapply LocalStartInv_step.
Qed.

Lemma never_paused_step (u u' : LocalStart.Upload) (ev : LocalStart.Event) :
  LocalStartInv retryTimes concurrent u ->
  never_paused u -> pausing ev = false ->
  LocalStart.step chunkSize retryTimes concurrent file fileHash u ev = Some u' ->
  never_paused u'.
Proof.
  intros HI HN Hev H. unfold never_paused in *. destruct ev; simpl in H.
  - unfold LocalStart.check_settled in H. unfold LocalStartInv in HI.
    destruct (LocalStart.pc u); try done.
    destruct HI as (Hnone & _). rewrite Hnone in HN.
    destruct r as [m|result]; [inversion H; subst u'; simpl; by rewrite Hnone|].
    destruct (LocalStart.fileExists result && LocalStart.isComplete result);
      [inversion H; subst u'; simpl; by rewrite Hnone|].
    inversion H; subst u'. simpl. destruct (0 <? _); simpl; by rewrite ?Hnone.
  - unfold LocalStart.check_resumed in H. unfold LocalStartInv in HI.
    destruct (LocalStart.pc u) as [|r| | | |]; try done.
    destruct HI as (Hnone & _). rewrite Hnone in HN.
    destruct r as [m|result]; [inversion H; subst u'; simpl; by rewrite Hnone|].
    destruct (LocalStart.fileExists result && LocalStart.isComplete result);
      [inversion H; subst u'; simpl; by rewrite Hnone|].
    set (u3 := if Nat.eqb (length (LocalStart.chunks u)) 0 then _ else u) in H.
    assert (H3 : LocalStart.pass u3 = LocalStart.pass u
                 /\ LocalStart.isPaused u3 = LocalStart.isPaused u).
    { subst u3. by destruct (Nat.eqb _ 0). }
    destruct H3 as (P3 & Q3).
    destruct (Nat.eqb (length (LocalStart.uploadedChunksOf _)) _);
      injection H as <-; simpl.
    + by rewrite P3, Q3, Hnone.
    + unfold LocalPass.uploadChunksConcurrently. apply unpaused_pass_loop.
      simpl. by rewrite Q3.
  - unfold LocalStart.pass_settled in H.
    destruct (LocalStart.pc u); try done.
    destruct (LocalStart.pass u) as [ps|] eqn:Hps; [|done].
    destruct (LocalPass.pc ps); try done; inversion H; subst u'; simpl;
      by rewrite Hps.
  - unfold LocalStart.merge_response in H.
    destruct (LocalStart.pc u); try done.
    destruct r as [e|result]; [by inversion H; subst u'|].
    destruct (LocalStart.success result); by inversion H; subst u'.
  - apply inner_cases in H as [_ H].
    destruct (LocalStart.pass u) as [ps|] eqn:Hps.
    + destruct H as (ps1 & Hstep & ->). simpl. by eapply unpaused_step.
    + destruct H as (E1 & _ & _ & _ & _ & _ & _ & _ & Hp). rewrite E1.
      destruct ev; try done; [congruence|].
      simpl in Hev. destruct b; [done|]. exact Hp.
Qed.

Lemma never_paused_run (evs : list LocalStart.Event) : forall u u',
  LocalStartInv retryTimes concurrent u ->
  never_paused u -> forallb (fun ev => negb (pausing ev)) evs = true ->
  LocalStart.run chunkSize retryTimes concurrent file fileHash u evs = Some u' ->
  never_paused u'.
Proof.
  induction evs as [|ev evs IH]; intros u u' HI HN Hevs H; simpl in H.
  - by inversion H; subst.
  - simpl in Hevs. apply andb_prop in Hevs as [Hev Hevs].
    apply negb_true_iff in Hev.
    destruct (LocalStart.step _ _ _ _ _ u ev) as [u1|] eqn:Hs; [|done].
    simpl in H. eapply IH; [| |done|exact H].
    + by eapply LocalStartInv_step.
    + by eapply never_paused_step.
Qed.

Lemma merge_ready_uploaded (u : LocalStart.Upload) :
  merge_ready retryTimes concurrent u -> never_paused u ->
  Forall (fun c => Local.uploaded c = true) (LocalStart.chunksNow u).
Proof.
  unfold merge_ready, never_paused, LocalStart.chunksNow.
  destruct (LocalStart.pass u) as [ps|]; [|done].
  intros [[Hplan _ Hok _ _ Hpc] Hret] [_ Htodo].
  rewrite Hret in Hpc, Htodo. rewrite Htodo, app_nil_r in Hplan.
  unfold LocalStart.pendingNow. rewrite Htodo, app_nil_r.
  apply weave_uploaded.
  - by rewrite Hplan, !length_map.
  - apply Forall_forall. intros c Hc%list_elem_of_In.
    apply in_map_iff in Hc as (s & <- & Hs%list_elem_of_In).
    pose proof (proj1 (Forall_forall _ _) Hpc s Hs) as Hful.
    pose proof (proj1 (Forall_forall _ _) Hok s Hs) as (_ & Hthen & Hspc).
    rewrite Hful in Hthen. rewrite Hthen in Hspc.
    destruct Hspc as (_ & t & Ht & Hok0 & Hpr).
    unfold LocalPass.chunk_now. rewrite Ht.
    destruct Hok0 as (_ & _ & _ & _ & _ & _ & Hp). rewrite Hpr in Hp.
    by destruct Hp as (_ & ? & _).
Qed.

End LocalStart.

(** X19.  One activation of the local hook's [startUpload], taken alone
    (a file is selected, its fingerprint is set, [chunkSize] is positive),
    whatever the backend, the requests and the user do, in every state
    between two of its synchronous segments, the state between the end of
    [checkUploadStatus] and the continuation of [startUpload] included.  It
    posts the check request and then at most one merge request.  Unless the
    user pauses, the merge request is posted only when every chunk of
    [chunks.value] is marked uploaded.  [isUploading] is true exactly while
    the activation has not ended, and [isCheckingUpload] exactly while
    [checkUploadStatus] awaits its answer.  [isCompleted] is true exactly
    when the activation has returned, or when [checkUploadStatus] has just
    announced an instant transfer and [startUpload] has not resumed yet;
    that state is the only one with [isUploading] and [isCompleted] both
    true.  [isSecondTransfer] implies [isCompleted].  The activation
    returns either by instant transfer, with [isSecondTransfer] and no
    merge request, or after a successful merge, without
    [isSecondTransfer]. *)
Theorem local_upload_merges_after_all_chunks (chunkSize retryTimes
    concurrent : Z) (file : File) (fileHash : string) (now : Z)
    (cs : list Local.ChunkInfo) (evs : list LocalStart.Event)
    (u : LocalStart.Upload) :
  0 < chunkSize -> fileHash <> "" ->
  LocalStart.run chunkSize retryTimes concurrent file fileHash
    (LocalStart.startUpload now cs) evs = Some u ->
  (LocalStart.calls u = [LocalStart.CallCheck]
   \/ LocalStart.calls u = [LocalStart.CallCheck; LocalStart.CallMerge])
  /\ (In LocalStart.CallMerge (LocalStart.calls u) ->
      forallb (fun ev => negb (pausing ev)) evs = true ->
      Forall (fun c => Local.uploaded c = true) (LocalStart.chunksNow u))
  /\ (LocalStart.isUploading u = true <->
      LocalStart.pc u = LocalStart.AwaitCheck
      \/ (exists r, LocalStart.pc u = LocalStart.CheckReturned r)
      \/ LocalStart.pc u = LocalStart.AwaitPass
      \/ LocalStart.pc u = LocalStart.AwaitMerge)
  /\ (LocalStart.isCheckingUpload u = true <->
      LocalStart.pc u = LocalStart.AwaitCheck)
  /\ (LocalStart.isCompleted u = true <->
      (exists r, LocalStart.pc u = LocalStart.Returned r)
      \/ (exists r, LocalStart.pc u = LocalStart.CheckReturned r
                    /\ instantly r = true))
  /\ (LocalStart.isUploading u = true /\ LocalStart.isCompleted u = true <->
      exists r, LocalStart.pc u = LocalStart.CheckReturned r
                /\ instantly r = true)
  /\ (LocalStart.isSecondTransfer u = true -> LocalStart.isCompleted u = true)
  /\ (forall r, LocalStart.pc u = LocalStart.Returned r ->
      if LocalStart.isSecondTransfer u
      then LocalStart.calls u = [LocalStart.CallCheck]
      else LocalStart.calls u = [LocalStart.CallCheck; LocalStart.CallMerge]).
Proof.
  intros _ _ Hrun.
  assert (HI0 : LocalStartInv retryTimes concurrent
                  (LocalStart.startUpload now cs)).
  { unfold LocalStartInv. simpl. by repeat split. }
  assert (HI : LocalStartInv retryTimes concurrent u).
  { eapply LocalStartInv_run; [|exact Hrun]. exact HI0. }
  assert (HN : forallb (fun ev => negb (pausing ev)) evs = true ->
               never_paused u).
  { intros Hevs. eapply never_paused_run; [exact HI0| |exact Hevs|exact Hrun].
    done. }
  assert (HM : In LocalStart.CallMerge (LocalStart.calls u) ->
               merge_ready retryTimes concurrent u).
  { unfold LocalStartInv in HI. intros Hin.
    destruct (LocalStart.pc u).
    - destruct HI as (_ & Hc & _). rewrite Hc in Hin.
      by destruct Hin as [|[]].
    - destruct HI as (_ & Hc & _). rewrite Hc in Hin.
      by destruct Hin as [|[]].
    - destruct HI as (Hc & _). rewrite Hc in Hin. by destruct Hin as [|[]].
    - by destruct HI as (_ & _ & _ & _ & _ & ?).
    - destruct HI as (_ & _ & _ & [[_ Hc]|(_ & _ & ?)]); [|done].
      rewrite Hc in Hin. by destruct Hin as [|[]].
    - destruct HI as (_ & _ & _ & _ & [Hc|(_ & ?)]); [|done].
      rewrite Hc in Hin. by destruct Hin as [|[]]. }
  split; [|split; [|split; [|split; [|split; [|split; [|split]]]]]].
  - unfold LocalStartInv in HI. destruct (LocalStart.pc u).
    + left. by destruct HI as (_ & ? & _).
    + left. by destruct HI as (_ & ? & _).
    + left. by destruct HI as (? & _).
    + right. by destruct HI as (? & _).
    + destruct HI as (_ & _ & _ & [[_ ?]|(_ & ? & _)]); [by left | by right].
    + destruct HI as (_ & _ & _ & _ & [?|(? & _)]); [by left | by right].
  - intros Hin Hevs. apply (merge_ready_uploaded retryTimes concurrent);
      [by apply HM | by apply HN].
  - unfold LocalStartInv in HI. destruct (LocalStart.pc u).
    + destruct HI as (_ & _ & -> & _). split; [by left | done].
    + destruct HI as (_ & _ & -> & _). split; [right; left; by eexists | done].
    + destruct HI as (_ & -> & _). split; [by right; right; left | done].
    + destruct HI as (_ & -> & _). split; [by right; right; right | done].
    + destruct HI as (-> & _). split; [done | by intros [|[[? ?]|[|]]]].
    + destruct HI as (-> & _). split; [done | by intros [|[[? ?]|[|]]]].
  - unfold LocalStartInv in HI. destruct (LocalStart.pc u).
    + by destruct HI as (_ & _ & _ & _ & -> & _).
    + by destruct HI as (_ & _ & _ & -> & _).
    + by destruct HI as (_ & _ & _ & -> & _).
    + by destruct HI as (_ & _ & _ & -> & _).
    + by destruct HI as (_ & _ & -> & _).
    + by destruct HI as (_ & _ & -> & _).
  - unfold LocalStartInv in HI. destruct (LocalStart.pc u) as [|r0| | | |].
    + destruct HI as (_ & _ & _ & -> & _).
      split; [done | by intros [[? ?]|(? & ? & _)]].
    + destruct HI as (_ & _ & _ & _ & -> & _). split.
      * intros Hi. right. by exists r0.
      * intros [[? ?]|(r1 & Hr & Hi)]; [done|]. by inversion Hr; subst r1.
    + destruct HI as (_ & _ & -> & _).
      split; [done | by intros [[? ?]|(? & ? & _)]].
    + destruct HI as (_ & _ & -> & _).
      split; [done | by intros [[? ?]|(? & ? & _)]].
    + destruct HI as (_ & -> & _). split; [left; by eexists | done].
    + destruct HI as (_ & -> & _).
      split; [done | by intros [[? ?]|(? & ? & _)]].
  - unfold LocalStartInv in HI. destruct (LocalStart.pc u) as [|r0| | | |].
    + destruct HI as (_ & _ & _ & -> & _).
      split; [by intros [_ ?] | by intros (? & ? & _)].
    + destruct HI as (_ & _ & -> & _ & -> & _). split.
      * intros [_ Hi]. by exists r0.
      * intros (r1 & Hr & Hi). by inversion Hr; subst r1.
    + destruct HI as (_ & _ & -> & _).
      split; [by intros [_ ?] | by intros (? & ? & _)].
    + destruct HI as (_ & _ & -> & _).
      split; [by intros [_ ?] | by intros (? & ? & _)].
    + destruct HI as (-> & _).
      split; [by intros [? _] | by intros (? & ? & _)].
    + destruct HI as (-> & _).
      split; [by intros [? _] | by intros (? & ? & _)].
  - unfold LocalStartInv in HI. destruct (LocalStart.pc u).
    + by destruct HI as (_ & _ & _ & _ & _ & ->).
    + by destruct HI as (_ & _ & _ & _ & -> & ->).
    + by destruct HI as (_ & _ & _ & _ & -> & _).
    + by destruct HI as (_ & _ & _ & _ & -> & _).
    + by destruct HI as (_ & -> & _).
    + by destruct HI as (_ & _ & _ & -> & _).
  - intros r0 Hr. unfold LocalStartInv in HI. rewrite Hr in HI.
    by destruct HI as (_ & _ & _ & [[-> ?]|(-> & ? & _)]).
Qed.

Lemma local_upload_merges_after_all_chunks_witness :
  (exists u,
     LocalStart.run (5 * MiB) 3 3 file23 "abc"
       (LocalStart.startUpload 1000 []) local_whole_upload = Some u
     /\ LocalStart.pc u = LocalStart.Returned (Some "/files/video.mp4")
     /\ length (LocalStart.chunksNow u) = 5%nat
     /\ Forall (fun c => Local.uploaded c = true) (LocalStart.chunksNow u)
     /\ LocalStart.isCompleted u = true)
  /\ (exists u,
        LocalStart.run (5 * MiB) 3 3 file23 "abc"
          (LocalStart.startUpload 1000 []) local_paused_upload = Some u
        /\ LocalStart.calls u = [LocalStart.CallCheck; LocalStart.CallMerge]
        /\ map Local.uploaded (LocalStart.chunksNow u)
           = [true; true; true; false; false])
  /\ (exists u,
        LocalStart.run (5 * MiB) 3 3 file23 "abc"
          (LocalStart.startUpload 1000 []) local_instant_check = Some u
        /\ LocalStart.isUploading u = true
        /\ LocalStart.isCompleted u = true).
Proof.
  assert (Hc : 0 < 5 * MiB) by reflexivity.
  assert (Hh : "abc" <> "") by discriminate.
  split; [|split].
  - destruct (LocalStart.run (5 * MiB) 3 3 file23 "abc"
                (LocalStart.startUpload 1000 []) local_whole_upload)
      as [u|] eqn:E; [|exfalso; revert E; vm_compute; discriminate].
    exists u. split; [reflexivity|].
    assert (G : option_map (fun u => (LocalStart.pc u,
                                      length (LocalStart.chunksNow u),
                                      LocalStart.calls u))
                  (LocalStart.run (5 * MiB) 3 3 file23 "abc"
                     (LocalStart.startUpload 1000 []) local_whole_upload)
                = Some (LocalStart.Returned (Some "/files/video.mp4"), 5%nat,
                        [LocalStart.CallCheck; LocalStart.CallMerge]))
      by (vm_compute; reflexivity).
    rewrite E in G. simpl in G. injection G as G1 G2 G3.
    destruct (local_upload_merges_after_all_chunks (5 * MiB) 3 3 file23 "abc"
                1000 [] local_whole_upload u Hc Hh E)
      as (_ & Hall & _ & _ & Hdone & _).
    split; [exact G1|]. split; [exact G2|]. split.
    + apply Hall; [|reflexivity]. rewrite G3. right. left. reflexivity.
    + apply Hdone. left. eexists. exact G1.
  - destruct (LocalStart.run (5 * MiB) 3 3 file23 "abc"
                (LocalStart.startUpload 1000 []) local_paused_upload)
      as [u|] eqn:E; [|exfalso; revert E; vm_compute; discriminate].
    exists u. split; [reflexivity|].
    assert (G : option_map (fun u => (LocalStart.calls u,
                                      map Local.uploaded (LocalStart.chunksNow u)))
                  (LocalStart.run (5 * MiB) 3 3 file23 "abc"
                     (LocalStart.startUpload 1000 []) local_paused_upload)
                = Some ([LocalStart.CallCheck; LocalStart.CallMerge],
                        [true; true; true; false; false]))
      by (vm_compute; reflexivity).
    rewrite E in G. simpl in G. injection G as G1 G2.
    split; [exact G1 | exact G2].
  - destruct (LocalStart.run (5 * MiB) 3 3 file23 "abc"
                (LocalStart.startUpload 1000 []) local_instant_check)
      as [u|] eqn:E; [|exfalso; revert E; vm_compute; discriminate].
    exists u. split; [reflexivity|].
    assert (G : option_map LocalStart.pc
                  (LocalStart.run (5 * MiB) 3 3 file23 "abc"
                     (LocalStart.startUpload 1000 []) local_instant_check)
                = Some (LocalStart.CheckReturned
                          (inr {| LocalStart.fileExists := true;
                                  LocalStart.isComplete := true;
                                  LocalStart.url := Some "/files/video.mp4";
                                  LocalStart.uploadedChunks := [] |})))
      by (vm_compute; reflexivity).
    rewrite E in G. simpl in G. injection G as G1.
    destruct (local_upload_merges_after_all_chunks (5 * MiB) 3 3 file23 "abc"
                1000 [] local_instant_check u Hc Hh E)
      as (_ & _ & _ & _ & _ & Hboth & _).
    apply Hboth. eexists. split; [exact G1 | reflexivity].
Defined.

(** * The speed tracker inside the hook *)

#[local] Instance Meter_refl : Reflexive Meter.
Proof. intros e. by split. Qed.

#[local] Instance Meter_trans : Transitive Meter.
Proof. intros e1 e2 e3 [] []. split; congruence. Qed.

Lemma Meter_same (e e' : Engine) : hook e' = hook e -> Meter e e'.
Proof. intros Hh. split; by rewrite Hh. Qed.

Ltac meter_same := by apply Meter_same.

Lemma Meter_upd_hook (g : Hook -> Hook) (e : Engine) :
  (forall h, speedInfo (g h) = speedInfo h
             /\ networkStats (g h) = networkStats h) ->
  Meter e (upd_hook g e).
Proof. intros Hg. destruct (Hg (hook e)) as (? & ?). by split. Qed.

Lemma Meter_upd_chunk (a : nat) (g : S3ChunkInfo -> S3ChunkInfo) (e : Engine) :
  Meter e (upd_chunk a g e).
Proof. unfold upd_chunk. by destruct (heap e !! a). Qed.

Ltac meter_hook := apply Meter_upd_hook; intros ?; by repeat split.
Ltac meter_chunk := apply Meter_upd_chunk.

Lemma Meter_updateTotalProgress (e : Engine) : Meter e (updateTotalProgress e).
Proof.
  unfold updateTotalProgress. destruct (currentFile (hook e)); [|done].
  meter_hook.
Qed.

Lemma Meter_store_chunks (cs : list S3ChunkInfo) (e : Engine) :
  Meter e (store_chunks cs e).
Proof. unfold store_chunks. by split. Qed.

Lemma Meter_abort (ctrl : nat) (e : Engine) : Meter e (abort ctrl e).
Proof. unfold abort. destruct (bool_decide _); [done | meter_same]. Qed.


Lemma Meter_worker_finally (a : nat) (e : Engine) : Meter e (worker_finally a e).
Proof. unfold worker_finally. destruct (heap e !! a); [|done]. meter_hook. Qed.

Lemma Meter_uploadChunk a e e' r :
  uploadChunk a e = Some (e', r) -> Meter e e'.
Proof.
  unfold uploadChunk. intros H.
  destruct (heap e !! a) as [c|]; simpl in H; [|done].
  destruct (uploadSession (hook e)), (or_null (chunkHash c));
    inversion H; subst; try done.
  match goal with
  | |- Meter _ (set_calls _ ?e2) => trans e2; [|meter_same]
  end.
  match goal with
  | |- Meter _ (upd_chunk _ _ ?e1) => trans e1; [meter_same|]
  end.
  meter_chunk.
Qed.

Lemma Meter_worker_exit opts a s e : Meter e (fst (worker_exit opts a s e)).
Proof.
  unfold worker_exit. destruct (_ && _); simpl; apply Meter_worker_finally.
Qed.

Lemma Meter_worker_loop opts a n e e' r :
  worker_loop opts a n e = Some (e', r) -> Meter e e'.
Proof.
  unfold worker_loop. intros H.
  destruct (_ && _).
  - destruct (uploadChunk a e) as [[e1 [ctrl x]]|] eqn:Hu; simpl in H; [|done].
    inversion H; subst. by eapply Meter_uploadChunk.
  - pose proof (Meter_worker_exit opts a false e) as Hx.
    destruct (worker_exit opts a false e) as [e1 pc]. by inversion H; subst.
Qed.

Lemma Meter_uploadSingleChunk opts a e e' w :
  uploadSingleChunk opts a e = Some (e', w) -> Meter e e'.
Proof.
  unfold uploadSingleChunk. intros H.
  destruct (heap e !! a) as [c|]; simpl in H; [|done].
  destruct (isPaused (hook e)); [by simplify_eq|].
  match type of H with
  | context [worker_loop ?o ?a ?n ?e0] =>
      destruct (worker_loop o a n e0) as [[e2 [n2 pc]]|] eqn:Hl
  end; simpl in H; [|done].
  inversion H; subst. apply Meter_worker_loop in Hl.
  etrans; [|exact Hl]. meter_hook.
Qed.

Lemma Meter_worker_resume opts w w' e e' :
  worker_resume opts w e = Some (e', w') -> Meter e e'.
Proof.
  unfold worker_resume. intros H.
  destruct (w_pc w) as [ctrl [t|s|err]| | |]; try done.
  - destruct (_ && _ && _); [by simplify_eq|].
    pose proof (Meter_worker_exit opts (w_chunk w) s e) as Hx.
    destruct (worker_exit opts (w_chunk w) s e) as [e1 pc]. by simplify_eq.
  - destruct (_ && _); inversion H; subst; apply Meter_worker_finally.
Qed.

Lemma Meter_worker_after_delay opts w w' e e' :
  worker_after_delay opts w e = Some (e', w') -> Meter e e'.
Proof.
  unfold worker_after_delay. intros H.
  destruct (w_pc w) as [| until | |]; try done.
  destruct (until <=? clock e); [|done].
  destruct (worker_loop opts (w_chunk w) (w_attempts w) e)
    as [[e1 [n pc]]|] eqn:Hl; simpl in H; [|done].
  inversion H; subst. by eapply Meter_worker_loop.
Qed.

Lemma Meter_pass_loop opts todo : forall e ps e' ps',
  pass_loop opts todo e ps = Some (e', ps') -> Meter e e'.
Proof.
  induction todo as [|a rest IH]; intros e ps e' ps' H; simpl in H.
  - by inversion H.
  - destruct (isPaused (hook e)); [by inversion H|].
    destruct (uploadSingleChunk opts a e) as [[e1 w]|] eqn:Hu; simpl in H;
      [|done].
    apply Meter_uploadSingleChunk in Hu.
    destruct (_ <=? _); [by inversion H; subst|].
    etrans; [exact Hu|]. by eapply IH.
Qed.

Lemma Meter_pause_chunk e a : Meter e (pause_chunk e a).
Proof.
  unfold pause_chunk.
  destruct (heap e !! a) as [ch|]; [|done].
  destruct (abortController ch) as [ctrl|]; [|done].
  destruct (_ && _); [|done].
  etrans; [apply Meter_abort|]. meter_chunk.
Qed.

Lemma Meter_fold (f : Engine -> nat -> Engine) (l : list nat) :
  (forall e a, Meter e (f e a)) -> forall e, Meter e (fold_left f l e).
Proof.
  intros Hf. induction l as [|a l IH]; intros e; simpl; [done|].
  etrans; [apply Hf | apply IH].
Qed.

Lemma Meter_pauseUpload e : Meter e (pauseUpload e).
Proof.
  unfold pauseUpload. etrans; [|apply Meter_fold, Meter_pause_chunk].
  meter_hook.
Qed.

Lemma Meter_resume_chunk e a : Meter e (resume_chunk e a).
Proof.
  unfold resume_chunk.
  destruct (heap e !! a) as [ch|]; [|done].
  destruct (_ && _ && _); [|done]. meter_chunk.
Qed.

Lemma Meter_set_worker p k w e : Meter e (set_worker p k w e).
Proof. unfold set_worker. destruct (passes e !! p); [meter_same | done]. Qed.

Lemma Meter_start_reconcile (opts : S3UploadOptions) (f : File)
    (s : S3UploadSession) (e : Engine) :
  Meter e (start_reconcile opts f s e).
Proof.
  unfold start_reconcile. destruct (_ <=? _); [|meter_same].
  etrans; [apply (Meter_store_chunks [])|]. apply Meter_updateTotalProgress.
Qed.

(** The events below [startUpload] and [resumeUpload]. *)
Lemma Meter_step_inner (opts : S3UploadOptions) (e e' : Engine) (ev : Event) :
  step opts e ev = Some e' ->
  match ev with
  | StartUpload | ResumeUpload | CheckResponse _ _ | InitializeResponse _ _
  | ChunksHashed _ _ | CompleteResponse _ _ | PassSettled _
  | XhrProgress _ _ _ _ => True
  | _ => Meter e e'
  end.
Proof.
  intros H. destruct ev; simpl in H; try done.
  - destruct (0 <=? dt); [|done]. inversion H; subst. meter_same.
  - inversion H; subst. apply Meter_pauseUpload.
  - unfold reconciled in H.
    destruct (jobs e !! j) as [jb|] eqn:Hjb; simpl in H; [|done].
    destruct (j_done jb); [done|].
    destruct ok; inversion H; subst; [|meter_same].
    etrans; [|apply Meter_updateTotalProgress].
    etrans; [|apply Meter_store_chunks]. meter_same.
  - unfold xhr_load in H.
    destruct (get_worker p k e) as [w|] eqn:Hg; simpl in H; [|done].
    destruct (w_pc w) as [ctrl [t|s|err]| | |] eqn:Hpc; try done.
    destruct (_ && _).
    + destruct body as [result|]; [destruct (chunk_success result)|];
        inversion H; subst; (etrans; [|apply Meter_set_worker]); try done.
      etrans; [|apply Meter_updateTotalProgress]. meter_chunk.
    + inversion H; subst. apply Meter_set_worker.
  - unfold xhr_error in H.
    destruct (get_worker p k e) as [w|] eqn:Hg; simpl in H; [|done].
    destruct (w_pc w) as [ctrl [t|s|err]| | |] eqn:Hpc; try done.
    inversion H; subst. apply Meter_set_worker.
  - unfold chunk_timeout in H.
    destruct (get_worker p k e) as [w|] eqn:Hg; simpl in H; [|done].
    destruct (heap e !! w_chunk w) as [ch|]; simpl in H; [|done].
    destruct (w_pc w) as [ctrl [[d|]|s|err]| | |] eqn:Hpc; try done.
    destruct (d <=? clock e); [|done].
    destruct (negb (signal_aborted e ch)); inversion H; subst;
      apply Meter_set_worker.
  - unfold with_worker in H.
    destruct (get_worker p k e) as [w|] eqn:Hg; simpl in H; [|done].
    destruct (worker_resume opts w e) as [[e1 w1]|] eqn:Hfw; simpl in H; [|done].
    inversion H; subst. etrans; [|apply Meter_set_worker].
    by eapply Meter_worker_resume.
  - unfold with_worker in H.
    destruct (get_worker p k e) as [w|] eqn:Hg; simpl in H; [|done].
    destruct (worker_after_delay opts w e) as [[e1 w1]|] eqn:Hfw; simpl in H;
      [|done].
    inversion H; subst. etrans; [|apply Meter_set_worker].
    by eapply Meter_worker_after_delay.
  - unfold with_pass in H.
    destruct (passes e !! p) as [ps|] eqn:Hps; simpl in H; [|done].
    destruct (promise_reaction k e ps) as [ps2|]; simpl in H; [|done].
    inversion H; subst. meter_same.
  - unfold with_pass in H.
    destruct (passes e !! p) as [ps|] eqn:Hps; simpl in H; [|done].
    destruct (race_settled opts k e ps) as [[e1 ps1]|] eqn:Hr; simpl in H;
      [|done].
    inversion H; subst. trans e1; [|meter_same].
    unfold race_settled in Hr.
    destruct (p_pc ps); try done.
    destruct (bool_decide _); [|done].
    destruct (p_workers ps !! k) as [w|]; simpl in Hr; [|done].
    destruct (w_promise w); try done.
    + by eapply Meter_pass_loop.
    + destruct (isPaused (hook e)); by inversion Hr; subst.
  - unfold with_pass in H.
    destruct (passes e !! p) as [ps|] eqn:Hps; simpl in H; [|done].
    destruct (all_settled ps) as [ps2|]; simpl in H; [|done].
    inversion H; subst. meter_same.
Qed.


Lemma Meter_set_caller_pc c pc e : Meter e (set_caller_pc c pc e).
Proof. unfold set_caller_pc. destruct (callers e !! c); [meter_same | done]. Qed.

Lemma Meter_caller_throw c err e : Meter e (caller_throw c err e).
Proof.
  unfold caller_throw. etrans; [|apply Meter_set_caller_pc]. meter_hook.
Qed.

Lemma Meter_completeUpload c e : Meter e (completeUpload c e).
Proof.
  unfold completeUpload. destruct (uploadSession (hook e));
    [|apply Meter_caller_throw].
  destruct (isPaused (hook e)); [apply Meter_caller_throw|].
  etrans; [|apply Meter_set_caller_pc]. meter_same.
Qed.

Lemma Meter_start_pass opts c e e' : start_pass opts c e = Some e' -> Meter e e'.
Proof.
  unfold start_pass, uploadChunksConcurrently. intros H.
  destruct (pass_loop _ _ _ _) as [[e2 ps]|] eqn:Hl; simpl in H; [|done].
  inversion H; subst e'. apply Meter_pass_loop in Hl.
  etrans; [exact Hl|]. etrans; [|apply Meter_set_caller_pc]. meter_same.
Qed.

Lemma Meter_start_transfer opts c e e' :
  start_transfer opts c e = Some e' -> Meter e e'.
Proof.
  unfold start_transfer. intros H.
  destruct (Nat.eqb _ _).
  - inversion H; subst e'. etrans; [apply Meter_updateTotalProgress|].
    apply Meter_completeUpload.
  - etrans; [apply Meter_updateTotalProgress|]. by eapply Meter_start_pass.
Qed.

Lemma Meter_push_caller cl e : Meter e (push_caller cl e).
Proof. unfold push_caller. meter_same. Qed.

(** Only [startUpload] and the [progress] listener write the tracker. *)
Lemma Meter_step (opts : S3UploadOptions) (e e' : Engine) (ev : Event) :
  step opts e ev = Some e' ->
  match ev with
  | StartUpload | XhrProgress _ _ _ _ => True
  | _ => Meter e e'
  end.
Proof.
  intros H. pose proof (Meter_step_inner opts e e' ev H) as HF.
  destruct ev; try done; clear HF; simpl in H.
  - (* ResumeUpload *)
    unfold resumeUpload in H.
    destruct (currentFile (hook e)) as [f|];
      [|inversion H; subst; apply Meter_push_caller].
    destruct (isCompleted (hook e));
      [inversion H; subst; apply Meter_push_caller|].
    apply Meter_start_pass in H. etrans; [|exact H].
    etrans; [|apply Meter_push_caller].
    etrans; [|apply Meter_fold, Meter_resume_chunk]. meter_hook.
  - (* CheckResponse *)
    unfold check_response in H.
    destruct (callers e !! c) as [cl|]; simpl in H; [|done].
    destruct (currentFile (hook e)) as [f|]; simpl in H; [|done].
    destruct (c_pc cl); try done.
    destruct r as [err|result].
    + inversion H; subst. etrans; [|apply Meter_caller_throw]. meter_hook.
    + destruct (fileExists result && isComplete result).
      * inversion H; subst. etrans; [|apply Meter_set_caller_pc]. meter_hook.
      * match type of H with
        | context [upd_hook (set_isCheckingUpload false) ?e1] =>
            assert (HF1 : Meter e (upd_hook (set_isCheckingUpload false) e1))
        end.
        { etrans; [|meter_hook].
          destruct (session result) as [s|]; [|done].
          etrans; [|apply Meter_start_reconcile]. meter_hook. }
        match type of H with
        | match ?o with _ => _ end = _ => destruct o
        end.
        -- apply Meter_start_transfer in H. by etrans.
        -- inversion H; subst. etrans; [exact HF1|].
           etrans; [|apply Meter_set_caller_pc].
           match goal with
           | |- Meter _ (set_calls _ ?e2) => trans e2; [meter_hook | meter_same]
           end.
  - (* InitializeResponse *)
    unfold initialize_response in H.
    destruct (callers e !! c) as [cl|]; simpl in H; [|done].
    destruct (c_pc cl); try done.
    destruct r as [err|res]; [|destruct (init_success res)];
      inversion H; subst; clear H.
    + etrans; [|apply Meter_caller_throw]. meter_hook.
    + etrans; [|apply Meter_set_caller_pc].
      match goal with
      | |- Meter _ (upd_hook _ ?e2) => trans e2; meter_hook
      end.
    + etrans; [|apply Meter_caller_throw]. meter_hook.
  - (* ChunksHashed *)
    unfold chunks_hashed in H.
    destruct (callers e !! c) as [cl|]; simpl in H; [|done].
    destruct (currentFile (hook e)) as [f|]; simpl in H; [|done].
    destruct (c_pc cl); try done.
    destruct ok.
    + apply Meter_start_transfer in H. etrans; [|exact H].
      apply Meter_store_chunks.
    + inversion H; subst. apply Meter_caller_throw.
  - (* CompleteResponse *)
    unfold complete_response in H.
    destruct (callers e !! c) as [cl|]; simpl in H; [|done].
    destruct (c_pc cl); try done.
    destruct r as [err|res]; [|destruct (complete_success res)];
      inversion H; subst; clear H; try apply Meter_caller_throw.
    etrans; [|apply Meter_set_caller_pc]. meter_hook.
  - (* PassSettled *)
    unfold pass_settled in H.
    destruct (callers e !! c) as [cl|]; simpl in H; [|done].
    destruct (c_pc cl); try done.
    destruct (passes e !! p) as [ps|]; simpl in H; [|done].
    destruct (p_pc ps), (c_kind cl); try done;
      try destruct (Nat.eqb _ _); inversion H; subst;
      try apply Meter_caller_throw; try apply Meter_completeUpload.
    etrans; [|apply Meter_set_caller_pc]. meter_hook.
Qed.

Lemma feed_last (calls : list (Z * Z)) (now bytes : Z) :
  forall st : S3SpeedInfo * S3NetworkStats,
    fst (feed (calls ++ [(now, bytes)]) st)
    = updateNetworkStats now bytes (fst (feed calls st)).
Proof.
  induction calls as [|[t b] rest IH]; intros st; simpl.
  - by destruct (updateNetworkStats now bytes st).
  - specialize (IH (updateNetworkStats t b st)).
    destruct (feed (rest ++ [(now, bytes)]) (updateNetworkStats t b st)).
    destruct (feed rest (updateNetworkStats t b st)). done.
Qed.

Lemma Fed_Meter (e e' : Engine) : Fed e -> Meter e e' -> Fed e'.
Proof. intros (calls & tb & H) [H1 H2]. exists calls, tb. by rewrite H1, H2. Qed.

Lemma Fed_step (opts : S3UploadOptions) (e e' : Engine) (ev : Event) :
  Fed e -> step opts e ev = Some e' -> Fed e'.
Proof.
  intros HF H. pose proof (Meter_step opts e e' ev H) as HM.
  destruct ev; try (by eapply Fed_Meter); clear HM; simpl in H.
  - (* StartUpload *)
    inversion H; subst e'. clear H. unfold startUpload.
    destruct (currentFile (hook e)) as [f|];
      [|eapply Fed_Meter; [exact HF | apply Meter_push_caller]].
    destruct (String.eqb _ _);
      [eapply Fed_Meter; [exact HF | apply Meter_push_caller]|].
    by exists [], (size f).
  - (* XhrProgress *)
    unfold xhr_progress in H.
    destruct (get_worker p k e) as [w|]; simpl in H; [|done].
    destruct (heap e !! w_chunk w) as [ch|]; simpl in H; [|done].
    destruct (w_pc w) as [ctrl [t|s|err]| | |]; try done.
    destruct (_ && _); [|done].
    destruct (negb (signal_aborted e ch)); [|by inversion H; subst].
    match type of H with
    | context [updateNetworkStats ?now ?bytes (speedInfo (hook ?e1), _)] =>
        pose proof (Meter_upd_chunk (w_chunk w)
                      (set_progress (Math_round_percent ev_loaded ev_total)) e)
          as [M1 M2];
        destruct HF as (calls & tb & HF);
        assert (G : updateNetworkStats now bytes
                      (speedInfo (hook e1), networkStats (hook e1))
                    = fst (feed (calls ++ [(now, bytes)])
                             (resetSpeedInfo, statsFor tb)))
          by (rewrite feed_last, <- HF; by rewrite M1, M2);
        destruct (updateNetworkStats now bytes
                    (speedInfo (hook e1), networkStats (hook e1)))
          as [si ns]; exists (calls ++ [(now, bytes)]), tb
    end.
    inversion H; subst e'. rewrite <- G.
    match goal with
    | |- context [updateTotalProgress ?e2] =>
        destruct (Meter_updateTotalProgress e2) as [-> ->]
    end.
    reflexivity.
Qed.

Lemma Fed_run (opts : S3UploadOptions) (evs : list Event) : forall e e',
  Fed e -> run opts e evs = Some e' -> Fed e'.
Proof.
  induction evs as [|ev evs IH]; intros e e' HF H; simpl in H.
  - by inversion H; subst.
  - destruct (step opts e ev) as [e1|] eqn:Hs; simpl in H; [|done].
    eapply IH; [|exact H]. by eapply Fed_step.
Qed.

Lemma Fed_boot (f : File) (hash : string) : Fed (boot f hash).
Proof. by exists [], 0. Qed.

Lemma last10_nil (l : list Q) : last10 l = [] -> l = [].
Proof.
  unfold last10. intros H. apply (f_equal length) in H.
  rewrite length_drop in H. simpl in H. destruct l; [done|]. simpl in H. lia.
Qed.

Lemma updateNetworkStats_uploadedBytes (now bytes : Z)
    (st : S3SpeedInfo * S3NetworkStats) :
  uploadedBytes (snd (updateNetworkStats now bytes st))
  = uploadedBytes (snd st).
Proof.
  unfold updateNetworkStats. destruct st as [si ns].
  destruct (startTime ns =? 0); [done|]. by destruct (1000 <=? _).
Qed.

Lemma feed_uploadedBytes (calls : list (Z * Z)) :
  forall st, uploadedBytes (snd (fst (feed calls st))) = uploadedBytes (snd st).
Proof.
  induction calls as [|[t b] rest IH]; intros st; simpl; [done|].
  specialize (IH (updateNetworkStats t b st)).
  destruct (feed rest (updateNetworkStats t b st)). simpl in *.
  by rewrite IH, updateNetworkStats_uploadedBytes.
Qed.

(** X22.  The speed tracker inside the hook, in every state reached from a
    freshly selected file: [speedInfo] and [networkStats] are what some
    calls of [updateNetworkStats] have made of the state [startUpload]
    resets them to, and only [startUpload] and the [progress] listener of a
    request write them.  So [speedHistory] never holds more than ten
    samples, none of them above [peak], which is never negative; while the
    history is empty [average] and [peak] are 0, and once it is not,
    [average] is the byte count of the last sample over the seconds between
    the first call and that sample, at least one; [uploadedBytes] is never
    written. *)
Theorem hook_tracker_invariants (opts : S3UploadOptions) (f : File)
    (hash : string) (evs : list Event) (e : Engine) :
  run opts (boot f hash) evs = Some e ->
  let si := speedInfo (hook e) in
  let ns := networkStats (hook e) in
  (exists (calls : list (Z * Z)) (tb : Z),
     (si, ns) = fst (feed calls (resetSpeedInfo, statsFor tb)))
  /\ (forall ev e', step opts e ev = Some e' ->
      match ev with
      | StartUpload | XhrProgress _ _ _ _ => True
      | _ => speedInfo (hook e') = si /\ networkStats (hook e') = ns
      end)
  /\ (length (speedHistory ns) <= 10)%nat
  /\ Forall (fun s => (s <= peak si)%Q) (speedHistory ns)
  /\ (0 <= peak si)%Q
  /\ (speedHistory ns = [] -> average si = 0%Q /\ peak si = 0%Q)
  /\ (speedHistory ns <> [] ->
      1000 <= lastMeasureTime ns - startTime ns
      /\ average si
         = (inject_Z (lastMeasureBytes ns)
            / (inject_Z (lastMeasureTime ns - startTime ns) / 1000))%Q)
  /\ uploadedBytes ns = 0.
Proof.
  intros Hrun si ns.
  pose proof (Fed_run opts evs _ _ (Fed_boot f hash) Hrun) as (calls & tb & HF).
  fold si ns in HF.
  split; [by exists calls, tb|].
  split.
  { intros ev e' Hs. pose proof (Meter_step opts e e' ev Hs) as HM.
    by destruct ev. }
  pose proof (feed_any calls resetSpeedInfo (statsFor tb)) as H.
  pose proof (feed_uploadedBytes calls (resetSpeedInfo, statsFor tb)) as Hub.
  destruct (feed calls (resetSpeedInfo, statsFor tb)) as [[si' ns'] samples].
  simpl in HF. inversion HF; subst si' ns'. clear HF.
  destruct H as (H1 & H3 & H4 & H5 & _ & H6 & H7); [done | simpl; lia |].
  cbn [fst snd statsFor resetSpeedInfo average peak speedHistory app] in *.
  split; [rewrite H1; apply last10_length|].
  split.
  { rewrite H1. unfold last10. by apply Forall_drop. }
  split; [exact H4|].
  split.
  { intros Hnil. rewrite H1 in Hnil. apply last10_nil in Hnil.
    split; [by apply H6|].
    destruct H5 as [E|E]; [exact E|]. rewrite Hnil in E. destruct E. }
  split; [|exact Hub].
  intros Hne. assert (Hs : samples <> []).
  { intros ->. by rewrite H1 in Hne. }
  destruct (H7 Hs) as (Ha & Hb). by split.
Qed.

Lemma hook_tracker_invariants_witness :
  exists e,
    run defaultOptions (boot file23 "abc") progress_sampled = Some e
    /\ length (speedHistory (networkStats (hook e))) = 1%nat
    /\ 1000 <= lastMeasureTime (networkStats (hook e))
               - startTime (networkStats (hook e)).
Proof.
  destruct (run defaultOptions (boot file23 "abc") progress_sampled)
    as [e|] eqn:E; [|exfalso; revert E; vm_compute; discriminate].
  exists e. split; [reflexivity|].
  assert (G : option_map (fun e => length (speedHistory (networkStats (hook e))))
                (run defaultOptions (boot file23 "abc") progress_sampled)
              = Some 1%nat) by (vm_compute; reflexivity).
  rewrite E in G. simpl in G. injection G as G1.
  split; [exact G1|].
  destruct (hook_tracker_invariants defaultOptions file23 "abc" progress_sampled
              e E) as (_ & _ & _ & _ & _ & _ & Hs & _).
  apply Hs. intros Hnil. rewrite Hnil in G1. discriminate.
Defined.
